(** * ARG threading core: emissions and the forward / traceback engine

    A shallow embedding of [emit.cpp] (emission engine) and of the
    threading HMM (forward blocks, switch step, stochastic and Viterbi
    traceback, conditional threading driver).

    Numeric model.  A C++ [double] is idealised as a real number ([R]); a
    [double] that the code compares against, or may set to, [-INFINITY] (log
    probabilities) is an [ereal].  An [int] is an unbounded [Z] (signed
    overflow is undefined in the source and plays no role here).  A C array
    reached through a pointer carries no length, so it is a total map from
    [Z] to its element type: cells the code never writes keep whatever the
    map held before, which is how indeterminate memory is represented.
    Pointer arithmetic ([&fw[pos]], [emit--]) is a shift of the map. *)

From Stdlib Require Import Reals Lra Lia ZArith List Bool Ascii.
From Stdlib Require Import FunctionalExtensionality.
Import ListNotations.

Local Open Scope Z_scope.
Local Open Scope R_scope.

(** ** Arrays, pointers and loops *)

Definition arr (A : Type) : Type := Z -> A.

(** [a[i] = v] *)
Definition upd {A : Type} (a : arr A) (i : Z) (v : A) : arr A :=
  fun j => if Z.eqb j i then v else a j.

(** [a[i][k] = v] for an array of rows *)
Definition upd2 {A : Type} (a : arr (arr A)) (i k : Z) (v : A) : arr (arr A) :=
  upd a i (upd (a i) k v).

(** [&a[off]]: the array seen from cell [off] *)
Definition shift {A : Type} (off : Z) (a : arr A) : arr A :=
  fun i => a (off + i)%Z.

(** the whole array, given its contents as seen from cell [off] *)
Definition unshift {A : Type} (off : Z) (v : arr A) : arr A :=
  fun p => v (p - off)%Z.

(** the integers [lo, lo+1, ..., hi-1] *)
Definition range (lo hi : Z) : list Z :=
  map (fun i => (lo + Z.of_nat i)%Z) (seq 0 (Z.to_nat (hi - lo))).

(** [for (i = lo; i < hi; i++) s = body i s] *)
Definition for_up {S : Type} (lo hi : Z) (body : Z -> S -> S) (s : S) : S :=
  fold_left (fun s i => body i s) (range lo hi) s.

(** [for (i = hi-1; i >= lo; i--) s = body i s] *)
Definition for_down {S : Type} (lo hi : Z) (body : Z -> S -> S) (s : S) : S :=
  fold_left (fun s i => body i s) (rev (range lo hi)) s.

(** [sum_{lo <= i < hi} f i], accumulated left to right from [0.0] *)
Definition sumZ (lo hi : Z) (f : Z -> R) : R :=
  for_up lo hi (fun i acc => acc + f i) 0.

(** ** Extended reals: doubles that may hold [-INFINITY] *)

Inductive ereal : Type :=
| NegInf : ereal
| Fin : R -> ereal.

(** [exp(x)], with [exp(-inf) = 0] *)
Definition eexp (x : ereal) : R :=
  match x with
  | NegInf => 0
  | Fin r => exp r
  end.

(** [x > -INFINITY] *)
Definition gt_neginf (x : ereal) : bool :=
  match x with
  | NegInf => false
  | Fin _ => true
  end.

(** [log(x)] of a non-negative double, with [log(0) = -inf] *)
Definition elog (x : R) : ereal :=
  if Rle_dec x 0 then NegInf else Fin (ln x).

(** [x + y] on log values *)
Definition eadd (x y : ereal) : ereal :=
  match x, y with
  | Fin a, Fin b => Fin (a + b)
  | _, _ => NegInf
  end.

(** [x > y] on log values *)
Definition egtb (x y : ereal) : bool :=
  match x, y with
  | NegInf, _ => false
  | Fin _, NegInf => true
  | Fin a, Fin b => if Rlt_dec b a then true else false
  end.

(** ** Data model *)

(** [LocalNode]: parent, the two children ([child[0]], [child[1]]) and the
    age, with [-1] for "none". *)
Record LocalNode : Type := mkNode {
  parent : Z;
  child0 : Z;
  child1 : Z;
  age : Z
}.

Record LocalTree : Type := mkTree {
  nnodes : Z;
  root : Z;
  nodes : arr LocalNode
}.

(** [State]: a coalescence point (branch, time index). *)
Record State : Type := mkState {
  node : Z;
  time : Z
}.

Definition States : Type := list State.

Definition null_state : State := mkState (-1) (-1).

(** [states[k]] *)
Definition st (states : States) (k : Z) : State :=
  if (k <? 0)%Z then null_state else nth (Z.to_nat k) states null_state.

(** [states.size()] *)
Definition size (states : States) : Z := Z.of_nat (length states).

(** The fields of [ArgModel] that the core reads. *)
Record ArgModel : Type := mkModel {
  ntimes : Z;
  times : arr R;
  mu : R;
  mintime : R;
  removed_root_time : Z
}.

(** ** Indeterminate memory and external collaborators *)

(** The contents of storage that the source allocates without initialising
    it ([new double[n]], a local array): an arbitrary value of the type. *)
Class Indet (A : Type) : Type := indet : A.

(** The local-tree, tree-editing and sequence helpers that [emit.cpp]
    calls but does not define ([local_tree.h], [thread.h], [seq.h]). *)
Class TreeOps : Type := {
  is_leaf : LocalNode -> bool;
  get_postorder : LocalTree -> arr Z;
  get_sibling : LocalTree -> Z -> Z;
  get_dist : LocalTree -> Z -> arr R -> R;
  get_num_leaves : LocalTree -> Z;
  add_tree_branch : LocalTree -> Z -> Z -> LocalTree;
  remove_tree_branch : LocalTree -> Z -> LocalTree;
  dna2int : ascii -> Z
}.

(** ** emit.cpp: invariant sites *)

Definition Seqs : Type := arr (arr ascii).

(** the inner loop of [find_invariant_sites] (and the body of
    [is_invariant_site]): no sequence [1 <= j < nseqs] differs from
    sequence 0 at the site; the early exit has no other effect *)
Definition is_invariant_site (seqs : Seqs) (nseqs pos : Z) : bool :=
  let c := seqs 0%Z pos in
  forallb (fun j => Ascii.eqb (seqs j pos) c) (range 1 nseqs).

Definition find_invariant_sites (seqs : Seqs) (nseqs seqlen : Z)
    (invariant : arr bool) : arr bool :=
  for_up 0 seqlen
    (fun i invariant =>
       let c := seqs 0%Z i in
       let mut := existsb (fun j => negb (Ascii.eqb (seqs j i) c))
                          (range 1 nseqs) in
       upd invariant i (negb mut))
    invariant.

(** ** emit.cpp: mutation probabilities *)

(** Jukes-Cantor: probability of (no) mutation over time [t] *)
Definition prob_branch (t mu : R) (mut : bool) : R :=
  let f := 4 / 3 in
  if negb mut then (1/4) * (1 + 3 * exp (- f * mu * t))
  else (1/4) * (1 - exp (- f * mu * t)).

Definition prob_tree_mutation (tree : LocalTree) (model : ArgModel)
    (muts nomuts : arr R) : arr R * arr R :=
  for_up 0 (nnodes tree)
    (fun i '(muts, nomuts) =>
       if (i =? root tree)%Z then (muts, nomuts)
       else
         let parent_age := age (nodes tree (parent (nodes tree i))) in
         if (parent_age =? removed_root_time model)%Z then (muts, nomuts)
         else
           let t := Rmax (times model parent_age
                          - times model (age (nodes tree i)))
                         (mintime model) in
           (upd muts i (prob_branch t (mu model) true),
            upd nomuts i (prob_branch t (mu model) false)))
    (muts, nomuts).

(** ** emit.cpp: partial likelihood tables *)

(** [lk_row]: [double[4]]; [lk_row*]: one row per node *)
Definition lk_row : Type := arr R.
Definition lk_table : Type := arr lk_row.

Definition is_N (c : ascii) : bool :=
  Ascii.eqb c "N"%char || Ascii.eqb c "n"%char.

Definition likelihood_site_node_inner `{TreeOps} (tree : LocalTree)
    (node : Z) (seqs : Seqs) (pos : Z) (muts nomuts : arr R)
    (inner : lk_table) : lk_table :=
  let j := node in
  if is_leaf (nodes tree j) then
    let c := seqs j pos in
    if is_N c then
      upd2 (upd2 (upd2 (upd2 inner j 0 1) j 1 1) j 2 1) j 3 1
    else
      upd2 (upd2 (upd2 (upd2 (upd2 inner j 0 0) j 1 0) j 2 0) j 3 0)
           j (dna2int c) 1
  else
    let c1 := child0 (nodes tree j) in
    let c2 := child1 (nodes tree j) in
    for_up 0 4
      (fun a inner =>
         let '(p1, p2) :=
           for_up 0 4
             (fun b '(p1, p2) =>
                if (a =? b)%Z then
                  (p1 + inner c1 b * nomuts c1, p2 + inner c2 b * nomuts c2)
                else
                  (p1 + inner c1 b * muts c1, p2 + inner c2 b * muts c2))
             (0, 0) in
         upd2 inner j a (p1 * p2))
      inner.

Definition likelihood_site_node_outer `{TreeOps} (tree : LocalTree)
    (root node : Z) (seqs : Seqs) (pos : Z) (muts nomuts : arr R)
    (outer inner : lk_table) : lk_table :=
  let j := node in
  if (node =? root)%Z then
    upd2 (upd2 (upd2 (upd2 outer j 0 1) j 1 1) j 2 1) j 3 1
  else
    let sib := get_sibling tree j in
    let parent := parent (nodes tree j) in
    if negb (parent =? root)%Z then
      for_up 0 4
        (fun a outer =>
           let '(p1, p2) :=
             for_up 0 4
               (fun b '(p1, p2) =>
                  if (a =? b)%Z then
                    (p1 + inner sib b * nomuts sib,
                     p2 + outer parent b * nomuts parent)
                  else
                    (p1 + inner sib b * muts sib,
                     p2 + outer parent b * muts parent))
               (0, 0) in
           upd2 outer j a (p1 * p2))
        outer
    else
      for_up 0 4
        (fun a outer =>
           let p1 :=
             for_up 0 4
               (fun b p1 =>
                  if (a =? b)%Z then p1 + inner sib b * nomuts sib
                  else p1 + inner sib b * muts sib)
               0 in
           upd2 outer j a p1)
        outer.

(** returns the site likelihood and the updated table *)
Definition likelihood_site_inner `{TreeOps} (tree : LocalTree) (seqs : Seqs)
    (pos : Z) (order : arr Z) (norder : Z) (muts nomuts : arr R)
    (inner : lk_table) : R * lk_table :=
  let inner :=
    for_up 0 norder
      (fun i inner =>
         likelihood_site_node_inner tree (order i) seqs pos muts nomuts inner)
      inner in
  let p := for_up 0 4 (fun a p => p + inner (root tree) a * (1/4)) 0 in
  (p, inner).

(** The explicit stack of the preorder walks ([int queue[nnodes]] with
    [top]) is a list whose head is the top.  A tree has at most [nnodes]
    nodes to pop; [None] when the walk pops more than [fuel] nodes. *)
Fixpoint preorder_walk `{TreeOps} {S : Type} (fuel : nat) (tree : LocalTree)
    (visit : Z -> S -> S) (queue : list Z) (s : S) : option S :=
  match queue with
  | [] => Some s
  | node :: rest =>
      match fuel with
      | O => None
      | Datatypes.S fuel =>
          let s := visit node s in
          if negb (is_leaf (nodes tree node)) then
            preorder_walk fuel tree visit
              (child1 (nodes tree node) :: child0 (nodes tree node) :: rest) s
          else preorder_walk fuel tree visit rest s
      end
  end.

Definition likelihood_site_outer `{TreeOps} (tree : LocalTree) (seqs : Seqs)
    (pos : Z) (muts nomuts : arr R) (inner outer : lk_table)
    : option lk_table :=
  let maintree_root := child1 (nodes tree (root tree)) in
  preorder_walk (Z.to_nat (nnodes tree)) tree
    (fun node outer =>
       likelihood_site_node_outer tree maintree_root node seqs pos
                                  muts nomuts outer inner)
    [maintree_root] outer.

(** returns the inner and outer tables of all sites *)
Definition calc_inner_outer `{TreeOps} `{Indet (arr R)} (tree : LocalTree)
    (model : ArgModel) (seqs : Seqs) (seqlen : Z) (invariant : arr bool)
    (inner outer : arr lk_table) : option (arr lk_table * arr lk_table) :=
  let norder := nnodes tree in
  let order := get_postorder tree in
  let '(muts, nomuts) := prob_tree_mutation tree model indet indet in
  for_up 0 seqlen
    (fun i acc =>
       match acc with
       | None => None
       | Some (inner, outer) =>
           if negb (invariant i) then
             let '(_, inner_i) :=
               likelihood_site_inner tree seqs i order norder
                                     muts nomuts (inner i) in
             match likelihood_site_outer tree seqs i muts nomuts
                                         inner_i (outer i) with
             | None => None
             | Some outer_i => Some (upd inner i inner_i, upd outer i outer_i)
             end
           else Some (inner, outer)
       end)
    (Some (inner, outer)).

(** ** emit.cpp: site likelihoods of one state *)

(** [for (j = from; continue; j = nodes[j].parent) s = body j s].  A path
    to the root has at most [nnodes] nodes; [None] when the walk takes
    more than [fuel] steps. *)
Fixpoint walk_up {S : Type} (fuel : nat) (tree : LocalTree)
    (continue : Z -> S -> bool) (body : Z -> S -> S) (j : Z) (s : S)
    : option S :=
  if continue j s then
    match fuel with
    | O => None
    | Datatypes.S fuel =>
        walk_up fuel tree continue body (parent (nodes tree j)) (body j s)
    end
  else Some s.

(** the partial postorder of [likelihood_sites]: the dirty entries, then
    the walk up both root paths *)
Definition partial_postorder `{Indet (arr Z)} `{Indet (arr bool)}
    (tree : LocalTree) (prev_node new_node : Z) : option (arr Z * Z) :=
  let fuel := Z.to_nat (nnodes tree) in
  let dirty := for_up 0 (nnodes tree) (fun j dirty => upd dirty j false)
                      indet in
  match walk_up fuel tree (fun j _ => negb (j =? -1)%Z)
                (fun j dirty => upd dirty j true) prev_node dirty with
  | None => None
  | Some dirty =>
      match walk_up fuel tree (fun j _ => negb (dirty j))
                    (fun j '(order, norder) =>
                       (upd order norder j, (norder + 1)%Z))
                    new_node (indet, 0%Z) with
      | None => None
      | Some on =>
          walk_up fuel tree (fun j _ => negb (j =? -1)%Z)
                  (fun j '(order, norder) =>
                     (upd order norder j, (norder + 1)%Z))
                  prev_node on
      end
  end.

(** the mutation probabilities and the tree length of [likelihood_sites] *)
Definition tree_mutation_len `{Indet (arr R)} (tree : LocalTree)
    (model : ArgModel) : arr R * arr R * R :=
  for_up 0 (nnodes tree)
    (fun i '(muts, nomuts, treelen) =>
       if negb (i =? root tree)%Z then
         let t := Rmax (times model (age (nodes tree (parent (nodes tree i))))
                        - times model (age (nodes tree i)))
                       (mintime model) in
         (upd muts i (prob_branch t (mu model) true),
          upd nomuts i (prob_branch t (mu model) false),
          treelen + t)
       else (muts, nomuts, treelen))
    (indet, indet, 0).

(** [invariant] may be a null pointer: an [option].  Returns the emission
    matrix and the likelihood table; [None] only when the partial postorder
    does not close. *)
Definition likelihood_sites `{TreeOps} `{Indet (arr R)} `{Indet (arr Z)}
    `{Indet (arr bool)} (tree : LocalTree) (model : ArgModel) (seqs : Seqs)
    (seqlen statei : Z) (invariant : option (arr bool))
    (emit : arr (arr R)) (table : arr lk_table) (prev_node new_node : Z)
    : option (arr (arr R) * arr lk_table) :=
  let order_norder :=
    if (prev_node =? -1)%Z then Some (get_postorder tree, nnodes tree)
    else partial_postorder tree prev_node new_node in
  match order_norder with
  | None => None
  | Some (order, norder) =>
      let '(muts, nomuts, treelen) := tree_mutation_len tree model in
      let invariant_lk :=
        (1/4) * exp (- mu model * Rmax treelen (mintime model)) in
      Some
        (for_up 0 seqlen
           (fun i '(emit, table) =>
              if match invariant with
                 | Some invariant => invariant i
                 | None => false
                 end
              then (upd2 emit i statei invariant_lk, table)
              else
                let '(p, table_i) :=
                  likelihood_site_inner tree seqs i order norder
                                        muts nomuts (table i) in
                (upd2 emit i statei p, upd table i table_i))
           (emit, table))
  end.

(** ** emit.cpp: emissions for external threading *)

(** loop state of [calc_emissions] *)
Record emis_state : Type := mkEmis {
  es_tree2 : LocalTree;
  es_emit : arr (arr R);
  es_table : arr lk_table;
  es_prev_node : Z;
  es_new_node : Z
}.

Definition calc_emissions `{TreeOps} `{Indet (arr R)} `{Indet (arr Z)}
    `{Indet (arr bool)} `{Indet (arr lk_table)}
    (states : States) (tree : LocalTree) (seqs : Seqs) (nseqs seqlen : Z)
    (model : ArgModel) (emit : arr (arr R)) : option (arr (arr R)) :=
  let nstates := size states in
  let newleaf := get_num_leaves tree in
  let table : arr lk_table := indet in
  let tree2 := tree in
  let invariant := find_invariant_sites seqs nseqs seqlen indet in
  option_map es_emit
    (for_up 0 nstates
       (fun j acc =>
          match acc with
          | None => None
          | Some s =>
              let state := st states j in
              let tree2 := add_tree_branch (es_tree2 s) (node state)
                                           (time state) in
              let new_node := node state in
              let new_node := if negb (new_node =? newleaf)%Z then new_node
                              else (nnodes tree - 1)%Z in
              match likelihood_sites tree2 model seqs seqlen j
                      (Some invariant) (es_emit s) (es_table s) (-1) (-1) with
              | None => None
              | Some (emit, table) =>
                  let tree2 := remove_tree_branch tree2 newleaf in
                  let prev_node := parent (nodes tree2 (node state)) in
                  let prev_node :=
                    if negb (prev_node =? newleaf)%Z then prev_node
                    else (nnodes tree - 1)%Z in
                  Some (mkEmis tree2 emit table prev_node new_node)
              end
          end)
       (Some (mkEmis tree2 emit table (-1) (-1)))).

(** the slow literal variant, kept for testing *)
Definition calc_emissions_slow `{TreeOps} `{Indet (arr R)} `{Indet (arr Z)}
    `{Indet (arr bool)} `{Indet (arr lk_table)}
    (states : States) (tree : LocalTree) (seqs : Seqs) (nseqs seqlen : Z)
    (model : ArgModel) (emit : arr (arr R)) : option (arr (arr R)) :=
  let nstates := size states in
  let newleaf := get_num_leaves tree in
  let table : arr lk_table := indet in
  let tree2 := tree in
  let invariant := find_invariant_sites seqs nseqs seqlen indet in
  option_map (fun '(_, emit, _) => emit)
    (for_up 0 nstates
       (fun j acc =>
          match acc with
          | None => None
          | Some (tree2, emit, table) =>
              let state := st states j in
              let tree2 := add_tree_branch tree2 (node state) (time state) in
              match likelihood_sites tree2 model seqs seqlen j
                      (Some invariant) emit table (-1) (-1) with
              | None => None
              | Some (emit, table) =>
                  Some (remove_tree_branch tree2 newleaf, emit, table)
              end
          end)
       (Some (tree2, emit, table))).

(** Modelled from the spec: [fequal] of [common.h], which is not among the
    sources; the spec gives its meaning as agreement within a relative
    tolerance or an absolute tolerance. *)
Definition fequal (f1 f2 rel eabs : R) : Prop :=
  Rabs (f1 - f2) <= eabs \/ Rabs (f1 - f2) <= rel * Rabs f2.

(** ** emit.cpp: emissions for internal branch resampling *)

(** total floored branch length below [top_node], by the preorder walk of
    [calc_emissions_internal] *)
Definition subtree_len `{TreeOps} (tree : LocalTree) (model : ArgModel)
    (top_node : Z) : option R :=
  preorder_walk (Z.to_nat (nnodes tree)) tree
    (fun node len =>
       if negb (node =? top_node)%Z then
         len + Rmax (get_dist tree node (times model)) (mintime model)
       else len)
    [top_node] 0.

(** the tree length used for the invariant sites of state [state] *)
Definition internal_treelen (tree : LocalTree) (model : ArgModel)
    (maintreelen subtreelen : R) (state : State) : R :=
  let maintree_root := child1 (nodes tree (root tree)) in
  let subtree_root := child0 (nodes tree (root tree)) in
  let node1 := subtree_root in
  let node2 := node state in
  let time1 := times model (age (nodes tree node1)) in
  let coal_time := times model (time state) in
  if (node2 =? maintree_root)%Z then
    maintreelen + subtreelen
    + Rmax (coal_time - time1) (mintime model)
    + Rmax (coal_time - times model (age (nodes tree maintree_root)))
           (mintime model)
  else
    maintreelen + subtreelen + Rmax (coal_time - time1) (mintime model).

(** one entry [emit[i][j]] at a variant site *)
Definition internal_site_lk (tree : LocalTree) (model : ArgModel)
    (state : State) (inn out : lk_table) (emit_ij0 : R) : R :=
  let maintree_root := child1 (nodes tree (root tree)) in
  let subtree_root := child0 (nodes tree (root tree)) in
  let mintime := mintime model in
  let node1 := subtree_root in
  let node2 := node state in
  let parent := parent (nodes tree node2) in
  let time1 := times model (age (nodes tree node1)) in
  let time2 := times model (age (nodes tree node2)) in
  let parent_time :=
    times model (Z.min (age (nodes tree parent)) (ntimes model - 1)) in
  let coal_time := times model (time state) in
  let dist1 := Rmax (coal_time - time1) mintime in
  let dist2 := Rmax (coal_time - time2) mintime in
  let dist3 := Rmax (parent_time - coal_time) mintime in
  let mut1 := prob_branch dist1 (mu model) true in
  let mut2 := prob_branch dist2 (mu model) true in
  let mut3 := prob_branch dist3 (mu model) true in
  let nomut1 := prob_branch dist1 (mu model) false in
  let nomut2 := prob_branch dist2 (mu model) false in
  let nomut3 := prob_branch dist3 (mu model) false in
  for_up 0 4
    (fun a e =>
       let '(p1, p2, p3) :=
         for_up 0 4
           (fun b '(p1, p2, p3) =>
              if (a =? b)%Z then
                (p1 + inn node1 b * nomut1,
                 p2 + inn node2 b * nomut2,
                 p3 + out node2 b * nomut3)
              else
                (p1 + inn node1 b * mut1,
                 p2 + inn node2 b * mut2,
                 p3 + out node2 b * mut3))
           (0, 0, 0) in
       if negb (node2 =? maintree_root)%Z then e + p1 * p2 * p3 * (1/4)
       else e + p1 * p2 * (1/4))
    emit_ij0.

Definition calc_emissions_internal `{TreeOps} `{Indet (arr R)}
    `{Indet (arr bool)} `{Indet (arr lk_table)}
    (states : States) (tree : LocalTree) (seqs : Seqs) (nseqs seqlen : Z)
    (model : ArgModel) (emit : arr (arr R)) : option (arr (arr R)) :=
  let nstates := size states in
  let maintree_root := child1 (nodes tree (root tree)) in
  let subtree_root := child0 (nodes tree (root tree)) in
  if (nstates =? 0)%Z then
    Some (for_up 0 seqlen (fun i emit => upd2 emit i 0 1) emit)
  else
    let invariant := find_invariant_sites seqs nseqs seqlen indet in
    match calc_inner_outer tree model seqs seqlen invariant indet indet with
    | None => None
    | Some (inner, outer) =>
        match subtree_len tree model maintree_root,
              subtree_len tree model subtree_root with
        | Some maintreelen, Some subtreelen =>
            Some
              (for_up 0 nstates
                 (fun j emit =>
                    let state := st states j in
                    let treelen :=
                      internal_treelen tree model maintreelen subtreelen
                                       state in
                    let invariant_lk :=
                      (1/4) * exp (- mu model
                                   * Rmax treelen (mintime model)) in
                    for_up 0 seqlen
                      (fun i emit =>
                         if invariant i then upd2 emit i j invariant_lk
                         else
                           upd2 emit i j
                             (internal_site_lk tree model state
                                               (inner i) (outer i) 0))
                      emit)
                 emit)
        | _, _ => None
        end
    end.

(** ** The HMM operators and the block iterator *)

(** [TransMatrix]: the within-block transition operator.  Its tables are
    private to [trans.h]; the core only reads the two flags and calls the
    accessors, which are carried here as fields. *)
Record TransMatrix : Type := mkTransMatrix {
  internal : bool;
  nstates : Z;
  get_time : Z -> Z -> Z -> Z -> bool -> R;
  get : LocalTree -> States -> Z -> Z -> R;
  get_log : LocalTree -> States -> Z -> Z -> ereal
}.

(** [TransMatrixSwitch]: the cross-block operator. *)
Record TransMatrixSwitch : Type := mkSwitch {
  nstates1 : Z;
  nstates2 : Z;
  recoalsrc : Z;
  recombsrc : Z;
  determ : arr Z;
  determprob : arr ereal;
  recoalrow : arr ereal;
  recombrow : arr ereal;
  switch_get : Z -> Z -> R;
  switch_get_log : Z -> Z -> ereal
}.

(** What the iterator yields for one block: [get_block_start()],
    [get_tree_spr()->tree] and the fields of [ref_matrices()]. *)
Record Block : Type := mkBlock {
  block_start : Z;
  block_tree : LocalTree;
  blocklen : Z;
  mat_nstates2 : Z;
  transmat : TransMatrix;
  transmat_switch : option TransMatrixSwitch;
  emit : arr (arr R)
}.

(** External collaborators of the threading HMM: state enumeration and
    lookup ([states.h]), priors and lineage counts, the random sampler of
    [common.h] with its generator state, the matrix iterator's
    construction, the recombination sampler and the ARG splicer. *)
Class HmmOps : Type := {
  LocalTrees : Type;
  start_coord : LocalTrees -> Z;
  end_coord : LocalTrees -> Z;
  Sequences : Type;
  LineageCounts : Type;
  count_lineages : LocalTree -> bool -> LineageCounts;
  get_coal_states : LocalTree -> Z -> bool -> States;
  lookup : States -> Z -> Z -> Z -> Z;
  get_local_model : ArgModel -> Z -> ArgModel;
  calc_state_priors :
    States -> LineageCounts -> ArgModel -> arr R -> Z -> arr R;
  Rng : Type;
  sample : arr R -> Z -> Rng -> Z * Rng;
  matrix_list_setup :
    ArgModel -> option Sequences -> LocalTrees -> Z -> list Block;
  Recombs : Type;
  sample_recombinations :
    LocalTrees -> ArgModel -> list Block -> arr Z -> Rng -> Recombs;
  add_arg_thread : LocalTrees -> Z -> arr Z -> Z -> Recombs -> LocalTrees
}.

(** Modelled from the spec: [max_array] of [common.h], which is not among
    the sources; the spec's [max(col)] over the first [n] entries. *)
Definition max_array (a : arr R) (n : Z) : R :=
  for_up 1 n (fun i top => Rmax top (a i)) (a 0%Z).

Definition State_eqb (s1 s2 : State) : bool :=
  (node s1 =? node s2)%Z && (time s1 =? time s2)%Z.

(** Modelled from the spec: [find_vector] of [common.h], which is not among
    the sources; the spec's "locate its index in the block's States",
    [-1] when the state is absent. *)
Fixpoint find_vector_from (i : Z) (states : States) (s : State) : Z :=
  match states with
  | [] => (-1)%Z
  | x :: rest =>
      if State_eqb x s then i else find_vector_from (i + 1) rest s
  end.

Definition find_vector (states : States) (s : State) : Z :=
  find_vector_from 0 states s.

(** Modelled from the spec: [ArgHmmForwardTable::new_block] of [hmm.h],
    which is not among the sources; the driver "allocates one column per
    genomic site", so the columns of the sites [start <= p < end] become
    fresh, uninitialised arrays. *)
Definition new_block `{Indet (arr R)} (fw : arr (arr R))
    (start end_ nstates : Z) : arr (arr R) :=
  for_up start end_ (fun p fw => upd fw p indet) fw.

(** ** Forward algorithm: one block with the factored matrices *)

(** the temporaries that [arghmm_forward_block] computes before its
    column loop *)
Record block_tables : Type := mkTables {
  tmatrix : arr (arr R);
  tmatrix2 : arr (arr R);
  ages1 : arr Z;
  ages2 : arr Z;
  indexes : arr Z
}.

(** the minimum age of [arghmm_forward_block] *)
Definition block_minage (tree : LocalTree) (matrix : TransMatrix) : Z :=
  if internal matrix then
    let subtree_root := child0 (nodes tree (root tree)) in
    let subtree_age := age (nodes tree subtree_root) in
    if (subtree_age >? 0)%Z then subtree_age else 0%Z
  else 0%Z.

Definition block_maxtime (states : States) : Z :=
  for_up 0 (size states)
    (fun k maxtime =>
       if (maxtime <? time (st states k))%Z then time (st states k)
       else maxtime)
    0%Z.

Definition forward_block_tables `{HmmOps} `{Indet (arr (arr R))}
    `{Indet (arr Z)} (tree : LocalTree) (ntimes : Z) (states : States)
    (matrix : TransMatrix) : block_tables :=
  let nstates := size states in
  let minage := block_minage tree matrix in
  let maintree_root :=
    if internal matrix then child1 (nodes tree (root tree)) else 0%Z in
  let '(tmatrix, tmatrix2) :=
    for_up 0 (ntimes - 1)
      (fun a '(tmatrix, tmatrix2) =>
         (for_up 0 (ntimes - 1)
            (fun b tmatrix =>
               upd2 tmatrix a b (get_time matrix a b 0 minage false))
            tmatrix,
          for_up 0 nstates
            (fun k tmatrix2 =>
               let b := time (st states k) in
               let node2 := node (st states k) in
               let c := age (nodes tree node2) in
               upd2 tmatrix2 a k
                 (get_time matrix a b c minage true
                  - get_time matrix a b 0 minage false))
            tmatrix2))
      (indet, indet) in
  let maxtime := block_maxtime states in
  let '(ages1, ages2, indexes) :=
    for_up 0 (nnodes tree)
      (fun i '(ages1, ages2, indexes) =>
         let ages1 := upd ages1 i (Z.max (age (nodes tree i)) minage) in
         let indexes :=
           upd indexes i (lookup states (nnodes tree) i (ages1 i)) in
         let ages2 :=
           upd ages2 i
             (if internal matrix then
                if (i =? maintree_root)%Z || (i =? root tree)%Z then maxtime
                else age (nodes tree (parent (nodes tree i)))
              else
                if (i =? root tree)%Z then maxtime
                else age (nodes tree (parent (nodes tree i)))) in
         (ages1, ages2, indexes))
      (indet, indet, indet) in
  mkTables tmatrix tmatrix2 ages1 ages2 indexes.

(** the fgroup sums of one column: the array is cleared, then every state
    adds its entry of [col1] to the cell of its time *)
Definition block_fgroups `{Indet (arr R)} (ntimes : Z) (states : States)
    (col1 : arr R) : arr R :=
  let fgroups := for_up 0 ntimes (fun a fgroups => upd fgroups a 0) indet in
  for_up 0 (size states)
    (fun j fgroups =>
       let a := time (st states j) in
       upd fgroups a (fgroups a + col1 j))
    fgroups.

(** [tmatrix] times [fgroups] *)
Definition block_tmatrix_fgroups `{Indet (arr R)} (T : block_tables)
    (ntimes : Z) (fgroups : arr R) : arr R :=
  for_up 0 (ntimes - 1)
    (fun b tmatrix_fgroups =>
       upd tmatrix_fgroups b
         (for_up 0 (ntimes - 1)
            (fun a sum => sum + tmatrix T a b * fgroups a) 0))
    indet.

(** one pass of the column loop up to the normalisation: the column
    [col2] with its unnormalised entries, and [norm] *)
Definition forward_block_column `{Indet (arr R)} (T : block_tables)
    (ntimes : Z) (states : States) (emit2 col1 col2 : arr R) : arr R * R :=
  let nstates := size states in
  let fgroups := block_fgroups ntimes states col1 in
  let tmatrix_fgroups := block_tmatrix_fgroups T ntimes fgroups in
  for_up 0 nstates
    (fun k '(col2, norm) =>
       let b := time (st states k) in
       let node2 := node (st states k) in
       let age1 := ages1 T node2 in
       let age2 := ages2 T node2 in
       let sum := tmatrix_fgroups b in
       let j1 := indexes T node2 in
       let sum :=
         for_up age1 (age2 + 1)
           (fun a sum => sum + tmatrix2 T a k * col1 (j1 + (a - age1))%Z)
           sum in
       let col2 := upd col2 k (sum * emit2 k) in
       (col2, norm + col2 k))
    (col2, 0).

(** [for (k = 0; k < nstates; k++) col2[k] /= norm] *)
Definition normalize (n : Z) (col2 : arr R) (norm : R) : arr R :=
  for_up 0 n (fun k col2 => upd col2 k (col2 k / norm)) col2.

(** [assert(b >= minage)] in the loop that fills [tmatrix2]: it is reached
    when that loop runs, and fails when a state lies below [minage].  (The
    [isnan] assertions cannot fail on reals.) *)
Definition block_assert_fails (ntimes minage : Z) (states : States) : bool :=
  (0 <? ntimes - 1)%Z
  && existsb (fun k => (time (st states k) <? minage)%Z)
             (range 0 (size states)).

(** [None] when the assertion fails *)
Definition arghmm_forward_block `{HmmOps} `{Indet (arr R)}
    `{Indet (arr (arr R))} `{Indet (arr Z)}
    (tree : LocalTree) (ntimes blocklen : Z) (states : States)
    (lineages : LineageCounts) (matrix : TransMatrix)
    (emit fw : arr (arr R)) : option (arr (arr R)) :=
  let nstates := size states in
  if internal matrix && (nstates =? 0)%Z then
    Some (for_up 1 blocklen (fun i fw => upd2 fw i 0 (fw (i - 1)%Z 0%Z)) fw)
  else if block_assert_fails ntimes (block_minage tree matrix) states then
    None
  else
    let T := forward_block_tables tree ntimes states matrix in
    Some
      (for_up 1 blocklen
         (fun i fw =>
            let col1 := fw (i - 1)%Z in
            let '(col2, norm) :=
              forward_block_column T ntimes states (emit i) col1 (fw i) in
            upd fw i (normalize nstates col2 norm))
         fw).

(** ** Forward algorithm: one block with the full transition matrix *)

Definition forward_block_slow_column (nstates : Z) (transmat : arr (arr R))
    (emit_i col1 col2 : arr R) : arr R * R :=
  for_up 0 nstates
    (fun k '(col2, norm) =>
       let sum :=
         for_up 0 nstates (fun j sum => sum + col1 j * transmat j k) 0 in
       let col2 := upd col2 k (sum * emit_i k) in
       (col2, norm + col2 k))
    (col2, 0).

(** the transition matrix [transmat] that [arghmm_forward_block_slow]
    fills before its column loop *)
Definition slow_transmat `{Indet (arr (arr R))} (tree : LocalTree)
    (states : States) (matrix : TransMatrix) : arr (arr R) :=
  for_up 0 (size states)
    (fun k transmat =>
       for_up 0 (size states)
         (fun j transmat => upd2 transmat j k (get matrix tree states j k))
         transmat)
    indet.

Definition arghmm_forward_block_slow `{HmmOps} `{Indet (arr (arr R))}
    (tree : LocalTree) (ntimes blocklen : Z) (states : States)
    (lineages : LineageCounts) (matrix : TransMatrix)
    (emit fw : arr (arr R)) : arr (arr R) :=
  let nstates := size states in
  let transmat := slow_transmat tree states matrix in
  for_up 1 blocklen
    (fun i fw =>
       let col1 := fw (i - 1)%Z in
       let '(col2, norm) :=
         forward_block_slow_column nstates transmat (emit i) col1 (fw i) in
       upd fw i (normalize nstates col2 norm))
    fw.

(** ** Forward algorithm: one column across a switch *)

(** the column before normalisation, and [norm] *)
Definition forward_switch_column (col1 col2 : arr R)
    (matrix : TransMatrixSwitch) (emit : arr R) : arr R * R :=
  let nstates1 := Z.max (nstates1 matrix) 1 in
  let nstates2 := Z.max (nstates2 matrix) 1 in
  let col2 := for_up 0 nstates2 (fun k col2 => upd col2 k 0) col2 in
  let col2 :=
    for_up 0 nstates1
      (fun j col2 =>
         let k := determ matrix j in
         if negb (j =? recombsrc matrix)%Z && negb (j =? recoalsrc matrix)%Z
            && negb (k =? -1)%Z
         then upd col2 k (col2 k + col1 j * eexp (determprob matrix j))
         else col2)
      col2 in
  for_up 0 nstates2
    (fun k '(col2, norm) =>
       let col2 :=
         if negb (recombsrc matrix =? -1)%Z && gt_neginf (recombrow matrix k)
         then upd col2 k (col2 k + col1 (recombsrc matrix)
                                   * eexp (recombrow matrix k))
         else col2 in
       let col2 :=
         if negb (recoalsrc matrix =? -1)%Z && gt_neginf (recoalrow matrix k)
         then upd col2 k (col2 k + col1 (recoalsrc matrix)
                                   * eexp (recoalrow matrix k))
         else col2 in
       let col2 := upd col2 k (col2 k * emit k) in
       (col2, norm + col2 k))
    (col2, 0).

(** [None] when the assertion on the largest entry fails *)
Definition arghmm_forward_switch (col1 col2 : arr R)
    (matrix : TransMatrixSwitch) (emit : arr R) : option (arr R) :=
  let nstates2 := Z.max (nstates2 matrix) 1 in
  let '(col2, norm) := forward_switch_column col1 col2 matrix emit in
  let top := max_array col2 nstates2 in
  if Rle_dec top 0 then None
  else Some (normalize nstates2 col2 norm).

(** ** Forward algorithm over all blocks *)

(** what one iteration of the block loop of [arghmm_forward_alg] passes on
    to the within-block recurrence *)
Record block_call : Type := mkCall {
  call_fw : arr (arr R);
  call_off : Z;
  call_emit : arr (arr R);
  call_blocklen : Z
}.

(** the first column of a block: prior, switch step, or continuation
    ([fw_block = &fw[pos-1]; emit--; blocklen++]) *)
Definition forward_first_column `{HmmOps} `{Indet (arr R)}
    (trees : LocalTrees) (local_model : ArgModel) (blk : Block)
    (states : States) (lineages : LineageCounts) (fw : arr (arr R))
    (prior_given internal : bool) : option block_call :=
  let tree := block_tree blk in
  let pos := block_start blk in
  if (pos =? start_coord trees)%Z then
    if negb prior_given then
      let minage :=
        if internal then
          age (nodes tree (child0 (nodes tree (root tree))))
        else 0%Z in
      Some (mkCall
              (upd fw pos
                 (calc_state_priors states lineages local_model (fw pos)
                                    minage))
              pos (emit blk) (blocklen blk))
    else Some (mkCall fw pos (emit blk) (blocklen blk))
  else
    match transmat_switch blk with
    | Some sw =>
        match arghmm_forward_switch (fw (pos - 1)%Z) (fw pos) sw
                                    (emit blk 0%Z) with
        | None => None
        | Some col2 =>
            Some (mkCall (upd fw pos col2) pos (emit blk) (blocklen blk))
        end
    | None =>
        Some (mkCall fw (pos - 1)%Z (shift (-1) (emit blk))
                     (blocklen blk + 1)%Z)
    end.

(** one iteration of the block loop *)
Definition forward_alg_block `{HmmOps} `{Indet (arr R)}
    `{Indet (arr (arr R))} `{Indet (arr Z)}
    (trees : LocalTrees) (model : ArgModel) (blk : Block)
    (fw : arr (arr R)) (prior_given internal slow : bool)
    : option (arr (arr R)) :=
  let tree := block_tree blk in
  let pos := block_start blk in
  let local_model := get_local_model model pos in
  let fw :=
    if (pos >? start_coord trees)%Z || negb prior_given then
      new_block fw pos (pos + blocklen blk)%Z (mat_nstates2 blk)
    else fw in
  let states := get_coal_states tree (ntimes model) internal in
  let lineages := count_lineages tree internal in
  match forward_first_column trees local_model blk states lineages fw
                             prior_given internal with
  | None => None
  | Some c =>
      let nstates := Z.max (nstates (transmat blk)) 1 in
      let fw_block := shift (call_off c) (call_fw c) in
      let top := max_array (fw_block 0%Z) nstates in
      if Rle_dec top 0 then None
      else
        match
          if slow then
            Some (arghmm_forward_block_slow tree (ntimes model)
                    (call_blocklen c) states lineages (transmat blk)
                    (call_emit c) fw_block)
          else
            arghmm_forward_block tree (ntimes model) (call_blocklen c)
              states lineages (transmat blk) (call_emit c) fw_block
        with
        | None => None
        | Some fw_block =>
            let fw := unshift (call_off c) fw_block in
            let top2 :=
              max_array (fw (pos + blocklen blk - 1)%Z) nstates in
            if Rle_dec top2 0 then None else Some fw
        end
  end.

(** the block iterator is the list of the blocks it yields, in order;
    [None] when an assertion fails *)
Definition arghmm_forward_alg `{HmmOps} `{Indet (arr R)}
    `{Indet (arr (arr R))} `{Indet (arr Z)}
    (trees : LocalTrees) (model : ArgModel) (sequences : option Sequences)
    (matrix_iter : list Block) (fw : arr (arr R))
    (prior_given internal slow : bool) : option (arr (arr R)) :=
  fold_left
    (fun acc blk =>
       match acc with
       | None => None
       | Some fw =>
           forward_alg_block trees model blk fw prior_given internal slow
       end)
    matrix_iter (Some fw).

(** ** Stochastic traceback *)

(** loop state of [sample_hmm_posterior] *)
Record post_state `{HmmOps} : Type := mkPost {
  ps_path : arr Z;
  ps_A : arr R;
  ps_trans : arr R;
  ps_last_k : Z;
  ps_rng : Rng
}.

Arguments mkPost {_} _ _ _ _ _.

(** returns [lnl] (which stays [0.0]: its accumulation is commented out),
    the path and the generator; [None] when the assertion fails *)
Definition sample_hmm_posterior `{HmmOps} `{Indet (arr R)}
    (blocklen : Z) (tree : LocalTree) (states : States)
    (matrix : TransMatrix) (fw : arr (arr R)) (path : arr Z) (rng : Rng)
    : option (R * arr Z * Rng) :=
  let nstates := Z.max (size states) 1 in
  let lnl := 0 in
  option_map (fun s => (lnl, ps_path s, ps_rng s))
    (for_down 0 (blocklen - 1)
       (fun i acc =>
          match acc with
          | None => None
          | Some s =>
              let k := ps_path s (i + 1)%Z in
              let '(trans, last_k) :=
                if negb (k =? ps_last_k s)%Z then
                  (for_up 0 nstates
                     (fun j trans => upd trans j (get matrix tree states j k))
                     (ps_trans s),
                   k)
                else (ps_trans s, ps_last_k s) in
              let A :=
                for_up 0 nstates
                  (fun j A => upd A j (fw i j * trans j)) (ps_A s) in
              let '(pi, rng) := sample A nstates (ps_rng s) in
              let path := upd (ps_path s) i pi in
              if Req_dec_T (trans (path i)) 0 then None
              else Some (mkPost path A trans last_k rng)
          end)
       (Some (mkPost path indet indet (-1) rng))).

(** returns the sampled source state; [None] when the assertion fails *)
Definition sample_hmm_posterior_step `{HmmOps} `{Indet (arr R)}
    (matrix : TransMatrixSwitch) (col1 : arr R) (state2 : Z) (rng : Rng)
    : option (Z * Rng) :=
  let nstates1 := Z.max (nstates1 matrix) 1 in
  let A :=
    for_up 0 nstates1
      (fun j A => upd A j (col1 j * switch_get matrix j state2)) indet in
  let '(k, rng) := sample A nstates1 rng in
  if Req_dec_T (switch_get matrix k state2) 0 then None
  else Some (k, rng).

(** loop state of the tracebacks *)
Record trace_state `{HmmOps} : Type := mkTrace {
  ts_pos : Z;
  ts_path : arr Z;
  ts_lnl : ereal;
  ts_rng : Rng
}.

Arguments mkTrace {_} _ _ _ _.

(** one iteration of the backward block loop of [stochastic_traceback] *)
Definition stochastic_traceback_block `{HmmOps} `{Indet (arr R)}
    (trees : LocalTrees) (model : ArgModel) (mat : Block)
    (fw : arr (arr R)) (internal : bool) (s : trace_state)
    : option trace_state :=
  let tree := block_tree mat in
  let states := get_coal_states tree (ntimes model) internal in
  let pos := (ts_pos s - blocklen mat)%Z in
  match sample_hmm_posterior (blocklen mat) tree states (transmat mat)
          (shift pos fw) (shift pos (ts_path s)) (ts_rng s) with
  | None => None
  | Some (l, path_block, rng) =>
      let lnl := eadd (ts_lnl s) (Fin l) in
      let path := unshift pos path_block in
      if (pos >? start_coord trees)%Z then
        match transmat_switch mat with
        | Some sw =>
            let i := (pos - 1)%Z in
            match sample_hmm_posterior_step sw (fw i) (path (i + 1)%Z) rng
            with
            | None => None
            | Some (k, rng) =>
                let path := upd path i k in
                let lnl :=
                  eadd lnl
                       (elog (fw i (path i)
                              * switch_get sw (path i) (path (i + 1)%Z))) in
                Some (mkTrace pos path lnl rng)
            end
        | None =>
            match sample_hmm_posterior 2 tree states (transmat mat)
                    (shift (pos - 1) fw) (shift (pos - 1) path) rng with
            | None => None
            | Some (l, path_block, rng) =>
                Some (mkTrace pos (unshift (pos - 1) path_block)
                              (eadd lnl (Fin l)) rng)
            end
        end
      else Some (mkTrace pos path lnl rng)
  end.

(** The iterator is the list of its blocks; [rbegin]/[prev] walk it from
    the last block.  [None] when an assertion fails, or when the last
    column is to be sampled and the iterator has no block. *)
Definition stochastic_traceback `{HmmOps} `{Indet (arr R)}
    (trees : LocalTrees) (model : ArgModel) (matrix_iter : list Block)
    (fw : arr (arr R)) (path : arr Z) (last_state_given internal : bool)
    (rng : Rng) : option (ereal * arr Z * Rng) :=
  let pos := end_coord trees in
  let init :=
    if negb last_state_given then
      match rev matrix_iter with
      | [] => None
      | mat :: _ =>
          let nstates := Z.max (mat_nstates2 mat) 1 in
          let '(k, rng) := sample (fw (pos - 1)%Z) nstates rng in
          let path := upd path (pos - 1) k in
          Some (mkTrace pos path (Fin (fw (pos - 1)%Z (path (pos - 1)%Z)))
                        rng)
      end
    else Some (mkTrace pos path (Fin 0) rng) in
  option_map (fun s => (ts_lnl s, ts_path s, ts_rng s))
    (fold_left
       (fun acc mat =>
          match acc with
          | None => None
          | Some s => stochastic_traceback_block trees model mat fw internal s
          end)
       (rev matrix_iter) init).

(** ** Maximum path traceback *)

(** the argmax scan shared by [max_hmm_posterior] and
    [max_hmm_posterior_step]: [maxj], starting from entry 0 *)
Definition argmax_log (n : Z) (col : arr R) (trans : arr ereal) : Z :=
  fst
    (for_up 1 n
       (fun j '(maxj, maxprob) =>
          let prob := eadd (elog (col j)) (trans j) in
          if egtb prob maxprob then (j, prob) else (maxj, maxprob))
       (0%Z, eadd (elog (col 0%Z)) (trans 0%Z))).

Definition max_hmm_posterior `{Indet (arr ereal)} (n : Z) (tree : LocalTree)
    (states : States) (matrix : TransMatrix) (fw : arr (arr R))
    (path : arr Z) : arr Z :=
  let nstates := size states in
  let '(path, _, _) :=
    for_down 0 (n - 1)
      (fun i '(path, trans, last_k) =>
         let k := path (i + 1)%Z in
         let '(trans, last_k) :=
           if negb (k =? last_k)%Z then
             (for_up 0 nstates
                (fun j trans =>
                   upd trans j (get_log matrix tree states j k))
                trans,
              k)
           else (trans, last_k) in
         (upd path i (argmax_log nstates (fw i) trans), trans, last_k))
      (path, indet, (-1)%Z) in
  path.

Definition max_hmm_posterior_step (matrix : TransMatrixSwitch)
    (col1 : arr R) (state2 : Z) : Z :=
  let nstates1 := nstates1 matrix in
  argmax_log nstates1 col1 (fun j => switch_get_log matrix j state2).

(** one iteration of the backward block loop of [max_traceback]:
    the new position and path *)
Definition max_traceback_block `{HmmOps} `{Indet (arr ereal)}
    (trees : LocalTrees) (model : ArgModel) (mat : Block)
    (fw : arr (arr R)) (internal : bool) (pos : Z) (path : arr Z)
    : Z * arr Z :=
  let tree := block_tree mat in
  let states := get_coal_states tree (ntimes model) internal in
  let pos := (pos - blocklen mat)%Z in
  let path :=
    unshift pos
      (max_hmm_posterior (blocklen mat) tree states (transmat mat)
                         (shift pos fw) (shift pos path)) in
  if (pos >? start_coord trees)%Z then
    match transmat_switch mat with
    | Some sw =>
        let i := (pos - 1)%Z in
        (pos, upd path i (max_hmm_posterior_step sw (fw i) (path (i + 1)%Z)))
    | None =>
        (pos,
         unshift (pos - 1)
           (max_hmm_posterior 1 tree states (transmat mat)
                              (shift (pos - 1) fw) (shift (pos - 1) path)))
    end
  else (pos, path).

(** [None] only when the last column is to be maximised and the iterator
    has no block *)
Definition max_traceback `{HmmOps} `{Indet (arr ereal)}
    (trees : LocalTrees) (model : ArgModel) (matrix_iter : list Block)
    (fw : arr (arr R)) (path : arr Z) (last_state_given internal : bool)
    : option (arr Z) :=
  let pos := end_coord trees in
  let init :=
    if negb last_state_given then
      match rev matrix_iter with
      | [] => None
      | mat :: _ =>
          let nstates := mat_nstates2 mat in
          let '(maxi, _) :=
            for_up 1 nstates
              (fun i '(maxi, maxprob) =>
                 if Rlt_dec maxprob (fw (pos - 1)%Z i)
                 then (i, fw (pos - 1)%Z i) else (maxi, maxprob))
              (0%Z, fw (pos - 1)%Z 0%Z) in
          Some (upd path (pos - 1) maxi)
      end
    else Some path in
  option_map
    (fun path =>
       snd (fold_left
              (fun '(pos, path) mat =>
                 max_traceback_block trees model mat fw internal pos path)
              (rev matrix_iter) (pos, path)))
    init.

(** ** Threading conditioned on a start and an end state *)

(** The forward table and the thread path when the function hands over to
    the recombination sampler, and the ARG it returns.  [None] when an
    assertion fails.  The iterator [ArgHmmMatrixList] is the list of its
    blocks ([begin] is at the head, [rbegin] at the last element);
    [get_block_end()] is the block start plus the block length. *)
Definition cond_sample_arg_thread `{HmmOps} `{Indet (arr R)}
    `{Indet (arr (arr R))} `{Indet (arr Z)}
    (model : ArgModel) (sequences : Sequences) (trees : LocalTrees)
    (new_chrom : Z) (start_state end_state : State) (rng : Rng)
    : option (LocalTrees * arr (arr R) * arr Z) :=
  let fw : arr (arr R) := indet in
  let thread_path : arr Z := indet in
  let matrix_list := matrix_list_setup model (Some sequences) trees
                                       new_chrom in
  match matrix_list with
  | [] => None
  | first :: _ =>
      let tree := block_tree first in
      let states := get_coal_states tree (ntimes model) false in
      let fw := new_block fw (block_start first)
                          (block_start first + blocklen first)%Z
                          (size states) in
      let j := find_vector states start_state in
      if (j =? -1)%Z then None
      else
        let col := fw (start_coord trees) in
        let col := for_up 0 (size states) (fun k col => upd col k 0) col in
        let col := upd col j 1 in
        let fw := upd fw (start_coord trees) col in
        match arghmm_forward_alg trees model (Some sequences) matrix_list fw
                                 true false false with
        | None => None
        | Some fw =>
            let tree := block_tree (last matrix_list first) in
            let states := get_coal_states tree (ntimes model) false in
            let thread_path :=
              upd thread_path (end_coord trees - 1)
                  (find_vector states end_state) in
            if (thread_path (end_coord trees - 1)%Z =? -1)%Z then None
            else
              match stochastic_traceback trees model matrix_list fw
                      thread_path true false rng with
              | None => None
              | Some (_, thread_path, rng) =>
                  if Req_dec_T
                       (fw (start_coord trees)
                           (thread_path (start_coord trees)))
                       1
                  then
                    let recombs :=
                      sample_recombinations trees model matrix_list
                                            thread_path rng in
                    Some (add_arg_thread trees (ntimes model) thread_path
                                         new_chrom recombs,
                          fw, thread_path)
                  else None
              end
        end
  end.

(** ** The trees and the postorders of external threading *)

(** the tree [tree2] at the start of iteration [j] of the state loop of
    [calc_emissions] and [calc_emissions_slow] *)
Definition emission_base_tree `{TreeOps} (states : States) (tree : LocalTree)
    (j : Z) : LocalTree :=
  for_up 0 j
    (fun j' tree2 =>
       remove_tree_branch
         (add_tree_branch tree2 (node (st states j')) (time (st states j')))
         (get_num_leaves tree))
    tree.

(** the tree with the new branch of state [j], as handed to
    [likelihood_sites] *)
Definition emission_tree `{TreeOps} (states : States) (tree : LocalTree)
    (j : Z) : LocalTree :=
  add_tree_branch (emission_base_tree states tree j)
                  (node (st states j)) (time (st states j)).

(** What the pruning pass needs of [get_postorder]: the root is listed,
    and the children of every listed internal node are nodes of the tree
    other than the root that are listed before it. *)
Definition postorder_ok `{TreeOps} (tree : LocalTree) : Prop :=
  let order := get_postorder tree in
  (exists i, (0 <= i < nnodes tree)%Z /\ order i = root tree)
  /\ forall i, (0 <= i < nnodes tree)%Z ->
       is_leaf (nodes tree (order i)) = false ->
       forall c, c = child0 (nodes tree (order i))
                 \/ c = child1 (nodes tree (order i)) ->
         (0 <= c < nnodes tree)%Z /\ c <> root tree
         /\ exists i', (0 <= i' < i)%Z /\ order i' = c.

(** the sum of the floored branch lengths of a tree *)
Definition floored_treelen (tree : LocalTree) (model : ArgModel) : R :=
  sumZ 0 (nnodes tree)
    (fun i =>
       if (i =? root tree)%Z then 0
       else Rmax (times model (age (nodes tree (parent (nodes tree i))))
                  - times model (age (nodes tree i)))
                 (mintime model)).

(** all observed characters of a site agree *)
Definition invariant_site (seqs : Seqs) (nseqs pos : Z) : Prop :=
  forall j, (1 <= j < nseqs)%Z -> seqs j pos = seqs 0%Z pos.

(** the Jukes-Cantor probability on the branch above node [i] *)
Definition branch_prob (tree : LocalTree) (model : ArgModel) (mut : bool)
    : arr R :=
  fun i =>
    prob_branch
      (Rmax (times model (age (nodes tree (parent (nodes tree i))))
             - times model (age (nodes tree i)))
            (mintime model))
      (mu model) mut.

(** the likelihood of one site on a tree, by the pruning pass over the
    full postorder started from a blank table *)
Definition site_likelihood `{TreeOps} (tree : LocalTree) (model : ArgModel)
    (seqs : Seqs) (pos : Z) : R :=
  fst (likelihood_site_inner tree seqs pos (get_postorder tree)
         (nnodes tree) (branch_prob tree model true)
         (branch_prob tree model false) (fun _ _ => 0)).

(** the emission of state [j] at site [i] for external threading *)
Definition emission_value `{TreeOps} (states : States) (tree : LocalTree)
    (seqs : Seqs) (nseqs : Z) (model : ArgModel) (i j : Z) : R :=
  let tree2 := emission_tree states tree j in
  if is_invariant_site seqs nseqs i then
    (1/4) * exp (- mu model * Rmax (floored_treelen tree2 model)
                                  (mintime model))
  else site_likelihood tree2 model seqs i.

(** ** A small instance, for the examples *)

(** the tree of one chromosome *)
Definition leaf_tree : LocalTree :=
  mkTree 1 0 (fun _ => mkNode (-1) (-1) (-1) 0).

(** two leaves (nodes 0 and 1) under a root (node 2) of age [t] *)
Definition cherry_tree (t : Z) : LocalTree :=
  mkTree 3 2
    (fun i => if (i =? 2)%Z then mkNode (-1) 0 1 t else mkNode 2 (-1) (-1) 0).

(** The helpers on the tree of one chromosome: threading a new leaf onto
    it gives the cherry, removing the leaf gives it back; nodes are
    numbered in postorder. *)
Definition leaf_ops : TreeOps := {|
  is_leaf := fun n => (child0 n =? -1)%Z;
  get_postorder := fun _ i => i;
  get_sibling := fun tree j =>
    let p := parent (nodes tree j) in
    if (p =? -1)%Z then (-1)%Z
    else if (child0 (nodes tree p) =? j)%Z then child1 (nodes tree p)
         else child0 (nodes tree p);
  get_dist := fun tree j times =>
    let p := parent (nodes tree j) in
    if (p =? -1)%Z then 0
    else times (age (nodes tree p)) - times (age (nodes tree j));
  get_num_leaves := fun tree => ((nnodes tree + 1) / 2)%Z;
  add_tree_branch := fun _ _ t => cherry_tree t;
  remove_tree_branch := fun _ _ => leaf_tree;
  dna2int := fun c =>
    if Ascii.eqb c "A"%char || Ascii.eqb c "a"%char then 0%Z
    else if Ascii.eqb c "C"%char || Ascii.eqb c "c"%char then 1%Z
    else if Ascii.eqb c "G"%char || Ascii.eqb c "g"%char then 2%Z
    else if Ascii.eqb c "T"%char || Ascii.eqb c "t"%char then 3%Z
    else (-1)%Z
|}.

(** a time grid with [times[i] = i], unit mutation rate *)
Definition unit_model : ArgModel :=
  mkModel 4 (fun i => IZR i) 1 (1/10) 3.

(** two chromosomes, one site, bases A and C *)
Definition seqs_AC : Seqs :=
  fun j _ => if (j =? 0)%Z then "A"%char else "C"%char.

(** two chromosomes, one site, both A *)
Definition seqs_AA : Seqs := fun _ _ => "A"%char.

Definition zero_R : Indet (arr R) := fun _ => 0.
Definition one_R : Indet (arr R) := fun _ => 1.
Definition zero_Z : Indet (arr Z) := fun _ => 0%Z.
Definition false_B : Indet (arr bool) := fun _ => false.
Definition zero_table : Indet (arr lk_table) := fun _ _ _ => 0.
Definition one_table : Indet (arr lk_table) := fun _ _ _ => 1.

(** ** The switch step, as the specification words it *)

(** the mass that reaches destination [k] across a switch, before the
    emission: every source [j] other than [recombsrc] and [recoalsrc] with
    [determ[j] >= 0] gives [col1[j] * exp(determprob[j])] to
    [determ[j]]; [recombsrc] (if [>= 0]) gives
    [col1[recombsrc] * exp(recombrow[k])] to every [k] with
    [recombrow[k] > -inf], and likewise [recoalsrc] *)
Definition switch_mass (matrix : TransMatrixSwitch) (col1 : arr R) (k : Z)
    : R :=
  sumZ 0 (Z.max (nstates1 matrix) 1)
    (fun j =>
       if negb (j =? recombsrc matrix)%Z && negb (j =? recoalsrc matrix)%Z
          && (0 <=? determ matrix j)%Z && (determ matrix j =? k)%Z
       then col1 j * eexp (determprob matrix j) else 0)
  + (if (0 <=? recombsrc matrix)%Z && gt_neginf (recombrow matrix k)
     then col1 (recombsrc matrix) * eexp (recombrow matrix k) else 0)
  + (if (0 <=? recoalsrc matrix)%Z && gt_neginf (recoalrow matrix k)
     then col1 (recoalsrc matrix) * eexp (recoalrow matrix k) else 0).

(** the column after the switch, before normalisation *)
Definition switch_column (matrix : TransMatrixSwitch) (col1 emit : arr R)
    : arr R :=
  fun k => switch_mass matrix col1 k * emit k.

(** the indices of a switch operator are valid or [-1] *)
Definition switch_wf (matrix : TransMatrixSwitch) : Prop :=
  (-1 <= recombsrc matrix)%Z /\ (-1 <= recoalsrc matrix)%Z
  /\ forall j, (0 <= j < Z.max (nstates1 matrix) 1)%Z ->
               (-1 <= determ matrix j)%Z.

(** the operator with its two sizes replaced *)
Definition resize_switch (matrix : TransMatrixSwitch) (n1 n2 : Z)
    : TransMatrixSwitch :=
  mkSwitch n1 n2 (recoalsrc matrix) (recombsrc matrix) (determ matrix)
           (determprob matrix) (recoalrow matrix) (recombrow matrix)
           (switch_get matrix) (switch_get_log matrix).

(** a switch between two state spaces of size two: source 0 moves to
    destination 1, source 1 recombines onto destination 0 *)
Definition cross_switch : TransMatrixSwitch :=
  mkSwitch 2 2 (-1) 1
    (fun j => if (j =? 0)%Z then 1%Z else (-1)%Z)
    (fun _ => Fin 0)
    (fun _ => NegInf)
    (fun k => if (k =? 0)%Z then Fin 0 else NegInf)
    (fun j k => if (j + k =? 1)%Z then 1 else 0)
    (fun j k => if (j + k =? 1)%Z then Fin 0 else NegInf).

(** a switch between two empty state spaces *)
Definition empty_switch : TransMatrixSwitch :=
  mkSwitch 0 0 (-1) (-1) (fun _ => 0%Z) (fun _ => Fin 0)
    (fun _ => NegInf) (fun _ => NegInf) (fun _ _ => 1) (fun _ _ => Fin 0).

(** the column [1/2, 1/2, 0, 0, ...] *)
Definition half_half : arr R :=
  fun k => if ((0 <=? k) && (k <? 2))%Z then 1/2 else 0.

(** the column [1, 0, 0, ...] *)
Definition one_hot_0 : arr R := fun k => if (k =? 0)%Z then 1 else 0.

(** ** The within-block recurrences, column by column *)

(** the column that [arghmm_forward_block] stores at a site, from the
    previous column [col1] and the old contents [col2] of the cell *)
Definition forward_block_step `{Indet (arr R)} (T : block_tables)
    (ntimes : Z) (states : States) (emit_i col1 col2 : arr R) : arr R :=
  normalize (size states)
    (fst (forward_block_column T ntimes states emit_i col1 col2))
    (snd (forward_block_column T ntimes states emit_i col1 col2)).

(** the same for [arghmm_forward_block_slow] *)
Definition forward_block_slow_step (nstates : Z) (transmat : arr (arr R))
    (emit_i col1 col2 : arr R) : arr R :=
  normalize nstates
    (fst (forward_block_slow_column nstates transmat emit_i col1 col2))
    (snd (forward_block_slow_column nstates transmat emit_i col1 col2)).

(** ** A small instance of the HMM collaborators *)

(** the states of a tree: on each branch, from the age of the node to the
    age of its parent, and up to [ntimes - 2] above the root *)
Definition enum_states (tree : LocalTree) (ntimes : Z) : States :=
  flat_map
    (fun i =>
       let top := if (parent (nodes tree i) =? -1)%Z then (ntimes - 2)%Z
                  else age (nodes tree (parent (nodes tree i))) in
       map (mkState i) (range (age (nodes tree i)) (top + 1)))
    (range 0 (nnodes tree)).

(** the first entry with positive weight *)
Definition first_positive (A : arr R) (n : Z) : Z :=
  match find (fun k => if Rlt_dec 0 (A k) then true else false) (range 0 n)
  with
  | Some k => k
  | None => 0%Z
  end.

(** a transition operator that doubles the weight of staying on a branch *)
Definition toy_matrix (n : Z) : TransMatrix :=
  mkTransMatrix false n
    (fun a b c minage same => if same then 2 else 1)
    (fun tree states j k =>
       if (node (st states j) =? node (st states k))%Z then 2 else 1)
    (fun tree states j k =>
       if (node (st states j) =? node (st states k))%Z then Fin (ln 2)
       else Fin 0).

(** one block of [len] sites over the tree of one chromosome, with unit
    emissions *)
Definition toy_block (start len : Z) (sw : option TransMatrixSwitch)
    : Block :=
  mkBlock start leaf_tree len 1 (toy_matrix 1) sw (fun _ _ => 1).

(** [LocalTrees] reduced to its two coordinates; no randomness: the sampler
    returns the first entry with positive weight; a single block of one
    site *)
Definition toy_hmm : HmmOps := {|
  LocalTrees := Z * Z;
  start_coord := fst;
  end_coord := snd;
  Sequences := unit;
  LineageCounts := unit;
  count_lineages := fun _ _ => tt;
  get_coal_states := fun tree ntimes _ => enum_states tree ntimes;
  lookup := fun states _ n t => find_vector states (mkState n t);
  get_local_model := fun model _ => model;
  calc_state_priors := fun states _ _ col _ =>
    for_up 0 (size states) (fun k col => upd col k (1 / IZR (size states)))
           col;
  Rng := unit;
  sample := fun A n rng => (first_positive A n, rng);
  matrix_list_setup := fun _ _ trees _ =>
    [toy_block (fst trees) (snd trees - fst trees) None];
  Recombs := unit;
  sample_recombinations := fun _ _ _ _ _ => tt;
  add_arg_thread := fun trees _ _ _ _ => trees
|}.

Definition zero_RR : Indet (arr (arr R)) := fun _ _ => 0.
Definition neginf_E : Indet (arr ereal) := fun _ => NegInf.

(** ** The factored operator, as the specification words it *)

(** branch-age metadata per node: [age1 = max(node.age, minage)] *)
Definition branch_age1 (tree : LocalTree) (matrix : TransMatrix) (n : Z)
    : Z :=
  Z.max (age (nodes tree n)) (block_minage tree matrix).

(** [age2 = parent.age], or the largest state time at the root (and at the
    maintree root when threading an internal branch) *)
Definition branch_age2 (tree : LocalTree) (states : States)
    (matrix : TransMatrix) (n : Z) : Z :=
  if internal matrix then
    if (n =? child1 (nodes tree (root tree)))%Z || (n =? root tree)%Z
    then block_maxtime states
    else age (nodes tree (parent (nodes tree n)))
  else
    if (n =? root tree)%Z then block_maxtime states
    else age (nodes tree (parent (nodes tree n))).

(** the index of the first state on the branch of node [n] *)
Definition branch_index `{HmmOps} (tree : LocalTree) (states : States)
    (matrix : TransMatrix) (n : Z) : Z :=
  lookup states (nnodes tree) n (branch_age1 tree matrix n).

(** Modelled from the spec: [TransMatrix::get] of [trans.h], which is not
    among the sources.  The transition probability has an equivalent
    factored form: the time-only baseline [get_time(a, b, 0, minage,
    false)], replaced on the branch that carries the source by the
    same-branch value [get_time(a, b, c, minage, true)] with [c] the age of
    the destination node. *)
Definition matrix_factored (tree : LocalTree) (states : States)
    (matrix : TransMatrix) : Prop :=
  forall j k, (0 <= j < size states)%Z -> (0 <= k < size states)%Z ->
    get matrix tree states j k
    = if (node (st states j) =? node (st states k))%Z then
        get_time matrix (time (st states j)) (time (st states k))
                 (age (nodes tree (node (st states k))))
                 (block_minage tree matrix) true
      else
        get_time matrix (time (st states j)) (time (st states k)) 0
                 (block_minage tree matrix) false.

(** Modelled from the spec: the enumeration order of [get_coal_states] of
    [states.h], which is not among the sources.  State times lie on the
    part of the grid that the operator tabulates, and the states of one
    branch are contiguous: they run through the times [age1 .. age2] of the
    branch, starting at its index. *)
Definition states_enumerated `{HmmOps} (tree : LocalTree) (ntimes : Z)
    (states : States) (matrix : TransMatrix) : Prop :=
  forall k, (0 <= k < size states)%Z ->
    let n := node (st states k) in
    let age1 := branch_age1 tree matrix n in
    let age2 := branch_age2 tree states matrix n in
    let j1 := branch_index tree states matrix n in
    (0 <= n < nnodes tree)%Z
    /\ (0 <= time (st states k) < ntimes - 1)%Z
    /\ (forall a, (age1 <= a <= age2)%Z ->
          (0 <= j1 + (a - age1) < size states)%Z
          /\ st states (j1 + (a - age1)) = mkState n a)
    /\ (forall j, (0 <= j < size states)%Z -> node (st states j) = n ->
          (age1 <= time (st states j) <= age2)%Z
          /\ j = (j1 + (time (st states j) - age1))%Z).

(** the entry of state [k] in the factored column, before normalisation *)
Definition factored_entry `{Indet (arr R)} (T : block_tables) (ntimes : Z)
    (states : States) (emit2 col1 : arr R) (k : Z) : R :=
  let node2 := node (st states k) in
  (block_tmatrix_fgroups T ntimes (block_fgroups ntimes states col1)
                         (time (st states k))
   + sumZ (ages1 T node2) (ages2 T node2 + 1)
       (fun a => tmatrix2 T a k
                 * col1 (indexes T node2 + (a - ages1 T node2))%Z))
  * emit2 k.

(** the entry of state [k] in the column of the full matrix *)
Definition full_entry (tree : LocalTree) (states : States)
    (matrix : TransMatrix) (emit_i col1 : arr R) (k : Z) : R :=
  sumZ 0 (size states) (fun j => col1 j * get matrix tree states j k)
  * emit_i k.




(** a time grid of two times: one state above the root of [leaf_tree] *)
Definition tiny_model : ArgModel := mkModel 2 (fun i => IZR i) 1 (1/10) 3.

(** ** Relations used in the proofs *)

(** two tables hold the same partial likelihoods at the nodes in [S] *)
Definition agree (S : Z -> Prop) (T T' : lk_table) : Prop :=
  forall n a, S n -> (0 <= a < 4)%Z -> T n a = T' n a.


(** the rows of the nodes in [S] satisfy [Q] entry by entry *)
Definition rows_in (Q : R -> Prop) (S : Z -> Prop) (T : lk_table) : Prop :=
  forall n a, S n -> (0 <= a < 4)%Z -> Q (T n a).

(** every observed character is a base or the missing-data mark *)
Definition bases_valid `{TreeOps} (seqs : Seqs) : Prop :=
  forall n i, is_N (seqs n i) = true \/ (0 <= dna2int (seqs n i) < 4)%Z.

(** missing data in every sequence *)
Definition seqs_NN : Seqs := fun _ _ => "N"%char.

(** the probabilities of a branch of infinite length *)
Definition quarters : arr R := fun _ => 1/4.

(** ** emit.cpp: the log likelihood of a tree *)

(** the mutation probabilities of [likelihood_tree] *)
Definition tree_mutation_probs `{Indet (arr R)} (tree : LocalTree)
    (model : ArgModel) : arr R * arr R :=
  for_up 0 (nnodes tree)
    (fun i '(muts, nomuts) =>
       if negb (i =? root tree)%Z then
         let t := Rmax (times model (age (nodes tree (parent (nodes tree i))))
                        - times model (age (nodes tree i)))
                       (mintime model) in
         (upd muts i (prob_branch t (mu model) true),
          upd nomuts i (prob_branch t (mu model) false))
       else (muts, nomuts))
    (indet, indet).

(** [lnl] is a sum of logarithms of likelihoods, which are non-negative:
    it is [-inf] from the first site of likelihood 0 on.  The table is the
    local [lk_row table[nnodes]], not initialised. *)
Definition likelihood_tree `{TreeOps} `{Indet (arr R)} `{Indet lk_table}
    (tree : LocalTree) (model : ArgModel) (seqs : Seqs)
    (nseqs start end_ : Z) : ereal :=
  let invariant_lk := -1 in
  let table : lk_table := indet in
  let order := get_postorder tree in
  let '(muts, nomuts) := tree_mutation_probs tree model in
  let '(lnl, _, _) :=
    for_up start end_
      (fun i '(lnl, invariant_lk, table) =>
         let invariant := is_invariant_site seqs nseqs i in
         if invariant && (if Rlt_dec 0 invariant_lk then true else false)
         then (eadd lnl (elog invariant_lk), invariant_lk, table)
         else
           let '(lk, table) :=
             likelihood_site_inner tree seqs i order (nnodes tree)
                                   muts nomuts table in
           let invariant_lk := if invariant then lk else invariant_lk in
           (eadd lnl (elog lk), invariant_lk, table))
      (Fin 0, invariant_lk, table) in
  lnl.

(** the sum of the logarithms of [f i] over [lo <= i < hi] *)
Definition log_sum (lo hi : Z) (f : Z -> R) : ereal :=
  for_up lo hi (fun i l => eadd l (elog (f i))) (Fin 0).

(** a log value is at most 0 *)
Definition nonpositive (x : ereal) : Prop :=
  match x with
  | NegInf => True
  | Fin r => r <= 0
  end.

(** ** emit.cpp: parsimony and incompatible sites *)

Definition maxcost : Z := 100000.

(** [int(a != b)] *)
Definition differ (a b : Z) : Z := if (a =? b)%Z then 0%Z else 1%Z.

(** The cost table [int costs[nnodes][4]] is a map of rows; [left_costs]
    and [right_costs] point into it, so they are read from the table as it
    stands.  [postorder] may be a null pointer: an [option].  [None] when a
    leaf carries a character whose [dna2int] is not an index of its row
    (the source then writes outside the row). *)
Definition parsimony_cost_seq `{TreeOps} `{Indet (arr (arr Z))}
    (tree : LocalTree) (seqs : Seqs) (nseqs pos : Z)
    (postorder : option (arr Z)) : option Z :=
  let costs : arr (arr Z) := indet in
  let postorder :=
    match postorder with
    | Some postorder => postorder
    | None => get_postorder tree
    end in
  match
    for_up 0 (nnodes tree)
      (fun i acc =>
         match acc with
         | None => None
         | Some costs =>
             let node := postorder i in
             if is_leaf (nodes tree node) then
               let costs :=
                 for_up 0 4 (fun a costs => upd2 costs node a maxcost)
                        costs in
               let d := dna2int (seqs node pos) in
               if ((0 <=? d) && (d <? 4))%Z then Some (upd2 costs node d 0%Z)
               else None
             else
               let left := child0 (nodes tree node) in
               let right := child1 (nodes tree node) in
               Some
                 (for_up 0 4
                    (fun a costs =>
                       let '(left_min, right_min) :=
                         for_up 0 4
                           (fun b '(left_min, right_min) =>
                              (Z.min left_min (differ a b + costs left b),
                               Z.min right_min (differ a b + costs right b)))
                           (maxcost, maxcost) in
                       upd2 costs node a (left_min + right_min)%Z)
                    costs)
         end)
      (Some costs)
  with
  | None => None
  | Some costs =>
      Some (for_up 0 4
              (fun a root_min => Z.min root_min (costs (root tree) a))
              maxcost)
  end.

(** [count_noncompat] on one tree: the sites whose parsimony cost exceeds
    one mutation *)
Definition count_noncompat `{TreeOps} `{Indet (arr (arr Z))}
    (tree : LocalTree) (seqs : Seqs) (nseqs seqlen : Z)
    (postorder : option (arr Z)) : option Z :=
  let postorder :=
    match postorder with
    | Some postorder => postorder
    | None => get_postorder tree
    end in
  for_up 0 seqlen
    (fun i acc =>
       match acc with
       | None => None
       | Some noncompat =>
           match parsimony_cost_seq tree seqs nseqs i (Some postorder) with
           | None => None
           | Some cost =>
               Some (noncompat + (if (cost >? 1)%Z then 1 else 0))%Z
           end
       end)
    (Some 0%Z).

(** What the iterator of [LocalTrees] yields for one block: the tree and
    the block length. *)
Record LocalTreeSpr : Type := mkTreeSpr {
  spr_tree : LocalTree;
  spr_blocklen : Z
}.

(** [count_noncompat] on the local trees, given as their start coordinate
    and the blocks the iterator yields.  [subseqs] has [nseqs] entries:
    the other rows are not part of it. *)
Definition count_noncompat_trees `{TreeOps} `{Indet (arr (arr Z))}
    `{Indet (arr ascii)} (trees_start_coord : Z) (trees : list LocalTreeSpr)
    (seqs : Seqs) (nseqs seqlen : Z) : option Z :=
  option_map fst
    (fold_left
       (fun acc it =>
          match acc with
          | None => None
          | Some (noncompat, end_) =>
              let start := end_ in
              let end_ := (end_ + spr_blocklen it)%Z in
              let tree := spr_tree it in
              let blocklen := spr_blocklen it in
              let subseqs : Seqs :=
                fun i => if ((0 <=? i) && (i <? nseqs))%Z
                         then shift start (seqs i) else indet in
              match count_noncompat tree subseqs nseqs blocklen None with
              | None => None
              | Some n => Some ((noncompat + n)%Z, end_)
              end
          end)
       trees (Some (0%Z, trees_start_coord))).

(** every leaf that the postorder lists carries a base at the site *)
Definition leaves_based `{TreeOps} (tree : LocalTree) (order : arr Z)
    (seqs : Seqs) (pos : Z) : Prop :=
  forall i, (0 <= i < nnodes tree)%Z ->
    is_leaf (nodes tree (order i)) = true ->
    (0 <= dna2int (seqs (order i) pos) < 4)%Z.

(** the postorder lists the root, and the children of a listed internal
    node are other nodes, listed before it *)
Definition order_ok `{TreeOps} (tree : LocalTree) (order : arr Z) : Prop :=
  (exists i, (0 <= i < nnodes tree)%Z /\ order i = root tree)
  /\ forall i, (0 <= i < nnodes tree)%Z ->
       is_leaf (nodes tree (order i)) = false ->
       forall c, c = child0 (nodes tree (order i))
                 \/ c = child1 (nodes tree (order i)) ->
         c <> order i /\ exists i', (0 <= i' < i)%Z /\ order i' = c.

(** [m] is [n] or lies below [n], through the child links of internal
    nodes *)
Inductive below `{TreeOps} (tree : LocalTree) : Z -> Z -> Prop :=
| below_here : forall n, below tree n n
| below_child : forall n c m,
    is_leaf (nodes tree n) = false ->
    c = child0 (nodes tree n) \/ c = child1 (nodes tree n) ->
    below tree c m -> below tree n m.

(** the leaves at or below [n] all carry the base [d] at the site *)
Definition leaves_below_show `{TreeOps} (tree : LocalTree) (seqs : Seqs)
    (pos n d : Z) : Prop :=
  forall m, below tree n m -> is_leaf (nodes tree m) = true ->
            dna2int (seqs m pos) = d.

(** the smallest cost of reaching a child row from base [a], as the inner
    loop of [parsimony_cost_seq] computes it *)
Definition min_cost (a : Z) (row : arr Z) : Z :=
  for_up 0 4 (fun b m => Z.min m (differ a b + row b)) maxcost.

(** the cost row of node [n] is within bounds, and its entry of base [a]
    is 0 exactly when the leaves at or below [n] all carry [a] *)
Definition cost_row_ok `{TreeOps} (tree : LocalTree) (seqs : Seqs) (pos : Z)
    (costs : arr (arr Z)) (n : Z) : Prop :=
  forall a, (0 <= a < 4)%Z ->
    (0 <= costs n a <= 2 * maxcost)%Z
    /\ (costs n a = 0%Z <-> leaves_below_show tree seqs pos n a).

Definition zero_ZZ : Indet (arr (arr Z)) := fun _ _ => 0%Z.
Definition blank_seq : Indet (arr ascii) := fun _ => " "%char.

(** the number of sites of a list of blocks *)
Definition total_len (trees : list LocalTreeSpr) : Z :=
  fold_right (fun it s => (Z.max (spr_blocklen it) 0 + s)%Z) 0%Z trees.

(** the leaves that the postorder of the tree lists are sequence indices *)
Definition leaves_are_seqs `{TreeOps} (tree : LocalTree) (nseqs : Z) : Prop :=
  forall i, (0 <= i < nnodes tree)%Z ->
    is_leaf (nodes tree (get_postorder tree i)) = true ->
    (0 <= get_postorder tree i < nseqs)%Z.

(** ** Assumptions on the random sampler *)

(** [sample] of [common.h] returns an index of the weight array *)
Definition sampler_ok `{HmmOps} : Prop :=
  forall A n rng, (0 < n)%Z -> (0 <= fst (sample A n rng) < n)%Z.

(** the number of sites that a list of blocks covers *)
Definition blocks_len (blocks : list Block) : Z :=
  fold_right (fun b s => (blocklen b + s)%Z) 0%Z blocks.

(** ** The maximum traceback, as a specification *)

(** [m] is the first index that maximises [v] over [0 <= j < n] (index 0
    when there is none): no value is larger, the earlier ones are strictly
    smaller *)
Definition first_argmax (n : Z) (v : Z -> ereal) (m : Z) : Prop :=
  (0 <= m < Z.max n 1)%Z
  /\ (forall j, (0 <= j < n)%Z -> egtb (v j) (v m) = false)
  /\ (forall j, (0 <= j < m)%Z -> egtb (v m) (v j) = true).

(** the score of source state [j] at site [i] before destination [k] *)
Definition viterbi_score (tree : LocalTree) (states : States)
    (matrix : TransMatrix) (fw : arr (arr R)) (i k j : Z) : ereal :=
  eadd (elog (fw i j)) (get_log matrix tree states j k).

(** ** Well-formed inputs of the switch step *)

(** the indices of the operator are valid or [-1], and the two special
    sources are source states *)
Definition switch_sources_ok (matrix : TransMatrixSwitch) : Prop :=
  switch_wf matrix
  /\ (recombsrc matrix < Z.max (nstates1 matrix) 1)%Z
  /\ (recoalsrc matrix < Z.max (nstates1 matrix) 1)%Z.

(** the first [n] entries of a column are non-negative *)
Definition nonneg_on (n : Z) (col : arr R) : Prop :=
  forall k, (0 <= k < n)%Z -> 0 <= col k.

(** an operator of internal threading, for a tree that is fully given *)
Definition given_matrix : TransMatrix :=
  mkTransMatrix true 0 (fun _ _ _ _ _ => 1) (fun _ _ _ _ => 1)
                (fun _ _ _ _ => Fin 0).

(** ** Blocks on which the factored recurrence is exact *)


(** ** emit.cpp: ancestral sequences by parsimony *)

(** [int2dna] of [seq.h]: the character of a base index *)
Class SeqOps : Type := {
  int2dna : Z -> ascii
}.

(** [(s & 1) ? int2dna[0] : (s & 2) ? int2dna[1] : (s & 4) ? int2dna[2]
    : int2dna[3]]: the first base of a set *)
Definition first_base `{SeqOps} (s : Z) : ascii :=
  if negb (Z.land s 1 =? 0)%Z then int2dna 0
  else if negb (Z.land s 2 =? 0)%Z then int2dna 1
  else if negb (Z.land s 4 =? 0)%Z then int2dna 2
  else int2dna 3.

(** The sets of bases are bit masks ([char sets[nnodes]], bit [d] for base
    [d]).  [ancestral] is the output array; [postorder] may be a null
    pointer.  [None] when a leaf carries a character that is neither [N]
    nor one with a base index (the source then shifts by that index). *)
Definition parsimony_ancestral_seq `{TreeOps} `{SeqOps} `{Indet (arr Z)}
    (tree : LocalTree) (seqs : Seqs) (nseqs pos : Z) (ancestral : arr ascii)
    (postorder : option (arr Z)) : option (arr ascii) :=
  let sets := for_up 0 (nnodes tree) (fun node sets => upd sets node 0%Z)
                     indet in
  let postorder :=
    match postorder with
    | Some postorder => postorder
    | None => get_postorder tree
    end in
  match
    for_up 0 (nnodes tree)
      (fun i acc =>
         match acc with
         | None => None
         | Some sets =>
             let node := postorder i in
             if is_leaf (nodes tree node) then
               let c := seqs node pos in
               if is_N c then Some (upd sets node (1 + 2 + 4 + 8)%Z)
               else
                 let d := dna2int c in
                 if ((0 <=? d) && (d <? 4))%Z
                 then Some (upd sets node (Z.shiftl 1 d))
                 else None
             else
               let lset := sets (child0 (nodes tree node)) in
               let rset := sets (child1 (nodes tree node)) in
               let intersect := Z.land lset rset in
               if (intersect >? 0)%Z then Some (upd sets node intersect)
               else Some (upd sets node (Z.lor lset rset))
         end)
      (Some sets)
  with
  | None => None
  | Some sets =>
      let root := postorder (nnodes tree - 1)%Z in
      let rootset := sets root in
      let ancestral := upd ancestral root (first_base rootset) in
      Some
        (for_down 0 (nnodes tree - 1)
           (fun i ancestral =>
              let node := postorder i in
              let s := sets node in
              if (s =? 1)%Z then upd ancestral node (int2dna 0)
              else if (s =? 2)%Z then upd ancestral node (int2dna 1)
              else if (s =? 4)%Z then upd ancestral node (int2dna 2)
              else if (s =? 8)%Z then upd ancestral node (int2dna 3)
              else
                let pchar := ancestral (parent (nodes tree node)) in
                if negb (Z.land (dna2int pchar) s =? 0)%Z
                then upd ancestral node pchar
                else upd ancestral node (first_base s))
           ancestral)
  end.

(** the character is one of the four bases of [int2dna] *)
Definition is_base `{SeqOps} (c : ascii) : Prop :=
  exists d, (0 <= d < 4)%Z /\ c = int2dna d.

(** the parent of every node listed before the last position is listed
    after it *)
Definition parents_later (tree : LocalTree) (order : arr Z) : Prop :=
  forall i, (0 <= i < nnodes tree - 1)%Z ->
    exists i', (i < i' < nnodes tree)%Z
               /\ order i' = parent (nodes tree (order i)).

(** every leaf that the postorder lists carries a base or [N] at the
    site *)
Definition leaves_known `{TreeOps} (tree : LocalTree) (order : arr Z)
    (seqs : Seqs) (pos : Z) : Prop :=
  forall i, (0 <= i < nnodes tree)%Z ->
    is_leaf (nodes tree (order i)) = true ->
    is_N (seqs (order i) pos) = true
    \/ (0 <= dna2int (seqs (order i) pos) < 4)%Z.

(** the usual table of bases *)
Definition acgt : SeqOps := {|
  int2dna := fun d =>
    if (d =? 0)%Z then "A"%char
    else if (d =? 1)%Z then "C"%char
    else if (d =? 2)%Z then "G"%char
    else "T"%char
|}.

(** ** The sampling drivers *)

(** What the drivers use beside the collaborators of [HmmOps]:
    [State::is_null]; [ArgHmmMatrixIter], as the list of the blocks it
    yields for a model, optional sequences, the local trees, the new
    chromosome when one is passed, and the flag of [set_internal];
    [sample_recombinations] with its [internal] argument;
    [add_arg_thread_path]; [remove_arg_thread]. *)
Class ThreadOps `{HmmOps} : Type := {
  is_null : State -> bool;
  matrix_iter_setup :
    ArgModel -> option Sequences -> LocalTrees -> option Z -> bool
    -> list Block;
  sample_recombinations_internal :
    LocalTrees -> ArgModel -> list Block -> arr Z -> bool -> Rng -> Recombs;
  add_arg_thread_path : LocalTrees -> Z -> arr Z -> Recombs -> LocalTrees;
  remove_arg_thread : LocalTrees -> Z -> LocalTrees
}.

(** The result holds the new trees, the forward table and the thread path
    that was spliced in; [None] when an assertion of the forward pass or
    of the traceback fails. *)
Definition sample_arg_thread `{ThreadOps} `{Indet (arr R)}
    `{Indet (arr (arr R))} `{Indet (arr Z)}
    (model : ArgModel) (sequences : Sequences) (trees : LocalTrees)
    (new_chrom : Z) (rng : Rng)
    : option (LocalTrees * arr (arr R) * arr Z) :=
  let forward : arr (arr R) := indet in
  let thread_path : arr Z := indet in
  let matrix_iter :=
    matrix_iter_setup model (Some sequences) trees (Some new_chrom) false in
  match arghmm_forward_alg trees model (Some sequences) matrix_iter forward
                           false false false with
  | None => None
  | Some fw =>
      let matrix_iter2 :=
        matrix_iter_setup model None trees (Some new_chrom) false in
      match stochastic_traceback trees model matrix_iter2 fw thread_path
              false false rng with
      | None => None
      | Some (_, thread_path, rng) =>
          let recombs :=
            sample_recombinations trees model matrix_iter2 thread_path rng in
          Some (add_arg_thread trees (ntimes model) thread_path new_chrom
                               recombs,
                fw, thread_path)
      end
  end.

Definition sample_arg_thread_internal `{ThreadOps} `{Indet (arr R)}
    `{Indet (arr (arr R))} `{Indet (arr Z)}
    (model : ArgModel) (sequences : Sequences) (trees : LocalTrees)
    (rng : Rng) : option (LocalTrees * arr (arr R) * arr Z) :=
  let internal := true in
  let forward : arr (arr R) := indet in
  let thread_path : arr Z := indet in
  let matrix_iter :=
    matrix_iter_setup model (Some sequences) trees None internal in
  match arghmm_forward_alg trees model (Some sequences) matrix_iter forward
                           false internal false with
  | None => None
  | Some fw =>
      let matrix_iter2 := matrix_iter_setup model None trees None internal in
      match stochastic_traceback trees model matrix_iter2 fw thread_path
              false internal rng with
      | None => None
      | Some (_, thread_path, rng) =>
          let recombs :=
            sample_recombinations_internal trees model matrix_iter2
                                           thread_path internal rng in
          Some (add_arg_thread_path trees (ntimes model) thread_path recombs,
                fw, thread_path)
      end
  end.

(** [None] when the iterator has no block ([begin] then has no tree to
    give) or an assertion fails. *)
Definition cond_sample_arg_thread_internal `{ThreadOps} `{Indet (arr R)}
    `{Indet (arr (arr R))} `{Indet (arr Z)}
    (model : ArgModel) (sequences : Sequences) (trees : LocalTrees)
    (start_state end_state : State) (rng : Rng)
    : option (LocalTrees * arr (arr R) * arr Z) :=
  let fw : arr (arr R) := indet in
  let thread_path : arr Z := indet in
  let internal := true in
  let prior_given := true in
  let last_state_given := true in
  let matrix_iter :=
    matrix_iter_setup model (Some sequences) trees None internal in
  match matrix_iter with
  | [] => None
  | first :: _ =>
      let tree := block_tree first in
      let states := get_coal_states tree (ntimes model) internal in
      let fw := new_block fw (block_start first)
                          (block_start first + blocklen first)%Z
                          (size states) in
      match
        if (size states >? 0)%Z then
          if negb (is_null start_state) then
            let j := find_vector states start_state in
            if (j =? -1)%Z then None
            else
              let col := fw (start_coord trees) in
              let col :=
                for_up 0 (size states) (fun k col => upd col k 0) col in
              let col := upd col j 1 in
              Some (upd fw (start_coord trees) col, prior_given)
          else Some (fw, false)
        else Some (upd2 fw (start_coord trees) 0 1, prior_given)
      with
      | None => None
      | Some (fw, prior_given) =>
          match arghmm_forward_alg trees model (Some sequences) matrix_iter
                                   fw prior_given internal false with
          | None => None
          | Some fw =>
              let tree := block_tree (last matrix_iter first) in
              let states := get_coal_states tree (ntimes model) internal in
              match
                if (size states >? 0)%Z then
                  if negb (is_null end_state) then
                    let thread_path :=
                      upd thread_path (end_coord trees - 1)
                          (find_vector states end_state) in
                    if (thread_path (end_coord trees - 1)%Z =? -1)%Z
                    then None
                    else Some (thread_path, last_state_given)
                  else Some (thread_path, false)
                else Some (upd thread_path (end_coord trees - 1) 0%Z,
                           last_state_given)
              with
              | None => None
              | Some (thread_path, last_state_given) =>
                  let matrix_iter2 :=
                    matrix_iter_setup model None trees None internal in
                  match stochastic_traceback trees model matrix_iter2 fw
                          thread_path last_state_given internal rng with
                  | None => None
                  | Some (_, thread_path, rng) =>
                      if (if negb (is_null start_state) then
                            if Req_dec_T
                                 (fw (start_coord trees)
                                     (thread_path (start_coord trees)))
                                 1
                            then true else false
                          else true)
                      then
                        let recombs :=
                          sample_recombinations_internal trees model
                            matrix_iter2 thread_path internal rng in
                        Some (add_arg_thread_path trees (ntimes model)
                                                  thread_path recombs,
                              fw, thread_path)
                      else None
                  end
              end
          end
      end
  end.

Definition resample_arg_thread `{ThreadOps} `{Indet (arr R)}
    `{Indet (arr (arr R))} `{Indet (arr Z)}
    (model : ArgModel) (sequences : Sequences) (trees : LocalTrees)
    (chrom : Z) (rng : Rng) : option (LocalTrees * arr (arr R) * arr Z) :=
  let trees := remove_arg_thread trees chrom in
  sample_arg_thread model sequences trees chrom rng.

(** The loop of [arghmm_sample_posterior] that converts the state indices
    [ipath] to [(node, time)] pairs, on the blocks that the iterator of
    the local trees yields.  The [end] that the loop body declares is a
    variable of its own: the [end] declared before the loop keeps its
    first value, and [start] is read from it.  [None] when an index is
    outside the states of the tree at hand. *)
Definition arghmm_sample_posterior_convert `{HmmOps}
    (trees_start_coord : Z) (trees : list LocalTreeSpr) (ntimes : Z)
    (ipath : arr Z) (path : arr (Z * Z)) : option (arr (Z * Z)) :=
  let end_ := trees_start_coord in
  fold_left
    (fun acc it =>
       match acc with
       | None => None
       | Some path =>
           let start := end_ in
           let end_ := (start + spr_blocklen it)%Z in
           let states := get_coal_states (spr_tree it) ntimes false in
           for_up start end_
             (fun i acc =>
                match acc with
                | None => None
                | Some path =>
                    let istate := ipath i in
                    if ((0 <=? istate) && (istate <? size states))%Z then
                      Some (upd path i (node (st states istate),
                                        time (st states istate)))
                    else None
                end)
             (Some path)
       end)
    trees (Some path).

(** ** A second small instance: two states, several sites *)

(** a time grid of three times: the two states [(0, 0)] and [(0, 1)]
    above the root of [leaf_tree] *)
Definition duo_model : ArgModel := mkModel 3 (fun i => IZR i) 1 (1/10) 4.

(** one block of [len] sites over the tree of one chromosome, two states,
    unit emissions, no switch operator *)
Definition duo_block (start len : Z) : Block :=
  mkBlock start leaf_tree len 2 (toy_matrix 2) None (fun _ _ => 1).

(** as [toy_hmm], with the blocks of two states: one block that spans the
    region *)
Definition duo_hmm : HmmOps := {|
  LocalTrees := Z * Z;
  start_coord := fst;
  end_coord := snd;
  Sequences := unit;
  LineageCounts := unit;
  count_lineages := fun _ _ => tt;
  get_coal_states := fun tree ntimes _ => enum_states tree ntimes;
  lookup := fun states _ n t => find_vector states (mkState n t);
  get_local_model := fun model _ => model;
  calc_state_priors := fun states _ _ col _ =>
    for_up 0 (size states) (fun k col => upd col k (1 / IZR (size states)))
           col;
  Rng := unit;
  sample := fun A n rng => (first_positive A n, rng);
  matrix_list_setup := fun _ _ trees _ =>
    [duo_block (fst trees) (snd trees - fst trees)];
  Recombs := unit;
  sample_recombinations := fun _ _ _ _ _ => tt;
  add_arg_thread := fun trees _ _ _ _ => trees
|}.

(** the drivers' collaborators on that instance: one block that spans
    the region, no recombination, the trees left as they are *)
Definition duo_thread : @ThreadOps duo_hmm :=
  @Build_ThreadOps duo_hmm
    (fun s => ((node s =? -1) && (time s =? -1))%Z)
    (fun _ _ (trees : Z * Z) _ _ =>
       [duo_block (fst trees) (snd trees - fst trees)])
    (fun _ _ _ _ _ _ => tt)
    (fun (trees : Z * Z) _ _ _ => trees)
    (fun (trees : Z * Z) _ => trees).

(** a path buffer that holds no state *)
Definition minus_Z : Indet (arr Z) := fun _ => (-1)%Z.

(** the column [0, 1, 0, 0, ...] *)
Definition one_hot_1 : arr R := fun k => if (k =? 1)%Z then 1 else 0.

(** a switch from two states into an empty state space: both sources
    continue into the single entry *)
Definition merge_switch : TransMatrixSwitch :=
  mkSwitch 2 0 (-1) (-1) (fun _ => 0%Z) (fun _ => Fin 0)
    (fun _ => NegInf) (fun _ => NegInf) (fun _ _ => 1) (fun _ _ => Fin 0).

(** a switch from an empty state space into two states *)
Definition split_switch : TransMatrixSwitch :=
  mkSwitch 0 2 (-1) (-1) (fun _ => 0%Z) (fun _ => Fin (- ln 2))
    (fun _ => NegInf) (fun _ => NegInf) (fun _ _ => 1/2)
    (fun _ _ => Fin (- ln 2)).

(** ** The sum of the per-block counts *)

(** the sum of the counts of the blocks, each on the stretch of the
    sequences that starts where the block starts *)
Fixpoint noncompat_sum `{TreeOps} `{Indet (arr (arr Z))} (start : Z)
    (trees : list LocalTreeSpr) (seqs : Seqs) (nseqs : Z) : Z :=
  match trees with
  | [] => 0%Z
  | it :: rest =>
      (match count_noncompat (spr_tree it) (fun i => shift start (seqs i))
                             nseqs (spr_blocklen it) None with
       | Some n => n
       | None => 0%Z
       end
       + noncompat_sum (start + spr_blocklen it) rest seqs nseqs)%Z
  end.

(** three leaves (nodes 0, 1, 2): nodes 0 and 1 under node 3, node 3 and
    node 2 under the root 4; nodes are numbered in postorder *)
Definition trio_tree : LocalTree :=
  mkTree 5 4
    (fun i => if (i =? 4)%Z then mkNode (-1) 3 2 2
              else if (i =? 3)%Z then mkNode 4 0 1 1
              else if (i =? 2)%Z then mkNode 4 (-1) (-1) 0
              else mkNode 3 (-1) (-1) 0).

(** three chromosomes: all A at the even sites; A, C and G at the odd
    sites *)
Definition seqs_ACG : Seqs :=
  fun j p => if Z.even p then "A"%char
             else if (j =? 0)%Z then "A"%char
             else if (j =? 1)%Z then "C"%char else "G"%char.

(** * Properties *)

(** ** Loops *)

Lemma range_nil (lo hi : Z) : (hi <= lo)%Z -> range lo hi = [].
Proof.
  intros Hle. unfold range.
  replace (Z.to_nat (hi - lo)) with O by lia. reflexivity.
Qed.

Lemma range_snoc (lo hi : Z) :
  (lo <= hi)%Z -> range lo (hi + 1) = range lo hi ++ [hi].
Proof.
  intros Hle. unfold range.
  replace (Z.to_nat (hi + 1 - lo)) with (Z.to_nat (hi - lo) + 1)%nat by lia.
  rewrite seq_app, map_app. simpl.
  do 2 f_equal. lia.
Qed.

Lemma range_cons (lo hi : Z) :
  (lo < hi)%Z -> range lo hi = lo :: range (lo + 1) hi.
Proof.
  intros Hlt. unfold range.
  replace (Z.to_nat (hi - lo)) with (S (Z.to_nat (hi - (lo + 1)))) by lia.
  simpl. f_equal; [lia|].
  rewrite <- seq_shift, map_map.
  apply map_ext. intros i. lia.
Qed.

Lemma In_range (lo hi i : Z) : In i (range lo hi) <-> (lo <= i < hi)%Z.
Proof.
  unfold range. rewrite in_map_iff. split.
  - intros [n [Hn Hin]]. apply in_seq in Hin. lia.
  - intros Hi. exists (Z.to_nat (i - lo)). split; [lia|].
    apply in_seq. lia.
Qed.

Lemma for_up_nil {S : Type} (lo hi : Z) (body : Z -> S -> S) (s : S) :
  (hi <= lo)%Z -> for_up lo hi body s = s.
Proof. intros Hle. unfold for_up. rewrite range_nil by assumption. reflexivity. Qed.

Lemma for_up_snoc {S : Type} (lo hi : Z) (body : Z -> S -> S) (s : S) :
  (lo <= hi)%Z ->
  for_up lo (hi + 1) body s = body hi (for_up lo hi body s).
Proof.
  intros Hle. unfold for_up. rewrite range_snoc by assumption.
  rewrite fold_left_app. reflexivity.
Qed.

Lemma for_up_cons {S : Type} (lo hi : Z) (body : Z -> S -> S) (s : S) :
  (lo < hi)%Z ->
  for_up lo hi body s = for_up (lo + 1) hi body (body lo s).
Proof.
  intros Hlt. unfold for_up. rewrite range_cons by assumption. reflexivity.
Qed.

(** the invariant rule for two loops running in step *)
Lemma for_up_ind2 {S1 S2 : Type} (P : Z -> S1 -> S2 -> Prop) (lo hi : Z)
    (b1 : Z -> S1 -> S1) (b2 : Z -> S2 -> S2) (s1 : S1) (s2 : S2) :
  (lo <= hi)%Z ->
  P lo s1 s2 ->
  (forall i t1 t2, (lo <= i < hi)%Z -> P i t1 t2 ->
                   P (i + 1)%Z (b1 i t1) (b2 i t2)) ->
  P hi (for_up lo hi b1 s1) (for_up lo hi b2 s2).
Proof.
  intros Hle H0 Hstep.
  replace hi with (lo + Z.of_nat (Z.to_nat (hi - lo)))%Z by lia.
  assert (Hb : (Z.of_nat (Z.to_nat (hi - lo)) <= hi - lo)%Z) by lia.
  revert Hb. generalize (Z.to_nat (hi - lo)) as n.
  induction n as [|n IH]; intros Hb.
  - rewrite !for_up_nil by lia. replace (lo + Z.of_nat 0)%Z with lo by lia.
    exact H0.
  - replace (lo + Z.of_nat (S n))%Z with (lo + Z.of_nat n + 1)%Z by lia.
    rewrite !for_up_snoc by lia.
    apply Hstep; [lia|]. apply IH. lia.
Qed.

(** the invariant rule of a loop *)
Lemma for_up_ind {S : Type} (P : Z -> S -> Prop) (lo hi : Z)
    (body : Z -> S -> S) (s : S) :
  (lo <= hi)%Z ->
  P lo s ->
  (forall i t, (lo <= i < hi)%Z -> P i t -> P (i + 1)%Z (body i t)) ->
  P hi (for_up lo hi body s).
Proof.
  intros Hle H0 Hstep.
  apply (for_up_ind2 (fun i t _ => P i t) lo hi body (fun _ (u : unit) => u)
                     s tt); auto.
Qed.

(** an invariant that does not mention the counter; no bound is needed *)
Lemma for_up_inv {S : Type} (P : S -> Prop) (lo hi : Z)
    (body : Z -> S -> S) (s : S) :
  P s ->
  (forall i t, (lo <= i < hi)%Z -> P t -> P (body i t)) ->
  P (for_up lo hi body s).
Proof.
  intros H0 Hstep.
  destruct (Z_le_gt_dec lo hi) as [Hle|Hgt].
  - apply (for_up_ind (fun _ t => P t)); auto.
  - rewrite for_up_nil by lia. exact H0.
Qed.

Lemma for_up_ext {S : Type} (lo hi : Z) (b1 b2 : Z -> S -> S) (s : S) :
  (forall i t, (lo <= i < hi)%Z -> b1 i t = b2 i t) ->
  for_up lo hi b1 s = for_up lo hi b2 s.
Proof.
  intros Hext.
  destruct (Z_le_gt_dec lo hi) as [Hle|Hgt].
  - apply (for_up_ind2 (fun _ t1 t2 => t1 = t2)); auto.
    intros i t1 t2 Hi ->. apply Hext; assumption.
  - rewrite !for_up_nil by lia. reflexivity.
Qed.

Lemma upd_same {A : Type} (a : arr A) (i : Z) (v : A) : upd a i v i = v.
Proof. unfold upd. rewrite Z.eqb_refl. reflexivity. Qed.

Lemma upd_other {A : Type} (a : arr A) (i j : Z) (v : A) :
  j <> i -> upd a i v j = a j.
Proof. intros Hne. unfold upd. apply Z.eqb_neq in Hne. rewrite Hne. reflexivity. Qed.

(** a loop that stores [f i] (computed from the array so far) in cell [i] *)
Lemma for_up_upd {A : Type} (lo hi : Z) (f : Z -> arr A -> A) (a : arr A) (g : Z -> A) :
  (forall i t, (lo <= i < hi)%Z ->
     (forall j, (lo <= j < i)%Z -> t j = g j) ->
     (forall j, ~ (lo <= j < i)%Z -> t j = a j) -> f i t = g i) ->
  forall j, for_up lo hi (fun i t => upd t i (f i t)) a j
            = if ((lo <=? j) && (j <? hi))%Z then g j else a j.
Proof.
  intros Hf j.
  destruct (Z_le_gt_dec lo hi) as [Hle|Hgt].
  - assert (Hinv :
      (fun i t => (forall j, (lo <= j < i)%Z -> t j = g j)
                  /\ (forall j, ~ (lo <= j < i)%Z -> t j = a j))
        hi (for_up lo hi (fun i t => upd t i (f i t)) a)).
    { apply for_up_ind; [assumption| |].
      - split; [intros; lia | reflexivity].
      - intros i t Hi [H1 H2]. split; intros j' Hj'.
        + destruct (Z.eq_dec j' i) as [->|Hne].
          * rewrite upd_same. apply Hf; assumption.
          * rewrite upd_other by assumption. apply H1. lia.
        + rewrite upd_other by lia. apply H2. lia. }
    destruct Hinv as [H1 H2].
    destruct ((lo <=? j) && (j <? hi))%Z eqn:E.
    + apply H1. lia.
    + apply H2. lia.
  - rewrite for_up_nil by lia.
    replace ((lo <=? j) && (j <? hi))%Z with false by lia. reflexivity.
Qed.

(** ** Sums *)

Lemma sumZ_nil (lo hi : Z) (f : Z -> R) : (hi <= lo)%Z -> sumZ lo hi f = 0.
Proof. intros. unfold sumZ. apply for_up_nil. assumption. Qed.

Lemma sumZ_snoc (lo hi : Z) (f : Z -> R) :
  (lo <= hi)%Z -> sumZ lo (hi + 1) f = sumZ lo hi f + f hi.
Proof. intros. unfold sumZ. rewrite for_up_snoc by assumption. reflexivity. Qed.

Lemma for_up_acc (lo hi : Z) (f : Z -> R) (s : R) :
  for_up lo hi (fun i acc => acc + f i) s = s + sumZ lo hi f.
Proof.
  destruct (Z_le_gt_dec lo hi) as [Hle|Hgt].
  - unfold sumZ.
    apply (for_up_ind2 (fun _ x y => x = s + y)); [assumption|lra|].
    intros i t1 t2 _ ->. lra.
  - rewrite sumZ_nil, for_up_nil by lia. lra.
Qed.

Lemma sumZ_ext (lo hi : Z) (f g : Z -> R) :
  (forall i, (lo <= i < hi)%Z -> f i = g i) -> sumZ lo hi f = sumZ lo hi g.
Proof.
  intros Hext. unfold sumZ. apply for_up_ext.
  intros i t Hi. rewrite Hext by assumption. reflexivity.
Qed.

Lemma sumZ_cons (lo hi : Z) (f : Z -> R) :
  (lo < hi)%Z -> sumZ lo hi f = f lo + sumZ (lo + 1) hi f.
Proof.
  intros Hlt. unfold sumZ at 1. rewrite for_up_cons by assumption.
  rewrite for_up_acc. lra.
Qed.

Lemma sumZ_zero (lo hi : Z) (f : Z -> R) :
  (forall i, (lo <= i < hi)%Z -> f i = 0) -> sumZ lo hi f = 0.
Proof.
  intros Hz. unfold sumZ.
  apply (for_up_inv (fun x => x = 0)); [reflexivity|].
  intros i t Hi ->. rewrite Hz by assumption. lra.
Qed.

Lemma Zup_ind (P : Z -> Prop) (lo : Z) :
  P lo -> (forall i, (lo <= i)%Z -> P i -> P (i + 1)%Z) ->
  forall hi, (lo <= hi)%Z -> P hi.
Proof.
  intros H0 Hstep hi Hle.
  replace hi with (lo + Z.of_nat (Z.to_nat (hi - lo)))%Z by lia.
  generalize (Z.to_nat (hi - lo)) as n.
  induction n as [|n IH].
  - replace (lo + Z.of_nat 0)%Z with lo by lia. exact H0.
  - replace (lo + Z.of_nat (S n))%Z with (lo + Z.of_nat n + 1)%Z by lia.
    apply Hstep; [lia|exact IH].
Qed.

Lemma sumZ_plus (lo hi : Z) (f g : Z -> R) :
  sumZ lo hi (fun i => f i + g i) = sumZ lo hi f + sumZ lo hi g.
Proof.
  destruct (Z_le_gt_dec lo hi) as [Hle|Hgt].
  - revert hi Hle. apply Zup_ind.
    + rewrite !sumZ_nil by lia. lra.
    + intros i Hi IH. rewrite !sumZ_snoc by assumption. lra.
  - rewrite !sumZ_nil by lia. lra.
Qed.

Lemma sumZ_scal (lo hi : Z) (c : R) (f : Z -> R) :
  sumZ lo hi (fun i => c * f i) = c * sumZ lo hi f.
Proof.
  destruct (Z_le_gt_dec lo hi) as [Hle|Hgt].
  - revert hi Hle. apply Zup_ind.
    + rewrite !sumZ_nil by lia. lra.
    + intros i Hi IH. rewrite !sumZ_snoc by assumption. lra.
  - rewrite !sumZ_nil by lia. lra.
Qed.

Lemma sumZ_split (lo mid hi : Z) (f : Z -> R) :
  (lo <= mid <= hi)%Z -> sumZ lo hi f = sumZ lo mid f + sumZ mid hi f.
Proof.
  intros [Hlo Hhi]. revert hi Hhi. apply Zup_ind.
  - rewrite (sumZ_nil mid mid) by lia. lra.
  - intros i Hi IH. rewrite !sumZ_snoc by lia. lra.
Qed.

Lemma sumZ_swap (lo1 hi1 lo2 hi2 : Z) (f : Z -> Z -> R) :
  sumZ lo1 hi1 (fun i => sumZ lo2 hi2 (fun j => f i j))
  = sumZ lo2 hi2 (fun j => sumZ lo1 hi1 (fun i => f i j)).
Proof.
  destruct (Z_le_gt_dec lo1 hi1) as [Hle|Hgt].
  - revert hi1 Hle. apply Zup_ind.
    + rewrite sumZ_nil by lia. symmetry. apply sumZ_zero.
      intros j _. apply sumZ_nil. lia.
    + intros i Hi IH. rewrite sumZ_snoc by assumption. rewrite IH.
      rewrite <- sumZ_plus. apply sumZ_ext.
      intros j _. rewrite sumZ_snoc by assumption. reflexivity.
  - rewrite sumZ_nil by lia. symmetry. apply sumZ_zero.
    intros j _. apply sumZ_nil. lia.
Qed.

(** a sum that picks one index *)
Lemma sumZ_pick (lo hi x : Z) (f : Z -> R) :
  (lo <= x < hi)%Z ->
  sumZ lo hi (fun a => if (x =? a)%Z then f a else 0) = f x.
Proof.
  intros Hx.
  rewrite (sumZ_split lo x hi) by lia.
  rewrite (sumZ_cons x hi) by lia.
  rewrite Z.eqb_refl.
  rewrite !sumZ_zero; [lra| |].
  - intros i Hi. destruct (Z.eqb_spec x i); [lia|reflexivity].
  - intros i Hi. destruct (Z.eqb_spec x i); [lia|reflexivity].
Qed.

(** a sum restricted to a sub-interval *)
Lemma sumZ_interval (lo hi p q : Z) (f : Z -> R) :
  (lo <= p <= q)%Z -> (q <= hi)%Z ->
  sumZ lo hi (fun j => if ((p <=? j) && (j <? q))%Z then f j else 0)
  = sumZ p q f.
Proof.
  intros Hp Hq.
  rewrite (sumZ_split lo p hi) by lia.
  rewrite (sumZ_split p q hi) by lia.
  rewrite (sumZ_zero lo p), (sumZ_zero q hi).
  - rewrite (sumZ_ext p q _ f); [lra|].
    intros j Hj. replace ((p <=? j) && (j <? q))%Z with true by lia.
    reflexivity.
  - intros j Hj. replace ((p <=? j) && (j <? q))%Z with false by lia.
    reflexivity.
  - intros j Hj. replace ((p <=? j) && (j <? q))%Z with false by lia.
    reflexivity.
Qed.

(** reindexing a sum *)
Lemma sumZ_shift (lo hi d : Z) (f : Z -> R) :
  sumZ (lo + d) (hi + d) f = sumZ lo hi (fun i => f (i + d)%Z).
Proof.
  destruct (Z_le_gt_dec lo hi) as [Hle|Hgt].
  - revert hi Hle. apply Zup_ind.
    + rewrite !sumZ_nil by lia. reflexivity.
    + intros i Hi IH.
      replace (i + 1 + d)%Z with (i + d + 1)%Z by lia.
      rewrite !sumZ_snoc by lia. rewrite IH. reflexivity.
  - rewrite !sumZ_nil by lia. reflexivity.
Qed.

(** ** Pruning pass: independence of the indeterminate table contents *)

Lemma upd2_eq {A : Type} (t : arr (arr A)) (i k : Z) (v : A) (n a : Z) :
  upd2 t i k v n a
  = if (n =? i)%Z then (if (a =? k)%Z then v else t i a) else t n a.
Proof.
  unfold upd2, upd. destruct (n =? i)%Z; reflexivity.
Qed.

Lemma upd2_same_row {A : Type} (t : arr (arr A)) (i k : Z) (v : A) :
  upd2 t i k v i = upd (t i) k v.
Proof. unfold upd2. apply upd_same. Qed.

Lemma upd2_other_row {A : Type} (t : arr (arr A)) (i k : Z) (v : A) (n : Z) :
  n <> i -> upd2 t i k v n = t n.
Proof. intros Hne. unfold upd2. apply upd_other. assumption. Qed.

Lemma agree_weaken (S S' : Z -> Prop) (T T' : lk_table) :
  (forall n, S' n -> S n) -> agree S T T' -> agree S' T T'.
Proof. intros Hsub Hag n a Hn Ha. apply Hag; auto. Qed.

Lemma node_inner_agree `{TreeOps} (tree : LocalTree) (j : Z) (seqs : Seqs)
    (pos : Z) (muts nomuts muts' nomuts' : arr R) (S : Z -> Prop)
    (T T' : lk_table) :
  agree S T T' ->
  (is_leaf (nodes tree j) = false ->
   forall c, c = child0 (nodes tree j) \/ c = child1 (nodes tree j) ->
             S c /\ muts c = muts' c /\ nomuts c = nomuts' c) ->
  agree (fun n => S n \/ n = j)
        (likelihood_site_node_inner tree j seqs pos muts nomuts T)
        (likelihood_site_node_inner tree j seqs pos muts' nomuts' T').
Proof.
  intros Hag Hch. unfold likelihood_site_node_inner.
  destruct (is_leaf (nodes tree j)) eqn:Hleaf.
  - (* leaf: the row is set from the observed base *)
    destruct (is_N (seqs j pos));
      intros n a Hn Ha;
      (destruct (Z.eq_dec n j) as [->|Hne];
       [ rewrite !upd2_same_row;
         assert (Hcases : a = 0%Z \/ a = 1%Z \/ a = 2%Z \/ a = 3%Z) by lia;
         destruct Hcases as [-> | [-> | [-> | ->]]]; unfold upd; simpl;
         reflexivity
       | rewrite !upd2_other_row by assumption;
         destruct Hn as [Hn|Hn]; [apply Hag; assumption | contradiction] ]).
  - (* internal node: four entries, each from the rows of the children *)
    destruct (Hch eq_refl _ (or_introl eq_refl)) as [Hc1 [Hm1 Hn1]].
    destruct (Hch eq_refl _ (or_intror eq_refl)) as [Hc2 [Hm2 Hn2]].
    set (c1 := child0 (nodes tree j)) in *.
    set (c2 := child1 (nodes tree j)) in *.
    pose (P := fun (a : Z) (U U' : lk_table) =>
                 agree S U U'
                 /\ forall a', (0 <= a' < a)%Z -> U j a' = U' j a').
    match goal with
    | |- agree _ ?X ?Y => assert (Hinv : P 4%Z X Y)
    end.
    { apply (for_up_ind2 P); [lia | split; [assumption | intros; lia] |].
      intros a U U' Ha [HagU Hdone].
      assert (Hp :
        for_up 0 4
          (fun b '(p1, p2) =>
             if (a =? b)%Z then
               (p1 + U c1 b * nomuts c1, p2 + U c2 b * nomuts c2)
             else (p1 + U c1 b * muts c1, p2 + U c2 b * muts c2))
          (0, 0)
        = for_up 0 4
            (fun b '(p1, p2) =>
               if (a =? b)%Z then
                 (p1 + U' c1 b * nomuts' c1, p2 + U' c2 b * nomuts' c2)
               else (p1 + U' c1 b * muts' c1, p2 + U' c2 b * muts' c2))
            (0, 0)).
      { apply for_up_ext. intros b [p1 p2] Hb.
        rewrite (HagU c1 b Hc1 Hb), (HagU c2 b Hc2 Hb).
        rewrite Hm1, Hm2, Hn1, Hn2. reflexivity. }
      unfold P. rewrite Hp. clear Hp.
      destruct (for_up 0 4 _ (0, 0)) as [p1 p2].
      split.
      - intros n a0 Hn Ha0. rewrite !upd2_eq.
        destruct (n =? j)%Z eqn:Enj.
        + apply Z.eqb_eq in Enj. subst n.
          destruct (a0 =? a)%Z; [reflexivity | apply HagU; assumption].
        + apply HagU; assumption.
      - intros a' Ha'. rewrite !upd2_eq, Z.eqb_refl.
        destruct (Z.eqb_spec a' a); [reflexivity | apply Hdone; lia]. }
    destruct Hinv as [HagU Hdone].
    intros n a [Hn | ->] Ha; [apply HagU; assumption | apply Hdone; assumption].
Qed.

(** the invariant rule without a bound: the loop ends at [max lo hi] *)
Lemma for_up_indm {S : Type} (P : Z -> S -> Prop) (lo hi : Z)
    (body : Z -> S -> S) (s : S) :
  P lo s ->
  (forall i t, (lo <= i < hi)%Z -> P i t -> P (i + 1)%Z (body i t)) ->
  P (Z.max lo hi) (for_up lo hi body s).
Proof.
  intros H0 Hstep.
  destruct (Z_le_gt_dec lo hi) as [Hle|Hgt].
  - rewrite Z.max_r by assumption. apply for_up_ind; assumption.
  - rewrite Z.max_l by lia. rewrite for_up_nil by lia. exact H0.
Qed.

Lemma site_inner_agree `{TreeOps} (tree : LocalTree) (seqs : Seqs) (pos : Z)
    (order : arr Z) (norder : Z) (muts nomuts muts' nomuts' : arr R)
    (T T' : lk_table) :
  (exists i, (0 <= i < norder)%Z /\ order i = root tree) ->
  (forall i, (0 <= i < norder)%Z ->
     is_leaf (nodes tree (order i)) = false ->
     forall c, c = child0 (nodes tree (order i))
               \/ c = child1 (nodes tree (order i)) ->
       muts c = muts' c /\ nomuts c = nomuts' c
       /\ exists i', (0 <= i' < i)%Z /\ order i' = c) ->
  fst (likelihood_site_inner tree seqs pos order norder muts nomuts T)
  = fst (likelihood_site_inner tree seqs pos order norder muts' nomuts' T').
Proof.
  intros [ir [Hir Hroot]] Hord.
  unfold likelihood_site_inner. simpl.
  pose (P := fun (i : Z) (U U' : lk_table) =>
               agree (fun n => exists i', (0 <= i' < i)%Z /\ order i' = n)
                     U U').
  set (X := for_up 0 norder _ T).
  set (Y := for_up 0 norder _ T').
  assert (Hinv : P norder X Y).
  { subst X Y. apply (for_up_ind2 P); [lia | |].
    - intros n a [i' [Hi' _]]. lia.
    - intros i U U' Hi HagU.
      eapply agree_weaken;
        [| apply (node_inner_agree tree (order i) seqs pos muts nomuts
                    muts' nomuts' _ U U' HagU)].
      + intros n [i' [Hi' Hn]].
        destruct (Z.eq_dec i' i) as [->|Hne]; [right; congruence|].
        left. exists i'. split; [lia|assumption].
      + intros Hleaf c Hc.
        destruct (Hord i Hi Hleaf c Hc) as [Hm [Hn Hex]].
        split; [exact Hex | split; assumption]. }
  apply for_up_ext. intros a p Ha.
  rewrite (Hinv (root tree) a); [reflexivity | | assumption].
  exists ir. split; assumption.
Qed.

(** the mutation tables and the tree length of [likelihood_sites] *)
Lemma tree_mutation_len_spec `{Indet (arr R)} (tree : LocalTree)
    (model : ArgModel) :
  let r := tree_mutation_len tree model in
  (forall i, (0 <= i < nnodes tree)%Z -> i <> root tree ->
     fst (fst r) i = branch_prob tree model true i
     /\ snd (fst r) i = branch_prob tree model false i)
  /\ snd r = floored_treelen tree model.
Proof.
  unfold tree_mutation_len, floored_treelen.
  pose (P := fun (i : Z) (s : arr R * arr R * R) =>
      (forall i', (0 <= i' < i)%Z -> i' <> root tree ->
         fst (fst s) i' = branch_prob tree model true i'
         /\ snd (fst s) i' = branch_prob tree model false i')
      /\ snd s
         = sumZ 0 i
             (fun i =>
                if (i =? root tree)%Z then 0
                else Rmax (times model
                             (age (nodes tree (parent (nodes tree i))))
                           - times model (age (nodes tree i)))
                          (mintime model))).
  set (X := for_up 0 (nnodes tree) _ _).
  assert (Hinv : P (Z.max 0 (nnodes tree)) X).
  { subst X. apply (for_up_indm P).
    - split; [intros; lia | rewrite sumZ_nil by lia; reflexivity].
    - intros i [[muts nomuts] treelen] Hi [Hm Hl].
      unfold P. rewrite sumZ_snoc by lia. simpl in Hm, Hl.
      destruct (Z.eqb_spec i (root tree)) as [Heq|Hne]; simpl.
      + split; [|lra]. intros i' Hi' Hr. apply Hm; lia.
      + split; [|lra]. intros i' Hi' Hr.
        destruct (Z.eq_dec i' i) as [->|Hne'].
        * rewrite !upd_same. split; reflexivity.
        * rewrite !upd_other by assumption. apply Hm; lia. }
  destruct Hinv as [Hm Hl]. simpl. split.
  - intros i Hi Hr. apply Hm; lia.
  - rewrite Hl.
    destruct (Z_le_gt_dec 0 (nnodes tree)).
    + rewrite Z.max_r by assumption. reflexivity.
    + rewrite !sumZ_nil by lia. reflexivity.
Qed.

(** ** [likelihood_sites] over the full postorder *)

Lemma site_likelihood_any_table `{TreeOps} `{Indet (arr R)}
    (tree : LocalTree) (model : ArgModel) (seqs : Seqs) (pos : Z)
    (T : lk_table) :
  postorder_ok tree ->
  fst (likelihood_site_inner tree seqs pos (get_postorder tree)
         (nnodes tree) (fst (fst (tree_mutation_len tree model)))
         (snd (fst (tree_mutation_len tree model))) T)
  = site_likelihood tree model seqs pos.
Proof.
  intros [Hroot Hord].
  destruct (tree_mutation_len_spec tree model) as [Hm _].
  unfold site_likelihood. apply site_inner_agree; [exact Hroot|].
  intros i0 Hi0 Hleaf c Hc.
  destruct (Hord i0 Hi0 Hleaf c Hc) as [Hcr [Hcn Hex]].
  destruct (Hm c Hcr Hcn) as [Hm1 Hm2].
  split; [exact Hm1 | split; [exact Hm2 | exact Hex]].
Qed.

Lemma likelihood_sites_full `{TreeOps} `{Indet (arr R)} `{Indet (arr Z)}
    `{Indet (arr bool)} (tree : LocalTree) (model : ArgModel) (seqs : Seqs)
    (seqlen statei : Z) (invariant : arr bool) (emit : arr (arr R))
    (table : arr lk_table) :
  exists emit' table',
    likelihood_sites tree model seqs seqlen statei (Some invariant)
                     emit table (-1) (-1) = Some (emit', table')
    /\ (forall i k, ~ ((0 <= i < seqlen)%Z /\ k = statei) ->
          emit' i k = emit i k)
    /\ (forall i, (0 <= i < seqlen)%Z -> invariant i = true ->
          emit' i statei
          = (1/4) * exp (- mu model * Rmax (floored_treelen tree model)
                                          (mintime model)))
    /\ (postorder_ok tree ->
        forall i, (0 <= i < seqlen)%Z -> invariant i = false ->
          emit' i statei = site_likelihood tree model seqs i).
Proof.
  unfold likelihood_sites.
  replace (-1 =? -1)%Z with true by reflexivity.
  pose proof (tree_mutation_len_spec tree model) as Hml.
  pose proof (fun pos T => site_likelihood_any_table tree model seqs pos T)
    as Hany.
  destruct (tree_mutation_len tree model) as [[muts nomuts] treelen].
  simpl in Hml. cbn [fst snd] in Hany.
  destruct Hml as [Hm Hl]. subst treelen.
  cbv beta iota.
  set (lk := (1/4) * exp (- mu model * Rmax (floored_treelen tree model)
                                           (mintime model))).
  pose (P := fun (i : Z) (s : arr (arr R) * arr lk_table) =>
      (forall i' k, ~ ((0 <= i' < i)%Z /\ k = statei) ->
         fst s i' k = emit i' k)
      /\ (forall i', (0 <= i' < i)%Z ->
            (invariant i' = true -> fst s i' statei = lk)
            /\ (postorder_ok tree -> invariant i' = false ->
                fst s i' statei = site_likelihood tree model seqs i'))).
  match goal with
  | |- context [for_up 0 seqlen ?b (emit, table)] =>
      set (X := for_up 0 seqlen b (emit, table))
  end.
  assert (Hinv : P (Z.max 0 seqlen) X).
  { subst X. apply (for_up_indm P).
    - split; [reflexivity | intros; lia].
    - intros i [e t] Hi [Hframe Hval]. simpl in Hframe, Hval.
      unfold P.
      destruct (invariant i) eqn:Einv.
      + simpl. split.
        * intros i' k Hn. rewrite upd2_eq.
          destruct (Z.eqb_spec i' i) as [->|Hne]; [|apply Hframe; lia].
          destruct (Z.eqb_spec k statei) as [->|Hnk]; [lia|].
          apply Hframe. lia.
        * intros i' Hi'. rewrite upd2_eq.
          destruct (Z.eqb_spec i' i) as [->|Hne].
          -- rewrite Z.eqb_refl, Einv. split; [reflexivity | discriminate].
          -- apply Hval. lia.
      + specialize (Hany i (t i)).
        destruct (likelihood_site_inner tree seqs i (get_postorder tree)
                    (nnodes tree) muts nomuts (t i)) as [p ti] eqn:Esi.
        cbn [fst] in Hany. simpl. split.
        * intros i' k Hn. rewrite upd2_eq.
          destruct (Z.eqb_spec i' i) as [->|Hne]; [|apply Hframe; lia].
          destruct (Z.eqb_spec k statei) as [->|Hnk]; [lia|].
          apply Hframe. lia.
        * intros i' Hi'. rewrite upd2_eq.
          destruct (Z.eqb_spec i' i) as [->|Hne].
          -- rewrite Z.eqb_refl, Einv.
             split; [discriminate | intros Hok _; apply Hany; exact Hok].
          -- apply Hval. lia. }
  destruct X as [e' t']. exists e', t'.
  destruct Hinv as [Hframe Hval]. simpl in Hframe, Hval.
  split; [reflexivity | split; [| split]].
  - intros i k Hn. apply Hframe. lia.
  - intros i Hi. apply Hval. lia.
  - intros Hok i Hi. apply Hval; [lia | exact Hok].
Qed.

(** ** Invariant sites *)

Lemma negb_existsb_negb {A : Type} (p : A -> bool) (l : list A) :
  negb (existsb (fun x => negb (p x)) l) = forallb p l.
Proof.
  induction l as [|x l IH]; simpl; [reflexivity|].
  rewrite negb_orb, negb_involutive, IH. reflexivity.
Qed.

Lemma find_invariant_sites_spec (seqs : Seqs) (nseqs seqlen : Z)
    (invariant : arr bool) (i : Z) :
  (0 <= i < seqlen)%Z ->
  find_invariant_sites seqs nseqs seqlen invariant i
  = is_invariant_site seqs nseqs i.
Proof.
  intros Hi. unfold find_invariant_sites.
  rewrite (for_up_upd 0 seqlen
             (fun i _ =>
                negb (existsb (fun j => negb (Ascii.eqb (seqs j i)
                                                        (seqs 0%Z i)))
                              (range 1 nseqs)))
             invariant (is_invariant_site seqs nseqs)).
  - replace ((0 <=? i) && (i <? seqlen))%Z with true by lia. reflexivity.
  - intros i0 t _ _ _. apply negb_existsb_negb.
Qed.

Lemma is_invariant_site_iff (seqs : Seqs) (nseqs pos : Z) :
  is_invariant_site seqs nseqs pos = true <-> invariant_site seqs nseqs pos.
Proof.
  unfold is_invariant_site, invariant_site. rewrite forallb_forall. split.
  - intros Hall j Hj. apply Ascii.eqb_eq. apply Hall. apply In_range. lia.
  - intros Hall j Hj. apply Ascii.eqb_eq. apply Hall. apply In_range in Hj.
    lia.
Qed.

(** ** The emission tables of external threading, entry by entry *)

Lemma emission_base_tree_succ `{TreeOps} (states : States) (tree : LocalTree)
    (j : Z) :
  (0 <= j)%Z ->
  emission_base_tree states tree (j + 1)
  = remove_tree_branch (emission_tree states tree j) (get_num_leaves tree).
Proof.
  intros Hj. unfold emission_base_tree at 1.
  rewrite for_up_snoc by assumption. reflexivity.
Qed.

Lemma calc_emissions_spec `{TreeOps} `{Indet (arr R)} `{Indet (arr Z)}
    `{Indet (arr bool)} `{Indet (arr lk_table)}
    (states : States) (tree : LocalTree) (seqs : Seqs) (nseqs seqlen : Z)
    (model : ArgModel) (emit : arr (arr R)) :
  exists emit',
    calc_emissions states tree seqs nseqs seqlen model emit = Some emit'
    /\ forall i j, (0 <= i < seqlen)%Z -> (0 <= j < size states)%Z ->
         is_invariant_site seqs nseqs i = true
         \/ postorder_ok (emission_tree states tree j) ->
         emit' i j = emission_value states tree seqs nseqs model i j.
Proof.
  unfold calc_emissions.
  pose (P := fun (j : Z) (acc : option emis_state) =>
      exists s, acc = Some s
        /\ es_tree2 s = emission_base_tree states tree j
        /\ forall i j', (0 <= i < seqlen)%Z -> (0 <= j' < j)%Z ->
             is_invariant_site seqs nseqs i = true
             \/ postorder_ok (emission_tree states tree j') ->
             es_emit s i j'
             = emission_value states tree seqs nseqs model i j').
  match goal with
  | |- context [for_up 0 (size states) ?b ?s0] =>
      set (X := for_up 0 (size states) b s0)
  end.
  assert (Hinv : P (size states) X).
  { subst X. apply (for_up_ind P); [unfold size; lia | |].
    - eexists. split; [reflexivity|]. split; [reflexivity|]. intros; lia.
    - intros j acc Hj [s [-> [Htree Hval]]].
      rewrite Htree. fold (emission_tree states tree j).
      destruct (likelihood_sites_full (emission_tree states tree j) model
                  seqs seqlen j
                  (find_invariant_sites seqs nseqs seqlen indet)
                  (es_emit s) (es_table s))
        as [e' [t' [Hls [Hframe [Hinvar Hvar]]]]].
      rewrite Hls.
      eexists. split; [reflexivity|]. simpl. split.
      + symmetry. apply emission_base_tree_succ. lia.
      + intros i j' Hi Hj' Hcase.
        destruct (Z.eq_dec j' j) as [->|Hne].
        * unfold emission_value.
          destruct (is_invariant_site seqs nseqs i) eqn:Einv.
          -- apply Hinvar; [assumption|].
             rewrite find_invariant_sites_spec by assumption. exact Einv.
          -- destruct Hcase as [Hc|Hc]; [discriminate|].
             apply Hvar; [exact Hc | assumption |].
             rewrite find_invariant_sites_spec by assumption. exact Einv.
        * rewrite Hframe by lia. apply Hval; [assumption | lia | exact Hcase]. }
  destruct Hinv as [s [-> [_ Hval]]].
  exists (es_emit s). split; [reflexivity|exact Hval].
Qed.

Lemma calc_emissions_slow_spec `{TreeOps} `{Indet (arr R)} `{Indet (arr Z)}
    `{Indet (arr bool)} `{Indet (arr lk_table)}
    (states : States) (tree : LocalTree) (seqs : Seqs) (nseqs seqlen : Z)
    (model : ArgModel) (emit : arr (arr R)) :
  exists emit',
    calc_emissions_slow states tree seqs nseqs seqlen model emit = Some emit'
    /\ forall i j, (0 <= i < seqlen)%Z -> (0 <= j < size states)%Z ->
         is_invariant_site seqs nseqs i = true
         \/ postorder_ok (emission_tree states tree j) ->
         emit' i j = emission_value states tree seqs nseqs model i j.
Proof.
  unfold calc_emissions_slow.
  pose (P := fun (j : Z)
                 (acc : option (LocalTree * arr (arr R) * arr lk_table)) =>
      exists tree2 e t, acc = Some (tree2, e, t)
        /\ tree2 = emission_base_tree states tree j
        /\ forall i j', (0 <= i < seqlen)%Z -> (0 <= j' < j)%Z ->
             is_invariant_site seqs nseqs i = true
             \/ postorder_ok (emission_tree states tree j') ->
             e i j' = emission_value states tree seqs nseqs model i j').
  match goal with
  | |- context [for_up 0 (size states) ?b ?s0] =>
      set (X := for_up 0 (size states) b s0)
  end.
  assert (Hinv : P (size states) X).
  { subst X. apply (for_up_ind P); [unfold size; lia | |].
    - do 3 eexists. split; [reflexivity|]. split; [reflexivity|].
      intros; lia.
    - intros j acc Hj [tree2 [e [t [-> [-> Hval]]]]].
      fold (emission_tree states tree j).
      destruct (likelihood_sites_full (emission_tree states tree j) model
                  seqs seqlen j
                  (find_invariant_sites seqs nseqs seqlen indet)
                  e t)
        as [e' [t' [Hls [Hframe [Hinvar Hvar]]]]].
      rewrite Hls.
      do 3 eexists. split; [reflexivity|]. split.
      + symmetry. apply emission_base_tree_succ. lia.
      + intros i j' Hi Hj' Hcase.
        destruct (Z.eq_dec j' j) as [->|Hne].
        * unfold emission_value.
          destruct (is_invariant_site seqs nseqs i) eqn:Einv.
          -- apply Hinvar; [assumption|].
             rewrite find_invariant_sites_spec by assumption. exact Einv.
          -- destruct Hcase as [Hc|Hc]; [discriminate|].
             apply Hvar; [exact Hc | assumption |].
             rewrite find_invariant_sites_spec by assumption. exact Einv.
        * rewrite Hframe by lia. apply Hval; [assumption | lia | exact Hcase]. }
  destruct Hinv as [tree2 [e [t [-> [_ Hval]]]]].
  exists e. split; [reflexivity|exact Hval].
Qed.

Lemma fequal_refl (f rel eabs : R) : 0 <= eabs -> fequal f f rel eabs.
Proof.
  intros Hpos. left. rewrite Rminus_diag, Rabs_R0. exact Hpos.
Qed.

(** ** Fast and slow emissions agree *)

(** C1. For every state set, tree, sequences and model, [calc_emissions]
    and [calc_emissions_slow] both return, and at every site [i] and state
    [j] their values are equal, hence within the relative tolerance 1e-4
    or the absolute tolerance 1e-12.  The two calls may start from
    different indeterminate tables and output buffers; the postorder of
    each threaded tree is assumed to list children before parents. *)
Theorem calc_emissions_agrees_with_slow (ops : TreeOps)
    (R1 : Indet (arr R)) (Z1 : Indet (arr Z)) (B1 : Indet (arr bool))
    (T1 : Indet (arr lk_table))
    (R2 : Indet (arr R)) (Z2 : Indet (arr Z)) (B2 : Indet (arr bool))
    (T2 : Indet (arr lk_table))
    (states : States) (tree : LocalTree) (seqs : Seqs) (nseqs seqlen : Z)
    (model : ArgModel) (emit1 emit2 : arr (arr R)) :
  (forall j, (0 <= j < size states)%Z ->
             postorder_ok (emission_tree states tree j)) ->
  exists e1 e2,
    @calc_emissions ops R1 Z1 B1 T1 states tree seqs nseqs seqlen model emit1
    = Some e1
    /\ @calc_emissions_slow ops R2 Z2 B2 T2 states tree seqs nseqs seqlen
                            model emit2
       = Some e2
    /\ forall i j, (0 <= i < seqlen)%Z -> (0 <= j < size states)%Z ->
         e1 i j = e2 i j
         /\ fequal (e1 i j) (e2 i j) (1 / 10000) (1 / 1000000000000).
Proof.
  intros Hok.
  destruct (@calc_emissions_spec ops R1 Z1 B1 T1 states tree seqs nseqs
              seqlen model emit1) as [e1 [He1 Hv1]].
  destruct (@calc_emissions_slow_spec ops R2 Z2 B2 T2 states tree seqs nseqs
              seqlen model emit2) as [e2 [He2 Hv2]].
  exists e1, e2. split; [exact He1 | split; [exact He2 |]].
  intros i j Hi Hj.
  rewrite (Hv1 i j Hi Hj (or_intror (Hok j Hj))).
  rewrite (Hv2 i j Hi Hj (or_intror (Hok j Hj))).
  split; [reflexivity | apply fequal_refl; lra].
Qed.

Lemma cherry_postorder_ok (t : Z) : @postorder_ok leaf_ops (cherry_tree t).
Proof.
  unfold postorder_ok. simpl. split.
  - exists 2%Z. split; [lia | reflexivity].
  - intros i Hi Hleaf c Hc.
    assert (Hcases : i = 0%Z \/ i = 1%Z \/ i = 2%Z) by lia.
    destruct Hcases as [-> | [-> | ->]]; simpl in Hleaf, Hc;
      try discriminate.
    destruct Hc as [-> | ->].
    + split; [lia | split; [lia |]]. exists 0%Z. split; [lia | reflexivity].
    + split; [lia | split; [lia |]]. exists 1%Z. split; [lia | reflexivity].
Qed.

Lemma calc_emissions_agrees_with_slow_witness :
  exists e1 e2,
    @calc_emissions leaf_ops zero_R zero_Z false_B zero_table
      [mkState 0 1] leaf_tree seqs_AC 2 1 unit_model (fun _ _ => 0)
    = Some e1
    /\ @calc_emissions_slow leaf_ops one_R zero_Z false_B one_table
         [mkState 0 1] leaf_tree seqs_AC 2 1 unit_model (fun _ _ => 1)
       = Some e2
    /\ forall i j, (0 <= i < 1)%Z -> (0 <= j < size [mkState 0 1])%Z ->
         e1 i j = e2 i j
         /\ fequal (e1 i j) (e2 i j) (1 / 10000) (1 / 1000000000000).
Proof.
  apply (calc_emissions_agrees_with_slow leaf_ops).
  intros j Hj. apply cherry_postorder_ok.
Defined.

(** ** Emissions at invariant sites *)











(** ** Columns: filling, norm and normalisation *)

(** a loop that fills a column entry by entry and accumulates its sum *)
Lemma column_loop (n : Z) (body : Z -> arr R * R -> arr R * R)
    (g : Z -> R) (col0 : arr R) :
  (forall k c norm, (0 <= k < n)%Z ->
     (forall j, ~ (0 <= j < k)%Z -> c j = col0 j) ->
     fst (body k (c, norm)) k = g k
     /\ (forall j, j <> k -> fst (body k (c, norm)) j = c j)
     /\ snd (body k (c, norm)) = norm + g k) ->
  let r := for_up 0 n body (col0, 0) in
  (forall k, fst r k = if ((0 <=? k) && (k <? n))%Z then g k else col0 k)
  /\ snd r = sumZ 0 n g.
Proof.
  intros Hbody.
  pose (P := fun (k : Z) (s : arr R * R) =>
      (forall j, (0 <= j < k)%Z -> fst s j = g j)
      /\ (forall j, ~ (0 <= j < k)%Z -> fst s j = col0 j)
      /\ snd s = sumZ 0 k g).
  cbv zeta.
  assert (Hinv : P (Z.max 0 n) (for_up 0 n body (col0, 0))).
  { apply (for_up_indm P).
    - split; [intros; lia | split; [reflexivity|]].
      rewrite sumZ_nil by lia. reflexivity.
    - intros k [c norm] Hk [Hdone [Hrest Hsum]]. simpl in Hdone, Hrest, Hsum.
      destruct (Hbody k c norm Hk Hrest) as [Hk1 [Hk2 Hk3]].
      unfold P. split; [|split].
      + intros j Hj. destruct (Z.eq_dec j k) as [->|Hne]; [exact Hk1|].
        rewrite Hk2 by assumption. apply Hdone. lia.
      + intros j Hj. rewrite Hk2 by lia. apply Hrest. lia.
      + rewrite sumZ_snoc by lia. rewrite <- Hsum. exact Hk3. }
  destruct Hinv as [Hdone [Hrest Hsum]]. split.
  - intros k. destruct ((0 <=? k) && (k <? n))%Z eqn:E.
    + apply Hdone. lia.
    + apply Hrest. lia.
  - rewrite Hsum. destruct (Z_le_gt_dec 0 n).
    + rewrite Z.max_r by assumption. reflexivity.
    + rewrite !sumZ_nil by lia. reflexivity.
Qed.

Lemma normalize_spec (n : Z) (col : arr R) (norm : R) (k : Z) :
  normalize n col norm k
  = if ((0 <=? k) && (k <? n))%Z then col k / norm else col k.
Proof.
  unfold normalize.
  apply (for_up_upd 0 n (fun k c => c k / norm) col
                    (fun k => col k / norm)).
  intros i t Hi _ Hrest. rewrite Hrest by lia. reflexivity.
Qed.

Lemma sum_normalize (n : Z) (col : arr R) (norm : R) :
  norm = sumZ 0 n col -> norm <> 0 ->
  sumZ 0 n (normalize n col norm) = 1.
Proof.
  intros Hnorm Hnz.
  rewrite (sumZ_ext 0 n _ (fun k => / norm * col k)).
  - rewrite sumZ_scal, <- Hnorm. field. exact Hnz.
  - intros k Hk. rewrite normalize_spec.
    replace ((0 <=? k) && (k <? n))%Z with true by lia.
    unfold Rdiv. lra.
Qed.

Lemma within_tolerance_of_one (x : R) :
  x = 1 -> Rabs (x - 1) <= 1 / 1000000000.
Proof.
  intros ->. rewrite Rminus_diag, Rabs_R0. lra.
Qed.

(** ** The column across a switch *)

Lemma switch_determ_loop (matrix : TransMatrixSwitch) (col1 c0 : arr R)
    (n1 k : Z) :
  for_up 0 n1
    (fun j col2 =>
       let k := determ matrix j in
       if negb (j =? recombsrc matrix)%Z && negb (j =? recoalsrc matrix)%Z
          && negb (k =? -1)%Z
       then upd col2 k (col2 k + col1 j * eexp (determprob matrix j))
       else col2)
    c0 k
  = c0 k
    + sumZ 0 n1
        (fun j =>
           if negb (j =? recombsrc matrix)%Z
              && negb (j =? recoalsrc matrix)%Z
              && negb (determ matrix j =? -1)%Z && (determ matrix j =? k)%Z
           then col1 j * eexp (determprob matrix j) else 0).
Proof.
  cbv zeta.
  destruct (Z_le_gt_dec 0 n1) as [Hle|Hgt].
  - revert n1 Hle. apply Zup_ind.
    + rewrite for_up_nil, sumZ_nil by lia. lra.
    + intros j Hj IH. rewrite for_up_snoc, sumZ_snoc by assumption.
      destruct (negb (j =? recombsrc matrix)%Z
                && negb (j =? recoalsrc matrix)%Z
                && negb (determ matrix j =? -1)%Z); simpl.
      * destruct (Z.eqb_spec (determ matrix j) k) as [Heq|Hne].
        -- rewrite Heq, upd_same, IH. lra.
        -- rewrite upd_other by congruence. rewrite IH. lra.
      * rewrite IH. lra.
  - rewrite for_up_nil, sumZ_nil by lia. lra.
Qed.

Lemma forward_switch_column_spec (matrix : TransMatrixSwitch)
    (col1 col2 emit : arr R) :
  let r := forward_switch_column col1 col2 matrix emit in
  let n2 := Z.max (nstates2 matrix) 1 in
  snd r = sumZ 0 n2 (fst r)
  /\ (switch_wf matrix ->
      forall k, (0 <= k < n2)%Z ->
                fst r k = switch_column matrix col1 emit k).
Proof.
  cbv zeta. unfold forward_switch_column.
  set (n1 := Z.max (nstates1 matrix) 1).
  set (n2 := Z.max (nstates2 matrix) 1).
  set (c0 := for_up 0 n2 (fun k col2 => upd col2 k 0) col2).
  set (c1 := for_up 0 n1 _ c0).
  assert (Hc0 : forall k, (0 <= k < n2)%Z -> c0 k = 0).
  { intros k Hk. unfold c0.
    rewrite (for_up_upd 0 n2 (fun _ _ => 0) col2 (fun _ => 0))
      by reflexivity.
    replace ((0 <=? k) && (k <? n2))%Z with true by lia. reflexivity. }
  assert (Hc1 : switch_wf matrix -> forall k, (0 <= k < n2)%Z ->
    c1 k = sumZ 0 n1
             (fun j =>
                if negb (j =? recombsrc matrix)%Z
                   && negb (j =? recoalsrc matrix)%Z
                   && (0 <=? determ matrix j)%Z && (determ matrix j =? k)%Z
                then col1 j * eexp (determprob matrix j) else 0)).
  { intros [_ [_ Hdeterm]] k Hk.
    unfold c1. rewrite switch_determ_loop, Hc0 by assumption.
    rewrite Rplus_0_l. apply sumZ_ext. intros j Hj.
    specialize (Hdeterm j Hj).
    replace (negb (determ matrix j =? -1)%Z)
      with (0 <=? determ matrix j)%Z by lia.
    reflexivity. }
  pose (g := fun k =>
    (c1 k
     + (if negb (recombsrc matrix =? -1)%Z && gt_neginf (recombrow matrix k)
        then col1 (recombsrc matrix) * eexp (recombrow matrix k) else 0)
     + (if negb (recoalsrc matrix =? -1)%Z && gt_neginf (recoalrow matrix k)
        then col1 (recoalsrc matrix) * eexp (recoalrow matrix k) else 0))
    * emit k).
  pose proof (column_loop n2
    (fun k '(col2, norm) =>
       let col2 :=
         if negb (recombsrc matrix =? -1)%Z && gt_neginf (recombrow matrix k)
         then upd col2 k (col2 k + col1 (recombsrc matrix)
                                   * eexp (recombrow matrix k))
         else col2 in
       let col2 :=
         if negb (recoalsrc matrix =? -1)%Z && gt_neginf (recoalrow matrix k)
         then upd col2 k (col2 k + col1 (recoalsrc matrix)
                                   * eexp (recoalrow matrix k))
         else col2 in
       let col2 := upd col2 k (col2 k * emit k) in
       (col2, norm + col2 k))
    g c1) as Hloop.
  cbv zeta in Hloop.
  destruct Hloop as [Hcol Hnorm].
  { intros k c norm Hk Hrest. cbv zeta.
    assert (Hck : c k = c1 k) by (apply Hrest; lia).
    assert (Hval :
      (if negb (recoalsrc matrix =? -1)%Z && gt_neginf (recoalrow matrix k)
       then
         upd (if negb (recombsrc matrix =? -1)%Z
                 && gt_neginf (recombrow matrix k)
              then upd c k (c k + col1 (recombsrc matrix)
                                  * eexp (recombrow matrix k))
              else c)
             k
             ((if negb (recombsrc matrix =? -1)%Z
                  && gt_neginf (recombrow matrix k)
               then upd c k (c k + col1 (recombsrc matrix)
                                   * eexp (recombrow matrix k))
               else c) k
              + col1 (recoalsrc matrix) * eexp (recoalrow matrix k))
       else
         (if negb (recombsrc matrix =? -1)%Z
             && gt_neginf (recombrow matrix k)
          then upd c k (c k + col1 (recombsrc matrix)
                              * eexp (recombrow matrix k))
          else c)) k * emit k
      = g k).
    { unfold g. rewrite <- Hck.
      destruct (negb (recombsrc matrix =? -1)%Z
                && gt_neginf (recombrow matrix k));
        destruct (negb (recoalsrc matrix =? -1)%Z
                  && gt_neginf (recoalrow matrix k));
        rewrite ?upd_same; lra. }
    simpl. rewrite !upd_same. split; [exact Hval | split].
    - intros j Hj. rewrite upd_other by assumption.
      destruct (negb (recoalsrc matrix =? -1)%Z
                && gt_neginf (recoalrow matrix k));
        destruct (negb (recombsrc matrix =? -1)%Z
                  && gt_neginf (recombrow matrix k));
        rewrite ?upd_other by assumption; reflexivity.
    - rewrite Hval. reflexivity. }
  split.
  - rewrite Hnorm. apply sumZ_ext. intros k Hk. rewrite Hcol.
    replace ((0 <=? k) && (k <? n2))%Z with true by lia. reflexivity.
  - intros Hwf k Hk. rewrite Hcol.
    replace ((0 <=? k) && (k <? n2))%Z with true by lia.
    unfold g, switch_column, switch_mass. fold n1.
    rewrite (Hc1 Hwf k Hk).
    destruct Hwf as [Hrecomb [Hrecoal _]].
    replace (negb (recombsrc matrix =? -1)%Z)
      with (0 <=? recombsrc matrix)%Z by lia.
    replace (negb (recoalsrc matrix =? -1)%Z)
      with (0 <=? recoalsrc matrix)%Z by lia.
    reflexivity.
Qed.

Lemma max_array_ext (a b : arr R) (n : Z) :
  (forall k, (0 <= k < Z.max n 1)%Z -> a k = b k) ->
  max_array a n = max_array b n.
Proof.
  intros Hext. unfold max_array.
  rewrite (Hext 0%Z) by lia.
  apply for_up_ext. intros i top Hi. rewrite Hext by lia. reflexivity.
Qed.

(** C5. The cross-block step: every source [j] other than [recombsrc] and
    [recoalsrc] with [determ[j] >= 0] contributes
    [col1[j] * exp(determprob[j])] to [col2[determ[j]]]; [recombsrc] (if
    [>= 0]) contributes [col1[recombsrc] * exp(recombrow[k])] to every
    destination [k] with [recombrow[k] > -inf], likewise [recoalsrc]; each
    entry is multiplied by the first emission column of the new block; the
    call fails unless the largest entry is positive; and the column is
    divided by its sum. *)
Theorem arghmm_forward_switch_spec (matrix : TransMatrixSwitch)
    (col1 col2 emit : arr R) :
  switch_wf matrix ->
  let n2 := Z.max (nstates2 matrix) 1 in
  let pre := switch_column matrix col1 emit in
  (max_array pre n2 <= 0 ->
   arghmm_forward_switch col1 col2 matrix emit = None)
  /\ (0 < max_array pre n2 ->
      exists col2',
        arghmm_forward_switch col1 col2 matrix emit = Some col2'
        /\ forall k, (0 <= k < n2)%Z ->
                     col2' k = pre k / sumZ 0 n2 pre).
Proof.
  intros Hwf. cbv zeta.
  destruct (forward_switch_column_spec matrix col1 col2 emit)
    as [Hnorm Hcol].
  specialize (Hcol Hwf).
  unfold arghmm_forward_switch.
  destruct (forward_switch_column col1 col2 matrix emit) as [c norm].
  simpl in Hnorm, Hcol.
  assert (Hmax : max_array c (Z.max (nstates2 matrix) 1)
                 = max_array (switch_column matrix col1 emit)
                             (Z.max (nstates2 matrix) 1)).
  { apply max_array_ext. intros k Hk. apply Hcol. lia. }
  rewrite Hmax.
  assert (Hsum : norm = sumZ 0 (Z.max (nstates2 matrix) 1)
                          (switch_column matrix col1 emit)).
  { rewrite Hnorm. apply sumZ_ext. exact Hcol. }
  split.
  - intros Hle. destruct (Rle_dec _ 0); [reflexivity | contradiction].
  - intros Hlt. destruct (Rle_dec _ 0) as [Hle|_]; [lra|].
    eexists. split; [reflexivity|].
    intros k Hk. rewrite normalize_spec.
    replace ((0 <=? k) && (k <? Z.max (nstates2 matrix) 1))%Z with true
      by lia.
    rewrite Hcol by assumption. rewrite Hsum. reflexivity.
Qed.

Lemma cross_switch_wf : switch_wf cross_switch.
Proof.
  unfold switch_wf. simpl. split; [lia | split; [lia|]].
  intros j Hj. destruct (j =? 0)%Z; lia.
Qed.

Lemma arghmm_forward_switch_spec_witness :
  let matrix := cross_switch in
  let col1 := half_half in
  let col2 : arr R := fun _ => 7 in
  let emit : arr R := fun _ => 1 in
  let n2 := Z.max (nstates2 matrix) 1 in
  let pre := switch_column matrix col1 emit in
  (max_array pre n2 <= 0 ->
   arghmm_forward_switch col1 col2 matrix emit = None)
  /\ (0 < max_array pre n2 ->
      exists col2',
        arghmm_forward_switch col1 col2 matrix emit = Some col2'
        /\ forall k, (0 <= k < n2)%Z ->
                     col2' k = pre k / sumZ 0 n2 pre).
Proof.
  exact (arghmm_forward_switch_spec cross_switch half_half (fun _ => 7)
           (fun _ => 1) cross_switch_wf).
Defined.

(** ** Single entries and the frame of the switch step *)

Lemma max_array_one (a : arr R) : max_array a 1 = a 0%Z.
Proof. reflexivity. Qed.

Lemma sumZ_one (f : Z -> R) : sumZ 0 1 f = f 0%Z.
Proof. unfold sumZ, for_up. simpl. lra. Qed.

Lemma forward_switch_column_frame (matrix : TransMatrixSwitch)
    (col1 col2 emit : arr R) (k : Z) :
  ~ (0 <= k < Z.max (nstates2 matrix) 1)%Z ->
  (forall j, (0 <= j < Z.max (nstates1 matrix) 1)%Z -> determ matrix j <> k) ->
  fst (forward_switch_column col1 col2 matrix emit) k = col2 k.
Proof.
  intros Hk Hdet. unfold forward_switch_column.
  set (n1 := Z.max (nstates1 matrix) 1) in *.
  set (n2 := Z.max (nstates2 matrix) 1) in *.
  set (c0 := for_up 0 n2 (fun k col2 => upd col2 k 0) col2).
  set (c1 := for_up 0 n1 _ c0).
  assert (Hc1 : c1 k = col2 k).
  { unfold c1. rewrite switch_determ_loop.
    rewrite sumZ_zero.
    - unfold c0.
      rewrite (for_up_upd 0 n2 (fun _ _ => 0) col2 (fun _ => 0))
        by reflexivity.
      replace ((0 <=? k) && (k <? n2))%Z with false by lia. lra.
    - intros j Hj. specialize (Hdet j Hj).
      destruct (Z.eqb_spec (determ matrix j) k); [contradiction|].
      rewrite andb_false_r. reflexivity. }
  rewrite <- Hc1.
  apply (for_up_inv (fun s : arr R * R => fst s k = c1 k)); [reflexivity|].
  intros i [c norm] Hi Hc. simpl in Hc. simpl.
  rewrite upd_other by lia.
  destruct (negb (recoalsrc matrix =? -1)%Z
            && gt_neginf (recoalrow matrix i));
    destruct (negb (recombsrc matrix =? -1)%Z
              && gt_neginf (recombrow matrix i));
    rewrite ?upd_other by lia; exact Hc.
Qed.

(** ** The within-block recurrence *)

Lemma block_loop_spec (F : Z -> arr R -> arr R -> arr R) (blocklen : Z)
    (fw : arr (arr R)) :
  let fw' :=
    for_up 1 blocklen (fun i fw => upd fw i (F i (fw (i - 1)%Z) (fw i))) fw in
  (forall i, (1 <= i < blocklen)%Z -> fw' i = F i (fw' (i - 1)%Z) (fw i))
  /\ (forall i, ~ (1 <= i < blocklen)%Z -> fw' i = fw i).
Proof.
  cbv zeta.
  pose (P := fun (i : Z) (f : arr (arr R)) =>
      (forall i', (1 <= i' < i)%Z -> f i' = F i' (f (i' - 1)%Z) (fw i'))
      /\ (forall i', ~ (1 <= i' < i)%Z -> f i' = fw i')).
  set (X := for_up 1 blocklen _ fw).
  assert (Hinv : P (Z.max 1 blocklen) X).
  { subst X. apply (for_up_indm P).
    - split; [intros; lia | reflexivity].
    - intros i f Hi [Hdone Hrest]. split.
      + intros i' Hi'. destruct (Z.eq_dec i' i) as [->|Hne].
        * rewrite upd_same, upd_other by lia.
          rewrite (Hrest i) by lia. reflexivity.
        * rewrite !upd_other by lia. apply Hdone. lia.
      + intros i' Hi'. rewrite upd_other by lia. apply Hrest. lia. }
  destruct Hinv as [Hdone Hrest]. split.
  - intros i Hi. apply Hdone. lia.
  - intros i Hi. apply Hrest. lia.
Qed.

Lemma arghmm_forward_block_columns `{HmmOps} `{Indet (arr R)}
    `{Indet (arr (arr R))} `{Indet (arr Z)}
    (tree : LocalTree) (ntimes blocklen : Z) (states : States)
    (lineages : LineageCounts) (matrix : TransMatrix)
    (emit fw fw' : arr (arr R)) :
  arghmm_forward_block tree ntimes blocklen states lineages matrix emit fw
  = Some fw' ->
  internal matrix && (size states =? 0)%Z = false ->
  (forall i, (1 <= i < blocklen)%Z ->
     fw' i = forward_block_step
               (forward_block_tables tree ntimes states matrix)
               ntimes states (emit i) (fw' (i - 1)%Z) (fw i))
  /\ (forall i, ~ (1 <= i < blocklen)%Z -> fw' i = fw i).
Proof.
  unfold arghmm_forward_block. intros Hrun Hnd. rewrite Hnd in Hrun.
  destruct (block_assert_fails _ _ _); [discriminate|].
  injection Hrun as <-.
  rewrite (for_up_ext 1 blocklen _
             (fun i fw =>
                upd fw i
                  (forward_block_step
                     (forward_block_tables tree ntimes states matrix)
                     ntimes states (emit i) (fw (i - 1)%Z) (fw i)))).
  - apply (block_loop_spec
             (fun i c1 c2 =>
                forward_block_step
                  (forward_block_tables tree ntimes states matrix)
                  ntimes states (emit i) c1 c2)).
  - intros i t Hi. unfold forward_block_step.
    destruct (forward_block_column _ _ _ _ _ _). reflexivity.
Qed.

(** a loop that fills a column and accumulates its entries ends with
    their sum *)
Lemma column_norm_loop (n : Z) (body : Z -> arr R * R -> arr R * R)
    (col0 : arr R) :
  (forall k c norm, (0 <= k < n)%Z ->
     (forall j, j <> k -> fst (body k (c, norm)) j = c j)
     /\ snd (body k (c, norm)) = norm + fst (body k (c, norm)) k) ->
  snd (for_up 0 n body (col0, 0)) = sumZ 0 n (fst (for_up 0 n body (col0, 0))).
Proof.
  intros Hbody.
  pose (P := fun (k : Z) (s : arr R * R) => snd s = sumZ 0 k (fst s)).
  assert (Hinv : P (Z.max 0 n) (for_up 0 n body (col0, 0))).
  { apply (for_up_indm P).
    - unfold P. rewrite sumZ_nil by lia. reflexivity.
    - intros k [c norm] Hk Hsum. unfold P in *. simpl in Hsum.
      destruct (Hbody k c norm Hk) as [Hframe Hnorm].
      rewrite sumZ_snoc by lia.
      rewrite (sumZ_ext 0 k _ c) by (intros j Hj; apply Hframe; lia).
      rewrite <- Hsum. exact Hnorm. }
  unfold P in Hinv. rewrite Hinv.
  destruct (Z_le_gt_dec 0 n).
  - rewrite Z.max_r by assumption. reflexivity.
  - rewrite !sumZ_nil by lia. reflexivity.
Qed.

Lemma forward_block_column_norm `{Indet (arr R)} (T : block_tables)
    (ntimes : Z) (states : States) (emit2 col1 col2 : arr R) :
  let r := forward_block_column T ntimes states emit2 col1 col2 in
  snd r = sumZ 0 (size states) (fst r).
Proof.
  cbv zeta. unfold forward_block_column. cbv zeta.
  apply column_norm_loop.
  intros k c norm Hk. simpl. split; [|reflexivity].
  intros j Hj. apply upd_other. assumption.
Qed.

(** C3. Every column produced by a within-block column step and by a
    cross-block switch step sums to 1 (hence to 1 within 1e-9) when its
    mass before normalisation is positive.  A degenerate internal block
    with no states has no column step: its single entry is copied. *)
Theorem forward_columns_normalized (ops : HmmOps) (IR : Indet (arr R))
    (IRR : Indet (arr (arr R))) (IZ : Indet (arr Z))
    (tree : LocalTree) (ntimes blocklen : Z) (states : States)
    (lineages : LineageCounts) (matrix : TransMatrix)
    (emit fw fw' : arr (arr R))
    (sw : TransMatrixSwitch) (col1 col2 col2' emit1 : arr R) :
  (arghmm_forward_block tree ntimes blocklen states lineages matrix emit fw
   = Some fw' ->
   internal matrix && (size states =? 0)%Z = false ->
   forall i, (1 <= i < blocklen)%Z ->
     0 < snd (forward_block_column
                (forward_block_tables tree ntimes states matrix)
                ntimes states (emit i) (fw' (i - 1)%Z) (fw i)) ->
     sumZ 0 (size states) (fw' i) = 1
     /\ Rabs (sumZ 0 (size states) (fw' i) - 1) <= 1 / 1000000000)
  /\ (arghmm_forward_switch col1 col2 sw emit1 = Some col2' ->
      0 < snd (forward_switch_column col1 col2 sw emit1) ->
      sumZ 0 (Z.max (nstates2 sw) 1) col2' = 1
      /\ Rabs (sumZ 0 (Z.max (nstates2 sw) 1) col2' - 1)
         <= 1 / 1000000000).
Proof.
  split.
  - intros Hrun Hnd i Hi Hpos.
    destruct (arghmm_forward_block_columns tree ntimes blocklen states
                lineages matrix emit fw fw' Hrun Hnd) as [Hcol _].
    assert (Hsum : sumZ 0 (size states) (fw' i) = 1).
    { rewrite (Hcol i Hi). unfold forward_block_step.
      apply sum_normalize; [apply forward_block_column_norm | lra]. }
    split; [exact Hsum | apply within_tolerance_of_one; exact Hsum].
  - intros Hrun Hpos.
    destruct (forward_switch_column_spec sw col1 col2 emit1) as [Hnorm _].
    unfold arghmm_forward_switch in Hrun.
    destruct (forward_switch_column col1 col2 sw emit1) as [c norm].
    simpl in Hnorm, Hpos.
    destruct (Rle_dec _ 0); [discriminate|]. injection Hrun as <-.
    assert (Hsum : sumZ 0 (Z.max (nstates2 sw) 1)
                        (normalize (Z.max (nstates2 sw) 1) c norm) = 1).
    { apply sum_normalize; [exact Hnorm | lra]. }
    split; [exact Hsum | apply within_tolerance_of_one; exact Hsum].
Qed.

Lemma toy_block_runs :
  exists fw',
    @arghmm_forward_block toy_hmm zero_R zero_RR zero_Z leaf_tree 2 2
      (enum_states leaf_tree 2) tt (toy_matrix 1) (fun _ _ => 1)
      (fun _ => one_hot_0) = Some fw'.
Proof.
  unfold arghmm_forward_block. simpl. eexists. reflexivity.
Qed.

Lemma cross_switch_runs :
  exists col2',
    arghmm_forward_switch half_half (fun _ => 7) cross_switch (fun _ => 1)
    = Some col2'.
Proof.
  unfold arghmm_forward_switch, forward_switch_column, max_array, for_up,
    range.
  simpl.
  match goal with
  | |- context [Rle_dec ?x 0] => destruct (Rle_dec x 0) as [Hle|Hgt]
  end.
  - exfalso. revert Hle. unfold upd, half_half. simpl. rewrite exp_0.
    unfold Rmax. destruct (Rle_dec _ _); lra.
  - eexists. reflexivity.
Qed.

Lemma forward_columns_normalized_witness :
  exists fw' col2',
    (@arghmm_forward_block toy_hmm zero_R zero_RR zero_Z leaf_tree 2 2
       (enum_states leaf_tree 2) tt (toy_matrix 1) (fun _ _ => 1)
       (fun _ => one_hot_0) = Some fw'
     /\ sumZ 0 (size (enum_states leaf_tree 2)) (fw' 1%Z) = 1
     /\ Rabs (sumZ 0 (size (enum_states leaf_tree 2)) (fw' 1%Z) - 1)
        <= 1 / 1000000000)
    /\ (arghmm_forward_switch half_half (fun _ => 7) cross_switch
                              (fun _ => 1) = Some col2'
        /\ sumZ 0 (Z.max (nstates2 cross_switch) 1) col2' = 1
        /\ Rabs (sumZ 0 (Z.max (nstates2 cross_switch) 1) col2' - 1)
           <= 1 / 1000000000).
Proof.
  destruct toy_block_runs as [fw' Hb].
  destruct cross_switch_runs as [col2' Hs].
  exists fw', col2'.
  destruct (forward_columns_normalized toy_hmm zero_R zero_RR zero_Z
              leaf_tree 2 2 (enum_states leaf_tree 2) tt (toy_matrix 1)
              (fun _ _ => 1) (fun _ => one_hot_0) fw'
              cross_switch half_half (fun _ => 7) col2' (fun _ => 1))
    as [Hblock Hswitch].
  split.
  - split; [exact Hb|].
    apply Hblock; [exact Hb | reflexivity | lia |].
    destruct (@arghmm_forward_block_columns toy_hmm zero_R zero_RR zero_Z
                leaf_tree 2 2 (enum_states leaf_tree 2) tt (toy_matrix 1)
                (fun _ _ => 1) (fun _ => one_hot_0) fw' Hb eq_refl)
      as [_ Hframe].
    rewrite (Hframe (1 - 1)%Z) by lia.
    unfold forward_block_column, block_tmatrix_fgroups, block_fgroups,
      forward_block_tables, for_up, range.
    simpl. unfold upd2, upd, one_hot_0. simpl. lra.
  - split; [exact Hs|].
    apply Hswitch; [exact Hs|].
    unfold forward_switch_column, for_up, range. simpl.
    unfold upd, half_half. simpl. rewrite exp_0. lra.
Defined.

(** ** The tables of the factored block step *)

Lemma for_up_pair {A B : Type} (lo hi : Z) (f : Z -> A -> A)
    (g : Z -> B -> B) (x : A) (y : B) :
  for_up lo hi (fun i '(x, y) => (f i x, g i y)) (x, y)
  = (for_up lo hi f x, for_up lo hi g y).
Proof.
  destruct (Z_le_gt_dec lo hi) as [Hle|Hgt].
  - revert hi Hle. apply Zup_ind.
    + rewrite !for_up_nil by lia. reflexivity.
    + intros i Hi IH. rewrite !for_up_snoc by assumption. rewrite IH.
      reflexivity.
  - rewrite !for_up_nil by lia. reflexivity.
Qed.

(** filling one row of a matrix *)
Lemma fill_row {A : Type} (m a : Z) (v : Z -> A) (t : arr (arr A))
    (a' b' : Z) :
  for_up 0 m (fun b t => upd2 t a b (v b)) t a' b'
  = if ((a' =? a) && (0 <=? b') && (b' <? m))%Z then v b' else t a' b'.
Proof.
  destruct (Z_le_gt_dec 0 m) as [Hle|Hgt].
  - revert m Hle. apply Zup_ind.
    + rewrite for_up_nil by lia.
      replace ((a' =? a) && (0 <=? b') && (b' <? 0))%Z with false by lia.
      reflexivity.
    + intros b Hb IH. rewrite for_up_snoc by assumption.
      rewrite upd2_eq.
      destruct (Z.eqb_spec a' a) as [->|Hne]; rewrite IH.
      * simpl.
        destruct (Z.eqb_spec b' b) as [->|Hnb].
        -- replace ((0 <=? b) && (b <? b + 1))%Z with true by lia.
           reflexivity.
        -- replace (b' <? b + 1)%Z with (b' <? b)%Z by lia. reflexivity.
      * reflexivity.
  - rewrite for_up_nil by lia.
    replace ((a' =? a) && (0 <=? b') && (b' <? m))%Z with false by lia.
    reflexivity.
Qed.

(** filling a matrix row by row *)
Lemma fill_matrix {A : Type} (n m : Z) (v : Z -> Z -> A) (t : arr (arr A))
    (a' b' : Z) :
  for_up 0 n (fun a t => for_up 0 m (fun b t => upd2 t a b (v a b)) t) t
         a' b'
  = if ((0 <=? a') && (a' <? n) && (0 <=? b') && (b' <? m))%Z then v a' b'
    else t a' b'.
Proof.
  destruct (Z_le_gt_dec 0 n) as [Hle|Hgt].
  - revert n Hle. apply Zup_ind.
    + rewrite for_up_nil by lia.
      replace ((0 <=? a') && (a' <? 0))%Z with false by lia. reflexivity.
    + intros a Ha IH. rewrite for_up_snoc by assumption.
      rewrite fill_row, IH.
      destruct (Z.eqb_spec a' a) as [->|Hne]; simpl.
      * replace ((0 <=? a) && (a <? a + 1))%Z with true by lia.
        replace ((0 <=? a) && (a <? a))%Z with false by lia. simpl.
        destruct ((0 <=? b') && (b' <? m))%Z; reflexivity.
      * replace (a' <? a + 1)%Z with (a' <? a)%Z by lia. reflexivity.
  - rewrite for_up_nil by lia.
    replace ((0 <=? a') && (a' <? n))%Z with false by lia. reflexivity.
Qed.

Lemma forward_block_tables_spec `{HmmOps} `{Indet (arr (arr R))}
    `{Indet (arr Z)} (tree : LocalTree) (ntimes : Z) (states : States)
    (matrix : TransMatrix) :
  let T := forward_block_tables tree ntimes states matrix in
  let minage := block_minage tree matrix in
  (forall a b, (0 <= a < ntimes - 1)%Z -> (0 <= b < ntimes - 1)%Z ->
     tmatrix T a b = get_time matrix a b 0 minage false)
  /\ (forall a k, (0 <= a < ntimes - 1)%Z -> (0 <= k < size states)%Z ->
        tmatrix2 T a k
        = get_time matrix a (time (st states k))
                   (age (nodes tree (node (st states k)))) minage true
          - get_time matrix a (time (st states k)) 0 minage false)
  /\ (forall n, (0 <= n < nnodes tree)%Z ->
        ages1 T n = branch_age1 tree matrix n
        /\ ages2 T n = branch_age2 tree states matrix n
        /\ indexes T n = branch_index tree states matrix n).
Proof.
  cbv zeta. unfold forward_block_tables. cbv zeta.
  rewrite for_up_pair.
  set (ages := for_up 0 (nnodes tree) _ (indet, indet, indet)).
  assert (Hages : forall n, (0 <= n < nnodes tree)%Z ->
            fst (fst ages) n = branch_age1 tree matrix n
            /\ snd (fst ages) n = branch_age2 tree states matrix n
            /\ snd ages n = branch_index tree states matrix n).
  { pose (P := fun (i : Z) (s : arr Z * arr Z * arr Z) =>
        forall n, (0 <= n < i)%Z ->
          fst (fst s) n = branch_age1 tree matrix n
          /\ snd (fst s) n = branch_age2 tree states matrix n
          /\ snd s n = branch_index tree states matrix n).
    assert (Hinv : P (Z.max 0 (nnodes tree)) ages).
    { subst ages. apply (for_up_indm P).
      - intros n Hn. lia.
      - intros i [[a1 a2] ix] Hi IH n Hn. simpl.
        destruct (Z.eq_dec n i) as [->|Hne].
        + rewrite !upd_same. unfold branch_age1, branch_age2, branch_index.
          unfold branch_age1.
          destruct (internal matrix); split; try reflexivity;
            split; reflexivity.
        + rewrite !upd_other by assumption. apply (IH n). lia. }
    intros n Hn. apply Hinv. lia. }
  destruct ages as [[a1 a2] ix]. simpl in Hages. simpl.
  split; [|split].
  - intros a b Ha Hb.
    rewrite (fill_matrix (ntimes - 1) (ntimes - 1)
               (fun a b => get_time matrix a b 0 (block_minage tree matrix)
                                    false)).
    replace ((0 <=? a) && (a <? ntimes - 1) && (0 <=? b)
             && (b <? ntimes - 1))%Z with true by lia.
    reflexivity.
  - intros a k Ha Hk.
    rewrite (fill_matrix (ntimes - 1) (size states)
               (fun a k =>
                  get_time matrix a (time (st states k))
                           (age (nodes tree (node (st states k))))
                           (block_minage tree matrix) true
                  - get_time matrix a (time (st states k)) 0
                             (block_minage tree matrix) false)).
    replace ((0 <=? a) && (a <? ntimes - 1) && (0 <=? k)
             && (k <? size states))%Z with true by lia.
    reflexivity.
  - exact Hages.
Qed.

(** ** The factored column, entry by entry *)

Lemma block_fgroups_spec `{Indet (arr R)} (ntimes : Z) (states : States)
    (col1 : arr R) (a : Z) :
  (0 <= a < ntimes)%Z ->
  block_fgroups ntimes states col1 a
  = sumZ 0 (size states)
      (fun j => if (time (st states j) =? a)%Z then col1 j else 0).
Proof.
  intros Ha. unfold block_fgroups. cbv zeta.
  set (fg0 := for_up 0 ntimes (fun a fgroups => upd fgroups a 0) indet).
  assert (Hfg0 : fg0 a = 0).
  { unfold fg0.
    rewrite (for_up_upd 0 ntimes (fun _ _ => 0) indet (fun _ => 0))
      by reflexivity.
    replace ((0 <=? a) && (a <? ntimes))%Z with true by lia. reflexivity. }
  rewrite <- (Rplus_0_l (sumZ _ _ _)), <- Hfg0.
  generalize (size states) as n. intros n.
  destruct (Z_le_gt_dec 0 n) as [Hle|Hgt].
  - revert n Hle. apply Zup_ind.
    + rewrite for_up_nil, sumZ_nil by lia. lra.
    + intros j Hj IH. rewrite for_up_snoc, sumZ_snoc by assumption.
      destruct (Z.eqb_spec (time (st states j)) a) as [Heq|Hne].
      * rewrite Heq, upd_same, IH. lra.
      * rewrite upd_other by congruence. rewrite IH. lra.
  - rewrite for_up_nil, sumZ_nil by lia. lra.
Qed.

Lemma block_tmatrix_fgroups_spec `{Indet (arr R)} (T : block_tables)
    (ntimes : Z) (fgroups : arr R) (b : Z) :
  (0 <= b < ntimes - 1)%Z ->
  block_tmatrix_fgroups T ntimes fgroups b
  = sumZ 0 (ntimes - 1) (fun a => tmatrix T a b * fgroups a).
Proof.
  intros Hb. unfold block_tmatrix_fgroups.
  rewrite (for_up_upd 0 (ntimes - 1)
             (fun b _ =>
                for_up 0 (ntimes - 1)
                  (fun a sum => sum + tmatrix T a b * fgroups a) 0)
             indet
             (fun b => sumZ 0 (ntimes - 1)
                         (fun a => tmatrix T a b * fgroups a))).
  - replace ((0 <=? b) && (b <? ntimes - 1))%Z with true by lia.
    reflexivity.
  - intros i t _ _ _. rewrite for_up_acc. lra.
Qed.

Lemma forward_block_column_spec `{Indet (arr R)} (T : block_tables)
    (ntimes : Z) (states : States) (emit2 col1 col2 : arr R) (k : Z) :
  (0 <= k < size states)%Z ->
  fst (forward_block_column T ntimes states emit2 col1 col2) k
  = factored_entry T ntimes states emit2 col1 k.
Proof.
  intros Hk. unfold forward_block_column. cbv zeta.
  match goal with
  | |- fst (for_up 0 _ ?b _) k = _ =>
      destruct (column_loop (size states) b
                  (factored_entry T ntimes states emit2 col1) col2)
        as [Hcol _]
  end.
  - intros k0 c norm Hk0 _. simpl. rewrite upd_same.
    assert (Hval :
      for_up (ages1 T (node (st states k0)))
             (ages2 T (node (st states k0)) + 1)
             (fun a sum =>
                sum + tmatrix2 T a k0
                      * col1 (indexes T (node (st states k0))
                              + (a - ages1 T (node (st states k0))))%Z)
             (block_tmatrix_fgroups T ntimes
                (block_fgroups ntimes states col1) (time (st states k0)))
      * emit2 k0
      = factored_entry T ntimes states emit2 col1 k0).
    { rewrite for_up_acc. reflexivity. }
    split; [exact Hval | split].
    + intros j Hj. apply upd_other. assumption.
    + rewrite Hval. reflexivity.
  - rewrite Hcol.
    replace ((0 <=? k) && (k <? size states))%Z with true by lia.
    reflexivity.
Qed.

(** ** The column of the full matrix, entry by entry *)



(** ** The factored column is the column of the full matrix *)

Lemma group_by_time (n m : Z) (tm : Z -> Z) (f : Z -> R) (c : Z -> R) :
  (forall j, (0 <= j < n)%Z -> (0 <= tm j < m)%Z) ->
  sumZ 0 m (fun a => f a * sumZ 0 n (fun j => if (tm j =? a)%Z then c j
                                              else 0))
  = sumZ 0 n (fun j => c j * f (tm j)).
Proof.
  intros Htm.
  rewrite (sumZ_ext 0 m _
             (fun a => sumZ 0 n
                         (fun j => if (tm j =? a)%Z then c j * f a else 0))).
  - rewrite sumZ_swap. apply sumZ_ext. intros j Hj.
    apply (sumZ_pick 0 m (tm j) (fun a => c j * f a)). apply Htm. exact Hj.
  - intros a Ha. rewrite <- sumZ_scal. apply sumZ_ext. intros j Hj.
    destruct (tm j =? a)%Z; lra.
Qed.

Lemma factored_entry_full `{HmmOps} `{Indet (arr R)} `{Indet (arr (arr R))}
    `{Indet (arr Z)} (tree : LocalTree) (ntimes : Z) (states : States)
    (matrix : TransMatrix) (emit2 col1 : arr R) (k : Z) :
  matrix_factored tree states matrix ->
  states_enumerated tree ntimes states matrix ->
  (0 <= k < size states)%Z ->
  factored_entry (forward_block_tables tree ntimes states matrix) ntimes
                 states emit2 col1 k
  = full_entry tree states matrix emit2 col1 k.
Proof.
  intros Hfact Henum Hk.
  destruct (forward_block_tables_spec tree ntimes states matrix)
    as [Htm [Htm2 Hages]].
  set (T := forward_block_tables tree ntimes states matrix) in *.
  destruct (Henum k Hk) as [Hn [Hb [Hrun Hsame]]].
  cbv zeta in Hrun, Hsame.
  unfold factored_entry, full_entry. cbv zeta.
  destruct (Hages _ Hn) as [-> [-> ->]].
  set (n := node (st states k)) in *.
  set (b := time (st states k)) in *.
  set (minage := block_minage tree matrix) in *.
  set (age1 := branch_age1 tree matrix n) in *.
  set (age2 := branch_age2 tree states matrix n) in *.
  set (j1 := branch_index tree states matrix n) in *.
  set (T0 := fun a => get_time matrix a b 0 minage false).
  set (T1 := fun a => get_time matrix a b (age (nodes tree n)) minage true).
  f_equal.
  (* the full sum, split into baseline and same-branch correction *)
  rewrite (sumZ_ext 0 (size states)
             (fun j => col1 j * get matrix tree states j k)
             (fun j => col1 j * T0 (time (st states j))
                       + (if (node (st states j) =? n)%Z
                          then col1 j * (T1 (time (st states j))
                                         - T0 (time (st states j)))
                          else 0))).
  2:{ intros j Hj. rewrite (Hfact j k Hj Hk). fold n b minage.
      destruct (node (st states j) =? n)%Z; unfold T0, T1; lra. }
  rewrite sumZ_plus. f_equal.
  - (* baseline: group the sources by time *)
    rewrite block_tmatrix_fgroups_spec by exact Hb.
    rewrite (sumZ_ext 0 (ntimes - 1) _
               (fun a => T0 a
                         * sumZ 0 (size states)
                             (fun j => if (time (st states j) =? a)%Z
                                       then col1 j else 0))).
    + apply (group_by_time (size states) (ntimes - 1)
               (fun j => time (st states j)) T0 col1).
      intros j Hj. destruct (Henum j Hj) as [_ [Hbj _]]. exact Hbj.
    + intros a Ha. rewrite (Htm a b Ha Hb).
      rewrite block_fgroups_spec by lia. reflexivity.
  - (* correction: the run of states on the branch of [k] *)
    destruct (Hsame k Hk eq_refl) as [Hktime Hkidx]. fold b in Hktime, Hkidx.
    destruct (Hrun age1 ltac:(lia)) as [Hlo _].
    destruct (Hrun age2 ltac:(lia)) as [Hhi _].
    rewrite (sumZ_ext 0 (size states) _
               (fun j => if ((j1 <=? j) && (j <? j1 + (age2 - age1 + 1)))%Z
                         then col1 j * (T1 (time (st states j))
                                        - T0 (time (st states j)))
                         else 0)).
    2:{ intros j Hj.
        destruct (Z.eqb_spec (node (st states j)) n) as [Heq|Hne].
        - destruct (Hsame j Hj Heq) as [Hjt Hji].
          replace ((j1 <=? j) && (j <? j1 + (age2 - age1 + 1)))%Z
            with true by lia.
          reflexivity.
        - destruct ((j1 <=? j) && (j <? j1 + (age2 - age1 + 1)))%Z eqn:E;
            [|reflexivity].
          exfalso. apply Hne.
          destruct (Hrun (age1 + (j - j1))%Z ltac:(lia)) as [_ Hst].
          replace (j1 + (age1 + (j - j1) - age1))%Z with j in Hst by lia.
          rewrite Hst. reflexivity. }
    rewrite sumZ_interval by lia.
    replace j1 with (age1 + (j1 - age1))%Z at 1 by lia.
    replace (j1 + (age2 - age1 + 1))%Z with (age2 + 1 + (j1 - age1))%Z
      by lia.
    rewrite sumZ_shift. apply sumZ_ext. intros a Ha.
    destruct (Hrun a ltac:(lia)) as [Hidx Hst].
    replace (a + (j1 - age1))%Z with (j1 + (a - age1))%Z by lia.
    rewrite Hst. simpl time.
    destruct (Henum _ Hidx) as [_ [Hat _]]. rewrite Hst in Hat.
    simpl in Hat.
    rewrite (Htm2 a k Hat Hk). fold n b minage. unfold T0, T1. lra.
Qed.

Lemma full_entry_ext (tree : LocalTree) (states : States)
    (matrix : TransMatrix) (emit_i c c' : arr R) (k : Z) :
  (forall j, (0 <= j < size states)%Z -> c j = c' j) ->
  full_entry tree states matrix emit_i c k
  = full_entry tree states matrix emit_i c' k.
Proof.
  intros Hext. unfold full_entry. f_equal.
  apply sumZ_ext. intros j Hj. rewrite Hext by assumption. reflexivity.
Qed.

Lemma forward_block_step_value `{HmmOps} `{Indet (arr R)}
    `{Indet (arr (arr R))} `{Indet (arr Z)} (tree : LocalTree) (ntimes : Z)
    (states : States) (matrix : TransMatrix) (emit_i col1 col2 : arr R)
    (k : Z) :
  matrix_factored tree states matrix ->
  states_enumerated tree ntimes states matrix ->
  (0 <= k < size states)%Z ->
  forward_block_step (forward_block_tables tree ntimes states matrix)
                     ntimes states emit_i col1 col2 k
  = full_entry tree states matrix emit_i col1 k
    / sumZ 0 (size states) (full_entry tree states matrix emit_i col1).
Proof.
  intros Hfact Henum Hk. unfold forward_block_step.
  rewrite normalize_spec.
  replace ((0 <=? k) && (k <? size states))%Z with true by lia.
  rewrite forward_block_column_norm.
  rewrite (sumZ_ext 0 (size states) _
             (full_entry tree states matrix emit_i col1)).
  - rewrite forward_block_column_spec by assumption.
    rewrite factored_entry_full by assumption. reflexivity.
  - intros j Hj. rewrite forward_block_column_spec by assumption.
    apply factored_entry_full; assumption.
Qed.


Lemma arghmm_forward_block_slow_columns `{HmmOps} `{Indet (arr (arr R))}
    (tree : LocalTree) (ntimes blocklen : Z) (states : States)
    (lineages : LineageCounts) (matrix : TransMatrix)
    (emit fw : arr (arr R)) :
  let fw' := arghmm_forward_block_slow tree ntimes blocklen states lineages
                                       matrix emit fw in
  (forall i, (1 <= i < blocklen)%Z ->
     fw' i = forward_block_slow_step (size states)
               (slow_transmat tree states matrix) (emit i)
               (fw' (i - 1)%Z) (fw i))
  /\ (forall i, ~ (1 <= i < blocklen)%Z -> fw' i = fw i).
Proof.
  cbv zeta. unfold arghmm_forward_block_slow. cbv zeta.
  rewrite (for_up_ext 1 blocklen _
             (fun i fw =>
                upd fw i
                  (forward_block_slow_step (size states)
                     (slow_transmat tree states matrix) (emit i)
                     (fw (i - 1)%Z) (fw i)))).
  - apply (block_loop_spec
             (fun i c1 c2 =>
                forward_block_slow_step (size states)
                  (slow_transmat tree states matrix) (emit i) c1 c2)).
  - intros i t Hi. unfold forward_block_slow_step.
    destruct (forward_block_slow_column _ _ _ _ _). reflexivity.
Qed.

Lemma enumerated_assert_holds `{HmmOps} (tree : LocalTree) (ntimes : Z)
    (states : States) (matrix : TransMatrix) :
  states_enumerated tree ntimes states matrix ->
  block_assert_fails ntimes (block_minage tree matrix) states = false.
Proof.
  intros Henum. unfold block_assert_fails.
  apply andb_false_iff. right.
  destruct (existsb _ _) eqn:E; [|reflexivity].
  apply existsb_exists in E. destruct E as [k [Hin Hlt]].
  apply In_range in Hin.
  destruct (Henum k Hin) as [_ [_ [_ Hsame]]].
  destruct (Hsame k Hin eq_refl) as [Hage _].
  unfold branch_age1 in Hage. lia.
Qed.


Lemma toy_matrix_factored (tree : LocalTree) (states : States) (n : Z) :
  matrix_factored tree states (toy_matrix n).
Proof.
  intros j k _ _. simpl.
  destruct (node (st states j) =? node (st states k))%Z; reflexivity.
Qed.

(** evaluate the integer metadata of a concrete branch *)
Ltac eval_branch :=
  repeat match goal with
    | |- context [@branch_index ?o ?t ?s ?m ?n] =>
        let v := eval vm_compute in (@branch_index o t s m n) in
        change (@branch_index o t s m n) with v
    | |- context [branch_age1 ?t ?m ?n] =>
        let v := eval vm_compute in (branch_age1 t m n) in
        change (branch_age1 t m n) with v
    | |- context [branch_age2 ?t ?s ?m ?n] =>
        let v := eval vm_compute in (branch_age2 t s m n) in
        change (branch_age2 t s m n) with v
    | |- context [node (st ?s ?k)] =>
        let v := eval vm_compute in (node (st s k)) in
        change (node (st s k)) with v
    | |- context [time (st ?s ?k)] =>
        let v := eval vm_compute in (time (st s k)) in
        change (time (st s k)) with v
    end.



(** ** The forward pass over the blocks *)

Lemma new_block_spec `{Indet (arr R)} (fw : arr (arr R))
    (start end_ nstates p : Z) :
  new_block fw start end_ nstates p
  = if ((start <=? p) && (p <? end_))%Z then indet else fw p.
Proof.
  unfold new_block.
  apply (for_up_upd start end_ (fun _ _ => indet) fw (fun _ => indet)).
  reflexivity.
Qed.

Lemma forward_first_column_continuation `{HmmOps} `{Indet (arr R)}
    (trees : LocalTrees) (local_model : ArgModel) (blk : Block)
    (states : States) (lineages : LineageCounts) (fw : arr (arr R))
    (prior_given internal_ : bool) :
  block_start blk <> start_coord trees ->
  transmat_switch blk = None ->
  forward_first_column trees local_model blk states lineages fw prior_given
                       internal_
  = Some (mkCall fw (block_start blk - 1)%Z (shift (-1) (emit blk))
                 (blocklen blk + 1)%Z).
Proof.
  intros Hpos Hsw. unfold forward_first_column.
  destruct (Z.eqb_spec (block_start blk) (start_coord trees));
    [contradiction|].
  rewrite Hsw. reflexivity.
Qed.

(** C8. At a block other than the first whose switch operator is null,
    the forward pass applies no switch step: the within-block recurrence
    is called on the table seen from the previous block's last column
    ([&fw[pos-1]]), with the block length incremented by one and the
    emission pointer moved back by one site.  So every column of the block,
    the first included, comes from the column before it by the
    within-block step with the block's own emission row, and the previous
    block's last column is left as it was. *)
Theorem forward_alg_continuation (ops : HmmOps) (IR : Indet (arr R))
    (IRR : Indet (arr (arr R))) (IZ : Indet (arr Z))
    (trees : LocalTrees) (model : ArgModel) (blk : Block)
    (fw fw' : arr (arr R)) (prior_given internal_ : bool) :
  block_start blk <> start_coord trees ->
  transmat_switch blk = None ->
  let pos := block_start blk in
  let tree := block_tree blk in
  let states := get_coal_states tree (ntimes model) internal_ in
  let lineages := count_lineages tree internal_ in
  let fw0 :=
    if (pos >? start_coord trees)%Z || negb prior_given
    then new_block fw pos (pos + blocklen blk)%Z (mat_nstates2 blk)
    else fw in
  forward_first_column trees (get_local_model model pos) blk states lineages
                       fw0 prior_given internal_
  = Some (mkCall fw0 (pos - 1)%Z (shift (-1) (emit blk))
                 (blocklen blk + 1)%Z)
  /\ (forward_alg_block trees model blk fw prior_given internal_ false
      = Some fw' ->
      internal (transmat blk) && (size states =? 0)%Z = false ->
      (forall p, (pos <= p < pos + blocklen blk)%Z ->
         fw' p
         = forward_block_step
             (forward_block_tables tree (ntimes model) states (transmat blk))
             (ntimes model) states (emit blk (p - pos)%Z)
             (fw' (p - 1)%Z) (fw0 p))
      /\ fw' (pos - 1)%Z = fw (pos - 1)%Z).
Proof.
  intros Hpos Hsw. cbv zeta.
  set (pos := block_start blk) in *.
  set (tree := block_tree blk).
  set (states := get_coal_states tree (ntimes model) internal_).
  set (lineages := count_lineages tree internal_).
  set (fw0 := if (pos >? start_coord trees)%Z || negb prior_given
              then new_block fw pos (pos + blocklen blk)%Z (mat_nstates2 blk)
              else fw).
  assert (Hfirst :
    forward_first_column trees (get_local_model model pos) blk states
                         lineages fw0 prior_given internal_
    = Some (mkCall fw0 (pos - 1)%Z (shift (-1) (emit blk))
                   (blocklen blk + 1)%Z)).
  { apply forward_first_column_continuation; assumption. }
  split; [exact Hfirst|].
  intros Hrun Hnd.
  unfold forward_alg_block in Hrun.
  fold pos tree states lineages fw0 in Hrun.
  rewrite Hfirst in Hrun. cbn [call_fw call_off call_emit call_blocklen] in Hrun.
  destruct (Rle_dec _ 0); [discriminate|].
  destruct (arghmm_forward_block tree (ntimes model) (blocklen blk + 1)
              states lineages (transmat blk) (shift (-1) (emit blk))
              (shift (pos - 1) fw0)) as [fwb|] eqn:Hblk; [|discriminate].
  destruct (Rle_dec _ 0); [discriminate|].
  injection Hrun as <-.
  destruct (arghmm_forward_block_columns tree (ntimes model)
              (blocklen blk + 1) states lineages (transmat blk)
              (shift (-1) (emit blk)) (shift (pos - 1) fw0) fwb Hblk Hnd)
    as [Hcol Hframe].
  split.
  - intros p Hp. unfold unshift.
    rewrite (Hcol (p - (pos - 1))%Z) by lia.
    unfold shift.
    replace (-1 + (p - (pos - 1)))%Z with (p - pos)%Z by lia.
    replace (p - (pos - 1) - 1)%Z with (p - 1 - (pos - 1))%Z by lia.
    replace (pos - 1 + (p - (pos - 1)))%Z with p by lia.
    reflexivity.
  - unfold unshift. rewrite Hframe by lia. unfold shift.
    replace (pos - 1 + (pos - 1 - (pos - 1)))%Z with (pos - 1)%Z by lia.
    unfold fw0.
    destruct ((pos >? start_coord trees)%Z || negb prior_given);
      [|reflexivity].
    rewrite new_block_spec.
    replace ((pos <=? pos - 1) && (pos - 1 <? pos + blocklen blk))%Z
      with false by lia.
    reflexivity.
Qed.

Lemma leaf_states_enumerated :
  @states_enumerated toy_hmm leaf_tree 2 (enum_states leaf_tree 2)
                     (toy_matrix 1).
Proof.
  intros k Hk. unfold size in Hk. simpl in Hk.
  assert (k = 0%Z) by lia. subst k. cbv zeta.
  change (enum_states leaf_tree 2) with [mkState 0 0].
  eval_branch. unfold size. simpl nnodes. simpl length.
  split; [lia | split; [lia | split]].
  - intros a Ha. assert (a = 0%Z) by lia. subst a.
    split; [lia | reflexivity].
  - intros j Hj _. assert (j = 0%Z) by lia. subst j. eval_branch. lia.
Qed.

(** with one state the normalised column is [1] *)
Lemma leaf_step_value (emit_i col1 col2 : arr R) :
  0 < col1 0%Z -> 0 < emit_i 0%Z ->
  @forward_block_step zero_R
    (@forward_block_tables toy_hmm zero_RR zero_Z leaf_tree 2
       (enum_states leaf_tree 2) (toy_matrix 1))
    2 (enum_states leaf_tree 2) emit_i col1 col2 0%Z = 1.
Proof.
  intros Hcol Hemit.
  rewrite (@forward_block_step_value toy_hmm zero_R zero_RR zero_Z)
    by (try apply toy_matrix_factored; try exact leaf_states_enumerated;
        unfold size; simpl; lia).
  change (size (enum_states leaf_tree 2)) with 1%Z.
  rewrite sumZ_one. unfold full_entry.
  change (size (enum_states leaf_tree 2)) with 1%Z.
  rewrite sumZ_one. simpl. field. nra.
Qed.

Lemma forward_alg_continuation_witness :
  exists fw',
    @forward_alg_block toy_hmm zero_R zero_RR zero_Z (0%Z, 3%Z) tiny_model
      (toy_block 2 1 None) (fun _ => one_hot_0) true false false = Some fw'
    /\ (forall p, (2 <= p < 2 + 1)%Z ->
          fw' p
          = @forward_block_step zero_R
              (@forward_block_tables toy_hmm zero_RR zero_Z leaf_tree 2
                 (enum_states leaf_tree 2) (toy_matrix 1))
              2 (enum_states leaf_tree 2) (fun _ => 1) (fw' (p - 1)%Z)
              (@new_block zero_R (fun _ => one_hot_0) 2 3 1 p))
    /\ fw' (2 - 1)%Z = one_hot_0.
Proof.
  assert (Hrun : exists fw',
    @forward_alg_block toy_hmm zero_R zero_RR zero_Z (0%Z, 3%Z) tiny_model
      (toy_block 2 1 None) (fun _ => one_hot_0) true false false = Some fw').
  { unfold forward_alg_block.
    rewrite forward_first_column_continuation
      by (simpl; try lia; reflexivity).
    cbn [call_fw call_off call_emit call_blocklen].
    change (Z.max (nstates (transmat (toy_block 2 1 None))) 1) with 1%Z.
    rewrite !max_array_one.
    destruct (Rle_dec _ 0) as [Hle|_].
    { exfalso. revert Hle. unfold shift. simpl.
      rewrite new_block_spec. simpl. unfold one_hot_0. simpl. lra. }
    match goal with
    | |- context [@arghmm_forward_block ?o ?a ?b ?c ?t ?n ?l ?s ?li ?m ?e ?f]
      => destruct (@arghmm_forward_block o a b c t n l s li m e f)
           as [fwb|] eqn:Hblk
    end.
    2:{ exfalso. unfold arghmm_forward_block in Hblk. simpl in Hblk.
        discriminate. }
    destruct (arghmm_forward_block_columns _ _ _ _ _ _ _ _ fwb Hblk eq_refl)
      as [Hcol Hframe].
    destruct (Rle_dec _ 0) as [Hle|_]; [|eexists; reflexivity].
    exfalso. revert Hle. unfold unshift. simpl.
    rewrite (Hcol 1%Z) by (simpl; lia). rewrite max_array_one.
    match goal with
    | |- ?x <= 0 -> False => assert (Hone : x = 1)
    end.
    { apply leaf_step_value.
      - rewrite Hframe by (simpl; lia). unfold shift. simpl.
        rewrite new_block_spec. simpl. unfold one_hot_0. simpl. lra.
      - unfold shift. simpl. lra. }
    rewrite Hone. lra. }
  destruct Hrun as [fw' Hrun]. exists fw'. split; [exact Hrun|].
  apply (proj2 (forward_alg_continuation toy_hmm zero_R zero_RR zero_Z
                  (0%Z, 3%Z) tiny_model (toy_block 2 1 None)
                  (fun _ => one_hot_0) fw' true false
                  ltac:(simpl; lia) eq_refl) Hrun eq_refl).
Defined.

(** ** Locating a state; the start column *)

Lemma State_eqb_eq (s1 s2 : State) : State_eqb s1 s2 = true <-> s1 = s2.
Proof.
  unfold State_eqb. rewrite andb_true_iff, !Z.eqb_eq.
  destruct s1, s2. simpl. split.
  - intros [-> ->]. reflexivity.
  - intros Heq. injection Heq. auto.
Qed.

Lemma find_vector_from_spec (states : States) (s : State) (i : Z) :
  (0 <= i)%Z ->
  find_vector_from i states s = (-1)%Z
  \/ ((i <= find_vector_from i states s < i + size states)%Z
      /\ nth (Z.to_nat (find_vector_from i states s - i)) states null_state
         = s).
Proof.
  revert i. induction states as [|x rest IH]; intros i Hi; simpl.
  - left. reflexivity.
  - destruct (State_eqb x s) eqn:E.
    + right. unfold size. simpl length. split; [lia|].
      replace (i - i)%Z with 0%Z by lia. simpl.
      apply State_eqb_eq. exact E.
    + destruct (IH (i + 1)%Z ltac:(lia)) as [Hn | [Hr Hnth]].
      * left. exact Hn.
      * right. unfold size in *. simpl length. split; [lia|].
        replace (Z.to_nat (find_vector_from (i + 1) rest s - i))
          with (S (Z.to_nat (find_vector_from (i + 1) rest s - (i + 1))))
          by lia.
        simpl. exact Hnth.
Qed.

Lemma find_vector_absent (states : States) (s : State) :
  ~ In s states -> find_vector states s = (-1)%Z.
Proof.
  unfold find_vector. generalize 0%Z as i.
  induction states as [|x rest IH]; intros i Hnin; simpl; [reflexivity|].
  destruct (State_eqb x s) eqn:E.
  - exfalso. apply Hnin. left. apply State_eqb_eq. exact E.
  - apply IH. intros Hin. apply Hnin. right. exact Hin.
Qed.

Lemma find_vector_spec (states : States) (s : State) :
  find_vector states s <> (-1)%Z ->
  (0 <= find_vector states s < size states)%Z
  /\ st states (find_vector states s) = s.
Proof.
  intros Hne. unfold find_vector in *.
  destruct (find_vector_from_spec states s 0 ltac:(lia)) as [Hn | [Hr Hnth]];
    [contradiction|].
  split; [lia|].
  unfold st. replace (find_vector_from 0 states s <? 0)%Z with false by lia.
  rewrite Z.sub_0_r in Hnth. exact Hnth.
Qed.

(** the recurrences write no column outside [1 .. blocklen-1] *)
Lemma arghmm_forward_block_frame `{HmmOps} `{Indet (arr R)}
    `{Indet (arr (arr R))} `{Indet (arr Z)}
    (tree : LocalTree) (ntimes blocklen : Z) (states : States)
    (lineages : LineageCounts) (matrix : TransMatrix)
    (emit fw fw' : arr (arr R)) (i : Z) :
  arghmm_forward_block tree ntimes blocklen states lineages matrix emit fw
  = Some fw' ->
  ~ (1 <= i < blocklen)%Z -> fw' i = fw i.
Proof.
  intros Hrun Hi.
  destruct (internal matrix && (size states =? 0)%Z) eqn:Hdeg.
  - unfold arghmm_forward_block in Hrun. rewrite Hdeg in Hrun.
    injection Hrun as <-.
    apply (for_up_inv (fun f : arr (arr R) => f i = fw i)); [reflexivity|].
    intros i0 t Hi0 Ht. unfold upd2. rewrite upd_other by lia. exact Ht.
  - destruct (arghmm_forward_block_columns tree ntimes blocklen states
                lineages matrix emit fw fw' Hrun Hdeg) as [_ Hframe].
    apply Hframe. exact Hi.
Qed.

(** a degenerate internal block copies its single entry from column to
    column *)
Lemma arghmm_forward_block_degenerate `{HmmOps} `{Indet (arr R)}
    `{Indet (arr (arr R))} `{Indet (arr Z)}
    (tree : LocalTree) (ntimes blocklen : Z) (states : States)
    (lineages : LineageCounts) (matrix : TransMatrix)
    (emit fw fw' : arr (arr R)) :
  arghmm_forward_block tree ntimes blocklen states lineages matrix emit fw
  = Some fw' ->
  internal matrix && (size states =? 0)%Z = true ->
  forall i, (1 <= i < blocklen)%Z ->
            fw' i = upd (fw i) 0 (fw' (i - 1)%Z 0%Z).
Proof.
  unfold arghmm_forward_block. intros Hrun Hdeg. rewrite Hdeg in Hrun.
  injection Hrun as <-.
  apply (block_loop_spec (fun _ c1 c2 => upd c2 0 (c1 0%Z))).
Qed.

Lemma forward_alg_block_keeps_start `{HmmOps} `{Indet (arr R)}
    `{Indet (arr (arr R))} `{Indet (arr Z)}
    (trees : LocalTrees) (model : ArgModel) (blk : Block)
    (fw fw' : arr (arr R)) (internal_ slow : bool) :
  (start_coord trees <= block_start blk)%Z ->
  forward_alg_block trees model blk fw true internal_ slow = Some fw' ->
  fw' (start_coord trees) = fw (start_coord trees).
Proof.
  intros Hstart Hrun. unfold forward_alg_block in Hrun.
  set (pos := block_start blk) in *.
  set (start := start_coord trees) in *.
  set (fw0 := if (pos >? start)%Z || negb true
              then new_block fw pos (pos + blocklen blk)%Z (mat_nstates2 blk)
              else fw) in *.
  assert (Hfw0 : fw0 start = fw start).
  { unfold fw0. destruct ((pos >? start)%Z || negb true) eqn:E;
      [|reflexivity].
    rewrite new_block_spec.
    replace ((pos <=? start) && (start <? pos + blocklen blk))%Z
      with false by lia.
    reflexivity. }
  destruct (forward_first_column _ _ _ _ _ _ _ _) as [c|] eqn:Hfirst;
    [|discriminate].
  assert (Hcall : call_fw c start = fw0 start
                  /\ (call_off c = pos
                      \/ (call_off c = (pos - 1)%Z /\ pos <> start))).
  { unfold forward_first_column in Hfirst. fold pos start in Hfirst.
    destruct (Z.eqb_spec pos start) as [Heq|Hne].
    - simpl in Hfirst. injection Hfirst as <-. simpl. auto.
    - destruct (transmat_switch blk) as [sw|].
      + destruct (arghmm_forward_switch _ _ _ _); [|discriminate].
        injection Hfirst as <-. simpl. split; [|auto].
        apply upd_other. congruence.
      + injection Hfirst as <-. simpl. auto. }
  destruct Hcall as [Hcfw Hoff].
  destruct (Rle_dec _ 0); [discriminate|].
  assert (Hkeep : forall fwb,
    (forall i, ~ (1 <= i < call_blocklen c)%Z ->
               fwb i = shift (call_off c) (call_fw c) i) ->
    unshift (call_off c) fwb start = fw start).
  { intros fwb Hframe. unfold unshift.
    rewrite Hframe by (destruct Hoff as [-> | [-> Hne]]; lia).
    unfold shift.
    replace (call_off c + (start - call_off c))%Z with start by lia.
    rewrite Hcfw. exact Hfw0. }
  destruct slow.
  - destruct (Rle_dec _ 0); [discriminate|]. injection Hrun as <-.
    apply Hkeep. intros i Hi.
    apply (arghmm_forward_block_slow_columns _ _ _ _ _ _ _ _). exact Hi.
  - destruct (arghmm_forward_block _ _ _ _ _ _ _ _) as [fwb|] eqn:Hblk;
      [|discriminate].
    destruct (Rle_dec _ 0); [discriminate|]. injection Hrun as <-.
    apply Hkeep. intros i Hi.
    apply (arghmm_forward_block_frame _ _ _ _ _ _ _ _ _ _ Hblk Hi).
Qed.

Lemma arghmm_forward_alg_keeps_start `{HmmOps} `{Indet (arr R)}
    `{Indet (arr (arr R))} `{Indet (arr Z)}
    (trees : LocalTrees) (model : ArgModel) (sequences : option Sequences)
    (matrix_iter : list Block) (fw fw' : arr (arr R))
    (internal_ slow : bool) :
  Forall (fun blk => (start_coord trees <= block_start blk)%Z) matrix_iter ->
  arghmm_forward_alg trees model sequences matrix_iter fw true internal_ slow
  = Some fw' ->
  fw' (start_coord trees) = fw (start_coord trees).
Proof.
  unfold arghmm_forward_alg. intros Hall. revert fw.
  induction Hall as [|blk rest Hblk Hrest IH]; intros fw Hrun; simpl in Hrun.
  - injection Hrun as <-. reflexivity.
  - destruct (forward_alg_block trees model blk fw true internal_ slow)
      as [fw1|] eqn:Hone.
    + rewrite (IH fw1 Hrun).
      apply (forward_alg_block_keeps_start trees model blk fw fw1 internal_
               slow Hblk Hone).
    + exfalso. clear -Hrun.
      induction rest as [|b r IHr]; simpl in Hrun; [discriminate|].
      apply IHr. exact Hrun.
Qed.

Lemma toy_first_block_runs (fw : arr (arr R)) :
  0 < fw 0%Z 0%Z ->
  @arghmm_forward_alg toy_hmm zero_R zero_RR zero_Z (0%Z, 1%Z) tiny_model
    (Some tt) [toy_block 0 1 None] fw true false false
  = Some (unshift 0 (shift 0 fw)).
Proof.
  intros Hpos. unfold arghmm_forward_alg, fold_left, forward_alg_block.
  cbn [block_start toy_block start_coord toy_hmm fst snd blocklen
       block_tree transmat emit mat_nstates2 ntimes tiny_model
       get_coal_states count_lineages get_local_model].
  replace ((0 >? 0)%Z || negb true) with false by reflexivity.
  unfold forward_first_column.
  cbn [block_start toy_block start_coord toy_hmm fst snd blocklen
       block_tree transmat emit mat_nstates2 ntimes tiny_model negb
       call_fw call_off call_emit call_blocklen nstates toy_matrix].
  replace (0 =? 0)%Z with true by reflexivity.
  cbn [negb call_fw call_off call_emit call_blocklen].
  change (Z.max 1 1) with 1%Z. rewrite !max_array_one.
  unfold shift at 1. cbn [Z.add].
  destruct (Rle_dec (fw 0%Z 0%Z) 0) as [Hle|_]; [lra|].
  unfold arghmm_forward_block.
  cbn [internal toy_matrix andb].
  replace (block_assert_fails 2 (block_minage leaf_tree (toy_matrix 1)) (enum_states leaf_tree 2)) with false by reflexivity.
  rewrite for_up_nil by lia.
  unfold unshift at 1, shift at 1. 
  change (max_array (fw (0 + (1 - 1 - 0))%Z) 1) with (fw 0%Z 0%Z).
  destruct (Rle_dec (fw 0%Z 0%Z) 0) as [Hle|_]; [lra|].
  reflexivity.
Qed.

(** ** Tracebacks at a block boundary without a switch *)

Lemma max_hmm_posterior_one `{Indet (arr ereal)} (tree : LocalTree)
    (states : States) (matrix : TransMatrix) (fw : arr (arr R))
    (path : arr Z) :
  max_hmm_posterior 1 tree states matrix fw path = path.
Proof. reflexivity. Qed.

Lemma first_positive_one (A : arr R) :
  0 < A 0%Z -> first_positive A 1 = 0%Z.
Proof.
  intros Hpos. unfold first_positive, range. simpl.
  destruct (Rlt_dec 0 (A 0%Z)); [reflexivity | contradiction].
Qed.

Lemma sample_hmm_posterior_one `{HmmOps} `{Indet (arr R)} (tree : LocalTree)
    (states : States) (matrix : TransMatrix) (fw : arr (arr R))
    (path : arr Z) (rng : Rng) :
  sample_hmm_posterior 1 tree states matrix fw path rng
  = Some (0, path, rng).
Proof. reflexivity. Qed.

Lemma toy_sample_hmm_posterior_two (fw : arr (arr R)) (path : arr Z) :
  0 < fw 0%Z 0%Z -> path 1%Z = 0%Z ->
  @sample_hmm_posterior toy_hmm zero_R 2 leaf_tree (enum_states leaf_tree 2)
    (toy_matrix 1) fw path tt
  = Some (0, upd path 0 0%Z, tt).
Proof.
  intros Hpos Hlast. unfold sample_hmm_posterior, for_down.
  change (rev (range 0 (2 - 1))) with [0%Z].
  cbn [fold_left ps_path ps_last_k ps_trans ps_A ps_rng].
  change (0 + 1)%Z with 1%Z. rewrite Hlast.
  change (negb (0 =? -1)%Z) with true. cbv iota.
  change (Z.max (size (enum_states leaf_tree 2)) 1) with 1%Z.
  cbn [sample toy_hmm].
  rewrite first_positive_one.
  2:{ unfold for_up, range. simpl. unfold upd. simpl. lra. }
  rewrite upd_same.
  match goal with
  | |- context [Req_dec_T ?x 0] => destruct (Req_dec_T x 0) as [Hz|_]
  end.
  - exfalso. revert Hz. unfold for_up, range. simpl. unfold upd. simpl. lra.
  - reflexivity.
Qed.


(** C6 (the code departs from it). Two blocks of one site over the same
    one-state space, no switch between them, path buffer initially 7
    everywhere.  The Viterbi traceback calls [max_hmm_posterior] with
    [n = 1], whose loop runs from [n-2 = -1] and so not at all: [path[0]]
    keeps the 7 it held, which is not a state.  The stochastic traceback
    calls [sample_hmm_posterior] with [blocklen = 2] and does assign
    [path[0]]. *)
Theorem viterbi_skips_boundary_column :
  (exists path',
     @max_traceback toy_hmm neginf_E (0%Z, 2%Z) tiny_model
       [toy_block 0 1 None; toy_block 1 1 None] (fun _ => one_hot_0)
       (fun _ => 7%Z) false false = Some path'
     /\ path' 1%Z = 0%Z /\ path' 0%Z = 7%Z)
  /\ (exists lnl path',
        @stochastic_traceback toy_hmm zero_R (0%Z, 2%Z) tiny_model
          [toy_block 0 1 None; toy_block 1 1 None] (fun _ => one_hot_0)
          (fun _ => 7%Z) false false tt = Some (lnl, path', tt)
        /\ path' 1%Z = 0%Z /\ path' 0%Z = 0%Z).
Proof.
  split.
  - unfold max_traceback.
    cbn [negb rev app end_coord toy_hmm snd mat_nstates2 toy_block].
    rewrite for_up_nil by lia.
    cbn [option_map fold_left].
    unfold max_traceback_block.
    cbn [blocklen toy_block block_tree transmat get_coal_states toy_hmm
         ntimes tiny_model transmat_switch start_coord fst snd].
    rewrite !max_hmm_posterior_one.
    eexists. split; [reflexivity|]. split; reflexivity.
  - unfold stochastic_traceback.
    cbn [negb rev app end_coord toy_hmm snd mat_nstates2 toy_block sample].
    change (Z.max 1 1) with 1%Z.
    rewrite first_positive_one by (unfold one_hot_0; simpl; lra).
    cbn [fold_left].
    unfold stochastic_traceback_block.
    cbn [ts_pos ts_path ts_lnl ts_rng blocklen toy_block block_tree transmat
         get_coal_states toy_hmm ntimes tiny_model transmat_switch
         start_coord fst].
    rewrite !sample_hmm_posterior_one.
    replace (2 - 1 >? 0)%Z with true by reflexivity.
    rewrite toy_sample_hmm_posterior_two.
    2:{ unfold shift, one_hot_0. simpl. lra. }
    2:{ reflexivity. }
    cbn [ts_pos ts_path ts_lnl ts_rng].
    rewrite !sample_hmm_posterior_one.
    replace (2 - 1 - 1 >? 0)%Z with false by reflexivity.
    cbn [option_map ts_lnl ts_path ts_rng].
    do 2 eexists. split; [reflexivity|]. split; reflexivity.
Qed.

(** ** The last column of the stochastic traceback *)

(** C7 (the code departs from it). One block of one site with the single
    state 0 and final forward column [1]: the traceback samples
    [path[end-1] = 0] from that column, and the running likelihood it
    returns starts from the entry [col[0] = 1] itself, not from its
    logarithm [ln 1 = 0]. *)
Theorem last_column_likelihood_not_logged :
  exists path',
    @stochastic_traceback toy_hmm zero_R (0%Z, 1%Z) tiny_model
      [toy_block 0 1 None] (fun _ => one_hot_0) (fun _ => 7%Z)
      false false tt
    = Some (Fin (one_hot_0 0%Z + 0), path', tt)
    /\ path' 0%Z = 0%Z
    /\ one_hot_0 0%Z + 0 = 1
    /\ ln (one_hot_0 (path' 0%Z)) + 0 = 0.
Proof.
  unfold stochastic_traceback.
  cbn [negb rev app end_coord toy_hmm snd mat_nstates2 toy_block sample].
  change (Z.max 1 1) with 1%Z.
  rewrite first_positive_one by (unfold one_hot_0; simpl; lra).
  cbn [fold_left].
  unfold stochastic_traceback_block.
  cbn [ts_pos ts_path ts_lnl ts_rng blocklen toy_block block_tree transmat
       get_coal_states toy_hmm ntimes tiny_model transmat_switch
       start_coord fst].
  rewrite !sample_hmm_posterior_one.
  replace (1 - 1 >? 0)%Z with false by reflexivity.
  cbn [option_map ts_lnl ts_path ts_rng eadd].
  eexists. split; [reflexivity|].
  split; [reflexivity|].
  split.
  - unfold one_hot_0. simpl. lra.
  - unfold unshift, shift, upd, one_hot_0. simpl. rewrite ln_1. lra.
Qed.

(** * Further properties of the emission engine *)

(** ** Jukes-Cantor branch probabilities *)

Lemma prob_branch_range (t mu : R) :
  0 <= mu * t ->
  prob_branch t mu false + 3 * prob_branch t mu true = 1
  /\ 0 <= prob_branch t mu true < 1/4
  /\ 1/4 < prob_branch t mu false <= 1.
Proof.
  intros Hpos. unfold prob_branch. simpl.
  set (e := exp (- (4 / 3) * mu * t)).
  assert (He0 : 0 < e) by apply exp_pos.
  assert (He1 : e <= 1).
  { unfold e. rewrite <- exp_0.
    destruct (Req_dec (mu * t) 0) as [Hz|Hnz].
    - right. f_equal. nra.
    - left. apply exp_increasing. nra. }
  repeat split; lra.
Qed.

(** X1. Over a branch of non-negative length (in expected mutations) the
    Jukes-Cantor probabilities form a distribution over the four bases:
    staying plus three times changing is one, changing to a given base has
    probability in [0, 1/4) and staying has probability in (1/4, 1]. *)
Theorem prob_branch_distribution (t mu : R) :
  0 <= mu * t ->
  prob_branch t mu false + 3 * prob_branch t mu true = 1
  /\ 0 <= prob_branch t mu true < 1/4
  /\ 1/4 < prob_branch t mu false <= 1.
Proof. exact (prob_branch_range t mu). Qed.

Lemma prob_branch_distribution_witness :
  prob_branch 1 1 false + 3 * prob_branch 1 1 true = 1
  /\ 0 <= prob_branch 1 1 true < 1/4
  /\ 1/4 < prob_branch 1 1 false <= 1.
Proof. apply (prob_branch_distribution 1 1). lra. Defined.

(** a branch of length zero keeps the base *)
Lemma prob_branch_zero (mu : R) :
  prob_branch 0 mu false = 1 /\ prob_branch 0 mu true = 0.
Proof.
  unfold prob_branch. simpl.
  replace (- (4 / 3) * mu * 0) with 0 by lra. rewrite exp_0. split; lra.
Qed.

(** ** Invariant sites and the mutation tables *)

Lemma find_invariant_sites_frame (seqs : Seqs) (nseqs seqlen : Z)
    (invariant : arr bool) (i : Z) :
  ~ (0 <= i < seqlen)%Z ->
  find_invariant_sites seqs nseqs seqlen invariant i = invariant i.
Proof.
  intros Hi. unfold find_invariant_sites.
  rewrite (for_up_upd 0 seqlen
             (fun i _ =>
                negb (existsb (fun j => negb (Ascii.eqb (seqs j i)
                                                        (seqs 0%Z i)))
                              (range 1 nseqs)))
             invariant (is_invariant_site seqs nseqs)).
  - replace ((0 <=? i) && (i <? seqlen))%Z with false by lia. reflexivity.
  - intros i0 t _ _ _. apply negb_existsb_negb.
Qed.

(** X2. [find_invariant_sites] marks site [i] of [0 <= i < seqlen] exactly
    when no sequence [1 <= j < nseqs] differs from sequence 0 there, which
    is the answer of [is_invariant_site]; it writes no other cell of the
    array.  With at most one sequence every site is marked. *)
Theorem find_invariant_sites_marks (seqs : Seqs) (nseqs seqlen : Z)
    (invariant : arr bool) :
  let invariant' := find_invariant_sites seqs nseqs seqlen invariant in
  (forall i, (0 <= i < seqlen)%Z ->
     invariant' i = is_invariant_site seqs nseqs i
     /\ (invariant' i = true <->
         forall j, (1 <= j < nseqs)%Z -> seqs j i = seqs 0%Z i)
     /\ ((nseqs <= 1)%Z -> invariant' i = true))
  /\ (forall i, ~ (0 <= i < seqlen)%Z -> invariant' i = invariant i).
Proof.
  cbv zeta. split.
  - intros i Hi. rewrite find_invariant_sites_spec by assumption.
    split; [reflexivity | split].
    + apply is_invariant_site_iff.
    + intros Hn. unfold is_invariant_site. rewrite range_nil by lia.
      reflexivity.
  - intros i Hi. apply find_invariant_sites_frame. assumption.
Qed.

Lemma prob_tree_mutation_spec (tree : LocalTree) (model : ArgModel)
    (muts nomuts : arr R) (i : Z) :
  let r := prob_tree_mutation tree model muts nomuts in
  if ((0 <=? i) && (i <? nnodes tree))%Z
     && negb ((i =? root tree)%Z
              || (age (nodes tree (parent (nodes tree i)))
                  =? removed_root_time model)%Z)
  then fst r i = branch_prob tree model true i
       /\ snd r i = branch_prob tree model false i
  else fst r i = muts i /\ snd r i = nomuts i.
Proof.
  cbv zeta. unfold prob_tree_mutation.
  pose (skip := fun i' =>
    ((i' =? root tree)%Z
     || (age (nodes tree (parent (nodes tree i')))
         =? removed_root_time model)%Z)).
  pose (P := fun (n : Z) (s : arr R * arr R) =>
    forall i',
      if ((0 <=? i') && (i' <? n))%Z && negb (skip i')
      then fst s i' = branch_prob tree model true i'
           /\ snd s i' = branch_prob tree model false i'
      else fst s i' = muts i' /\ snd s i' = nomuts i').
  set (X := for_up 0 (nnodes tree) _ _).
  assert (Hinv : P (Z.max 0 (nnodes tree)) X).
  { subst X. apply (for_up_indm P).
    - intros i'. replace ((0 <=? i') && (i' <? 0))%Z with false by lia.
      simpl. split; reflexivity.
    - intros n [m nm] Hn Hprev i'. specialize (Hprev i').
      cbn [fst snd] in Hprev.
      destruct (Z.eq_dec i' n) as [->|Hne].
      + replace ((0 <=? n) && (n <? n))%Z with false in Hprev by lia.
        replace ((0 <=? n) && (n <? n + 1))%Z with true by lia.
        simpl in Hprev. unfold skip. simpl.
        destruct (n =? root tree)%Z; simpl; [exact Hprev|].
        destruct (age (nodes tree (parent (nodes tree n)))
                  =? removed_root_time model)%Z; simpl; [exact Hprev|].
        rewrite !upd_same. split; reflexivity.
      + replace ((0 <=? i') && (i' <? n + 1))%Z
          with ((0 <=? i') && (i' <? n))%Z by lia.
        assert (Hsame :
          fst (if (n =? root tree)%Z then (m, nm)
               else if (age (nodes tree (parent (nodes tree n)))
                        =? removed_root_time model)%Z then (m, nm)
               else (upd m n (branch_prob tree model true n),
                     upd nm n (branch_prob tree model false n))) i' = m i'
          /\ snd (if (n =? root tree)%Z then (m, nm)
                  else if (age (nodes tree (parent (nodes tree n)))
                           =? removed_root_time model)%Z then (m, nm)
                  else (upd m n (branch_prob tree model true n),
                        upd nm n (branch_prob tree model false n))) i'
             = nm i').
        { destruct (n =? root tree)%Z; [split; reflexivity|].
          destruct (age (nodes tree (parent (nodes tree n)))
                    =? removed_root_time model)%Z; [split; reflexivity|].
          simpl. rewrite !upd_other by assumption. split; reflexivity. }
        destruct Hsame as [H1 H2]. unfold branch_prob in H1, H2.
        rewrite H1, H2. exact Hprev. }
  specialize (Hinv i). unfold skip in Hinv.
  replace ((0 <=? i) && (i <? Z.max 0 (nnodes tree)))%Z
    with ((0 <=? i) && (i <? nnodes tree))%Z in Hinv by lia.
  exact Hinv.
Qed.

(** X3. [prob_tree_mutation] gives every branch below the root, other than
    a branch that reaches the removed root time, its two Jukes-Cantor
    probabilities over the floored branch length, and these sum to one over
    the four bases; it never writes the cell of the root, of a branch into
    the removed root, or of an index outside the tree. *)
Theorem prob_tree_mutation_entries (tree : LocalTree) (model : ArgModel)
    (muts nomuts : arr R) :
  0 <= mu model -> 0 <= mintime model ->
  let r := prob_tree_mutation tree model muts nomuts in
  let removed i :=
    age (nodes tree (parent (nodes tree i))) = removed_root_time model in
  let t i :=
    Rmax (times model (age (nodes tree (parent (nodes tree i))))
          - times model (age (nodes tree i)))
         (mintime model) in
  (forall i, (0 <= i < nnodes tree)%Z -> i <> root tree -> ~ removed i ->
     fst r i = prob_branch (t i) (mu model) true
     /\ snd r i = prob_branch (t i) (mu model) false
     /\ snd r i + 3 * fst r i = 1)
  /\ (forall i, ~ (0 <= i < nnodes tree)%Z \/ i = root tree \/ removed i ->
        fst r i = muts i /\ snd r i = nomuts i).
Proof.
  intros Hmu Hmin. cbv zeta. split.
  - intros i Hi Hroot Hrem.
    pose proof (prob_tree_mutation_spec tree model muts nomuts i) as Hs.
    cbv zeta in Hs.
    replace ((0 <=? i) && (i <? nnodes tree))%Z with true in Hs by lia.
    replace (i =? root tree)%Z with false in Hs by lia.
    replace (age (nodes tree (parent (nodes tree i)))
             =? removed_root_time model)%Z with false in Hs by lia.
    simpl in Hs. destruct Hs as [H1 H2]. rewrite H1, H2.
    unfold branch_prob. split; [reflexivity | split; [reflexivity|]].
    apply prob_branch_range.
    apply Rmult_le_pos; [assumption|].
    eapply Rle_trans; [exact Hmin | apply Rmax_r].
  - intros i Hcase.
    pose proof (prob_tree_mutation_spec tree model muts nomuts i) as Hs.
    cbv zeta in Hs.
    destruct Hcase as [Hout | [Hroot | Hrem]].
    + replace ((0 <=? i) && (i <? nnodes tree))%Z with false in Hs by lia.
      exact Hs.
    + replace (i =? root tree)%Z with true in Hs by lia.
      rewrite andb_false_r in Hs. exact Hs.
    + replace (age (nodes tree (parent (nodes tree i)))
               =? removed_root_time model)%Z with true in Hs by lia.
      rewrite orb_true_r, andb_false_r in Hs. exact Hs.
Qed.

Lemma prob_tree_mutation_entries_witness :
  let r := prob_tree_mutation (cherry_tree 1) unit_model (fun _ => 0)
                              (fun _ => 0) in
  fst r 0%Z = prob_branch 1 1 true /\ fst r 2%Z = 0.
Proof.
  cbv zeta.
  pose proof (prob_tree_mutation_entries (cherry_tree 1) unit_model
                (fun _ => 0) (fun _ => 0)) as Hs.
  cbv zeta in Hs.
  assert (Hmu : 0 <= mu unit_model) by (simpl; lra).
  assert (Hmin : 0 <= mintime unit_model) by (simpl; lra).
  destruct (Hs Hmu Hmin) as [Hin Hout]. split.
  - destruct (Hin 0%Z) as [H1 _]; [simpl; lia | simpl; lia | simpl; lia |].
    rewrite H1. simpl. f_equal.
    replace (1 - 0) with 1 by lra. apply Rmax_left. lra.
  - destruct (Hout 2%Z) as [H1 _]; [right; left; reflexivity|].
    exact H1.
Defined.

(** ** The pruning pass computes probabilities *)

Lemma for_up_4 {S : Type} (body : Z -> S -> S) (s : S) :
  for_up 0 4 body s = body 3%Z (body 2%Z (body 1%Z (body 0%Z s))).
Proof. reflexivity. Qed.

(** the two sums over the child rows that one entry of an internal node
    multiplies *)
Lemma inner_pair_sums (a : Z) (x y : arr R) (n1 m1 n2 m2 : R) :
  for_up 0 4
    (fun b '(p1, p2) =>
       if (a =? b)%Z then (p1 + x b * n1, p2 + y b * n2)
       else (p1 + x b * m1, p2 + y b * m2))
    (0, 0)
  = (sumZ 0 4 (fun b => x b * (if (a =? b)%Z then n1 else m1)),
     sumZ 0 4 (fun b => y b * (if (a =? b)%Z then n2 else m2))).
Proof.
  unfold sumZ. rewrite !for_up_4.
  destruct (a =? 0)%Z, (a =? 1)%Z, (a =? 2)%Z, (a =? 3)%Z; reflexivity.
Qed.

(** a row of values in [0, 1], weighted by one row of the Jukes-Cantor
    matrix, stays in [0, 1] *)
Lemma mix_range (a : Z) (x : arr R) (n m : R) :
  (0 <= a < 4)%Z -> 0 <= m -> 0 <= n -> n + 3 * m = 1 ->
  (forall b, (0 <= b < 4)%Z -> 0 <= x b <= 1) ->
  0 <= sumZ 0 4 (fun b => x b * (if (a =? b)%Z then n else m)) <= 1.
Proof.
  intros Ha Hm Hn Hsum Hx.
  pose proof (Hx 0%Z ltac:(lia)) as H0.
  pose proof (Hx 1%Z ltac:(lia)) as H1.
  pose proof (Hx 2%Z ltac:(lia)) as H2.
  pose proof (Hx 3%Z ltac:(lia)) as H3.
  unfold sumZ. rewrite for_up_4.
  assert (Hcases : a = 0%Z \/ a = 1%Z \/ a = 2%Z \/ a = 3%Z) by lia.
  destruct Hcases as [-> | [-> | [-> | ->]]]; simpl; nra.
Qed.

(** the same row of ones gives one *)
Lemma mix_ones (a : Z) (x : arr R) (n m : R) :
  (0 <= a < 4)%Z -> n + 3 * m = 1 ->
  (forall b, (0 <= b < 4)%Z -> x b = 1) ->
  sumZ 0 4 (fun b => x b * (if (a =? b)%Z then n else m)) = 1.
Proof.
  intros Ha Hsum Hx.
  unfold sumZ. rewrite for_up_4.
  rewrite (Hx 0%Z), (Hx 1%Z), (Hx 2%Z), (Hx 3%Z) by lia.
  assert (Hcases : a = 0%Z \/ a = 1%Z \/ a = 2%Z \/ a = 3%Z) by lia.
  destruct Hcases as [-> | [-> | [-> | ->]]]; simpl; lra.
Qed.

Lemma node_inner_range `{TreeOps} (tree : LocalTree) (j : Z) (seqs : Seqs)
    (pos : Z) (muts nomuts : arr R) (S : Z -> Prop) (T : lk_table) :
  rows_in (fun v => 0 <= v <= 1) S T ->
  (is_leaf (nodes tree j) = false ->
   forall c, c = child0 (nodes tree j) \/ c = child1 (nodes tree j) ->
             S c /\ 0 <= muts c /\ 0 <= nomuts c
             /\ nomuts c + 3 * muts c = 1) ->
  rows_in (fun v => 0 <= v <= 1) (fun n => S n \/ n = j)
          (likelihood_site_node_inner tree j seqs pos muts nomuts T).
Proof.
  intros Hin Hch. unfold likelihood_site_node_inner.
  destruct (is_leaf (nodes tree j)) eqn:Hleaf.
  - destruct (is_N (seqs j pos));
      intros n a Hn Ha;
      (destruct (Z.eq_dec n j) as [->|Hne];
       [ rewrite !upd2_same_row;
         assert (Hcases : a = 0%Z \/ a = 1%Z \/ a = 2%Z \/ a = 3%Z) by lia;
         destruct Hcases as [-> | [-> | [-> | ->]]]; unfold upd; simpl;
         repeat match goal with
                | |- context [if ?b then _ else _] => destruct b
                end; lra
       | rewrite !upd2_other_row by assumption;
         destruct Hn as [Hn|Hn]; [apply Hin; assumption | contradiction] ]).
  - destruct (Hch eq_refl _ (or_introl eq_refl)) as [Hc1 [Hm1 [Hn1 Hs1]]].
    destruct (Hch eq_refl _ (or_intror eq_refl)) as [Hc2 [Hm2 [Hn2 Hs2]]].
    set (c1 := child0 (nodes tree j)) in *.
    set (c2 := child1 (nodes tree j)) in *.
    pose (P := fun (a : Z) (U : lk_table) =>
                 rows_in (fun v => 0 <= v <= 1) S U
                 /\ forall a', (0 <= a' < a)%Z -> 0 <= U j a' <= 1).
    match goal with
    | |- rows_in _ _ ?X => assert (Hinv : P 4%Z X)
    end.
    { apply (for_up_ind P); [lia | split; [assumption | intros; lia] |].
      intros a U Ha [HinU Hdone].
      rewrite (inner_pair_sums a (U c1) (U c2) (nomuts c1) (muts c1)
                 (nomuts c2) (muts c2)).
      pose proof (mix_range a (U c1) (nomuts c1) (muts c1) Ha Hm1 Hn1 Hs1
                    (fun b Hb => HinU c1 b Hc1 Hb)) as Hp1.
      pose proof (mix_range a (U c2) (nomuts c2) (muts c2) Ha Hm2 Hn2 Hs2
                    (fun b Hb => HinU c2 b Hc2 Hb)) as Hp2.
      cbv beta iota.
      remember (sumZ 0 4 (fun b => U c1 b
                            * (if (a =? b)%Z then nomuts c1 else muts c1)))
        as p1.
      remember (sumZ 0 4 (fun b => U c2 b
                            * (if (a =? b)%Z then nomuts c2 else muts c2)))
        as p2.
      assert (Hprod : 0 <= p1 * p2 <= 1) by nra.
      split.
      - intros n a0 Hn Ha0. rewrite upd2_eq.
        destruct (n =? j)%Z eqn:Enj; [|apply HinU; assumption].
        apply Z.eqb_eq in Enj. subst n.
        destruct (a0 =? a)%Z; [exact Hprod | apply HinU; assumption].
      - intros a' Ha'. rewrite upd2_eq, Z.eqb_refl.
        destruct (Z.eqb_spec a' a); [exact Hprod | apply Hdone; lia]. }
    destruct Hinv as [HinU Hdone].
    intros n a [Hn | ->] Ha; [apply HinU; assumption | apply Hdone; assumption].
Qed.

Lemma site_inner_range `{TreeOps} (tree : LocalTree) (seqs : Seqs) (pos : Z)
    (order : arr Z) (norder : Z) (muts nomuts : arr R) (T : lk_table) :
  (exists i, (0 <= i < norder)%Z /\ order i = root tree) ->
  (forall i, (0 <= i < norder)%Z ->
     is_leaf (nodes tree (order i)) = false ->
     forall c, c = child0 (nodes tree (order i))
               \/ c = child1 (nodes tree (order i)) ->
       0 <= muts c /\ 0 <= nomuts c /\ nomuts c + 3 * muts c = 1
       /\ exists i', (0 <= i' < i)%Z /\ order i' = c) ->
  0 <= fst (likelihood_site_inner tree seqs pos order norder muts nomuts T)
    <= 1.
Proof.
  intros [ir [Hir Hroot]] Hord.
  unfold likelihood_site_inner. cbn [fst].
  pose (P := fun (i : Z) (U : lk_table) =>
               rows_in (fun v => 0 <= v <= 1)
                       (fun n => exists i', (0 <= i' < i)%Z /\ order i' = n)
                       U).
  set (X := for_up 0 norder _ T).
  assert (Hinv : P norder X).
  { subst X. apply (for_up_ind P); [lia | |].
    - intros n a [i' [Hi' _]]. lia.
    - intros i U Hi HinU.
      pose proof (node_inner_range tree (order i) seqs pos muts nomuts _ U
                    HinU) as Hstep.
      intros n a [i' [Hi' Hn]] Ha. apply Hstep; [| | assumption].
      + intros Hleaf c Hc.
        destruct (Hord i Hi Hleaf c Hc) as [Hm [Hn' [Hs Hex]]].
        split; [exact Hex | split; [exact Hm | split; assumption]].
      + destruct (Z.eq_dec i' i) as [->|Hne]; [right; congruence|].
        left. exists i'. split; [lia|assumption]. }
  assert (Hrow : forall a, (0 <= a < 4)%Z -> 0 <= X (root tree) a <= 1).
  { intros a Ha. apply Hinv; [|assumption]. exists ir. split; assumption. }
  rewrite for_up_4.
  pose proof (Hrow 0%Z ltac:(lia)). pose proof (Hrow 1%Z ltac:(lia)).
  pose proof (Hrow 2%Z ltac:(lia)). pose proof (Hrow 3%Z ltac:(lia)).
  lra.
Qed.

Lemma node_inner_ones `{TreeOps} (tree : LocalTree) (j : Z) (seqs : Seqs)
    (pos : Z) (muts nomuts : arr R) (S : Z -> Prop) (T : lk_table) :
  rows_in (fun v => v = 1) S T ->
  (is_leaf (nodes tree j) = true -> is_N (seqs j pos) = true) ->
  (is_leaf (nodes tree j) = false ->
   forall c, c = child0 (nodes tree j) \/ c = child1 (nodes tree j) ->
             S c /\ nomuts c + 3 * muts c = 1) ->
  rows_in (fun v => v = 1) (fun n => S n \/ n = j)
          (likelihood_site_node_inner tree j seqs pos muts nomuts T).
Proof.
  intros Hin HN Hch. unfold likelihood_site_node_inner.
  destruct (is_leaf (nodes tree j)) eqn:Hleaf.
  - rewrite (HN eq_refl).
    intros n a Hn Ha.
    destruct (Z.eq_dec n j) as [->|Hne].
    + rewrite !upd2_same_row.
      assert (Hcases : a = 0%Z \/ a = 1%Z \/ a = 2%Z \/ a = 3%Z) by lia.
      destruct Hcases as [-> | [-> | [-> | ->]]]; reflexivity.
    + rewrite !upd2_other_row by assumption.
      destruct Hn as [Hn|Hn]; [apply Hin; assumption | contradiction].
  - destruct (Hch eq_refl _ (or_introl eq_refl)) as [Hc1 Hs1].
    destruct (Hch eq_refl _ (or_intror eq_refl)) as [Hc2 Hs2].
    set (c1 := child0 (nodes tree j)) in *.
    set (c2 := child1 (nodes tree j)) in *.
    pose (P := fun (a : Z) (U : lk_table) =>
                 rows_in (fun v => v = 1) S U
                 /\ forall a', (0 <= a' < a)%Z -> U j a' = 1).
    match goal with
    | |- rows_in _ _ ?X => assert (Hinv : P 4%Z X)
    end.
    { apply (for_up_ind P); [lia | split; [assumption | intros; lia] |].
      intros a U Ha [HinU Hdone].
      rewrite (inner_pair_sums a (U c1) (U c2) (nomuts c1) (muts c1)
                 (nomuts c2) (muts c2)).
      cbv beta iota.
      rewrite (mix_ones a (U c1) (nomuts c1) (muts c1) Ha Hs1
                 (fun b Hb => HinU c1 b Hc1 Hb)).
      rewrite (mix_ones a (U c2) (nomuts c2) (muts c2) Ha Hs2
                 (fun b Hb => HinU c2 b Hc2 Hb)).
      replace (1 * 1) with 1 by lra.
      split.
      - intros n a0 Hn Ha0. rewrite upd2_eq.
        destruct (n =? j)%Z eqn:Enj; [|apply HinU; assumption].
        apply Z.eqb_eq in Enj. subst n.
        destruct (a0 =? a)%Z; [reflexivity | apply HinU; assumption].
      - intros a' Ha'. rewrite upd2_eq, Z.eqb_refl.
        destruct (Z.eqb_spec a' a); [reflexivity | apply Hdone; lia]. }
    destruct Hinv as [HinU Hdone].
    intros n a [Hn | ->] Ha; [apply HinU; assumption | apply Hdone; assumption].
Qed.

(** X4. Missing data is summed out: at a site where every leaf of the
    postorder carries [N] (or [n]), the pruning pass returns the likelihood
    1, whatever the table held before, as long as the root is listed,
    children are listed before their parents and the two probabilities of
    every child branch sum to one over the four bases. *)
Theorem missing_site_likelihood_one (ops : TreeOps) (tree : LocalTree)
    (seqs : Seqs) (pos : Z) (order : arr Z) (norder : Z)
    (muts nomuts : arr R) (T : lk_table) :
  (exists i, (0 <= i < norder)%Z /\ order i = root tree) ->
  (forall i, (0 <= i < norder)%Z ->
     is_leaf (nodes tree (order i)) = true ->
     is_N (seqs (order i) pos) = true) ->
  (forall i, (0 <= i < norder)%Z ->
     is_leaf (nodes tree (order i)) = false ->
     forall c, c = child0 (nodes tree (order i))
               \/ c = child1 (nodes tree (order i)) ->
       nomuts c + 3 * muts c = 1
       /\ exists i', (0 <= i' < i)%Z /\ order i' = c) ->
  fst (likelihood_site_inner tree seqs pos order norder muts nomuts T) = 1.
Proof.
  intros [ir [Hir Hroot]] HN Hord.
  unfold likelihood_site_inner. cbn [fst].
  pose (P := fun (i : Z) (U : lk_table) =>
               rows_in (fun v => v = 1)
                       (fun n => exists i', (0 <= i' < i)%Z /\ order i' = n)
                       U).
  set (X := for_up 0 norder _ T).
  assert (Hinv : P norder X).
  { subst X. apply (for_up_ind P); [lia | |].
    - intros n a [i' [Hi' _]]. lia.
    - intros i U Hi HinU.
      pose proof (node_inner_ones tree (order i) seqs pos muts nomuts _ U
                    HinU) as Hstep.
      intros n a [i' [Hi' Hn]] Ha. apply Hstep; [| | | assumption].
      + intros Hleaf. apply HN; assumption.
      + intros Hleaf c Hc.
        destruct (Hord i Hi Hleaf c Hc) as [Hs Hex].
        split; [exact Hex | exact Hs].
      + destruct (Z.eq_dec i' i) as [->|Hne]; [right; congruence|].
        left. exists i'. split; [lia|assumption]. }
  assert (Hrow : forall a, (0 <= a < 4)%Z -> X (root tree) a = 1).
  { intros a Ha. apply Hinv; [|assumption]. exists ir. split; assumption. }
  rewrite for_up_4.
  rewrite (Hrow 0%Z), (Hrow 1%Z), (Hrow 2%Z), (Hrow 3%Z) by lia.
  lra.
Qed.

Lemma missing_site_likelihood_one_witness :
  fst (@likelihood_site_inner leaf_ops (cherry_tree 1) seqs_NN 0
         (fun i => i) 3 quarters quarters (fun _ _ => 0)) = 1.
Proof.
  apply (missing_site_likelihood_one leaf_ops).
  - exists 2%Z. split; [lia | reflexivity].
  - intros i Hi _. reflexivity.
  - intros i Hi Hleaf c Hc.
    assert (Hcases : i = 0%Z \/ i = 1%Z \/ i = 2%Z) by lia.
    destruct Hcases as [-> | [-> | ->]]; simpl in Hleaf;
      try discriminate.
    split; [unfold quarters; lra|].
    simpl in Hc. destruct Hc as [-> | ->];
      [exists 0%Z | exists 1%Z]; split; (lia || reflexivity).
Defined.

Lemma branch_prob_range (tree : LocalTree) (model : ArgModel) (c : Z) :
  0 <= mu model -> 0 <= mintime model ->
  0 <= branch_prob tree model true c
  /\ 0 <= branch_prob tree model false c
  /\ branch_prob tree model false c + 3 * branch_prob tree model true c = 1.
Proof.
  intros Hmu Hmin. unfold branch_prob.
  match goal with
  | |- context [prob_branch ?t _ _] =>
      destruct (prob_branch_range t (mu model)) as [Hs [Hm Hn]]
  end.
  - apply Rmult_le_pos; [assumption|].
    eapply Rle_trans; [exact Hmin | apply Rmax_r].
  - split; [lra | split; [lra | exact Hs]].
Qed.

Lemma site_likelihood_range `{TreeOps} (tree : LocalTree) (model : ArgModel)
    (seqs : Seqs) (pos : Z) :
  postorder_ok tree -> 0 <= mu model -> 0 <= mintime model ->
  0 <= site_likelihood tree model seqs pos <= 1.
Proof.
  intros [Hroot Hord] Hmu Hmin. unfold site_likelihood.
  apply site_inner_range; [exact Hroot|].
  intros i Hi Hleaf c Hc.
  destruct (Hord i Hi Hleaf c Hc) as [_ [_ Hex]].
  destruct (branch_prob_range tree model c Hmu Hmin) as [Hm [Hn Hs]].
  split; [exact Hm | split; [exact Hn | split; [exact Hs | exact Hex]]].
Qed.

Lemma invariant_lk_range (model : ArgModel) (treelen : R) :
  0 <= mu model -> 0 <= mintime model ->
  0 < (1/4) * exp (- mu model * Rmax treelen (mintime model)) <= 1/4.
Proof.
  intros Hmu Hmin.
  set (x := mu model * Rmax treelen (mintime model)).
  assert (Hx : 0 <= x).
  { apply Rmult_le_pos; [assumption|].
    eapply Rle_trans; [exact Hmin | apply Rmax_r]. }
  replace (- mu model * Rmax treelen (mintime model)) with (- x)
    by (unfold x; lra).
  assert (He0 : 0 < exp (- x)) by apply exp_pos.
  assert (He1 : exp (- x) <= 1).
  { rewrite <- exp_0. destruct (Req_dec x 0) as [Hz|Hnz].
    - right. f_equal. lra.
    - left. apply exp_increasing. lra. }
  lra.
Qed.

(** X5. Every emission that [calc_emissions] writes is a probability: with
    a non-negative mutation rate and minimum branch length, and threaded
    trees whose postorder lists children before parents, each entry
    [emit[i][j]] of a site [i] and a state [j] lies in [0, 1], and at an
    invariant site it lies in (0, 1/4].  (A character other than a base or
    [N] would index outside the row of its leaf in the source; such
    sequences are excluded.) *)
Theorem calc_emissions_probabilities (ops : TreeOps) (IR : Indet (arr R))
    (IZ : Indet (arr Z)) (IB : Indet (arr bool)) (IT : Indet (arr lk_table))
    (states : States) (tree : LocalTree) (seqs : Seqs) (nseqs seqlen : Z)
    (model : ArgModel) (emit : arr (arr R)) :
  0 <= mu model -> 0 <= mintime model ->
  bases_valid seqs ->
  (forall j, (0 <= j < size states)%Z ->
             postorder_ok (emission_tree states tree j)) ->
  exists emit',
    calc_emissions states tree seqs nseqs seqlen model emit = Some emit'
    /\ forall i j, (0 <= i < seqlen)%Z -> (0 <= j < size states)%Z ->
         0 <= emit' i j <= 1
         /\ (is_invariant_site seqs nseqs i = true ->
             0 < emit' i j <= 1/4).
Proof.
  intros Hmu Hmin _ Hpost.
  destruct (calc_emissions_spec states tree seqs nseqs seqlen model emit)
    as [emit' [Hrun Hval]].
  exists emit'. split; [exact Hrun|].
  intros i j Hi Hj.
  rewrite (Hval i j Hi Hj (or_intror (Hpost j Hj))).
  unfold emission_value.
  destruct (is_invariant_site seqs nseqs i).
  - pose proof (invariant_lk_range model
                  (floored_treelen (emission_tree states tree j) model)
                  Hmu Hmin) as Hr.
    split; [lra | intros _; exact Hr].
  - split; [|discriminate].
    apply site_likelihood_range; [apply Hpost; assumption | assumption
                                  | assumption].
Qed.

Lemma seqs_AC_valid : @bases_valid leaf_ops seqs_AC.
Proof.
  intros n i. right. unfold seqs_AC.
  destruct (n =? 0)%Z; simpl; lia.
Qed.

Lemma calc_emissions_probabilities_witness :
  exists emit',
    @calc_emissions leaf_ops zero_R zero_Z false_B zero_table
      [mkState 0 1] leaf_tree seqs_AC 2 1 unit_model (fun _ _ => 0)
    = Some emit'
    /\ forall i j, (0 <= i < 1)%Z -> (0 <= j < size [mkState 0 1])%Z ->
         0 <= emit' i j <= 1
         /\ (is_invariant_site seqs_AC 2 i = true -> 0 < emit' i j <= 1/4).
Proof.
  apply (calc_emissions_probabilities leaf_ops).
  - simpl. lra.
  - simpl. lra.
  - exact seqs_AC_valid.
  - intros j Hj. apply cherry_postorder_ok.
Defined.

(** ** The cells that the emission functions write *)

Lemma calc_emissions_frame `{TreeOps} `{Indet (arr R)} `{Indet (arr Z)}
    `{Indet (arr bool)} `{Indet (arr lk_table)}
    (states : States) (tree : LocalTree) (seqs : Seqs) (nseqs seqlen : Z)
    (model : ArgModel) (emit : arr (arr R)) :
  exists emit',
    calc_emissions states tree seqs nseqs seqlen model emit = Some emit'
    /\ forall i k, ~ ((0 <= i < seqlen)%Z /\ (0 <= k < size states)%Z) ->
         emit' i k = emit i k.
Proof.
  unfold calc_emissions.
  pose (P := fun (j : Z) (acc : option emis_state) =>
      exists s, acc = Some s
        /\ forall i k, ~ ((0 <= i < seqlen)%Z /\ (0 <= k < j)%Z) ->
             es_emit s i k = emit i k).
  match goal with
  | |- context [for_up 0 (size states) ?b ?s0] =>
      set (X := for_up 0 (size states) b s0)
  end.
  assert (Hinv : P (size states) X).
  { subst X. apply (for_up_ind P); [unfold size; lia | |].
    - eexists. split; [reflexivity|]. reflexivity.
    - intros j acc Hj [s [-> Hframe]].
      match goal with
      | |- context [likelihood_sites ?t2 model seqs seqlen j (Some ?inv)
                                     (es_emit s) (es_table s) _ _] =>
          destruct (likelihood_sites_full t2 model seqs seqlen j inv
                      (es_emit s) (es_table s))
            as [e' [t' [Hls [Hfr _]]]]
      end.
      rewrite Hls.
      eexists. split; [reflexivity|]. simpl.
      intros i k Hn.
      destruct (Z.eq_dec k j) as [->|Hne].
      + rewrite Hfr by lia. apply Hframe. lia.
      + rewrite Hfr by lia. apply Hframe. lia. }
  destruct Hinv as [s [-> Hframe]].
  exists (es_emit s). split; [reflexivity | exact Hframe].
Qed.

Lemma calc_emissions_slow_frame `{TreeOps} `{Indet (arr R)} `{Indet (arr Z)}
    `{Indet (arr bool)} `{Indet (arr lk_table)}
    (states : States) (tree : LocalTree) (seqs : Seqs) (nseqs seqlen : Z)
    (model : ArgModel) (emit : arr (arr R)) :
  exists emit',
    calc_emissions_slow states tree seqs nseqs seqlen model emit = Some emit'
    /\ forall i k, ~ ((0 <= i < seqlen)%Z /\ (0 <= k < size states)%Z) ->
         emit' i k = emit i k.
Proof.
  unfold calc_emissions_slow.
  pose (P := fun (j : Z)
                 (acc : option (LocalTree * arr (arr R) * arr lk_table)) =>
      exists tree2 e t, acc = Some (tree2, e, t)
        /\ forall i k, ~ ((0 <= i < seqlen)%Z /\ (0 <= k < j)%Z) ->
             e i k = emit i k).
  match goal with
  | |- context [for_up 0 (size states) ?b ?s0] =>
      set (X := for_up 0 (size states) b s0)
  end.
  assert (Hinv : P (size states) X).
  { subst X. apply (for_up_ind P); [unfold size; lia | |].
    - do 3 eexists. split; [reflexivity|]. reflexivity.
    - intros j acc Hj [tree2 [e [t [-> Hframe]]]].
      match goal with
      | |- context [likelihood_sites ?t2 model seqs seqlen j (Some ?inv)
                                     e t _ _] =>
          destruct (likelihood_sites_full t2 model seqs seqlen j inv e t)
            as [e' [t' [Hls [Hfr _]]]]
      end.
      rewrite Hls.
      do 3 eexists. split; [reflexivity|].
      intros i k Hn. rewrite Hfr by lia. apply Hframe. lia. }
  destruct Hinv as [tree2 [e [t [-> Hframe]]]].
  exists e. split; [reflexivity | exact Hframe].
Qed.

(** X6. [calc_emissions] and [calc_emissions_slow] always return, and
    write only the cells [emit[i][k]] of the sites [0 <= i < seqlen] and the
    states [0 <= k < nstates]: every other cell of the matrix keeps its
    contents.  With no state or no site the matrix is returned as it
    was. *)
Theorem calc_emissions_writes_only_states (ops : TreeOps)
    (IR : Indet (arr R)) (IZ : Indet (arr Z)) (IB : Indet (arr bool))
    (IT : Indet (arr lk_table))
    (states : States) (tree : LocalTree) (seqs : Seqs) (nseqs seqlen : Z)
    (model : ArgModel) (emit : arr (arr R)) :
  exists e1 e2,
    calc_emissions states tree seqs nseqs seqlen model emit = Some e1
    /\ calc_emissions_slow states tree seqs nseqs seqlen model emit = Some e2
    /\ (forall i k, ~ ((0 <= i < seqlen)%Z /\ (0 <= k < size states)%Z) ->
          e1 i k = emit i k /\ e2 i k = emit i k)
    /\ ((states = [] \/ (seqlen <= 0)%Z) ->
        forall i k, e1 i k = emit i k /\ e2 i k = emit i k).
Proof.
  destruct (calc_emissions_frame states tree seqs nseqs seqlen model emit)
    as [e1 [H1 F1]].
  destruct (calc_emissions_slow_frame states tree seqs nseqs seqlen model emit)
    as [e2 [H2 F2]].
  exists e1, e2. split; [exact H1 | split; [exact H2 | split]].
  - intros i k Hn. split; [apply F1 | apply F2]; exact Hn.
  - intros Hempty i k.
    assert (Hn : ~ ((0 <= i < seqlen)%Z /\ (0 <= k < size states)%Z)).
    { destruct Hempty as [-> | Hlen]; [unfold size; simpl; lia | lia]. }
    split; [apply F1 | apply F2]; exact Hn.
Qed.

Lemma internal_row_frame (invariant : arr bool) (seqlen j : Z) (lk : R)
    (f : Z -> R) (emit : arr (arr R)) (i k : Z) :
  ~ ((0 <= i < seqlen)%Z /\ k = j) ->
  for_up 0 seqlen
    (fun i emit =>
       if invariant i then upd2 emit i j lk else upd2 emit i j (f i))
    emit i k
  = emit i k.
Proof.
  intros Hn.
  apply (for_up_inv (fun e : arr (arr R) => e i k = emit i k));
    [reflexivity|].
  intros i0 e Hi0 He.
  destruct (invariant i0); rewrite upd2_eq;
    (destruct (Z.eqb_spec i i0) as [->|Hne]; [|exact He];
     destruct (Z.eqb_spec k j) as [->|Hnk]; [lia | exact He]).
Qed.

(** X7. [calc_emissions_internal] on a fully specified tree (no state)
    always returns and sets [emit[i][0] = 1] at every site
    [0 <= i < seqlen], leaving every other cell as it was.  With states,
    whenever it returns it has written only the cells of the sites
    [0 <= i < seqlen] and the states [0 <= k < nstates]. *)
Theorem calc_emissions_internal_cells (ops : TreeOps) (IR : Indet (arr R))
    (IB : Indet (arr bool)) (IT : Indet (arr lk_table))
    (states : States) (tree : LocalTree) (seqs : Seqs) (nseqs seqlen : Z)
    (model : ArgModel) (emit : arr (arr R)) :
  (states = [] ->
   exists emit',
     calc_emissions_internal states tree seqs nseqs seqlen model emit
     = Some emit'
     /\ forall i k,
          emit' i k = if ((0 <=? i) && (i <? seqlen) && (k =? 0))%Z then 1
                      else emit i k)
  /\ (forall emit',
        calc_emissions_internal states tree seqs nseqs seqlen model emit
        = Some emit' ->
        forall i k,
          ~ ((0 <= i < seqlen)%Z /\ (0 <= k < Z.max (size states) 1)%Z) ->
          emit' i k = emit i k).
Proof.
  assert (Hdeg : forall i k,
    for_up 0 seqlen (fun i emit => upd2 emit i 0 1) emit i k
    = if ((0 <=? i) && (i <? seqlen) && (k =? 0))%Z then 1 else emit i k).
  { intros i k.
    pose (P := fun (n : Z) (e : arr (arr R)) =>
      forall i k,
        e i k = if ((0 <=? i) && (i <? n) && (k =? 0))%Z then 1
                else emit i k).
    assert (Hinv : P (Z.max 0 seqlen)
                     (for_up 0 seqlen (fun i emit => upd2 emit i 0 1) emit)).
    { apply (for_up_indm P).
      - intros i0 k0.
        replace ((0 <=? i0) && (i0 <? 0))%Z with false by lia. reflexivity.
      - intros n e Hn He i0 k0. rewrite upd2_eq, (He n k0), (He i0 k0).
        destruct (Z.eqb_spec i0 n) as [->|Hne].
        + replace ((0 <=? n) && (n <? n + 1))%Z with true by lia.
          replace ((0 <=? n) && (n <? n))%Z with false by lia. simpl.
          destruct (k0 =? 0)%Z; reflexivity.
        + replace ((0 <=? i0) && (i0 <? n + 1))%Z
            with ((0 <=? i0) && (i0 <? n))%Z by lia.
          reflexivity. }
    rewrite (Hinv i k).
    replace ((0 <=? i) && (i <? Z.max 0 seqlen))%Z
      with ((0 <=? i) && (i <? seqlen))%Z by lia.
    reflexivity. }
  split.
  - intros ->. unfold calc_emissions_internal. simpl.
    eexists. split; [reflexivity | exact Hdeg].
  - intros emit' Hrun i k Hn.
    unfold calc_emissions_internal in Hrun.
    destruct (size states =? 0)%Z eqn:Esz.
    + injection Hrun as <-. rewrite Hdeg.
      apply Z.eqb_eq in Esz. rewrite Esz in Hn.
      destruct ((0 <=? i) && (i <? seqlen) && (k =? 0))%Z eqn:E;
        [lia | reflexivity].
    + destruct (calc_inner_outer tree model seqs seqlen _ _ _)
        as [[inner outer]|]; [|discriminate].
      destruct (subtree_len tree model (child1 (nodes tree (root tree))))
        as [maintreelen|]; [|discriminate].
      destruct (subtree_len tree model (child0 (nodes tree (root tree))))
        as [subtreelen|]; [|discriminate].
      injection Hrun as <-.
      pose (P := fun (j : Z) (e : arr (arr R)) =>
        forall i k, ~ ((0 <= i < seqlen)%Z /\ (0 <= k < j)%Z) ->
                    e i k = emit i k).
      match goal with
      | |- for_up 0 (size states) ?b emit i k = _ =>
          assert (Hinv : P (size states) (for_up 0 (size states) b emit))
      end.
      { apply (for_up_ind P);
          [unfold size; lia | intros i0 k0 _; reflexivity |].
        intros j e Hj He i0 k0 Hn0.
        rewrite internal_row_frame by lia. apply He. lia. }
      apply Hinv. lia.
Qed.

Lemma calc_emissions_internal_cells_witness :
  exists emit',
    @calc_emissions_internal leaf_ops zero_R false_B zero_table
      [] (cherry_tree 3) seqs_AA 2 1 unit_model (fun _ _ => 0) = Some emit'
    /\ forall i k,
         emit' i k = if ((0 <=? i) && (i <? 1) && (k =? 0))%Z then 1 else 0.
Proof.
  exact (proj1 (calc_emissions_internal_cells leaf_ops zero_R false_B
                  zero_table [] (cherry_tree 3) seqs_AA 2 1 unit_model
                  (fun _ _ => 0)) eq_refl).
Defined.

(** ** The log likelihood of a tree *)

Lemma tree_mutation_probs_spec `{Indet (arr R)} (tree : LocalTree)
    (model : ArgModel) (i : Z) :
  (0 <= i < nnodes tree)%Z -> i <> root tree ->
  fst (tree_mutation_probs tree model) i = branch_prob tree model true i
  /\ snd (tree_mutation_probs tree model) i = branch_prob tree model false i.
Proof.
  intros Hi Hr. unfold tree_mutation_probs.
  pose (P := fun (n : Z) (s : arr R * arr R) =>
      forall i', (0 <= i' < n)%Z -> i' <> root tree ->
        fst s i' = branch_prob tree model true i'
        /\ snd s i' = branch_prob tree model false i').
  set (X := for_up 0 (nnodes tree) _ _).
  assert (Hinv : P (nnodes tree) X).
  { subst X. apply (for_up_ind P); [lia | intros i' Hi'; lia |].
    intros n [m nm] Hn Hprev i' Hi' Hr'.
    destruct (Z.eqb_spec n (root tree)) as [Heq|Hne]; simpl.
    - apply Hprev; lia.
    - destruct (Z.eq_dec i' n) as [->|Hne'].
      + rewrite !upd_same. split; reflexivity.
      + rewrite !upd_other by assumption. apply Hprev; lia. }
  apply Hinv; assumption.
Qed.

Lemma likelihood_tree_site `{TreeOps} `{Indet (arr R)} (tree : LocalTree)
    (model : ArgModel) (seqs : Seqs) (pos : Z) (T : lk_table) :
  postorder_ok tree ->
  fst (likelihood_site_inner tree seqs pos (get_postorder tree)
         (nnodes tree) (fst (tree_mutation_probs tree model))
         (snd (tree_mutation_probs tree model)) T)
  = site_likelihood tree model seqs pos.
Proof.
  intros [Hroot Hord]. unfold site_likelihood.
  apply site_inner_agree; [exact Hroot|].
  intros i0 Hi0 Hleaf c Hc.
  destruct (Hord i0 Hi0 Hleaf c Hc) as [Hcr [Hcn Hex]].
  destruct (tree_mutation_probs_spec tree model c Hcr Hcn) as [Hm1 Hm2].
  split; [exact Hm1 | split; [exact Hm2 | exact Hex]].
Qed.

(** the pruning pass reads the sequences at the leaves only *)
Lemma likelihood_site_inner_leaves `{TreeOps} (tree : LocalTree)
    (seqs : Seqs) (pos pos' : Z) (order : arr Z) (norder : Z)
    (muts nomuts : arr R) (T : lk_table) :
  (forall n, is_leaf (nodes tree n) = true -> seqs n pos = seqs n pos') ->
  likelihood_site_inner tree seqs pos order norder muts nomuts T
  = likelihood_site_inner tree seqs pos' order norder muts nomuts T.
Proof.
  intros Hsame. unfold likelihood_site_inner.
  assert (Heq :
    for_up 0 norder
      (fun i inner =>
         likelihood_site_node_inner tree (order i) seqs pos muts nomuts inner)
      T
    = for_up 0 norder
        (fun i inner =>
           likelihood_site_node_inner tree (order i) seqs pos' muts nomuts
                                      inner)
        T).
  { apply for_up_ext. intros i U Hi. unfold likelihood_site_node_inner.
    destruct (is_leaf (nodes tree (order i))) eqn:Hleaf; [|reflexivity].
    rewrite (Hsame _ Hleaf). reflexivity. }
  rewrite Heq. reflexivity.
Qed.

Lemma log_sum_snoc (lo hi : Z) (f : Z -> R) :
  (lo <= hi)%Z ->
  log_sum lo (hi + 1) f = eadd (log_sum lo hi f) (elog (f hi)).
Proof. intros Hle. unfold log_sum. rewrite for_up_snoc by assumption. reflexivity. Qed.

(** X8. When the postorder lists children before parents and all invariant
    sites of the range show the same characters at the leaves,
    [likelihood_tree] returns the sum over the sites [start <= i < end] of
    the logarithm of the site likelihood: reusing the likelihood of the
    first invariant site for the later ones changes nothing, and neither do
    the indeterminate contents of the table.  An empty range gives 0. *)
Theorem likelihood_tree_sum (ops : TreeOps) (IR : Indet (arr R))
    (IT : Indet lk_table) (tree : LocalTree) (model : ArgModel)
    (seqs : Seqs) (nseqs start end_ : Z) :
  postorder_ok tree ->
  (forall i i', (start <= i < end_)%Z -> (start <= i' < end_)%Z ->
     is_invariant_site seqs nseqs i = true ->
     is_invariant_site seqs nseqs i' = true ->
     forall n, is_leaf (nodes tree n) = true -> seqs n i = seqs n i') ->
  likelihood_tree tree model seqs nseqs start end_
  = log_sum start end_ (site_likelihood tree model seqs)
  /\ ((end_ <= start)%Z ->
      likelihood_tree tree model seqs nseqs start end_ = Fin 0).
Proof.
  intros Hok Hsame.
  assert (Hmain : likelihood_tree tree model seqs nseqs start end_
                  = log_sum start end_ (site_likelihood tree model seqs)).
  { unfold likelihood_tree.
    pose proof (fun pos T => likelihood_tree_site tree model seqs pos T Hok)
      as Hsite.
    destruct (tree_mutation_probs tree model) as [muts nomuts].
    cbn [fst snd] in Hsite.
    set (f := site_likelihood tree model seqs) in *.
    pose (P := fun (i : Z) (s : ereal * R * lk_table) =>
      fst (fst s) = log_sum start i f
      /\ (0 < snd (fst s) ->
          exists i0, (start <= i0 < i)%Z
                     /\ is_invariant_site seqs nseqs i0 = true
                     /\ snd (fst s) = f i0)).
    match goal with
    | |- context [for_up start end_ ?b ?s0] =>
        set (X := for_up start end_ b s0)
    end.
    assert (Hinv : P (Z.max start end_) X).
    { subst X. apply (for_up_indm P).
      - split; [unfold log_sum; rewrite for_up_nil by lia; reflexivity|].
        simpl. intros Hlt. lra.
      - intros i [[lnl inv_lk] table] Hi [Hl Hc]. cbn [fst snd] in Hl, Hc.
        unfold P. rewrite log_sum_snoc by lia.
        destruct (is_invariant_site seqs nseqs i) eqn:Einv.
        + destruct (Rlt_dec 0 inv_lk) as [Hpos|Hnpos]; cbn [andb].
          * cbn [fst snd]. destruct (Hc Hpos) as [i0 [Hi0 [Einv0 Hval]]].
            assert (Hfi : f i0 = f i).
            { unfold f, site_likelihood.
              rewrite (likelihood_site_inner_leaves tree seqs i0 i);
                [reflexivity|].
              intros n Hleaf. apply Hsame; (lia || assumption). }
            split.
            -- rewrite Hl, Hval, Hfi. reflexivity.
            -- intros _. exists i0. split; [lia | split; assumption].
          * specialize (Hsite i table).
            destruct (likelihood_site_inner tree seqs i (get_postorder tree)
                        (nnodes tree) muts nomuts table) as [lk table'].
            cbn [fst snd] in *. subst lk. split.
            -- rewrite Hl. reflexivity.
            -- intros _. exists i. split; [lia | split; [assumption|]].
               reflexivity.
        + cbn [andb]. specialize (Hsite i table).
          destruct (likelihood_site_inner tree seqs i (get_postorder tree)
                      (nnodes tree) muts nomuts table) as [lk table'].
          cbn [fst snd] in *. subst lk. split.
          * rewrite Hl. reflexivity.
          * intros Hpos. destruct (Hc Hpos) as [i0 [Hi0 [Einv0 Hval]]].
            exists i0. split; [lia | split; assumption]. }
    destruct X as [[lnl inv_lk] table].
    destruct Hinv as [Hl _]. cbn [fst] in Hl. rewrite Hl.
    destruct (Z_le_gt_dec start end_).
    - rewrite Z.max_r by assumption. reflexivity.
    - rewrite Z.max_l by lia. unfold log_sum.
      rewrite !for_up_nil by lia. reflexivity. }
  split; [exact Hmain|].
  intros Hempty. rewrite Hmain. unfold log_sum.
  rewrite for_up_nil by lia. reflexivity.
Qed.

Lemma likelihood_tree_sum_witness :
  @likelihood_tree leaf_ops zero_R zero_RR (cherry_tree 1) unit_model
     seqs_AA 2 0 3
  = log_sum 0 3 (@site_likelihood leaf_ops (cherry_tree 1) unit_model seqs_AA).
Proof.
  apply (likelihood_tree_sum leaf_ops zero_R zero_RR).
  - apply cherry_postorder_ok.
  - intros i i' _ _ _ _ n _. reflexivity.
Defined.

Lemma nonpositive_add_log (l : ereal) (x : R) :
  nonpositive l -> 0 <= x <= 1 -> nonpositive (eadd l (elog x)).
Proof.
  intros Hl Hx. unfold elog.
  destruct (Rle_dec x 0) as [Hle|Hgt].
  - destruct l; exact I.
  - destruct l as [|r]; [exact I|]. simpl in *.
    assert (Hln : ln x <= 0).
    { rewrite <- ln_1. destruct (Req_dec x 1) as [->|Hne]; [lra|].
      left. apply ln_increasing; lra. }
    lra.
Qed.

(** X9. A log likelihood is never positive: with a non-negative mutation
    rate and minimum branch length and a postorder that lists children
    before parents, [likelihood_tree] returns [-inf] or a value that is at
    most 0, whatever the sites are and whichever of them reuse the cached
    likelihood of an invariant site. *)
Theorem likelihood_tree_nonpositive (ops : TreeOps) (IR : Indet (arr R))
    (IT : Indet lk_table) (tree : LocalTree) (model : ArgModel)
    (seqs : Seqs) (nseqs start end_ : Z) :
  postorder_ok tree -> 0 <= mu model -> 0 <= mintime model ->
  bases_valid seqs ->
  nonpositive (likelihood_tree tree model seqs nseqs start end_).
Proof.
  intros Hok Hmu Hmin _.
  unfold likelihood_tree.
  pose proof (fun pos T => likelihood_tree_site tree model seqs pos T Hok)
    as Hsite.
  pose proof (fun pos => site_likelihood_range tree model seqs pos Hok
                           Hmu Hmin) as Hrange.
  destruct (tree_mutation_probs tree model) as [muts nomuts].
  cbn [fst snd] in Hsite.
  pose (P := fun (s : ereal * R * lk_table) =>
    nonpositive (fst (fst s)) /\ snd (fst s) <= 1).
  match goal with
  | |- context [for_up start end_ ?b ?s0] =>
      set (X := for_up start end_ b s0)
  end.
  assert (Hinv : P X).
  { subst X. apply (for_up_inv P).
    - split; simpl; lra.
    - intros i [[lnl inv_lk] table] Hi [Hl Hc]. cbn [fst snd] in Hl, Hc.
      unfold P.
      specialize (Hsite i table). specialize (Hrange i).
      destruct (is_invariant_site seqs nseqs i) eqn:Einv.
      + destruct (Rlt_dec 0 inv_lk) as [Hpos|Hnpos]; cbn [andb].
        * cbn [fst snd]. split; [|exact Hc].
          apply nonpositive_add_log; [exact Hl | lra].
        * destruct (likelihood_site_inner tree seqs i (get_postorder tree)
                      (nnodes tree) muts nomuts table) as [lk table'].
          cbn [fst snd] in *. subst lk. split; [|lra].
          apply nonpositive_add_log; assumption.
      + cbn [andb].
        destruct (likelihood_site_inner tree seqs i (get_postorder tree)
                    (nnodes tree) muts nomuts table) as [lk table'].
        cbn [fst snd] in *. subst lk. split; [|exact Hc].
        apply nonpositive_add_log; assumption. }
  destruct X as [[lnl inv_lk] table]. exact (proj1 Hinv).
Qed.

Lemma likelihood_tree_nonpositive_witness :
  nonpositive (@likelihood_tree leaf_ops zero_R zero_RR (cherry_tree 1)
                 unit_model seqs_AC 2 0 3).
Proof.
  apply (likelihood_tree_nonpositive leaf_ops zero_R zero_RR).
  - apply cherry_postorder_ok.
  - simpl. lra.
  - simpl. lra.
  - exact seqs_AC_valid.
Defined.

(** ** Parsimony *)

Lemma min_cost_spec (a : Z) (row : arr Z) :
  (0 <= a < 4)%Z -> (forall b, (0 <= b < 4)%Z -> (0 <= row b)%Z) ->
  (0 <= min_cost a row <= maxcost)%Z
  /\ (min_cost a row = 0%Z <-> row a = 0%Z).
Proof.
  intros Ha Hrow.
  pose proof (Hrow 0%Z ltac:(lia)). pose proof (Hrow 1%Z ltac:(lia)).
  pose proof (Hrow 2%Z ltac:(lia)). pose proof (Hrow 3%Z ltac:(lia)).
  unfold min_cost. rewrite for_up_4. unfold maxcost, differ.
  assert (Hcases : a = 0%Z \/ a = 1%Z \/ a = 2%Z \/ a = 3%Z) by lia.
  destruct Hcases as [-> | [-> | [-> | ->]]]; cbn [Z.eqb Pos.eqb]; lia.
Qed.

Lemma below_leaf `{TreeOps} (tree : LocalTree) (n m : Z) :
  is_leaf (nodes tree n) = true -> below tree n m -> m = n.
Proof.
  intros Hleaf Hb. inversion Hb; subst; [reflexivity | congruence].
Qed.

Lemma leaves_below_leaf `{TreeOps} (tree : LocalTree) (seqs : Seqs)
    (pos n d : Z) :
  is_leaf (nodes tree n) = true ->
  (leaves_below_show tree seqs pos n d <-> dna2int (seqs n pos) = d).
Proof.
  intros Hleaf. unfold leaves_below_show. split.
  - intros Hall. apply Hall; [apply below_here | exact Hleaf].
  - intros Hd m Hb _. rewrite (below_leaf tree n m Hleaf Hb). exact Hd.
Qed.

Lemma leaves_below_internal `{TreeOps} (tree : LocalTree) (seqs : Seqs)
    (pos n d : Z) :
  is_leaf (nodes tree n) = false ->
  (leaves_below_show tree seqs pos n d
   <-> leaves_below_show tree seqs pos (child0 (nodes tree n)) d
       /\ leaves_below_show tree seqs pos (child1 (nodes tree n)) d).
Proof.
  intros Hint. unfold leaves_below_show. split.
  - intros Hall. split; intros m Hb Hleaf; apply Hall; try exact Hleaf.
    + apply (below_child tree n _ m Hint (or_introl eq_refl) Hb).
    + apply (below_child tree n _ m Hint (or_intror eq_refl) Hb).
  - intros [Hl Hr] m Hb Hleaf. inversion Hb; subst.
    + congruence.
    + match goal with
      | Hc : _ = child0 _ \/ _ = child1 _ |- _ =>
          destruct Hc as [-> | ->]; [apply Hl | apply Hr]; assumption
      end.
Qed.

Lemma cost_row_ok_ext `{TreeOps} (tree : LocalTree) (seqs : Seqs) (pos : Z)
    (C C' : arr (arr Z)) (n : Z) :
  C' n = C n -> cost_row_ok tree seqs pos C n ->
  cost_row_ok tree seqs pos C' n.
Proof.
  intros Heq Hok a Ha. unfold cost_row_ok in Hok. rewrite Heq.
  apply Hok. exact Ha.
Qed.

(** the row of a leaf *)
Lemma leaf_cost_row (C : arr (arr Z)) (n d : Z) :
  (0 <= d < 4)%Z ->
  let C' := upd2 (for_up 0 4 (fun a costs => upd2 costs n a maxcost) C)
                 n d 0%Z in
  (forall a, (0 <= a < 4)%Z ->
             C' n a = if (a =? d)%Z then 0%Z else maxcost)
  /\ (forall n', n' <> n -> C' n' = C n').
Proof.
  intros Hd. cbv zeta. rewrite for_up_4. split.
  - intros a Ha. rewrite !upd2_eq, !Z.eqb_refl.
    destruct (a =? d)%Z; [reflexivity|].
    assert (Hcases : a = 0%Z \/ a = 1%Z \/ a = 2%Z \/ a = 3%Z) by lia.
    destruct Hcases as [-> | [-> | [-> | ->]]]; reflexivity.
  - intros n' Hne. rewrite !upd2_other_row by assumption. reflexivity.
Qed.

(** the row of an internal node *)
Lemma internal_cost_row (C : arr (arr Z)) (n l r : Z) :
  l <> n -> r <> n ->
  let C' :=
    for_up 0 4
      (fun a costs =>
         let '(left_min, right_min) :=
           for_up 0 4
             (fun b '(left_min, right_min) =>
                (Z.min left_min (differ a b + costs l b),
                 Z.min right_min (differ a b + costs r b)))
             (maxcost, maxcost) in
         upd2 costs n a (left_min + right_min)%Z)
      C in
  (forall a, (0 <= a < 4)%Z ->
             C' n a = (min_cost a (C l) + min_cost a (C r))%Z)
  /\ (forall n', n' <> n -> C' n' = C n').
Proof.
  intros Hl Hr. cbv zeta.
  pose (P := fun (a : Z) (U : arr (arr Z)) =>
    (forall a', (0 <= a' < a)%Z ->
                U n a' = (min_cost a' (C l) + min_cost a' (C r))%Z)
    /\ (forall n', n' <> n -> U n' = C n')).
  match goal with
  | |- (forall a, _ -> ?X n a = _) /\ _ => assert (Hinv : P 4%Z X)
  end.
  { apply (for_up_ind P); [lia | split; [intros; lia | reflexivity] |].
    intros a U Ha [Hdone Hrest].
    rewrite (for_up_pair 0 4
               (fun b m => Z.min m (differ a b + U l b))
               (fun b m => Z.min m (differ a b + U r b))).
    rewrite (Hrest l Hl), (Hrest r Hr).
    fold (min_cost a (C l)). fold (min_cost a (C r)).
    split.
    - intros a' Ha'. rewrite upd2_eq, Z.eqb_refl.
      destruct (Z.eqb_spec a' a) as [->|Hne]; [reflexivity|].
      apply Hdone. lia.
    - intros n' Hne. rewrite upd2_other_row by assumption.
      apply Hrest. assumption. }
  destruct Hinv as [Hdone Hrest]. split; assumption.
Qed.

Lemma parsimony_cost_seq_spec `{TreeOps} `{Indet (arr (arr Z))}
    (tree : LocalTree) (seqs : Seqs) (nseqs pos : Z)
    (postorder : option (arr Z)) :
  let order := match postorder with
               | Some postorder => postorder
               | None => get_postorder tree
               end in
  order_ok tree order -> leaves_based tree order seqs pos ->
  exists cost,
    parsimony_cost_seq tree seqs nseqs pos postorder = Some cost
    /\ (0 <= cost <= maxcost)%Z
    /\ (cost = 0%Z <->
        exists d, (0 <= d < 4)%Z
                  /\ leaves_below_show tree seqs pos (root tree) d).
Proof.
  cbv zeta. intros [[ir [Hir Hroot]] Hord] Hbased.
  unfold parsimony_cost_seq.
  set (order := match postorder with
                | Some postorder => postorder
                | None => get_postorder tree
                end) in *.
  pose (P := fun (i : Z) (acc : option (arr (arr Z))) =>
    exists C, acc = Some C
      /\ forall i', (0 <= i' < i)%Z ->
                    cost_row_ok tree seqs pos C (order i')).
  match goal with
  | |- context [for_up 0 (nnodes tree) ?b ?s0] =>
      set (X := for_up 0 (nnodes tree) b s0)
  end.
  assert (Hinv : P (nnodes tree) X).
  { subst X. apply (for_up_ind P); [lia | |].
    - eexists. split; [reflexivity|]. intros i' Hi'. lia.
    - intros i acc Hi [C [-> Hprev]].
      assert (Hstep : exists C',
        (if is_leaf (nodes tree (order i)) then
           let costs :=
             for_up 0 4 (fun a costs => upd2 costs (order i) a maxcost) C in
           let d := dna2int (seqs (order i) pos) in
           if ((0 <=? d) && (d <? 4))%Z
           then Some (upd2 costs (order i) d 0%Z) else None
         else
           let left := child0 (nodes tree (order i)) in
           let right := child1 (nodes tree (order i)) in
           Some
             (for_up 0 4
                (fun a costs =>
                   let '(left_min, right_min) :=
                     for_up 0 4
                       (fun b '(left_min, right_min) =>
                          (Z.min left_min (differ a b + costs left b),
                           Z.min right_min (differ a b + costs right b)))
                       (maxcost, maxcost) in
                   upd2 costs (order i) a (left_min + right_min)%Z)
                C)) = Some C'
        /\ cost_row_ok tree seqs pos C' (order i)
        /\ forall n', n' <> order i -> C' n' = C n').
      { destruct (is_leaf (nodes tree (order i))) eqn:Hleaf.
        - pose proof (Hbased i Hi Hleaf) as Hd. cbv zeta.
          replace ((0 <=? dna2int (seqs (order i) pos))
                   && (dna2int (seqs (order i) pos) <? 4))%Z
            with true by lia.
          eexists. split; [reflexivity|].
          destruct (leaf_cost_row C (order i) _ Hd) as [Hrow Hrest].
          split; [|exact Hrest].
          intros a Ha. rewrite (Hrow a Ha).
          rewrite (leaves_below_leaf tree seqs pos (order i) a Hleaf).
          unfold maxcost.
          destruct (Z.eqb_spec a (dna2int (seqs (order i) pos))); lia.
        - cbv zeta. eexists. split; [reflexivity|].
          destruct (Hord i Hi Hleaf _ (or_introl eq_refl))
            as [Hl [il [Hil Hol]]].
          destruct (Hord i Hi Hleaf _ (or_intror eq_refl))
            as [Hr [ir' [Hir' Hor]]].
          destruct (internal_cost_row C (order i) _ _ Hl Hr)
            as [Hrow Hrest].
          split; [|exact Hrest].
          pose proof (Hprev il Hil) as Hokl. rewrite Hol in Hokl.
          pose proof (Hprev ir' Hir') as Hokr. rewrite Hor in Hokr.
          intros a Ha. rewrite (Hrow a Ha).
          rewrite (leaves_below_internal tree seqs pos (order i) a Hleaf).
          destruct (min_cost_spec a (C (child0 (nodes tree (order i)))) Ha)
            as [Hbl Hzl]; [intros b Hb; apply (Hokl b Hb)|].
          destruct (min_cost_spec a (C (child1 (nodes tree (order i)))) Ha)
            as [Hbr Hzr]; [intros b Hb; apply (Hokr b Hb)|].
          destruct (Hokl a Ha) as [_ Hleafl].
          destruct (Hokr a Ha) as [_ Hleafr].
          rewrite <- Hleafl, <- Hleafr, <- Hzl, <- Hzr.
          unfold maxcost in *. lia. }
      destruct Hstep as [C' [Hs [Hnew Hrest]]].
      unfold P. exists C'. split; [exact Hs|].
      intros i' Hi'.
      destruct (Z.eq_dec (order i') (order i)) as [Heq|Hne].
      + rewrite Heq. exact Hnew.
      + assert (Hii : i' <> i) by congruence.
        apply (cost_row_ok_ext tree seqs pos C C');
          [apply Hrest; exact Hne | apply Hprev; lia]. }
  destruct Hinv as [C [-> Hok]].
  pose proof (Hok ir Hir) as Hrow. rewrite Hroot in Hrow.
  eexists. split; [reflexivity|].
  destruct (Hrow 0%Z ltac:(lia)) as [B0 Z0].
  destruct (Hrow 1%Z ltac:(lia)) as [B1 Z1].
  destruct (Hrow 2%Z ltac:(lia)) as [B2 Z2].
  destruct (Hrow 3%Z ltac:(lia)) as [B3 Z3].
  rewrite for_up_4. unfold maxcost in *. split; [lia|]. split.
  - intros Hzero.
    assert (Hsome : C (root tree) 0%Z = 0%Z \/ C (root tree) 1%Z = 0%Z
                    \/ C (root tree) 2%Z = 0%Z \/ C (root tree) 3%Z = 0%Z)
      by lia.
    destruct Hsome as [Hz | [Hz | [Hz | Hz]]];
      [exists 0%Z | exists 1%Z | exists 2%Z | exists 3%Z];
      (split; [lia|]); [apply Z0 | apply Z1 | apply Z2 | apply Z3];
      exact Hz.
  - intros [d [Hd Hshow]].
    assert (Hcases : d = 0%Z \/ d = 1%Z \/ d = 2%Z \/ d = 3%Z) by lia.
    destruct Hcases as [-> | [-> | [-> | ->]]];
      [apply Z0 in Hshow | apply Z1 in Hshow | apply Z2 in Hshow
       | apply Z3 in Hshow]; lia.
Qed.

(** X10. [parsimony_cost_seq] returns a cost between 0 and 100000, and the
    cost is 0 exactly when the leaves at or below the root all carry the
    same base at the site.  This holds for any postorder (given, or taken
    from the tree when the pointer is null) that lists the root and lists
    the children of an internal node before it, when the listed leaves
    carry bases. *)
Theorem parsimony_cost_zero_iff_uniform (ops : TreeOps)
    (IC : Indet (arr (arr Z))) (tree : LocalTree) (seqs : Seqs)
    (nseqs pos : Z) (postorder : option (arr Z)) :
  let order := match postorder with
               | Some postorder => postorder
               | None => get_postorder tree
               end in
  order_ok tree order -> leaves_based tree order seqs pos ->
  exists cost,
    parsimony_cost_seq tree seqs nseqs pos postorder = Some cost
    /\ (0 <= cost <= 100000)%Z
    /\ (cost = 0%Z <->
        exists d, (0 <= d < 4)%Z
                  /\ forall m, below tree (root tree) m ->
                               is_leaf (nodes tree m) = true ->
                               dna2int (seqs m pos) = d).
Proof. exact (parsimony_cost_seq_spec tree seqs nseqs pos postorder). Qed.

Lemma cherry_order_ok (t : Z) :
  @order_ok leaf_ops (cherry_tree t) (fun i => i).
Proof.
  split.
  - exists 2%Z. split; [simpl; lia | reflexivity].
  - intros i Hi Hleaf c Hc. simpl in Hi.
    assert (Hcases : i = 0%Z \/ i = 1%Z \/ i = 2%Z) by lia.
    destruct Hcases as [-> | [-> | ->]]; simpl in Hleaf, Hc;
      try discriminate.
    destruct Hc as [-> | ->]; (split; [lia|]);
      [exists 0%Z | exists 1%Z]; split; (lia || reflexivity).
Qed.

Lemma seqs_AC_based (pos : Z) :
  @leaves_based leaf_ops (cherry_tree 1) (fun i => i) seqs_AC pos.
Proof.
  intros i _ _. unfold seqs_AC. destruct (i =? 0)%Z; simpl; lia.
Qed.

Lemma parsimony_cost_zero_iff_uniform_witness :
  exists cost,
    @parsimony_cost_seq leaf_ops zero_ZZ (cherry_tree 1) seqs_AC 2 0 None
    = Some cost
    /\ (0 <= cost <= 100000)%Z
    /\ (cost = 0%Z <->
        exists d, (0 <= d < 4)%Z
                  /\ forall m, @below leaf_ops (cherry_tree 1) 2 m ->
                               @is_leaf leaf_ops (nodes (cherry_tree 1) m)
                               = true ->
                               @dna2int leaf_ops (seqs_AC m 0%Z) = d).
Proof.
  apply (parsimony_cost_zero_iff_uniform leaf_ops zero_ZZ (cherry_tree 1)
           seqs_AC 2 0 None).
  - apply cherry_order_ok.
  - apply seqs_AC_based.
Defined.

Lemma count_noncompat_spec `{TreeOps} `{Indet (arr (arr Z))}
    (tree : LocalTree) (seqs : Seqs) (nseqs seqlen : Z)
    (postorder : option (arr Z)) :
  let order := match postorder with
               | Some postorder => postorder
               | None => get_postorder tree
               end in
  order_ok tree order ->
  (forall i, (0 <= i < seqlen)%Z -> leaves_based tree order seqs i) ->
  exists n,
    count_noncompat tree seqs nseqs seqlen postorder = Some n
    /\ (0 <= n <= Z.max seqlen 0)%Z
    /\ ((forall i, (0 <= i < seqlen)%Z ->
           exists d, (0 <= d < 4)%Z
                     /\ leaves_below_show tree seqs i (root tree) d) ->
        n = 0%Z).
Proof.
  cbv zeta. intros Hord Hbased. unfold count_noncompat.
  set (order := match postorder with
                | Some postorder => postorder
                | None => get_postorder tree
                end) in *.
  pose (P := fun (i : Z) (acc : option Z) =>
    exists n, acc = Some n /\ (0 <= n <= i)%Z
      /\ ((forall i', (0 <= i' < i)%Z ->
             exists d, (0 <= d < 4)%Z
                       /\ leaves_below_show tree seqs i' (root tree) d) ->
          n = 0%Z)).
  match goal with
  | |- context [for_up 0 seqlen ?b ?s0] => set (X := for_up 0 seqlen b s0)
  end.
  assert (Hinv : P (Z.max 0 seqlen) X).
  { subst X. apply (for_up_indm P).
    - exists 0%Z. split; [reflexivity | split; [lia | reflexivity]].
    - intros i acc Hi [n [-> [Hn Hz]]].
      destruct (parsimony_cost_seq_spec tree seqs nseqs i (Some order)
                  Hord (Hbased i Hi)) as [cost [Hc [Hb Hzero]]].
      unfold P. rewrite Hc. eexists. split; [reflexivity|].
      split; [destruct (cost >? 1)%Z; lia|].
      intros Hall.
      assert (Hn0 : n = 0%Z) by (apply Hz; intros i' Hi'; apply Hall; lia).
      assert (Hc0 : cost = 0%Z) by (apply Hzero, Hall; lia).
      subst. reflexivity. }
  destruct Hinv as [n [Hx [Hn Hz]]]. exists n.
  split; [exact Hx | split; [lia|]].
  intros Hall. apply Hz. intros i' Hi'. apply Hall. lia.
Qed.

(** X11. [count_noncompat] on one tree returns a count between 0 and the
    number of sites, and a site whose leaves all carry the same base is
    never counted: an alignment whose sites are all uniform has no
    incompatible site. *)
Theorem count_noncompat_bounds (ops : TreeOps) (IC : Indet (arr (arr Z)))
    (tree : LocalTree) (seqs : Seqs) (nseqs seqlen : Z)
    (postorder : option (arr Z)) :
  let order := match postorder with
               | Some postorder => postorder
               | None => get_postorder tree
               end in
  order_ok tree order ->
  (forall i, (0 <= i < seqlen)%Z -> leaves_based tree order seqs i) ->
  exists n,
    count_noncompat tree seqs nseqs seqlen postorder = Some n
    /\ (0 <= n <= Z.max seqlen 0)%Z
    /\ ((forall i, (0 <= i < seqlen)%Z ->
           exists d, (0 <= d < 4)%Z
                     /\ forall m, below tree (root tree) m ->
                                  is_leaf (nodes tree m) = true ->
                                  dna2int (seqs m i) = d) ->
        n = 0%Z).
Proof. exact (count_noncompat_spec tree seqs nseqs seqlen postorder). Qed.

Lemma count_noncompat_bounds_witness :
  exists n,
    @count_noncompat leaf_ops zero_ZZ (cherry_tree 1) seqs_AC 2 3 None
    = Some n
    /\ (0 <= n <= Z.max 3 0)%Z
    /\ ((forall i, (0 <= i < 3)%Z ->
           exists d, (0 <= d < 4)%Z
                     /\ forall m, @below leaf_ops (cherry_tree 1) 2 m ->
                                  @is_leaf leaf_ops (nodes (cherry_tree 1) m)
                                  = true ->
                                  @dna2int leaf_ops (seqs_AC m i) = d) ->
        n = 0%Z).
Proof.
  apply (count_noncompat_bounds leaf_ops zero_ZZ (cherry_tree 1) seqs_AC
           2 3 None).
  - apply cherry_order_ok.
  - intros i _. apply seqs_AC_based.
Defined.

Lemma below_listed `{TreeOps} (tree : LocalTree) (order : arr Z) (n m : Z) :
  order_ok tree order ->
  below tree n m ->
  (exists i, (0 <= i < nnodes tree)%Z /\ order i = n) ->
  exists i, (0 <= i < nnodes tree)%Z /\ order i = m.
Proof.
  intros [_ Hord] Hb. induction Hb as [n | n c m Hint Hc Hb IH].
  - intros Hn. exact Hn.
  - intros [i [Hi Hn]]. apply IH. subst n.
    destruct (Hord i Hi Hint c Hc) as [_ [i' [Hi' Hc']]].
    exists i'. split; [lia | exact Hc'].
Qed.

(** the parsimony cost reads the sequences at the listed leaves only *)
Lemma count_noncompat_ext `{TreeOps} `{Indet (arr (arr Z))}
    (tree : LocalTree) (seqs1 seqs2 : Seqs) (nseqs seqlen : Z)
    (postorder : option (arr Z)) :
  let order := match postorder with
               | Some postorder => postorder
               | None => get_postorder tree
               end in
  (forall i, (0 <= i < nnodes tree)%Z ->
     is_leaf (nodes tree (order i)) = true ->
     seqs1 (order i) = seqs2 (order i)) ->
  count_noncompat tree seqs1 nseqs seqlen postorder
  = count_noncompat tree seqs2 nseqs seqlen postorder.
Proof.
  intros order Hsame. unfold count_noncompat. fold order.
  apply for_up_ext. intros p acc Hp.
  destruct acc as [noncompat|]; [|reflexivity].
  assert (Hcost : parsimony_cost_seq tree seqs1 nseqs p (Some order)
                  = parsimony_cost_seq tree seqs2 nseqs p (Some order)).
  { unfold parsimony_cost_seq.
    match goal with
    | |- match ?X with _ => _ end = match ?Y with _ => _ end =>
        assert (HXY : X = Y); [|rewrite HXY; reflexivity]
    end.
    apply for_up_ext. intros i acc Hi.
    destruct acc as [costs|]; [|reflexivity].
    destruct (is_leaf (nodes tree (order i))) eqn:Hleaf; [|reflexivity].
    rewrite (Hsame i Hi Hleaf). reflexivity. }
  rewrite Hcost. reflexivity.
Qed.

Lemma count_noncompat_trees_spec `{TreeOps} `{Indet (arr (arr Z))}
    `{Indet (arr ascii)} (trees : list LocalTreeSpr) (seqs : Seqs)
    (nseqs : Z) :
  (forall n p, (0 <= n < nseqs)%Z -> (0 <= dna2int (seqs n p) < 4)%Z) ->
  Forall (fun it => order_ok (spr_tree it) (get_postorder (spr_tree it))
                    /\ leaves_are_seqs (spr_tree it) nseqs) trees ->
  forall n0 e0, exists n e,
    fold_left
      (fun acc it =>
         match acc with
         | None => None
         | Some (noncompat, end_) =>
             let start := end_ in
             let end_ := (end_ + spr_blocklen it)%Z in
             let tree := spr_tree it in
             let blocklen := spr_blocklen it in
             let subseqs : Seqs :=
               fun i => if ((0 <=? i) && (i <? nseqs))%Z
                        then shift start (seqs i) else indet in
             match count_noncompat tree subseqs nseqs blocklen None with
             | None => None
             | Some n => Some ((noncompat + n)%Z, end_)
             end
         end)
      trees (Some (n0, e0))
    = Some ((n0 + n)%Z, e)
    /\ (0 <= n <= total_len trees)%Z
    /\ ((forall n p, (0 <= n < nseqs)%Z -> seqs n p = seqs 0%Z p) ->
        n = 0%Z)
    /\ n = noncompat_sum e0 trees seqs nseqs.
Proof.
  intros Hbases Hall. induction Hall as [|it trees [Hord Hleaves] _ IH].
  - intros n0 e0. exists 0%Z, e0. simpl.
    split; [f_equal; f_equal; lia|].
    split; [lia | split; reflexivity].
  - intros n0 e0. cbn [fold_left].
    set (subseqs := fun i : Z => if ((0 <=? i) && (i <? nseqs))%Z
                                 then shift e0 (seqs i) else indet).
    assert (Hlisted : forall m,
      below (spr_tree it) (root (spr_tree it)) m ->
      is_leaf (nodes (spr_tree it) m) = true -> (0 <= m < nseqs)%Z).
    { intros m Hb Hleaf.
      destruct (below_listed (spr_tree it) (get_postorder (spr_tree it))
                  _ m Hord Hb (proj1 Hord)) as [i [Hi Hm]].
      subst m. apply Hleaves; assumption. }
    destruct (count_noncompat_spec (spr_tree it) subseqs nseqs
                (spr_blocklen it) None Hord) as [n1 [Hc [Hb Hz]]].
    { intros p Hp i Hi Hleaf. unfold subseqs.
      pose proof (Hleaves i Hi Hleaf) as Hrange.
      replace ((0 <=? get_postorder (spr_tree it) i)
               && (get_postorder (spr_tree it) i <? nseqs))%Z
        with true by lia.
      unfold shift. apply Hbases. exact Hrange. }
    cbv zeta. fold subseqs. rewrite Hc.
    destruct (IH (n0 + n1)%Z (e0 + spr_blocklen it)%Z)
      as [n2 [e [Hrun [Hb2 [Hz2 Hsum2]]]]].
    exists (n1 + n2)%Z, e. split; [|split; [|split]].
    + replace (n0 + (n1 + n2))%Z with (n0 + n1 + n2)%Z by lia. exact Hrun.
    + unfold total_len in *. cbn [fold_right]. lia.
    + intros Hsame. rewrite (Hz2 Hsame).
      assert (Hn1 : n1 = 0%Z); [|lia].
      apply Hz. intros p Hp.
      destruct (Z_lt_le_dec 0 nseqs) as [Hpos|Hnone].
      * exists (dna2int (seqs 0%Z (e0 + p)%Z)).
        split; [apply Hbases; lia|].
        intros m Hbm Hleaf. pose proof (Hlisted m Hbm Hleaf) as Hm.
        unfold subseqs.
        replace ((0 <=? m) && (m <? nseqs))%Z with true by lia.
        unfold shift. rewrite (Hsame m (e0 + p)%Z Hm). reflexivity.
      * exists 0%Z. split; [lia|].
        intros m Hbm Hleaf. pose proof (Hlisted m Hbm Hleaf) as Hm. lia.
    + cbn [noncompat_sum]. rewrite <- Hsum2.
      rewrite <- (count_noncompat_ext (spr_tree it) subseqs
                    (fun i => shift e0 (seqs i)) nseqs (spr_blocklen it)
                    None).
      * rewrite Hc. reflexivity.
      * intros i Hi Hleaf. unfold subseqs.
        pose proof (Hleaves i Hi Hleaf) as Hrange.
        replace ((0 <=? get_postorder (spr_tree it) i)
                 && (get_postorder (spr_tree it) i <? nseqs))%Z
          with true by lia.
        reflexivity.
Qed.

(** X12. [count_noncompat] on the local trees adds up the counts of the
    blocks, each on its own stretch of the sequences: when all characters
    are bases and the leaves of every tree are sequence indices, the call
    returns the sum over the blocks of [count_noncompat] of the block's
    tree on the sequences from the block's start on, over the block's
    length.  The count lies between 0 and the total number of sites of
    the blocks, and it is 0 when all sequences are equal. *)
Theorem count_noncompat_trees_bounds (ops : TreeOps)
    (IC : Indet (arr (arr Z))) (IA : Indet (arr ascii))
    (trees_start_coord : Z) (trees : list LocalTreeSpr) (seqs : Seqs)
    (nseqs seqlen : Z) :
  (forall n p, (0 <= n < nseqs)%Z -> (0 <= dna2int (seqs n p) < 4)%Z) ->
  Forall (fun it => order_ok (spr_tree it) (get_postorder (spr_tree it))
                    /\ leaves_are_seqs (spr_tree it) nseqs) trees ->
  exists n,
    count_noncompat_trees trees_start_coord trees seqs nseqs seqlen = Some n
    /\ (0 <= n <= total_len trees)%Z
    /\ ((forall n p, (0 <= n < nseqs)%Z -> seqs n p = seqs 0%Z p) ->
        n = 0%Z)
    /\ n = noncompat_sum trees_start_coord trees seqs nseqs.
Proof.
  intros Hbases Hall.
  destruct (count_noncompat_trees_spec trees seqs nseqs Hbases Hall
              0%Z trees_start_coord) as [n [e [Hrun [Hb [Hz Hsum]]]]].
  exists n. unfold count_noncompat_trees.
  match goal with
  | |- option_map fst ?X = _ /\ _ =>
      assert (HX : X = Some ((0 + n)%Z, e)) by exact Hrun; rewrite HX
  end.
  split; [reflexivity | split; [assumption | split; assumption]].
Qed.

Lemma trio_order_ok : @order_ok leaf_ops trio_tree (fun i => i).
Proof.
  split.
  - exists 4%Z. split; [simpl; lia | reflexivity].
  - intros i Hi Hleaf c Hc. simpl in Hi.
    assert (Hcases : i = 0%Z \/ i = 1%Z \/ i = 2%Z \/ i = 3%Z \/ i = 4%Z)
      by lia.
    destruct Hcases as [-> | [-> | [-> | [-> | ->]]]]; simpl in Hleaf, Hc;
      try discriminate.
    + destruct Hc as [-> | ->]; (split; [lia|]);
        [exists 0%Z | exists 1%Z]; split; (lia || reflexivity).
    + destruct Hc as [-> | ->]; (split; [lia|]);
        [exists 3%Z | exists 2%Z]; split; (lia || reflexivity).
Qed.

Lemma count_noncompat_trees_bounds_witness :
  @count_noncompat_trees leaf_ops zero_ZZ blank_seq 0
    [mkTreeSpr trio_tree 1; mkTreeSpr trio_tree 1] seqs_ACG 3 2 = Some 1%Z
  /\ (0 <= 1 <= total_len [mkTreeSpr trio_tree 1; mkTreeSpr trio_tree 1])%Z
  /\ 1%Z = @noncompat_sum leaf_ops zero_ZZ 0
             [mkTreeSpr trio_tree 1; mkTreeSpr trio_tree 1] seqs_ACG 3
  /\ @count_noncompat leaf_ops zero_ZZ trio_tree
       (fun i => shift 0 (seqs_ACG i)) 3 1 None = Some 0%Z
  /\ @count_noncompat leaf_ops zero_ZZ trio_tree
       (fun i => shift 1 (seqs_ACG i)) 3 1 None = Some 1%Z.
Proof.
  destruct (count_noncompat_trees_bounds leaf_ops zero_ZZ blank_seq 0
              [mkTreeSpr trio_tree 1; mkTreeSpr trio_tree 1] seqs_ACG 3 2)
    as [n [Hrun [Hb [_ Hsum]]]].
  - intros n p _. unfold seqs_ACG.
    destruct (Z.even p); [simpl; lia|].
    destruct (n =? 0)%Z; [simpl; lia|].
    destruct (n =? 1)%Z; simpl; lia.
  - assert (Hone : @order_ok leaf_ops trio_tree
                     (@get_postorder leaf_ops trio_tree)
                   /\ @leaves_are_seqs leaf_ops trio_tree 3).
    { split; [apply trio_order_ok|].
      intros i Hi Hleaf. simpl in Hi, Hleaf |- *.
      assert (Hcases : i = 0%Z \/ i = 1%Z \/ i = 2%Z \/ i = 3%Z \/ i = 4%Z)
        by lia.
      destruct Hcases as [-> | [-> | [-> | [-> | ->]]]]; simpl in Hleaf;
        (lia || discriminate). }
    apply Forall_cons; [apply Hone|].
    apply Forall_cons; [apply Hone | apply Forall_nil].
  - assert (Hone : @count_noncompat_trees leaf_ops zero_ZZ blank_seq 0
                     [mkTreeSpr trio_tree 1; mkTreeSpr trio_tree 1]
                     seqs_ACG 3 2 = Some 1%Z) by (vm_compute; reflexivity).
    rewrite Hone in Hrun. injection Hrun as <-.
    split; [reflexivity|]. split; [exact Hb|]. split; [exact Hsum|].
    split; vm_compute; reflexivity.
Defined.

(** * Further properties of the threading HMM *)

(** ** Downward loops *)

Lemma for_down_nil {S : Type} (lo hi : Z) (body : Z -> S -> S) (s : S) :
  (hi <= lo)%Z -> for_down lo hi body s = s.
Proof.
  intros Hle. unfold for_down. rewrite range_nil by assumption. reflexivity.
Qed.

(** the first iteration is the one of the largest index *)
Lemma for_down_top {S : Type} (lo hi : Z) (body : Z -> S -> S) (s : S) :
  (lo <= hi)%Z ->
  for_down lo (hi + 1) body s = for_down lo hi body (body hi s).
Proof.
  intros Hle. unfold for_down. rewrite range_snoc by assumption.
  rewrite rev_app_distr. reflexivity.
Qed.

Lemma for_down_ind {S : Type} (P : Z -> S -> Prop) (lo hi : Z)
    (body : Z -> S -> S) (s : S) :
  (lo <= hi)%Z ->
  P hi s ->
  (forall i t, (lo <= i < hi)%Z -> P (i + 1)%Z t -> P i (body i t)) ->
  P lo (for_down lo hi body s).
Proof.
  intros Hle. revert s.
  apply (Zup_ind
           (fun hi => forall s, P hi s ->
              (forall i t, (lo <= i < hi)%Z -> P (i + 1)%Z t ->
                           P i (body i t)) ->
              P lo (for_down lo hi body s)) lo); [| |exact Hle].
  - intros s H0 _. rewrite for_down_nil by lia. exact H0.
  - intros h Hh IH s H0 Hstep. rewrite for_down_top by assumption.
    apply IH.
    + apply Hstep; [lia | exact H0].
    + intros i t Hi. apply Hstep. lia.
Qed.

Lemma for_down_inv {S : Type} (P : S -> Prop) (lo hi : Z)
    (body : Z -> S -> S) (s : S) :
  P s ->
  (forall i t, (lo <= i < hi)%Z -> P t -> P (body i t)) ->
  P (for_down lo hi body s).
Proof.
  intros H0 Hstep.
  destruct (Z_le_gt_dec lo hi) as [Hle|Hgt].
  - apply (for_down_ind (fun _ t => P t)); auto.
  - rewrite for_down_nil by lia. exact H0.
Qed.

(** ** The stochastic traceback within a block *)

Lemma fill_trans {A : Type} (n : Z) (f : Z -> A) (t : arr A) (j : Z) :
  for_up 0 n (fun j t => upd t j (f j)) t j
  = if ((0 <=? j) && (j <? n))%Z then f j else t j.
Proof.
  apply (for_up_upd 0 n (fun j _ => f j) t f). intros; reflexivity.
Qed.

Lemma sample_hmm_posterior_spec `{HmmOps} `{Indet (arr R)}
    (blocklen : Z) (tree : LocalTree) (states : States)
    (matrix : TransMatrix) (fw : arr (arr R)) (path : arr Z) (rng : Rng)
    (l : R) (path' : arr Z) (rng' : Rng) :
  sampler_ok ->
  (0 <= path (blocklen - 1)%Z)%Z ->
  sample_hmm_posterior blocklen tree states matrix fw path rng
  = Some (l, path', rng') ->
  l = 0
  /\ (forall i, (0 <= i < blocklen - 1)%Z ->
        (0 <= path' i < Z.max (size states) 1)%Z
        /\ get matrix tree states (path' i) (path' (i + 1)%Z) <> 0)
  /\ (forall i, ~ (0 <= i < blocklen - 1)%Z -> path' i = path i).
Proof.
  intros Hsample Hlast Hrun. unfold sample_hmm_posterior in Hrun.
  set (n := Z.max (size states) 1) in *.
  pose (P := fun (i : Z) (acc : option post_state) =>
    forall s, acc = Some s ->
      (forall i', (i <= i' < blocklen - 1)%Z ->
         (0 <= ps_path s i' < n)%Z
         /\ get matrix tree states (ps_path s i') (ps_path s (i' + 1)%Z)
            <> 0)
      /\ (forall i', ~ (i <= i' < blocklen - 1)%Z -> ps_path s i' = path i')
      /\ (ps_last_k s = (-1)%Z
          \/ forall j, (0 <= j < n)%Z ->
               ps_trans s j = get matrix tree states j (ps_last_k s))).
  match type of Hrun with
  | option_map _ ?X = _ => set (X' := X) in *
  end.
  destruct (Z_le_gt_dec 0 (blocklen - 1)) as [Hle|Hgt].
  - assert (Hinv : P 0%Z X').
    { subst X'. apply (for_down_ind P); [exact Hle | |].
      - intros s Hs. injection Hs as <-. simpl.
        split; [intros; lia | split; [reflexivity | left; reflexivity]].
      - intros i acc Hi Hprev s' Hs'.
        destruct acc as [s|]; [|discriminate].
        destruct (Hprev s eq_refl) as [Hdone [Hrest Htrans]].
        assert (Hk : (0 <= ps_path s (i + 1))%Z).
        { destruct (Z.eq_dec (i + 1) (blocklen - 1)) as [Heq|Hne].
          - rewrite Hrest by lia. rewrite Heq. exact Hlast.
          - apply Hdone. lia. }
        set (k := ps_path s (i + 1)%Z) in *.
        assert (Htr : exists trans last_k,
          (if negb (k =? ps_last_k s)%Z then
             (for_up 0 n
                (fun j trans => upd trans j (get matrix tree states j k))
                (ps_trans s), k)
           else (ps_trans s, ps_last_k s)) = (trans, last_k)
          /\ last_k = k
          /\ forall j, (0 <= j < n)%Z ->
               trans j = get matrix tree states j k).
        { destruct (Z.eqb_spec k (ps_last_k s)) as [Heq|Hne]; simpl.
          - do 2 eexists. split; [reflexivity|]. split; [congruence|].
            destruct Htrans as [Hm1 | Hall]; [lia|].
            intros j Hj. rewrite Heq. apply Hall. exact Hj.
          - do 2 eexists. split; [reflexivity|]. split; [reflexivity|].
            intros j Hj. rewrite fill_trans.
            replace ((0 <=? j) && (j <? n))%Z with true by lia.
            reflexivity. }
        destruct Htr as [trans [last_k [Etr [Elast Hall]]]].
        cbv beta iota zeta in Hs'. fold k in Hs'. rewrite Etr in Hs'.
        match type of Hs' with
        | context [sample ?A n (ps_rng s)] =>
            pose proof (Hsample A n (ps_rng s) ltac:(lia)) as Hpi;
            destruct (sample A n (ps_rng s)) as [pi rng1]
        end.
        cbn [fst] in Hpi. rewrite upd_same in Hs'.
        destruct (Req_dec_T (trans pi) 0) as [Hz|Hnz]; [discriminate|].
        injection Hs' as <-. cbn [ps_path ps_trans ps_last_k].
        split; [|split].
        + intros i' Hi'. destruct (Z.eq_dec i' i) as [->|Hne].
          * rewrite upd_same. rewrite upd_other by lia. fold k.
            split; [exact Hpi|]. rewrite <- Hall by exact Hpi. exact Hnz.
          * rewrite !upd_other by lia. apply Hdone. lia.
        + intros i' Hi'. rewrite upd_other by lia. apply Hrest. lia.
        + right. rewrite Elast. exact Hall. }
    destruct X' as [s|]; [|discriminate]. simpl in Hrun.
    injection Hrun as <- <- <-.
    destruct (Hinv s eq_refl) as [Hdone [Hrest _]].
    split; [reflexivity | split].
    + intros i Hi. apply Hdone. lia.
    + intros i Hi. apply Hrest. lia.
  - subst X'. rewrite for_down_nil in Hrun by lia. simpl in Hrun.
    injection Hrun as <- <- <-.
    split; [reflexivity | split; [intros; lia | reflexivity]].
Qed.

(** X13. [sample_hmm_posterior] fills [path[0 .. blocklen-2]] backwards from
    the entry [path[blocklen-1]], which must hold a state already.  When the
    sampler returns indices of its weight array and the call completes,
    every entry it wrote is a state index below [max(nstates, 1)], every
    step of the sampled path has a non-zero transition probability, no
    other entry of the path has changed, and the returned likelihood is
    0 (its accumulation is disabled in the source). *)
Theorem sample_hmm_posterior_path (ops : HmmOps) (IR : Indet (arr R))
    (blocklen : Z) (tree : LocalTree) (states : States)
    (matrix : TransMatrix) (fw : arr (arr R)) (path : arr Z) (rng : Rng)
    (l : R) (path' : arr Z) (rng' : Rng) :
  sampler_ok ->
  (0 <= path (blocklen - 1)%Z)%Z ->
  sample_hmm_posterior blocklen tree states matrix fw path rng
  = Some (l, path', rng') ->
  l = 0
  /\ (forall i, (0 <= i < blocklen - 1)%Z ->
        (0 <= path' i < Z.max (size states) 1)%Z
        /\ get matrix tree states (path' i) (path' (i + 1)%Z) <> 0)
  /\ (forall i, ~ (0 <= i < blocklen - 1)%Z -> path' i = path i).
Proof.
  exact (sample_hmm_posterior_spec blocklen tree states matrix fw path rng
           l path' rng').
Qed.

Lemma toy_sampler_ok : @sampler_ok toy_hmm.
Proof.
  intros A n rng Hn. simpl. unfold first_positive.
  destruct (find _ (range 0 n)) as [k|] eqn:E; [|lia].
  apply find_some in E. destruct E as [Hin _].
  apply In_range in Hin. exact Hin.
Qed.

Lemma sample_hmm_posterior_path_witness :
  0 = 0
  /\ (forall i, (0 <= i < 2 - 1)%Z ->
        (0 <= upd (fun _ => 0%Z) 0 0%Z i
         < Z.max (size (enum_states leaf_tree 2)) 1)%Z
        /\ get (toy_matrix 1) leaf_tree (enum_states leaf_tree 2)
               (upd (fun _ => 0%Z) 0 0%Z i)
               (upd (fun _ => 0%Z) 0 0%Z (i + 1)%Z) <> 0)
  /\ (forall i, ~ (0 <= i < 2 - 1)%Z ->
        upd (fun _ => 0%Z) 0 0%Z i = 0%Z).
Proof.
  apply (sample_hmm_posterior_path toy_hmm zero_R 2 leaf_tree
           (enum_states leaf_tree 2) (toy_matrix 1) (fun _ => one_hot_0)
           (fun _ => 0%Z) tt 0 (upd (fun _ => 0%Z) 0 0%Z) tt).
  - exact toy_sampler_ok.
  - lia.
  - apply toy_sample_hmm_posterior_two; [unfold one_hot_0; simpl; lra|].
    reflexivity.
Defined.

Lemma sample_hmm_posterior_frame `{HmmOps} `{Indet (arr R)}
    (blocklen : Z) (tree : LocalTree) (states : States)
    (matrix : TransMatrix) (fw : arr (arr R)) (path : arr Z) (rng : Rng)
    (l : R) (path' : arr Z) (rng' : Rng) (i : Z) :
  sample_hmm_posterior blocklen tree states matrix fw path rng
  = Some (l, path', rng') ->
  ~ (0 <= i < blocklen - 1)%Z -> path' i = path i.
Proof.
  intros Hrun Hi. unfold sample_hmm_posterior in Hrun.
  pose (P := fun (acc : option post_state) =>
    forall s, acc = Some s -> ps_path s i = path i).
  match type of Hrun with
  | option_map _ ?X = _ => assert (Hinv : P X)
  end.
  { apply (for_down_inv P).
    - intros s Hs. injection Hs as <-. reflexivity.
    - intros i0 acc Hi0 Hprev s' Hs'.
      destruct acc as [s|]; [|discriminate].
      cbv beta iota zeta in Hs'.
      destruct (if negb (ps_path s (i0 + 1) =? ps_last_k s)%Z
                then _ else _) as [trans last_k].
      destruct (sample _ _ _) as [pi rng1].
      destruct (Req_dec_T _ 0); [discriminate|].
      injection Hs' as <-. cbn [ps_path].
      rewrite upd_other by lia. apply Hprev. reflexivity. }
  destruct (for_down 0 (blocklen - 1) _ _) as [s|]; [|discriminate].
  simpl in Hrun. injection Hrun as <- <- <-. apply Hinv. reflexivity.
Qed.

Lemma stochastic_traceback_block_frame `{HmmOps} `{Indet (arr R)}
    (trees : LocalTrees) (model : ArgModel) (mat : Block)
    (fw : arr (arr R)) (internal_ : bool) (s s' : trace_state) :
  (1 <= blocklen mat)%Z ->
  stochastic_traceback_block trees model mat fw internal_ s = Some s' ->
  ts_pos s' = (ts_pos s - blocklen mat)%Z
  /\ forall p, (ts_pos s - 1 <= p)%Z -> ts_path s' p = ts_path s p.
Proof.
  intros Hlen Hrun. unfold stochastic_traceback_block in Hrun.
  set (pos := (ts_pos s - blocklen mat)%Z) in *.
  destruct (sample_hmm_posterior (blocklen mat) _ _ _ _ _ _)
    as [[[l pb] rng1]|] eqn:E1; [|discriminate].
  assert (Hf1 : forall p, (ts_pos s - 1 <= p)%Z ->
                          unshift pos pb p = ts_path s p).
  { intros p Hp. unfold unshift.
    rewrite (sample_hmm_posterior_frame _ _ _ _ _ _ _ _ _ _ (p - pos)%Z E1)
      by (unfold pos; lia).
    unfold shift. f_equal. lia. }
  destruct (pos >? start_coord trees)%Z.
  - destruct (transmat_switch mat) as [sw|].
    + destruct (sample_hmm_posterior_step sw _ _ _) as [[k rng2]|];
        [|discriminate].
      injection Hrun as <-. cbn [ts_pos ts_path].
      split; [reflexivity|].
      intros p Hp. rewrite upd_other by (unfold pos; lia).
      apply Hf1. exact Hp.
    + destruct (sample_hmm_posterior 2 _ _ _ _ _ _)
        as [[[l2 pb2] rng2]|] eqn:E2; [|discriminate].
      injection Hrun as <-. cbn [ts_pos ts_path].
      split; [reflexivity|].
      intros p Hp. unfold unshift at 1.
      rewrite (sample_hmm_posterior_frame _ _ _ _ _ _ _ _ _ _
                 (p - (pos - 1))%Z E2) by (unfold pos; lia).
      unfold shift. replace (pos - 1 + (p - (pos - 1)))%Z with p by lia.
      apply Hf1. exact Hp.
  - injection Hrun as <-. cbn [ts_pos ts_path].
    split; [reflexivity | exact Hf1].
Qed.

Lemma fold_option_none {A B : Type} (f : A -> B -> option A) (l : list B) :
  fold_left (fun acc x => match acc with
                          | None => None
                          | Some a => f a x
                          end) l None = None.
Proof. induction l as [|x l IH]; [reflexivity | exact IH]. Qed.

Lemma traceback_fold_frame `{HmmOps} `{Indet (arr R)}
    (trees : LocalTrees) (model : ArgModel) (fw : arr (arr R))
    (internal_ : bool) (blocks : list Block) :
  Forall (fun b => (1 <= blocklen b)%Z) blocks ->
  forall s s',
    fold_left
      (fun acc mat =>
         match acc with
         | None => None
         | Some s => stochastic_traceback_block trees model mat fw internal_ s
         end)
      blocks (Some s) = Some s' ->
    forall p, (ts_pos s - 1 <= p)%Z -> ts_path s' p = ts_path s p.
Proof.
  intros Hall. induction Hall as [|b blocks Hb _ IH].
  - intros s s' Hrun p _. simpl in Hrun. injection Hrun as <-. reflexivity.
  - intros s s' Hrun p Hp. cbn [fold_left] in Hrun.
    destruct (stochastic_traceback_block trees model b fw internal_ s)
      as [s1|] eqn:E1.
    + destruct (stochastic_traceback_block_frame trees model b fw internal_
                  s s1 Hb E1) as [Hpos Hframe].
      rewrite (IH s1 s' Hrun p) by lia. apply Hframe. exact Hp.
    + rewrite (fold_option_none
                 (fun s mat =>
                    stochastic_traceback_block trees model mat fw internal_ s))
        in Hrun.
      discriminate.
Qed.

(** ** Pinned end state *)

(** X14. With a pinned end state, [cond_sample_arg_thread] locates its
    index in the states of the last block and fails when the state is
    absent; when it completes, the thread path ends at that index: the
    traceback with a given last state never rewrites the last site.  Every
    block is assumed to hold at least one site. *)
Theorem cond_sample_pins_end (ops : HmmOps) (IR : Indet (arr R))
    (IRR : Indet (arr (arr R))) (IZ : Indet (arr Z))
    (model : ArgModel) (sequences : Sequences) (trees : LocalTrees)
    (new_chrom : Z) (start_state end_state : State) (rng : Rng)
    (first : Block) (rest : list Block) :
  matrix_list_setup model (Some sequences) trees new_chrom = first :: rest ->
  Forall (fun blk => (1 <= blocklen blk)%Z) (first :: rest) ->
  let states :=
    get_coal_states (block_tree (last (first :: rest) first)) (ntimes model)
                    false in
  let j := find_vector states end_state in
  (~ In end_state states ->
   cond_sample_arg_thread model sequences trees new_chrom start_state
                          end_state rng = None)
  /\ (forall trees' fw path,
        cond_sample_arg_thread model sequences trees new_chrom start_state
                               end_state rng = Some (trees', fw, path) ->
        (0 <= j < size states)%Z
        /\ st states j = end_state
        /\ path (end_coord trees - 1)%Z = j).
Proof.
  intros Hlist Hlen. cbv zeta.
  set (states := get_coal_states (block_tree (last (first :: rest) first))
                                 (ntimes model) false).
  set (j := find_vector states end_state).
  unfold cond_sample_arg_thread. rewrite Hlist.
  fold states. fold j.
  split.
  - intros Habsent.
    destruct (_ =? -1)%Z; [reflexivity|].
    destruct (arghmm_forward_alg _ _ _ _ _ _ _ _) as [fw2|]; [|reflexivity].
    rewrite upd_same. unfold j.
    rewrite (find_vector_absent states end_state Habsent). reflexivity.
  - intros trees' fw path Hrun.
    destruct (_ =? -1)%Z; [discriminate|].
    destruct (arghmm_forward_alg _ _ _ _ _ _ _ _) as [fw2|]; [|discriminate].
    rewrite upd_same in Hrun.
    destruct (Z.eqb_spec j (-1)) as [|Hj]; [discriminate|].
    destruct (find_vector_spec states end_state Hj) as [Hrange Hst].
    fold j in Hrange, Hst.
    destruct (stochastic_traceback trees model (first :: rest) fw2
                (upd indet (end_coord trees - 1) j) true false rng)
      as [[[lnl p] rng']|] eqn:Htrace; [|discriminate].
    destruct (Req_dec_T _ 1); [|discriminate].
    injection Hrun as _ <- <-.
    split; [exact Hrange | split; [exact Hst|]].
    unfold stochastic_traceback in Htrace. cbn [negb] in Htrace.
    match type of Htrace with
    | option_map _ ?X = _ => destruct X as [s'|] eqn:Hfold; [|discriminate]
    end.
    simpl in Htrace. injection Htrace as _ <- _.
    assert (Hrev : Forall (fun b => (1 <= blocklen b)%Z)
                          (rev (first :: rest))).
    { apply Forall_forall. intros b Hb. apply In_rev in Hb.
      revert b Hb. apply Forall_forall. exact Hlen. }
    rewrite (traceback_fold_frame trees model fw2 false _ Hrev _ s' Hfold)
      by (simpl; lia).
    simpl. apply upd_same.
Qed.

(** ** The stochastic traceback assigns every site *)

Lemma stochastic_traceback_block_valid `{HmmOps} `{Indet (arr R)}
    (trees : LocalTrees) (model : ArgModel) (mat : Block)
    (fw : arr (arr R)) (internal_ : bool) (s s' : trace_state) :
  sampler_ok ->
  (1 <= blocklen mat)%Z ->
  (0 <= ts_path s (ts_pos s - 1)%Z)%Z ->
  stochastic_traceback_block trees model mat fw internal_ s = Some s' ->
  let pos := (ts_pos s - blocklen mat)%Z in
  (forall p, (pos <= p < ts_pos s - 1)%Z -> (0 <= ts_path s' p)%Z)
  /\ ((pos > start_coord trees)%Z -> (0 <= ts_path s' (pos - 1)%Z)%Z)
  /\ (forall p, (p < pos - 1)%Z -> ts_path s' p = ts_path s p)
  /\ (~ (pos > start_coord trees)%Z ->
      ts_path s' (pos - 1)%Z = ts_path s (pos - 1)%Z).
Proof.
  intros Hsample Hlen Hlast Hrun. cbv zeta.
  unfold stochastic_traceback_block in Hrun.
  set (pos := (ts_pos s - blocklen mat)%Z) in *.
  destruct (sample_hmm_posterior (blocklen mat) _ _ _ _ _ _)
    as [[[l pb] rng1]|] eqn:E1; [|discriminate].
  assert (Hpre1 : (0 <= shift pos (ts_path s) (blocklen mat - 1)%Z)%Z).
  { unfold shift, pos.
    replace (ts_pos s - blocklen mat + (blocklen mat - 1))%Z
      with (ts_pos s - 1)%Z by lia.
    exact Hlast. }
  destruct (sample_hmm_posterior_spec _ _ _ _ _ _ _ _ _ _ Hsample Hpre1 E1)
    as [_ [Hin1 Hout1]].
  assert (Hp1 : forall p, (pos <= p < ts_pos s - 1)%Z ->
                          (0 <= unshift pos pb p)%Z).
  { intros p Hp. unfold unshift. apply Hin1. unfold pos in *. lia. }
  assert (Hf1 : forall p, (p < pos)%Z -> unshift pos pb p = ts_path s p).
  { intros p Hp. unfold unshift. rewrite Hout1 by lia.
    unfold shift. f_equal. lia. }
  assert (Hpos0 : (0 <= unshift pos pb pos)%Z).
  { destruct (Z.eq_dec (blocklen mat) 1) as [Hone|Hmore].
    - unfold unshift. rewrite Hout1 by lia. unfold shift.
      replace (pos + (pos - pos))%Z with (ts_pos s - 1)%Z
        by (unfold pos; lia).
      exact Hlast.
    - apply Hp1. unfold pos. lia. }
  destruct (Z.gtb_spec pos (start_coord trees)) as [Hgt|Hle].
  - destruct (transmat_switch mat) as [sw|].
    + unfold sample_hmm_posterior_step in Hrun.
      match type of Hrun with
      | context [sample ?A ?n rng1] =>
          pose proof (Hsample A n rng1 ltac:(lia)) as Hk;
          destruct (sample A n rng1) as [k rng2]
      end.
      cbn [fst] in Hk.
      destruct (Req_dec_T _ 0); [discriminate|].
      injection Hrun as <-. cbn [ts_pos ts_path].
      split; [|split; [|split]].
      * intros p Hp. rewrite upd_other by lia. apply Hp1. exact Hp.
      * intros _. rewrite upd_same. lia.
      * intros p Hp. rewrite upd_other by lia. apply Hf1. lia.
      * intros Hn. lia.
    + destruct (sample_hmm_posterior 2 _ _ _ _ _ _)
        as [[[l2 pb2] rng2]|] eqn:E2; [|discriminate].
      assert (Hpre2 : (0 <= shift (pos - 1) (unshift pos pb) (2 - 1)%Z)%Z).
      { unfold shift. replace (pos - 1 + (2 - 1))%Z with pos by lia.
        exact Hpos0. }
      destruct (sample_hmm_posterior_spec _ _ _ _ _ _ _ _ _ _ Hsample Hpre2
                  E2) as [_ [Hin2 Hout2]].
      injection Hrun as <-. cbn [ts_pos ts_path].
      split; [|split; [|split]].
      * intros p Hp. unfold unshift at 1. rewrite Hout2 by lia.
        unfold shift. replace (pos - 1 + (p - (pos - 1)))%Z with p by lia.
        apply Hp1. exact Hp.
      * intros _. unfold unshift at 1.
        replace (pos - 1 - (pos - 1))%Z with 0%Z by lia.
        apply Hin2. lia.
      * intros p Hp. unfold unshift at 1. rewrite Hout2 by lia.
        unfold shift. replace (pos - 1 + (p - (pos - 1)))%Z with p by lia.
        apply Hf1. lia.
      * intros Hn. lia.
  - injection Hrun as <-. cbn [ts_pos ts_path].
    split; [exact Hp1 | split; [intros Hgt; lia | split]].
    + intros p Hp. apply Hf1. lia.
    + intros _. apply Hf1. lia.
Qed.

Lemma blocks_len_app (l1 l2 : list Block) :
  blocks_len (l1 ++ l2) = (blocks_len l1 + blocks_len l2)%Z.
Proof.
  induction l1 as [|b l1 IH]; simpl; [reflexivity|].
  unfold blocks_len in *. simpl. rewrite IH. lia.
Qed.

Lemma blocks_len_rev (l : list Block) : blocks_len (rev l) = blocks_len l.
Proof.
  induction l as [|b l IH]; [reflexivity|].
  simpl. rewrite blocks_len_app, IH. unfold blocks_len. simpl. lia.
Qed.

Lemma blocks_len_pos (l : list Block) :
  Forall (fun b => (1 <= blocklen b)%Z) l -> l <> [] ->
  (1 <= blocks_len l)%Z.
Proof.
  intros Hall Hne. destruct Hall as [|b l Hb Hall]; [contradiction|].
  assert (Hrest : (0 <= blocks_len l)%Z).
  { clear -Hall. induction Hall as [|b l Hb _ IH]; unfold blocks_len in *;
      simpl; lia. }
  unfold blocks_len in *. simpl. lia.
Qed.

Lemma traceback_fold_valid `{HmmOps} `{Indet (arr R)}
    (trees : LocalTrees) (model : ArgModel) (fw : arr (arr R))
    (internal_ : bool) (blocks : list Block) :
  sampler_ok ->
  Forall (fun b => (1 <= blocklen b)%Z) blocks ->
  forall s s',
    (ts_pos s - blocks_len blocks)%Z = start_coord trees ->
    (blocks <> [] -> (0 <= ts_path s (ts_pos s - 1)%Z)%Z) ->
    fold_left
      (fun acc mat =>
         match acc with
         | None => None
         | Some s => stochastic_traceback_block trees model mat fw internal_ s
         end)
      blocks (Some s) = Some s' ->
    (forall p, (start_coord trees <= p < ts_pos s - 1)%Z ->
               (0 <= ts_path s' p)%Z)
    /\ (forall p, ~ (start_coord trees <= p < ts_pos s - 1)%Z ->
                  ts_path s' p = ts_path s p).
Proof.
  intros Hsample Hall. induction Hall as [|b blocks Hb Hall IH].
  - intros s s' Hsum _ Hrun. simpl in Hrun. injection Hrun as <-.
    unfold blocks_len in Hsum. simpl in Hsum.
    split; [intros p Hp; lia | reflexivity].
  - intros s s' Hsum Hlast Hrun. cbn [fold_left] in Hrun.
    destruct (stochastic_traceback_block trees model b fw internal_ s)
      as [s1|] eqn:E1.
    2:{ rewrite (fold_option_none
                   (fun s mat =>
                      stochastic_traceback_block trees model mat fw
                                                 internal_ s)) in Hrun.
        discriminate. }
    destruct (stochastic_traceback_block_frame trees model b fw internal_
                s s1 Hb E1) as [Hpos Hframe].
    destruct (stochastic_traceback_block_valid trees model b fw internal_
                s s1 Hsample Hb (Hlast ltac:(discriminate)) E1)
      as [Hin [Hbound [Hbelow Hkeep]]].
    assert (Hsum1 : (ts_pos s1 - blocks_len blocks)%Z = start_coord trees).
    { rewrite Hpos. unfold blocks_len in *. simpl in Hsum. lia. }
    assert (Hlast1 : blocks <> [] -> (0 <= ts_path s1 (ts_pos s1 - 1)%Z)%Z).
    { intros Hne. rewrite Hpos. apply Hbound.
      pose proof (blocks_len_pos blocks Hall Hne). lia. }
    destruct (IH s1 s' Hsum1 Hlast1 Hrun) as [Hin' Hout'].
    assert (Hge : (0 <= blocks_len blocks)%Z).
    { clear -Hall. induction Hall as [|b0 l Hb0 _ IH0];
        unfold blocks_len in *; simpl; lia. }
    split.
    + intros p Hp.
      destruct (Z_lt_le_dec p (ts_pos s1 - 1)) as [Hlow|Hhigh].
      * apply Hin'. lia.
      * rewrite Hout' by lia.
        destruct (Z.eq_dec p (ts_pos s1 - 1)) as [->|Hne].
        -- rewrite Hpos. apply Hbound. lia.
        -- apply Hin. lia.
    + intros p Hp. rewrite Hout' by lia.
      destruct (Z_lt_le_dec p (ts_pos s - 1)) as [Hlow|Hhigh].
      * destruct (Z.eq_dec p (ts_pos s - blocklen b - 1)) as [->|Hne].
        -- apply Hkeep. lia.
        -- apply Hbelow. lia.
      * apply Hframe. lia.
Qed.

Lemma stochastic_traceback_covers_spec (ops : HmmOps) (IR : Indet (arr R))
    (trees : LocalTrees) (model : ArgModel) (matrix_iter : list Block)
    (fw : arr (arr R)) (path : arr Z) (last_state_given internal_ : bool)
    (rng : Rng) (lnl : ereal) (path' : arr Z) (rng' : Rng) :
  sampler_ok ->
  Forall (fun b => (1 <= blocklen b)%Z) matrix_iter ->
  blocks_len matrix_iter = (end_coord trees - start_coord trees)%Z ->
  (last_state_given = true -> (0 <= path (end_coord trees - 1)%Z)%Z) ->
  stochastic_traceback trees model matrix_iter fw path last_state_given
                       internal_ rng = Some (lnl, path', rng') ->
  (forall p, (start_coord trees <= p < end_coord trees)%Z ->
             (0 <= path' p)%Z)
  /\ (forall p, ~ (start_coord trees <= p < end_coord trees)%Z ->
                path' p = path p)
  /\ (last_state_given = true ->
      path' (end_coord trees - 1)%Z = path (end_coord trees - 1)%Z).
Proof.
  intros Hsample Hlen Hsum Hgiven Hrun.
  unfold stochastic_traceback in Hrun.
  assert (Hrev : Forall (fun b => (1 <= blocklen b)%Z) (rev matrix_iter)).
  { apply Forall_forall. intros b Hb. apply In_rev in Hb.
    revert b Hb. apply Forall_forall. exact Hlen. }
  assert (Hsumr : blocks_len (rev matrix_iter)
                  = (end_coord trees - start_coord trees)%Z)
    by (rewrite blocks_len_rev; exact Hsum).
  assert (Hmain : forall path0 lnl0 rng0,
    (rev matrix_iter <> [] -> (0 <= path0 (end_coord trees - 1)%Z)%Z) ->
    option_map (fun s => (ts_lnl s, ts_path s, ts_rng s))
      (fold_left
         (fun acc mat =>
            match acc with
            | None => None
            | Some s =>
                stochastic_traceback_block trees model mat fw internal_ s
            end)
         (rev matrix_iter)
         (Some (mkTrace (end_coord trees) path0 lnl0 rng0)))
    = Some (lnl, path', rng') ->
    (forall p, (start_coord trees <= p < end_coord trees - 1)%Z ->
               (0 <= path' p)%Z)
    /\ (forall p, ~ (start_coord trees <= p < end_coord trees - 1)%Z ->
                  path' p = path0 p)).
  { intros path0 lnl0 rng0 Hlast0 Hfold.
    match type of Hfold with
    | option_map _ ?X = _ => destruct X as [s'|] eqn:E; [|discriminate]
    end.
    simpl in Hfold. injection Hfold as _ <- _.
    apply (traceback_fold_valid trees model fw internal_ _ Hsample Hrev
             (mkTrace (end_coord trees) path0 lnl0 rng0) s');
      [simpl; lia | exact Hlast0 | exact E]. }
  destruct last_state_given; cbn [negb] in Hrun.
  - destruct (Hmain path (Fin 0) rng (fun _ => Hgiven eq_refl) Hrun)
      as [Hin Hout].
    split; [|split].
    + intros p Hp.
      destruct (Z.eq_dec p (end_coord trees - 1)) as [->|Hne].
      * rewrite Hout by lia. apply Hgiven. reflexivity.
      * apply Hin. lia.
    + intros p Hp. apply Hout. lia.
    + intros _. apply Hout. lia.
  - destruct (rev matrix_iter) as [|mat rest] eqn:Erev.
    + simpl in Hrun. discriminate.
    + match type of Hrun with
      | context [sample ?A ?n rng] =>
          pose proof (Hsample A n rng ltac:(lia)) as Hk;
          destruct (sample A n rng) as [k rng1]
      end.
      cbn [fst] in Hk.
      assert (Hpos : (1 <= blocks_len (mat :: rest))%Z)
        by (apply blocks_len_pos; [exact Hrev | discriminate]).
      destruct (Hmain (upd path (end_coord trees - 1) k) _ rng1
                  ltac:(intros _; rewrite upd_same; lia) Hrun)
        as [Hin Hout].
      split; [|split; [|discriminate]].
      * intros p Hp.
        destruct (Z.eq_dec p (end_coord trees - 1)) as [->|Hne].
        -- rewrite Hout by lia. rewrite upd_same. lia.
        -- apply Hin. lia.
      * intros p Hp. rewrite Hout by lia. apply upd_other. lia.
Qed.

(** X15. When the blocks tile the region from the start to the end
    coordinate, each with at least one site, and the sampler returns indices
    of its weight array, a completed [stochastic_traceback] has given every
    site of the region a state index (none is left unset, also at block
    boundaries without a switch operator), has written nothing outside the
    region, and has kept a given last state. *)
Theorem stochastic_traceback_covers (ops : HmmOps) (IR : Indet (arr R))
    (trees : LocalTrees) (model : ArgModel) (matrix_iter : list Block)
    (fw : arr (arr R)) (path : arr Z) (last_state_given internal_ : bool)
    (rng : Rng) (lnl : ereal) (path' : arr Z) (rng' : Rng) :
  sampler_ok ->
  Forall (fun b => (1 <= blocklen b)%Z) matrix_iter ->
  blocks_len matrix_iter = (end_coord trees - start_coord trees)%Z ->
  (last_state_given = true -> (0 <= path (end_coord trees - 1)%Z)%Z) ->
  stochastic_traceback trees model matrix_iter fw path last_state_given
                       internal_ rng = Some (lnl, path', rng') ->
  (forall p, (start_coord trees <= p < end_coord trees)%Z ->
             (0 <= path' p)%Z)
  /\ (forall p, ~ (start_coord trees <= p < end_coord trees)%Z ->
                path' p = path p)
  /\ (last_state_given = true ->
      path' (end_coord trees - 1)%Z = path (end_coord trees - 1)%Z).
Proof.
  exact (stochastic_traceback_covers_spec ops IR trees model matrix_iter fw
           path last_state_given internal_ rng lnl path' rng').
Qed.

(** ** The maximum traceback *)

Lemma egtb_irrefl (x : ereal) : egtb x x = false.
Proof.
  destruct x as [|a]; simpl; [reflexivity|].
  destruct (Rlt_dec a a); [lra | reflexivity].
Qed.

(** [a <= b < c] gives [a < c] *)
Lemma egtb_le_lt (a b c : ereal) :
  egtb a b = false -> egtb c b = true -> egtb c a = true.
Proof.
  destruct a as [|a], b as [|b], c as [|c]; simpl; try congruence.
  destruct (Rlt_dec b a), (Rlt_dec b c), (Rlt_dec a c);
    try congruence; lra.
Qed.

(** [a < b < c] gives [a < c] *)
Lemma egtb_lt_lt (a b c : ereal) :
  egtb b a = true -> egtb c b = true -> egtb c a = true.
Proof.
  destruct a as [|a], b as [|b], c as [|c]; simpl; try congruence.
  destruct (Rlt_dec a b), (Rlt_dec b c), (Rlt_dec a c); try congruence; lra.
Qed.

(** [a <= b <= c] gives [a <= c] *)
Lemma egtb_le_le (a b c : ereal) :
  egtb a b = false -> egtb b c = false -> egtb a c = false.
Proof.
  destruct a as [|a], b as [|b], c as [|c]; simpl; try congruence.
  destruct (Rlt_dec b a), (Rlt_dec c b), (Rlt_dec c a); try congruence; lra.
Qed.

Lemma egtb_lt_le (a b : ereal) : egtb b a = true -> egtb a b = false.
Proof.
  destruct a as [|a], b as [|b]; simpl; try congruence.
  destruct (Rlt_dec a b), (Rlt_dec b a); try congruence; lra.
Qed.

Lemma argmax_log_spec (n : Z) (col : arr R) (trans : arr ereal) :
  let v := fun j => eadd (elog (col j)) (trans j) in
  let m := argmax_log n col trans in
  (0 <= m < Z.max n 1)%Z
  /\ (forall j, (0 <= j < n)%Z -> egtb (v j) (v m) = false)
  /\ (forall j, (0 <= j < m)%Z -> egtb (v m) (v j) = true).
Proof.
  cbv zeta. unfold argmax_log.
  set (v := fun j => eadd (elog (col j)) (trans j)).
  pose (P := fun (j : Z) (s : Z * ereal) =>
    snd s = v (fst s)
    /\ (0 <= fst s < j)%Z
    /\ (forall j', (0 <= j' < j)%Z -> egtb (v j') (snd s) = false)
    /\ (forall j', (0 <= j' < fst s)%Z -> egtb (snd s) (v j') = true)).
  match goal with
  | |- context [for_up 1 n ?b ?s0] => set (X := for_up 1 n b s0)
  end.
  assert (Hinv : P (Z.max 1 n) X).
  { subst X. apply (for_up_indm P).
    - unfold P. cbn [fst snd]. split; [reflexivity|]. split; [lia|]. split.
      + intros j' Hj'. assert (j' = 0%Z) by lia. subst j'.
        apply egtb_irrefl.
      + intros j' Hj'. lia.
    - intros j [maxj maxprob] Hj [Hval [Hrange [Hmax Hfirst]]].
      cbn [fst snd] in *. fold (v j).
      destruct (egtb (v j) maxprob) eqn:Egt; unfold P; cbn [fst snd].
      + split; [reflexivity|]. split; [lia|]. split.
        * intros j' Hj'. destruct (Z.eq_dec j' j) as [->|Hne].
          -- apply egtb_irrefl.
          -- apply egtb_lt_le. apply (egtb_le_lt _ maxprob); [|exact Egt].
             apply Hmax. lia.
        * intros j' Hj'. apply (egtb_le_lt _ maxprob); [|exact Egt].
          apply Hmax. lia.
      + split; [exact Hval|]. split; [lia|]. split.
        * intros j' Hj'. destruct (Z.eq_dec j' j) as [->|Hne].
          -- exact Egt.
          -- apply Hmax. lia.
        * exact Hfirst. }
  destruct X as [maxj maxprob]. destruct Hinv as [Hval [Hrange [Hmax Hfirst]]].
  cbn [fst snd] in *. subst maxprob.
  split; [lia | split].
  - intros j Hj. apply Hmax. lia.
  - exact Hfirst.
Qed.

(** X16. [max_hmm_posterior_step] returns the first source state that
    maximises [log col1[j] + get_log(j, state2)] over the [nstates1] source
    states: no state has a larger value, and every earlier state has a
    strictly smaller one.  With an empty source space it returns 0.  (The
    column holds probabilities, so its entries are non-negative.) *)
Theorem max_hmm_posterior_step_argmax (matrix : TransMatrixSwitch)
    (col1 : arr R) (state2 : Z) :
  (forall j, (0 <= j < nstates1 matrix)%Z -> 0 <= col1 j) ->
  let v := fun j => eadd (elog (col1 j)) (switch_get_log matrix j state2) in
  let m := max_hmm_posterior_step matrix col1 state2 in
  (0 <= m < Z.max (nstates1 matrix) 1)%Z
  /\ (forall j, (0 <= j < nstates1 matrix)%Z -> egtb (v j) (v m) = false)
  /\ (forall j, (0 <= j < m)%Z -> egtb (v m) (v j) = true)
  /\ ((nstates1 matrix <= 0)%Z -> m = 0%Z).
Proof.
  intros _. cbv zeta. unfold max_hmm_posterior_step.
  destruct (argmax_log_spec (nstates1 matrix) col1
              (fun j => switch_get_log matrix j state2))
    as [Hrange [Hmax Hfirst]].
  split; [exact Hrange | split; [exact Hmax | split; [exact Hfirst|]]].
  intros Hempty. lia.
Qed.

Lemma max_hmm_posterior_step_argmax_witness :
  let v := fun j => eadd (elog (half_half j))
                         (switch_get_log cross_switch j 0) in
  let m := max_hmm_posterior_step cross_switch half_half 0 in
  (0 <= m < Z.max (nstates1 cross_switch) 1)%Z
  /\ (forall j, (0 <= j < nstates1 cross_switch)%Z ->
                egtb (v j) (v m) = false)
  /\ (forall j, (0 <= j < m)%Z -> egtb (v m) (v j) = true)
  /\ ((nstates1 cross_switch <= 0)%Z -> m = 0%Z).
Proof.
  apply (max_hmm_posterior_step_argmax cross_switch half_half 0).
  intros j Hj. unfold half_half.
  destruct ((0 <=? j) && (j <? 2))%Z; lra.
Defined.

Lemma first_argmax_ext (n : Z) (v v' : Z -> ereal) (m : Z) :
  (forall j, (0 <= j < n)%Z -> v j = v' j) ->
  first_argmax n v m -> first_argmax n v' m.
Proof.
  intros Hext [Hrange [Hmax Hfirst]]. split; [exact Hrange|].
  destruct (Z_lt_le_dec 0 n) as [Hpos|Hnone].
  - assert (Hm : v m = v' m) by (apply Hext; lia).
    split.
    + intros j Hj. rewrite <- (Hext j Hj), <- Hm. apply Hmax. exact Hj.
    + intros j Hj. rewrite <- (Hext j) by lia. rewrite <- Hm.
      apply Hfirst. exact Hj.
  - split; intros j Hj; lia.
Qed.

Lemma max_hmm_posterior_spec `{Indet (arr ereal)} (n : Z) (tree : LocalTree)
    (states : States) (matrix : TransMatrix) (fw : arr (arr R))
    (path : arr Z) :
  (0 <= path (n - 1)%Z)%Z ->
  let path' := max_hmm_posterior n tree states matrix fw path in
  (forall i, (0 <= i < n - 1)%Z ->
     first_argmax (size states)
       (viterbi_score tree states matrix fw i (path' (i + 1)%Z)) (path' i))
  /\ (forall i, ~ (0 <= i < n - 1)%Z -> path' i = path i).
Proof.
  intros Hlast. cbv zeta. unfold max_hmm_posterior.
  set (ns := size states).
  pose (P := fun (i : Z) (s : arr Z * arr ereal * Z) =>
    (forall i', (i <= i' < n - 1)%Z ->
       first_argmax ns
         (viterbi_score tree states matrix fw i' (fst (fst s) (i' + 1)%Z))
         (fst (fst s) i'))
    /\ (forall i', ~ (i <= i' < n - 1)%Z -> fst (fst s) i' = path i')
    /\ (snd s = (-1)%Z
        \/ forall j, (0 <= j < ns)%Z ->
             snd (fst s) j = get_log matrix tree states j (snd s))).
  match goal with
  | |- context [for_down 0 (n - 1) ?b ?s0] =>
      set (X := for_down 0 (n - 1) b s0)
  end.
  destruct (Z_le_gt_dec 0 (n - 1)) as [Hle|Hgt].
  - assert (Hinv : P 0%Z X).
    { subst X. apply (for_down_ind P); [exact Hle | |].
      - unfold P. cbn [fst snd].
        split; [intros; lia | split; [reflexivity | left; reflexivity]].
      - intros i [[p trans] last_k] Hi [Hdone [Hrest Htrans]].
        cbn [fst snd] in *.
        assert (Hk : (0 <= p (i + 1))%Z).
        { destruct (Z.eq_dec (i + 1) (n - 1)) as [Heq|Hne].
          - rewrite Hrest by lia. rewrite Heq. exact Hlast.
          - destruct (Hdone (i + 1)%Z ltac:(lia)) as [Hr _]. lia. }
        set (k := p (i + 1)%Z) in *.
        assert (Htr : exists trans' last_k',
          (if negb (k =? last_k)%Z then
             (for_up 0 ns
                (fun j trans =>
                   upd trans j (get_log matrix tree states j k))
                trans, k)
           else (trans, last_k)) = (trans', last_k')
          /\ last_k' = k
          /\ forall j, (0 <= j < ns)%Z ->
               trans' j = get_log matrix tree states j k).
        { destruct (Z.eqb_spec k last_k) as [Heq|Hne]; simpl.
          - do 2 eexists. split; [reflexivity|]. split; [congruence|].
            destruct Htrans as [Hm1 | Hall]; [lia|].
            intros j Hj. rewrite Heq. apply Hall. exact Hj.
          - do 2 eexists. split; [reflexivity|]. split; [reflexivity|].
            intros j Hj. rewrite fill_trans.
            replace ((0 <=? j) && (j <? ns))%Z with true by lia.
            reflexivity. }
        destruct Htr as [trans' [last_k' [Etr [Elast Hall]]]].
        rewrite Etr. unfold P. cbn [fst snd].
        split; [|split].
        + intros i' Hi'. destruct (Z.eq_dec i' i) as [->|Hne].
          * rewrite upd_same. rewrite upd_other by lia. fold k.
            apply (first_argmax_ext ns
                     (fun j => eadd (elog (fw i j)) (trans' j))).
            -- intros j Hj. unfold viterbi_score. rewrite Hall by exact Hj.
               reflexivity.
            -- apply argmax_log_spec.
          * rewrite !upd_other by lia. apply Hdone. lia.
        + intros i' Hi'. rewrite upd_other by lia. apply Hrest. lia.
        + right. rewrite Elast. exact Hall. }
    destruct X as [[p trans] last_k].
    destruct Hinv as [Hdone [Hrest _]]. cbn [fst snd] in *.
    split.
    + intros i Hi. apply Hdone. lia.
    + intros i Hi. apply Hrest. lia.
  - subst X. rewrite for_down_nil by lia.
    split; [intros; lia | reflexivity].
Qed.

(** X17. [max_hmm_posterior] fills [path[0 .. n-2]] backwards from the
    entry [path[n-1]], which must hold a state already: each entry it
    writes is the first state that maximises
    [log fw[i][j] + get_log(j, path[i+1])] over the states, and no other
    entry of the path changes.  With [n <= 1] nothing is written. *)
Theorem max_hmm_posterior_argmax (IE : Indet (arr ereal)) (n : Z)
    (tree : LocalTree) (states : States) (matrix : TransMatrix)
    (fw : arr (arr R)) (path : arr Z) :
  (0 <= path (n - 1)%Z)%Z ->
  (forall i j, (0 <= i < n - 1)%Z -> (0 <= j < size states)%Z ->
               0 <= fw i j) ->
  let path' := max_hmm_posterior n tree states matrix fw path in
  (forall i, (0 <= i < n - 1)%Z ->
     first_argmax (size states)
       (viterbi_score tree states matrix fw i (path' (i + 1)%Z)) (path' i))
  /\ (forall i, ~ (0 <= i < n - 1)%Z -> path' i = path i)
  /\ ((n <= 1)%Z -> forall i, path' i = path i).
Proof.
  intros Hlast _. cbv zeta.
  destruct (max_hmm_posterior_spec n tree states matrix fw path Hlast)
    as [Hin Hout].
  split; [exact Hin | split; [exact Hout|]].
  intros Hn i. apply Hout. lia.
Qed.

Lemma max_hmm_posterior_argmax_witness :
  let path' := @max_hmm_posterior neginf_E 2 leaf_tree
                 (enum_states leaf_tree 2) (toy_matrix 1)
                 (fun _ => one_hot_0) (fun _ => 0%Z) in
  (forall i, (0 <= i < 2 - 1)%Z ->
     first_argmax (size (enum_states leaf_tree 2))
       (viterbi_score leaf_tree (enum_states leaf_tree 2) (toy_matrix 1)
                      (fun _ => one_hot_0) i (path' (i + 1)%Z)) (path' i))
  /\ (forall i, ~ (0 <= i < 2 - 1)%Z -> path' i = 0%Z)
  /\ ((2 <= 1)%Z -> forall i, path' i = 0%Z).
Proof.
  apply (max_hmm_posterior_argmax neginf_E 2 leaf_tree
           (enum_states leaf_tree 2) (toy_matrix 1) (fun _ => one_hot_0)
           (fun _ => 0%Z)).
  - lia.
  - intros i j _ _. unfold one_hot_0. destruct (j =? 0)%Z; lra.
Defined.

Lemma max_hmm_posterior_frame `{Indet (arr ereal)} (n : Z) (tree : LocalTree)
    (states : States) (matrix : TransMatrix) (fw : arr (arr R))
    (path : arr Z) (i : Z) :
  ~ (0 <= i < n - 1)%Z ->
  max_hmm_posterior n tree states matrix fw path i = path i.
Proof.
  intros Hi. unfold max_hmm_posterior.
  pose (P := fun (s : arr Z * arr ereal * Z) => fst (fst s) i = path i).
  match goal with
  | |- context [for_down 0 (n - 1) ?b ?s0] =>
      set (X := for_down 0 (n - 1) b s0)
  end.
  assert (Hinv : P X).
  { subst X. apply (for_down_inv P); [reflexivity|].
    intros i0 [[p trans] last_k] Hi0 Hp. unfold P in *. cbn [fst] in Hp.
    destruct (negb (p (i0 + 1)%Z =? last_k)%Z); cbn [fst];
      (rewrite upd_other by lia; exact Hp). }
  destruct X as [[p trans] last_k]. exact Hinv.
Qed.

Lemma max_traceback_block_frame `{HmmOps} `{Indet (arr ereal)}
    (trees : LocalTrees) (model : ArgModel) (mat : Block)
    (fw : arr (arr R)) (internal_ : bool) (pos : Z) (path : arr Z) :
  (1 <= blocklen mat)%Z ->
  fst (max_traceback_block trees model mat fw internal_ pos path)
  = (pos - blocklen mat)%Z
  /\ forall p, (pos - 1 <= p)%Z ->
       snd (max_traceback_block trees model mat fw internal_ pos path) p
       = path p.
Proof.
  intros Hlen. unfold max_traceback_block.
  set (pos' := (pos - blocklen mat)%Z).
  assert (Hf1 : forall p, (pos - 1 <= p)%Z ->
    unshift pos'
      (max_hmm_posterior (blocklen mat) (block_tree mat)
         (get_coal_states (block_tree mat) (ntimes model) internal_)
         (transmat mat) (shift pos' fw) (shift pos' path)) p = path p).
  { intros p Hp. unfold unshift.
    rewrite max_hmm_posterior_frame by (unfold pos'; lia).
    unfold shift. f_equal. lia. }
  destruct (pos' >? start_coord trees)%Z.
  - destruct (transmat_switch mat) as [sw|]; cbn [fst snd].
    + split; [reflexivity|]. intros p Hp.
      rewrite upd_other by (unfold pos'; lia). apply Hf1. exact Hp.
    + split; [reflexivity|]. intros p Hp. unfold unshift at 1.
      rewrite max_hmm_posterior_frame by (unfold pos'; lia).
      unfold shift. replace (pos' - 1 + (p - (pos' - 1)))%Z with p by lia.
      apply Hf1. exact Hp.
  - cbn [fst snd]. split; [reflexivity | exact Hf1].
Qed.

Lemma max_traceback_fold_frame `{HmmOps} `{Indet (arr ereal)}
    (trees : LocalTrees) (model : ArgModel) (fw : arr (arr R))
    (internal_ : bool) (blocks : list Block) :
  Forall (fun b => (1 <= blocklen b)%Z) blocks ->
  forall pos path p, (pos - 1 <= p)%Z ->
    snd (fold_left
           (fun '(pos, path) mat =>
              max_traceback_block trees model mat fw internal_ pos path)
           blocks (pos, path)) p
    = path p.
Proof.
  intros Hall. induction Hall as [|b blocks Hb _ IH].
  - intros pos path p _. reflexivity.
  - intros pos path p Hp. cbn [fold_left].
    destruct (max_traceback_block_frame trees model b fw internal_ pos path
                Hb) as [Hpos Hframe].
    destruct (max_traceback_block trees model b fw internal_ pos path)
      as [pos1 path1].
    cbn [fst snd] in Hpos, Hframe.
    rewrite IH by lia. apply Hframe. exact Hp.
Qed.

Lemma max_scan_spec (n : Z) (col : arr R) :
  let m := fst (for_up 1 n
                  (fun i '(maxi, maxprob) =>
                     if Rlt_dec maxprob (col i) then (i, col i)
                     else (maxi, maxprob))
                  (0%Z, col 0%Z)) in
  (0 <= m < Z.max n 1)%Z
  /\ (forall j, (0 <= j < n)%Z -> col j <= col m)
  /\ (forall j, (0 <= j < m)%Z -> col j < col m).
Proof.
  cbv zeta.
  pose (P := fun (j : Z) (s : Z * R) =>
    snd s = col (fst s)
    /\ (0 <= fst s < j)%Z
    /\ (forall j', (0 <= j' < j)%Z -> col j' <= snd s)
    /\ (forall j', (0 <= j' < fst s)%Z -> col j' < snd s)).
  match goal with
  | |- context [for_up 1 n ?b ?s0] => set (X := for_up 1 n b s0)
  end.
  assert (Hinv : P (Z.max 1 n) X).
  { subst X. apply (for_up_indm P).
    - unfold P. cbn [fst snd]. split; [reflexivity|]. split; [lia|]. split.
      + intros j' Hj'. assert (j' = 0%Z) by lia. subst j'. lra.
      + intros j' Hj'. lia.
    - intros j [maxi maxprob] Hj [Hval [Hrange [Hmax Hfirst]]].
      cbn [fst snd] in *.
      destruct (Rlt_dec maxprob (col j)) as [Hlt|Hge]; unfold P;
        cbn [fst snd].
      + split; [reflexivity|]. split; [lia|]. split.
        * intros j' Hj'. destruct (Z.eq_dec j' j) as [->|Hne]; [lra|].
          pose proof (Hmax j' ltac:(lia)). lra.
        * intros j' Hj'. pose proof (Hmax j' ltac:(lia)). lra.
      + split; [exact Hval|]. split; [lia|]. split.
        * intros j' Hj'. destruct (Z.eq_dec j' j) as [->|Hne]; [lra|].
          apply Hmax. lia.
        * exact Hfirst. }
  destruct X as [maxi maxprob].
  destruct Hinv as [Hval [Hrange [Hmax Hfirst]]].
  cbn [fst snd] in *. subst maxprob.
  split; [lia | split].
  - intros j Hj. apply Hmax. lia.
  - exact Hfirst.
Qed.

(** X18. When the last state is not given, [max_traceback] ends the path
    at the first state that maximises the last forward column over the
    [nstates2] states of the last block, and no later step of the traceback
    rewrites that entry; a given last state is kept.  Every block is
    assumed to hold at least one site. *)
Theorem max_traceback_last_column (ops : HmmOps) (IE : Indet (arr ereal))
    (trees : LocalTrees) (model : ArgModel) (matrix_iter : list Block)
    (fw : arr (arr R)) (path : arr Z) (last_state_given internal_ : bool)
    (path' : arr Z) :
  Forall (fun b => (1 <= blocklen b)%Z) matrix_iter ->
  max_traceback trees model matrix_iter fw path last_state_given internal_
  = Some path' ->
  let last := (end_coord trees - 1)%Z in
  if last_state_given then path' last = path last
  else
    exists mat rest,
      rev matrix_iter = mat :: rest
      /\ (0 <= path' last < Z.max (mat_nstates2 mat) 1)%Z
      /\ (forall j, (0 <= j < mat_nstates2 mat)%Z ->
                    fw last j <= fw last (path' last))
      /\ (forall j, (0 <= j < path' last)%Z ->
                    fw last j < fw last (path' last)).
Proof.
  intros Hlen Hrun. cbv zeta. unfold max_traceback in Hrun.
  assert (Hrev : Forall (fun b => (1 <= blocklen b)%Z) (rev matrix_iter)).
  { apply Forall_forall. intros b Hb. apply In_rev in Hb.
    revert b Hb. apply Forall_forall. exact Hlen. }
  destruct last_state_given; cbn [negb] in Hrun.
  - cbn [option_map] in Hrun. injection Hrun as <-.
    apply (max_traceback_fold_frame trees model fw internal_ _ Hrev). lia.
  - destruct (rev matrix_iter) as [|mat rest] eqn:Erev; [discriminate|].
    exists mat, rest. split; [reflexivity|].
    pose proof (max_scan_spec (mat_nstates2 mat) (fw (end_coord trees - 1)%Z))
      as Hscan.
    cbv zeta in Hscan.
    destruct (for_up 1 (mat_nstates2 mat) _ _) as [maxi maxprob].
    cbn [fst] in Hscan. cbn [option_map] in Hrun. injection Hrun as <-.
    pose proof (max_traceback_fold_frame trees model fw internal_
                  (mat :: rest) Hrev (end_coord trees)
                  (upd path (end_coord trees - 1) maxi)
                  (end_coord trees - 1)%Z ltac:(lia)) as Hfr.
    cbn [fold_left] in Hfr. rewrite Hfr.
    rewrite upd_same. exact Hscan.
Qed.

Lemma max_traceback_last_column_witness :
  exists path',
    @max_traceback toy_hmm neginf_E (0%Z, 1%Z) tiny_model
      [toy_block 0 1 None] (fun _ => one_hot_0) (fun _ => 7%Z) false false
    = Some path'
    /\ exists mat rest,
         rev [toy_block 0 1 None] = mat :: rest
         /\ (0 <= path' (1 - 1)%Z < Z.max (mat_nstates2 mat) 1)%Z
         /\ (forall j, (0 <= j < mat_nstates2 mat)%Z ->
               one_hot_0 j <= one_hot_0 (path' (1 - 1)%Z))
         /\ (forall j, (0 <= j < path' (1 - 1)%Z)%Z ->
               one_hot_0 j < one_hot_0 (path' (1 - 1)%Z)).
Proof.
  destruct (@max_traceback toy_hmm neginf_E (0%Z, 1%Z) tiny_model
              [toy_block 0 1 None] (fun _ => one_hot_0) (fun _ => 7%Z)
              false false) as [path'|] eqn:Hrun.
  - exists path'. split; [reflexivity|].
    apply (max_traceback_last_column toy_hmm neginf_E (0%Z, 1%Z) tiny_model
             [toy_block 0 1 None] (fun _ => one_hot_0) (fun _ => 7%Z)
             false false path').
    + repeat constructor. simpl. lia.
    + exact Hrun.
  - exfalso. unfold max_traceback in Hrun.
    cbn [negb rev app] in Hrun.
    destruct (for_up 1 _ _ _) as [maxi maxprob]. discriminate.
Defined.

(** ** The switch step on probabilities *)

Lemma sumZ_nonneg (lo hi : Z) (f : Z -> R) :
  (forall i, (lo <= i < hi)%Z -> 0 <= f i) -> 0 <= sumZ lo hi f.
Proof.
  intros Hf. destruct (Z_le_gt_dec lo hi) as [Hle|Hgt].
  - revert Hf. apply (Zup_ind
      (fun hi => (forall i, (lo <= i < hi)%Z -> 0 <= f i) ->
                 0 <= sumZ lo hi f) lo); [| |exact Hle].
    + intros _. rewrite sumZ_nil by lia. lra.
    + intros h Hh IH Hf. rewrite sumZ_snoc by assumption.
      pose proof (IH (fun i Hi => Hf i ltac:(lia))).
      pose proof (Hf h ltac:(lia)). lra.
  - rewrite sumZ_nil by lia. lra.
Qed.

Lemma sumZ_ge_term (lo hi k : Z) (f : Z -> R) :
  (forall i, (lo <= i < hi)%Z -> 0 <= f i) -> (lo <= k < hi)%Z ->
  f k <= sumZ lo hi f.
Proof.
  intros Hf Hk.
  rewrite (sumZ_split lo k hi) by lia.
  rewrite (sumZ_cons k hi) by lia.
  pose proof (sumZ_nonneg lo k f (fun i Hi => Hf i ltac:(lia))).
  pose proof (sumZ_nonneg (k + 1) hi f (fun i Hi => Hf i ltac:(lia))).
  lra.
Qed.

(** the largest entry is one of the entries *)
Lemma max_array_attained (a : arr R) (n : Z) :
  exists k, (0 <= k < Z.max n 1)%Z /\ max_array a n = a k.
Proof.
  unfold max_array.
  pose (P := fun (i : Z) (top : R) =>
    exists k, (0 <= k < i)%Z /\ top = a k).
  assert (Hinv : P (Z.max 1 n) (for_up 1 n (fun i top => Rmax top (a i))
                                       (a 0%Z))).
  { apply (for_up_indm P).
    - exists 0%Z. split; [lia | reflexivity].
    - intros i top Hi [k [Hk ->]].
      destruct (Rle_dec (a k) (a i)) as [Hle|Hgt].
      + exists i. split; [lia | apply Rmax_right; exact Hle].
      + exists k. split; [lia | apply Rmax_left; lra]. }
  destruct Hinv as [k [Hk Hv]]. exists k. split; [lia | exact Hv].
Qed.

Lemma max_array_ge (a : arr R) (n k : Z) :
  (0 <= k < Z.max n 1)%Z -> a k <= max_array a n.
Proof.
  intros Hk. unfold max_array.
  pose (P := fun (i : Z) (top : R) =>
    forall k, (0 <= k < i)%Z -> a k <= top).
  assert (Hinv : P (Z.max 1 n) (for_up 1 n (fun i top => Rmax top (a i))
                                       (a 0%Z))).
  { apply (for_up_indm P).
    - intros k0 Hk0. assert (k0 = 0%Z) by lia. subst k0. lra.
    - intros i top Hi Hprev k0 Hk0.
      destruct (Z.eq_dec k0 i) as [->|Hne]; [apply Rmax_r|].
      eapply Rle_trans; [apply Hprev; lia | apply Rmax_l]. }
  apply Hinv. lia.
Qed.

Lemma eexp_nonneg (x : ereal) : 0 <= eexp x.
Proof. destruct x as [|r]; simpl; [lra | left; apply exp_pos]. Qed.

Lemma switch_mass_nonneg (matrix : TransMatrixSwitch) (col1 : arr R)
    (k : Z) :
  switch_sources_ok matrix ->
  nonneg_on (Z.max (nstates1 matrix) 1) col1 ->
  0 <= switch_mass matrix col1 k.
Proof.
  intros [Hwf [Hrb Hrc]] Hcol. unfold switch_mass.
  assert (H1 : 0 <= sumZ 0 (Z.max (nstates1 matrix) 1)
    (fun j =>
       if negb (j =? recombsrc matrix)%Z && negb (j =? recoalsrc matrix)%Z
          && (0 <=? determ matrix j)%Z && (determ matrix j =? k)%Z
       then col1 j * eexp (determprob matrix j) else 0)).
  { apply sumZ_nonneg. intros j Hj.
    destruct (_ && _ && _ && _); [|lra].
    apply Rmult_le_pos; [apply Hcol; exact Hj | apply eexp_nonneg]. }
  assert (H2 : 0 <= (if (0 <=? recombsrc matrix)%Z
                        && gt_neginf (recombrow matrix k)
                     then col1 (recombsrc matrix) * eexp (recombrow matrix k)
                     else 0)).
  { destruct (Z.leb_spec 0 (recombsrc matrix)); simpl; [|lra].
    destruct (gt_neginf (recombrow matrix k)); [|lra].
    apply Rmult_le_pos; [apply Hcol; lia | apply eexp_nonneg]. }
  assert (H3 : 0 <= (if (0 <=? recoalsrc matrix)%Z
                        && gt_neginf (recoalrow matrix k)
                     then col1 (recoalsrc matrix) * eexp (recoalrow matrix k)
                     else 0)).
  { destruct (Z.leb_spec 0 (recoalsrc matrix)); simpl; [|lra].
    destruct (gt_neginf (recoalrow matrix k)); [|lra].
    apply Rmult_le_pos; [apply Hcol; lia | apply eexp_nonneg]. }
  lra.
Qed.

(** what [arghmm_forward_switch] does, in terms of the unnormalised
    column of the specification *)
Lemma arghmm_forward_switch_cases (col1 col2 : arr R)
    (matrix : TransMatrixSwitch) (emit : arr R) :
  switch_sources_ok matrix ->
  nonneg_on (Z.max (nstates1 matrix) 1) col1 ->
  nonneg_on (Z.max (nstates2 matrix) 1) emit ->
  let n2 := Z.max (nstates2 matrix) 1 in
  let c := switch_column matrix col1 emit in
  (forall k, (0 <= k < n2)%Z -> 0 <= c k)
  /\ ((forall k, (0 <= k < n2)%Z -> c k = 0) ->
      arghmm_forward_switch col1 col2 matrix emit = None)
  /\ (~ (forall k, (0 <= k < n2)%Z -> c k = 0) ->
      0 < sumZ 0 n2 c
      /\ exists col2',
           arghmm_forward_switch col1 col2 matrix emit = Some col2'
           /\ forall k, (0 <= k < n2)%Z -> col2' k = c k / sumZ 0 n2 c).
Proof.
  intros Hok Hcol Hemit. cbv zeta.
  set (n2 := Z.max (nstates2 matrix) 1).
  set (c := switch_column matrix col1 emit).
  assert (Hc : forall k, (0 <= k < n2)%Z -> 0 <= c k).
  { intros k Hk. unfold c, switch_column.
    apply Rmult_le_pos; [apply switch_mass_nonneg; assumption|].
    apply Hemit. exact Hk. }
  split; [exact Hc|].
  unfold arghmm_forward_switch. fold n2.
  destruct (forward_switch_column_spec matrix col1 col2 emit)
    as [Hnorm Hval].
  specialize (Hval (proj1 Hok)). fold n2 in Hnorm, Hval. fold c in Hval.
  destruct (forward_switch_column col1 col2 matrix emit) as [u norm].
  cbn [fst snd] in Hnorm, Hval.
  assert (Hsum : norm = sumZ 0 n2 c).
  { rewrite Hnorm. apply sumZ_ext. exact Hval. }
  destruct (max_array_attained u n2) as [k0 [Hk0 Htop]].
  replace (Z.max n2 1) with n2 in Hk0 by (unfold n2; lia).
  split.
  - intros Hzero.
    destruct (Rle_dec (max_array u n2) 0) as [_|Hgt]; [reflexivity|].
    exfalso. apply Hgt. rewrite Htop, (Hval k0 Hk0), (Hzero k0 Hk0). lra.
  - intros Hnz.
    assert (Hpos : 0 < max_array u n2).
    { destruct (Rle_dec (max_array u n2) 0) as [Hle|Hgt]; [|lra].
      exfalso. apply Hnz. intros k Hk.
      pose proof (max_array_ge u n2 k ltac:(unfold n2 in *; lia)) as Hge.
      rewrite (Hval k Hk) in Hge. pose proof (Hc k Hk). lra. }
    assert (Hnpos : 0 < sumZ 0 n2 c).
    { pose proof (sumZ_ge_term 0 n2 k0 c Hc Hk0) as Hge.
      rewrite <- (Hval k0 Hk0), <- Htop in Hge. lra. }
    split; [exact Hnpos|].
    destruct (Rle_dec (max_array u n2) 0) as [Hle|_]; [lra|].
    eexists. split; [reflexivity|].
    intros k Hk. rewrite normalize_spec.
    replace ((0 <=? k) && (k <? n2))%Z with true by lia.
    rewrite (Hval k Hk), Hsum. reflexivity.
Qed.

(** X19. On probabilities the switch step yields a probability vector:
    when the source column and the emission row are non-negative and the
    indices of the operator are valid, a completed [arghmm_forward_switch]
    has found positive mass, and its column has entries between 0 and 1
    that sum to one over the [max(nstates2, 1)] destinations. *)
Theorem arghmm_forward_switch_distribution (col1 col2 : arr R)
    (matrix : TransMatrixSwitch) (emit col2' : arr R) :
  switch_sources_ok matrix ->
  nonneg_on (Z.max (nstates1 matrix) 1) col1 ->
  nonneg_on (Z.max (nstates2 matrix) 1) emit ->
  arghmm_forward_switch col1 col2 matrix emit = Some col2' ->
  let n2 := Z.max (nstates2 matrix) 1 in
  0 < snd (forward_switch_column col1 col2 matrix emit)
  /\ (forall k, (0 <= k < n2)%Z -> 0 <= col2' k <= 1)
  /\ sumZ 0 n2 col2' = 1.
Proof.
  intros Hok Hcol Hemit Hrun. cbv zeta.
  destruct (arghmm_forward_switch_cases col1 col2 matrix emit Hok Hcol Hemit)
    as [Hc [Hnone Hsome]].
  set (n2 := Z.max (nstates2 matrix) 1) in *.
  set (c := switch_column matrix col1 emit) in *.
  assert (Hnz : ~ (forall k, (0 <= k < n2)%Z -> c k = 0)).
  { intros Hz. rewrite (Hnone Hz) in Hrun. discriminate. }
  destruct (Hsome Hnz) as [Hpos [col2'' [Hrun' Hval]]].
  rewrite Hrun in Hrun'. injection Hrun' as <-.
  split; [|split].
  - destruct (forward_switch_column_spec matrix col1 col2 emit)
      as [Hnorm Hv].
    specialize (Hv (proj1 Hok)). fold n2 in Hnorm, Hv. rewrite Hnorm.
    rewrite (sumZ_ext 0 n2 _ c Hv). exact Hpos.
  - intros k Hk. rewrite (Hval k Hk).
    pose proof (Hc k Hk) as H0.
    pose proof (sumZ_ge_term 0 n2 k c Hc Hk) as H1.
    split.
    + apply Rmult_le_pos; [exact H0|]. left. apply Rinv_0_lt_compat.
      exact Hpos.
    + apply (Rmult_le_reg_r (sumZ 0 n2 c)); [exact Hpos|].
      unfold Rdiv. rewrite Rmult_assoc, Rinv_l by lra. lra.
  - rewrite (sumZ_ext 0 n2 col2' (fun k => / sumZ 0 n2 c * c k)).
    + rewrite sumZ_scal. apply Rinv_l. lra.
    + intros k Hk. rewrite (Hval k Hk). unfold Rdiv. lra.
Qed.

Lemma cross_switch_sources_ok : switch_sources_ok cross_switch.
Proof. split; [exact cross_switch_wf | simpl; lia]. Qed.

Lemma half_half_nonneg (n : Z) : nonneg_on n half_half.
Proof.
  intros k _. unfold half_half. destruct ((0 <=? k) && (k <? 2))%Z; lra.
Qed.

Lemma arghmm_forward_switch_distribution_witness :
  exists col2',
    arghmm_forward_switch half_half (fun _ => 7) cross_switch (fun _ => 1)
    = Some col2'
    /\ 0 < snd (forward_switch_column half_half (fun _ => 7) cross_switch
                                      (fun _ => 1))
    /\ (forall k, (0 <= k < Z.max (nstates2 cross_switch) 1)%Z ->
                  0 <= col2' k <= 1)
    /\ sumZ 0 (Z.max (nstates2 cross_switch) 1) col2' = 1.
Proof.
  destruct cross_switch_runs as [col2' Hrun].
  exists col2'. split; [exact Hrun|].
  apply (arghmm_forward_switch_distribution half_half (fun _ => 7)
           cross_switch (fun _ => 1) col2').
  - exact cross_switch_sources_ok.
  - apply half_half_nonneg.
  - intros k _. lra.
  - exact Hrun.
Defined.

Lemma switch_mass_zero (matrix : TransMatrixSwitch) (col1 : arr R) (k : Z) :
  switch_sources_ok matrix ->
  (forall j, (0 <= j < Z.max (nstates1 matrix) 1)%Z -> col1 j = 0) ->
  switch_mass matrix col1 k = 0.
Proof.
  intros [_ [Hrb Hrc]] Hz. unfold switch_mass.
  rewrite sumZ_zero.
  2:{ intros j Hj. destruct (_ && _ && _ && _); [|reflexivity].
      rewrite (Hz j Hj). lra. }
  destruct (Z.leb_spec 0 (recombsrc matrix)); simpl.
  - rewrite (Hz (recombsrc matrix)) by lia.
    destruct (Z.leb_spec 0 (recoalsrc matrix)); simpl.
    + rewrite (Hz (recoalsrc matrix)) by lia.
      destruct (gt_neginf _), (gt_neginf _); lra.
    + destruct (gt_neginf _); lra.
  - destruct (Z.leb_spec 0 (recoalsrc matrix)); simpl.
    + rewrite (Hz (recoalsrc matrix)) by lia.
      destruct (gt_neginf _); lra.
    + lra.
Qed.

(** X20. On probabilities the assertion of [arghmm_forward_switch] fails
    exactly when no mass crosses the switch: the call fails if and only if
    every entry of the unnormalised destination column is 0.  In
    particular it fails when the source column is 0 on all source states,
    and when the emission row is 0 on all destination states. *)
Theorem arghmm_forward_switch_fails_iff (col1 col2 : arr R)
    (matrix : TransMatrixSwitch) (emit : arr R) :
  switch_sources_ok matrix ->
  nonneg_on (Z.max (nstates1 matrix) 1) col1 ->
  nonneg_on (Z.max (nstates2 matrix) 1) emit ->
  let n1 := Z.max (nstates1 matrix) 1 in
  let n2 := Z.max (nstates2 matrix) 1 in
  (arghmm_forward_switch col1 col2 matrix emit = None
   <-> forall k, (0 <= k < n2)%Z -> switch_mass matrix col1 k * emit k = 0)
  /\ ((forall j, (0 <= j < n1)%Z -> col1 j = 0) ->
      arghmm_forward_switch col1 col2 matrix emit = None)
  /\ ((forall k, (0 <= k < n2)%Z -> emit k = 0) ->
      arghmm_forward_switch col1 col2 matrix emit = None).
Proof.
  intros Hok Hcol Hemit. cbv zeta.
  destruct (arghmm_forward_switch_cases col1 col2 matrix emit Hok Hcol Hemit)
    as [Hc [Hnone Hsome]].
  unfold switch_column in Hc, Hnone, Hsome.
  split; [split|split].
  - intros Hfail k Hk.
    destruct (Req_dec (switch_mass matrix col1 k * emit k) 0) as [Hz|Hnz];
      [exact Hz|].
    exfalso.
    destruct (Hsome (fun Hall => Hnz (Hall k Hk))) as [_ [c' [Hrun _]]].
    rewrite Hfail in Hrun. discriminate.
  - exact Hnone.
  - intros Hz. apply Hnone. intros k Hk.
    rewrite (switch_mass_zero matrix col1 k Hok Hz). lra.
  - intros Hz. apply Hnone. intros k Hk. rewrite (Hz k Hk). lra.
Qed.

Lemma arghmm_forward_switch_fails_iff_witness :
  arghmm_forward_switch (fun _ => 0) (fun _ => 7) cross_switch (fun _ => 1)
  = None.
Proof.
  refine (proj1 (proj2 (arghmm_forward_switch_fails_iff (fun _ => 0)
                          (fun _ => 7) cross_switch (fun _ => 1) _ _ _)) _).
  - exact cross_switch_sources_ok.
  - intros k _. lra.
  - intros k _. lra.
  - intros j _. reflexivity.
Defined.

(** ** The cells that the within-block recurrence writes *)

Lemma forward_block_column_frame `{Indet (arr R)} (T : block_tables)
    (ntimes : Z) (states : States) (emit2 col1 col2 : arr R) (k : Z) :
  ~ (0 <= k < size states)%Z ->
  fst (forward_block_column T ntimes states emit2 col1 col2) k = col2 k.
Proof.
  intros Hk. unfold forward_block_column.
  apply (for_up_inv (fun s : arr R * R => fst s k = col2 k));
    [reflexivity|].
  intros k0 [c norm] Hk0 Hc. cbn [fst] in *.
  rewrite upd_other by lia. exact Hc.
Qed.

Lemma forward_block_step_frame `{Indet (arr R)} (T : block_tables)
    (ntimes : Z) (states : States) (emit_i col1 col2 : arr R) (k : Z) :
  ~ (0 <= k < size states)%Z ->
  forward_block_step T ntimes states emit_i col1 col2 k = col2 k.
Proof.
  intros Hk. unfold forward_block_step. rewrite normalize_spec.
  replace ((0 <=? k) && (k <? size states))%Z with false by lia.
  apply forward_block_column_frame. exact Hk.
Qed.

(** X21. [arghmm_forward_block] writes only the columns
    [1 <= i < blocklen], and in them only the entries of the states (entry
    0 when a fully given internal block has no state): the first column,
    the columns from [blocklen] on and all other entries are unchanged, and
    a block of at most one column leaves the table as it was. *)
Theorem arghmm_forward_block_cells (ops : HmmOps) (IR : Indet (arr R))
    (IRR : Indet (arr (arr R))) (IZ : Indet (arr Z))
    (tree : LocalTree) (ntimes blocklen : Z) (states : States)
    (lineages : LineageCounts) (matrix : TransMatrix)
    (emit fw fw' : arr (arr R)) :
  arghmm_forward_block tree ntimes blocklen states lineages matrix emit fw
  = Some fw' ->
  (forall i k,
     ~ ((1 <= i < blocklen)%Z
        /\ if internal matrix && (size states =? 0)%Z then k = 0%Z
           else (0 <= k < size states)%Z) ->
     fw' i k = fw i k)
  /\ ((blocklen <= 1)%Z -> forall i k, fw' i k = fw i k).
Proof.
  intros Hrun.
  assert (Hmain : forall i k,
     ~ ((1 <= i < blocklen)%Z
        /\ if internal matrix && (size states =? 0)%Z then k = 0%Z
           else (0 <= k < size states)%Z) ->
     fw' i k = fw i k).
  { intros i k Hn.
    destruct (Z_le_gt_dec 1 i) as [Hlo|Hlo];
      [destruct (Z_lt_le_dec i blocklen) as [Hhi|Hhi]|].
    - destruct (internal matrix && (size states =? 0)%Z) eqn:Edeg.
      + rewrite (arghmm_forward_block_degenerate tree ntimes blocklen states
                   lineages matrix emit fw fw' Hrun Edeg i) by lia.
        apply upd_other. lia.
      + destruct (arghmm_forward_block_columns tree ntimes blocklen states
                    lineages matrix emit fw fw' Hrun Edeg) as [Hcol _].
        rewrite (Hcol i) by lia.
        apply forward_block_step_frame. lia.
    - rewrite (arghmm_forward_block_frame tree ntimes blocklen states
                 lineages matrix emit fw fw' i Hrun) by lia.
      reflexivity.
    - rewrite (arghmm_forward_block_frame tree ntimes blocklen states
                 lineages matrix emit fw fw' i Hrun) by lia.
      reflexivity. }
  split; [exact Hmain|].
  intros Hlen i k. apply Hmain. lia.
Qed.

(** X22. In the fully given case (internal threading, no state)
    [arghmm_forward_block] always completes and carries the single entry of
    the first column through the block: [fw[i][0] = fw[0][0]] for every
    column [0 <= i < blocklen]. *)
Theorem arghmm_forward_block_fully_given (ops : HmmOps) (IR : Indet (arr R))
    (IRR : Indet (arr (arr R))) (IZ : Indet (arr Z))
    (tree : LocalTree) (ntimes blocklen : Z) (states : States)
    (lineages : LineageCounts) (matrix : TransMatrix)
    (emit fw : arr (arr R)) :
  internal matrix = true -> states = [] ->
  exists fw',
    arghmm_forward_block tree ntimes blocklen states lineages matrix emit fw
    = Some fw'
    /\ forall i, (0 <= i < blocklen)%Z -> fw' i 0%Z = fw 0%Z 0%Z.
Proof.
  intros Hint ->.
  assert (Hdeg : internal matrix && (size [] =? 0)%Z = true)
    by (rewrite Hint; reflexivity).
  destruct (arghmm_forward_block tree ntimes blocklen [] lineages matrix
              emit fw) as [fw'|] eqn:Hrun.
  2:{ unfold arghmm_forward_block in Hrun. rewrite Hdeg in Hrun.
      discriminate. }
  exists fw'. split; [reflexivity|].
  intros i Hi. destruct Hi as [Hlo Hhi]. revert Hhi.
  apply (Zup_ind (fun i => (i < blocklen)%Z -> fw' i 0%Z = fw 0%Z 0%Z) 0);
    [| |exact Hlo].
  - intros _.
    rewrite (arghmm_forward_block_frame tree ntimes blocklen [] lineages
               matrix emit fw fw' 0 Hrun) by lia.
    reflexivity.
  - intros j Hj IH Hlt.
    rewrite (arghmm_forward_block_degenerate tree ntimes blocklen []
               lineages matrix emit fw fw' Hrun Hdeg (j + 1)) by lia.
    rewrite upd_same. replace (j + 1 - 1)%Z with j by lia.
    apply IH. lia.
Qed.

Lemma arghmm_forward_block_cells_witness :
  exists fw',
    @arghmm_forward_block toy_hmm zero_R zero_RR zero_Z leaf_tree 2 2
      (enum_states leaf_tree 2) tt (toy_matrix 1) (fun _ _ => 1)
      (fun _ => one_hot_0) = Some fw'
    /\ (forall i k,
          ~ ((1 <= i < 2)%Z
             /\ if internal (toy_matrix 1)
                   && (size (enum_states leaf_tree 2) =? 0)%Z
                then k = 0%Z
                else (0 <= k < size (enum_states leaf_tree 2))%Z) ->
          fw' i k = one_hot_0 k)
    /\ ((2 <= 1)%Z -> forall i k, fw' i k = one_hot_0 k).
Proof.
  destruct toy_block_runs as [fw' Hrun]. exists fw'.
  split; [exact Hrun|].
  exact (arghmm_forward_block_cells toy_hmm zero_R zero_RR zero_Z leaf_tree
           2 2 (enum_states leaf_tree 2) tt (toy_matrix 1) (fun _ _ => 1)
           (fun _ => one_hot_0) fw' Hrun).
Defined.

Lemma arghmm_forward_block_fully_given_witness :
  exists fw',
    @arghmm_forward_block toy_hmm zero_R zero_RR zero_Z (cherry_tree 1) 2 3
      [] tt given_matrix (fun _ _ => 1) (fun _ => one_hot_0) = Some fw'
    /\ forall i, (0 <= i < 3)%Z -> fw' i 0%Z = one_hot_0 0%Z.
Proof.
  apply (arghmm_forward_block_fully_given toy_hmm zero_R zero_RR zero_Z
           (cherry_tree 1) 2 3 [] tt given_matrix (fun _ _ => 1)
           (fun _ => one_hot_0)); reflexivity.
Defined.

(** ** Normalisation makes the recurrence insensitive to scale *)

Lemma full_entry_scale (tree : LocalTree) (states : States)
    (matrix : TransMatrix) (emit_i col col' : arr R) (c : R) (k : Z) :
  (forall j, (0 <= j < size states)%Z -> col' j = c * col j) ->
  full_entry tree states matrix emit_i col' k
  = c * full_entry tree states matrix emit_i col k.
Proof.
  intros Hscale. unfold full_entry.
  rewrite (sumZ_ext 0 (size states) _
             (fun j => c * (col j * get matrix tree states j k))).
  - rewrite sumZ_scal. lra.
  - intros j Hj. rewrite (Hscale j Hj). lra.
Qed.

Lemma normalized_entry_scale (tree : LocalTree) (states : States)
    (matrix : TransMatrix) (emit_i col col' : arr R) (c : R) (k : Z) :
  c <> 0 ->
  sumZ 0 (size states) (full_entry tree states matrix emit_i col) <> 0 ->
  (forall j, (0 <= j < size states)%Z -> col' j = c * col j) ->
  full_entry tree states matrix emit_i col' k
  / sumZ 0 (size states) (full_entry tree states matrix emit_i col')
  = full_entry tree states matrix emit_i col k
    / sumZ 0 (size states) (full_entry tree states matrix emit_i col).
Proof.
  intros Hc Hnorm Hscale.
  rewrite (full_entry_scale tree states matrix emit_i col col' c k Hscale).
  rewrite (sumZ_ext 0 (size states)
             (full_entry tree states matrix emit_i col')
             (fun k => c * full_entry tree states matrix emit_i col k))
    by (intros k' _; apply full_entry_scale; exact Hscale).
  rewrite sumZ_scal. field. split; assumption.
Qed.

(** X23. Because every column is normalised, the forward recurrence within
    a block does not depend on the scale of its first column: when the
    transition operator is in factored form over branch-wise enumerated
    states and no column has zero mass, multiplying the first column by a
    non-zero factor leaves every later column of [arghmm_forward_block]
    unchanged. *)
Theorem forward_block_scale_invariant (ops : HmmOps) (IR : Indet (arr R))
    (IRR : Indet (arr (arr R))) (IZ : Indet (arr Z))
    (tree : LocalTree) (ntimes blocklen : Z) (states : States)
    (lineages : LineageCounts) (matrix : TransMatrix)
    (emit fw1 fw2 fw1' : arr (arr R)) (c : R) :
  matrix_factored tree states matrix ->
  states_enumerated tree ntimes states matrix ->
  c <> 0 ->
  (forall k, (0 <= k < size states)%Z -> fw2 0%Z k = c * fw1 0%Z k) ->
  arghmm_forward_block tree ntimes blocklen states lineages matrix emit fw1
  = Some fw1' ->
  (forall i, (1 <= i < blocklen)%Z ->
     sumZ 0 (size states)
          (full_entry tree states matrix (emit i) (fw1' (i - 1)%Z)) <> 0) ->
  exists fw2',
    arghmm_forward_block tree ntimes blocklen states lineages matrix emit fw2
    = Some fw2'
    /\ forall i k, (1 <= i < blocklen)%Z -> (0 <= k < size states)%Z ->
         fw2' i k = fw1' i k.
Proof.
  intros Hfact Henum Hc Hscale Hrun1 Hnorm.
  destruct (arghmm_forward_block tree ntimes blocklen states lineages matrix
              emit fw2) as [fw2'|] eqn:Hrun2.
  2:{ exfalso. unfold arghmm_forward_block in Hrun1, Hrun2.
      destruct (internal matrix && (size states =? 0)%Z); [discriminate|].
      destruct (block_assert_fails _ _ _); discriminate. }
  exists fw2'. split; [reflexivity|].
  intros i k Hi Hk.
  destruct (internal matrix && (size states =? 0)%Z) eqn:Edeg.
  { apply andb_prop in Edeg. destruct Edeg as [_ Esz].
    apply Z.eqb_eq in Esz. lia. }
  destruct (arghmm_forward_block_columns tree ntimes blocklen states lineages
              matrix emit fw1 fw1' Hrun1 Edeg) as [Hcol1 Hfr1].
  destruct (arghmm_forward_block_columns tree ntimes blocklen states lineages
              matrix emit fw2 fw2' Hrun2 Edeg) as [Hcol2 Hfr2].
  destruct Hi as [Hlo Hhi]. revert k Hk Hhi.
  apply (Zup_ind
           (fun i => forall k, (0 <= k < size states)%Z ->
                               (i < blocklen)%Z -> fw2' i k = fw1' i k) 1);
    [| |exact Hlo].
  - intros k Hk Hhi.
    rewrite (Hcol1 1%Z) by lia. rewrite (Hcol2 1%Z) by lia.
    rewrite !forward_block_step_value by assumption.
    apply (normalized_entry_scale tree states matrix (emit 1%Z) _ _ c k Hc).
    + apply Hnorm. lia.
    + intros j Hj. change (1 - 1)%Z with 0%Z.
      rewrite (Hfr1 0%Z) by lia. rewrite (Hfr2 0%Z) by lia.
      apply Hscale. exact Hj.
  - intros j Hj IH k Hk Hhi.
    rewrite (Hcol1 (j + 1)%Z) by lia. rewrite (Hcol2 (j + 1)%Z) by lia.
    rewrite !forward_block_step_value by assumption.
    replace (j + 1 - 1)%Z with j by lia.
    assert (Hext : forall k',
      full_entry tree states matrix (emit (j + 1)%Z) (fw2' j) k'
      = full_entry tree states matrix (emit (j + 1)%Z) (fw1' j) k').
    { intros k'. apply full_entry_ext. intros j0 Hj0. apply IH; [exact Hj0|].
      lia. }
    rewrite Hext.
    rewrite (sumZ_ext 0 (size states)
               (full_entry tree states matrix (emit (j + 1)%Z) (fw2' j))
               (full_entry tree states matrix (emit (j + 1)%Z) (fw1' j)))
      by (intros k' _; apply Hext).
    reflexivity.
Qed.

Lemma forward_block_scale_invariant_witness :
  exists fw1' fw2',
    @arghmm_forward_block toy_hmm zero_R zero_RR zero_Z leaf_tree 2 2
      (enum_states leaf_tree 2) tt (toy_matrix 1) (fun _ _ => 1)
      (fun _ => one_hot_0) = Some fw1'
    /\ @arghmm_forward_block toy_hmm zero_R zero_RR zero_Z leaf_tree 2 2
         (enum_states leaf_tree 2) tt (toy_matrix 1) (fun _ _ => 1)
         (fun _ k => 2 * one_hot_0 k) = Some fw2'
    /\ forall i k, (1 <= i < 2)%Z ->
         (0 <= k < size (enum_states leaf_tree 2))%Z ->
         fw2' i k = fw1' i k.
Proof.
  destruct toy_block_runs as [fw1' Hrun]. exists fw1'.
  destruct (forward_block_scale_invariant toy_hmm zero_R zero_RR zero_Z
              leaf_tree 2 2 (enum_states leaf_tree 2) tt (toy_matrix 1)
              (fun _ _ => 1) (fun _ => one_hot_0)
              (fun _ k => 2 * one_hot_0 k) fw1' 2) as [fw2' [Hrun2 Heq]].
  - apply toy_matrix_factored.
  - exact leaf_states_enumerated.
  - lra.
  - intros k _. reflexivity.
  - exact Hrun.
  - intros i Hi. assert (i = 1%Z) by lia. subst i.
    rewrite (@arghmm_forward_block_frame toy_hmm zero_R zero_RR zero_Z
               leaf_tree 2 2 (enum_states leaf_tree 2) tt (toy_matrix 1)
               (fun _ _ => 1) (fun _ => one_hot_0) fw1' (1 - 1)%Z Hrun)
      by lia.
    change (size (enum_states leaf_tree 2)) with 1%Z.
    rewrite sumZ_one. unfold full_entry.
    change (size (enum_states leaf_tree 2)) with 1%Z.
    rewrite sumZ_one. unfold one_hot_0. simpl. lra.
  - exists fw2'. split; [exact Hrun | split; [exact Hrun2 | exact Heq]].
Defined.

(** ** The forward pass with the full matrices *)





(** ** Ancestral sequences by parsimony *)

Lemma first_base_is_base `{SeqOps} (s : Z) : is_base (first_base s).
Proof.
  unfold first_base.
  destruct (negb (Z.land s 1 =? 0)%Z); [exists 0%Z; split; [lia|reflexivity]|].
  destruct (negb (Z.land s 2 =? 0)%Z); [exists 1%Z; split; [lia|reflexivity]|].
  destruct (negb (Z.land s 4 =? 0)%Z); [exists 2%Z; split; [lia|reflexivity]|].
  exists 3%Z. split; [lia | reflexivity].
Qed.

Lemma first_base_single `{SeqOps} (d : Z) :
  (0 <= d < 4)%Z -> first_base (Z.shiftl 1 d) = int2dna d.
Proof.
  intros Hd.
  assert (Hcases : d = 0%Z \/ d = 1%Z \/ d = 2%Z \/ d = 3%Z) by lia.
  destruct Hcases as [-> | [-> | [-> | ->]]]; reflexivity.
Qed.

(** the character that the traceback gives a node with set [s], when the
    parent holds [pchar] *)
Lemma traceback_choice `{TreeOps} `{SeqOps} (anc : arr ascii)
    (node s : Z) (pchar : ascii) :
  is_base pchar ->
  let anc' :=
    if (s =? 1)%Z then upd anc node (int2dna 0)
    else if (s =? 2)%Z then upd anc node (int2dna 1)
    else if (s =? 4)%Z then upd anc node (int2dna 2)
    else if (s =? 8)%Z then upd anc node (int2dna 3)
    else if negb (Z.land (dna2int pchar) s =? 0)%Z then upd anc node pchar
         else upd anc node (first_base s) in
  is_base (anc' node)
  /\ (forall d, (0 <= d < 4)%Z -> s = Z.shiftl 1 d -> anc' node = int2dna d)
  /\ (forall n, n <> node -> anc' n = anc n).
Proof.
  intros Hp. cbv zeta.
  assert (Hb : forall d, (0 <= d < 4)%Z -> is_base (int2dna d))
    by (intros d Hd; exists d; split; [exact Hd | reflexivity]).
  split; [|split].
  - repeat match goal with
           | |- context [if ?b then _ else _] => destruct b
           end; rewrite upd_same;
      try (apply Hb; lia); try exact Hp; apply first_base_is_base.
  - intros d Hd ->.
    assert (Hcases : d = 0%Z \/ d = 1%Z \/ d = 2%Z \/ d = 3%Z) by lia.
    destruct Hcases as [-> | [-> | [-> | ->]]]; cbn; apply upd_same.
  - intros n Hn.
    repeat match goal with
           | |- context [if ?b then _ else _] => destruct b
           end; apply upd_other; exact Hn.
Qed.

Lemma parsimony_ancestral_seq_spec `{TreeOps} `{SeqOps} `{Indet (arr Z)}
    (tree : LocalTree) (seqs : Seqs) (nseqs pos : Z) (ancestral : arr ascii)
    (postorder : option (arr Z)) :
  let order := match postorder with
               | Some postorder => postorder
               | None => get_postorder tree
               end in
  (1 <= nnodes tree)%Z ->
  parents_later tree order ->
  leaves_known tree order seqs pos ->
  exists anc',
    parsimony_ancestral_seq tree seqs nseqs pos ancestral postorder
    = Some anc'
    /\ (forall i, (0 <= i < nnodes tree)%Z -> is_base (anc' (order i)))
    /\ (forall i, (0 <= i < nnodes tree)%Z ->
          is_leaf (nodes tree (order i)) = true ->
          is_N (seqs (order i) pos) = false ->
          anc' (order i) = int2dna (dna2int (seqs (order i) pos)))
    /\ (forall n, (forall i, (0 <= i < nnodes tree)%Z -> order i <> n) ->
          anc' n = ancestral n).
Proof.
  cbv zeta. intros Hn Hpar Hknown. unfold parsimony_ancestral_seq.
  set (order := match postorder with
                | Some postorder => postorder
                | None => get_postorder tree
                end) in *.
  (* the sets of the leaves *)
  pose (P := fun (i : Z) (acc : option (arr Z)) =>
    exists sets, acc = Some sets
      /\ forall i', (0 <= i' < i)%Z ->
           is_leaf (nodes tree (order i')) = true ->
           is_N (seqs (order i') pos) = false ->
           sets (order i') = Z.shiftl 1 (dna2int (seqs (order i') pos))).
  match goal with
  | |- context [for_up 0 (nnodes tree) ?b (Some ?s0)] =>
      set (X := for_up 0 (nnodes tree) b (Some s0))
  end.
  assert (Hsets : P (nnodes tree) X).
  { subst X. apply (for_up_ind P); [lia | |].
    - eexists. split; [reflexivity|]. intros i' Hi'. lia.
    - intros i acc Hi [sets [-> Hprev]]. unfold P. cbv beta iota zeta.
      destruct (is_leaf (nodes tree (order i))) eqn:Hleaf.
      + destruct (is_N (seqs (order i) pos)) eqn:EN.
        * eexists. split; [reflexivity|].
          intros i' Hi' Hl' HN'.
          destruct (Z.eq_dec (order i') (order i)) as [Heq|Hne].
          -- rewrite Heq in HN'. congruence.
          -- assert (i' <> i) by congruence.
             rewrite upd_other by assumption. apply Hprev; (lia || assumption).
        * destruct (Hknown i Hi Hleaf) as [HN|Hd]; [congruence|].
          replace ((0 <=? dna2int (seqs (order i) pos))
                   && (dna2int (seqs (order i) pos) <? 4))%Z
            with true by lia.
          eexists. split; [reflexivity|].
          intros i' Hi' Hl' HN'.
          destruct (Z.eq_dec (order i') (order i)) as [Heq|Hne].
          -- rewrite Heq. apply upd_same.
          -- assert (i' <> i) by congruence.
             rewrite upd_other by assumption. apply Hprev; (lia || assumption).
      + assert (Hkeep : forall v i', (0 <= i' < i + 1)%Z ->
          is_leaf (nodes tree (order i')) = true ->
          is_N (seqs (order i') pos) = false ->
          upd sets (order i) v (order i')
          = Z.shiftl 1 (dna2int (seqs (order i') pos))).
        { intros v i' Hi' Hl' HN'.
          destruct (Z.eq_dec (order i') (order i)) as [Heq|Hne].
          - rewrite Heq in Hl'. congruence.
          - assert (i' <> i) by congruence.
            rewrite upd_other by assumption. apply Hprev; (lia || assumption). }
        destruct (_ >? 0)%Z; eexists; (split; [reflexivity | apply Hkeep]). }
  destruct Hsets as [sets [-> Hleafset]].
  eexists. split; [reflexivity|].
  (* the traceback *)
  set (root := order (nnodes tree - 1)%Z).
  pose (Q := fun (i : Z) (anc : arr ascii) =>
    (forall i', (i <= i' < nnodes tree)%Z ->
       is_base (anc (order i'))
       /\ (is_leaf (nodes tree (order i')) = true ->
           is_N (seqs (order i') pos) = false ->
           anc (order i') = int2dna (dna2int (seqs (order i') pos))))
    /\ (forall n, (forall i', (0 <= i' < nnodes tree)%Z -> order i' <> n) ->
          anc n = ancestral n)).
  match goal with
  | |- context [for_down 0 (nnodes tree - 1) ?b ?s0] =>
      set (Y := for_down 0 (nnodes tree - 1) b s0)
  end.
  assert (Hinv : Q 0%Z Y).
  { subst Y. apply (for_down_ind Q); [lia | |].
    - split.
      + intros i' Hi'. assert (i' = nnodes tree - 1)%Z by lia. subst i'.
        fold root. rewrite upd_same. split; [apply first_base_is_base|].
        intros Hl HN. unfold root in *.
        rewrite (Hleafset (nnodes tree - 1)%Z ltac:(lia) Hl HN).
        apply first_base_single.
        destruct (Hknown (nnodes tree - 1)%Z ltac:(lia) Hl) as [HN'|Hd];
          [congruence | exact Hd].
      + intros n Hnot. apply upd_other. apply not_eq_sym. apply Hnot. lia.
    - intros i anc Hi [Hdone Hframe].
      destruct (Hpar i ltac:(lia)) as [ip [Hip Hparent]].
      destruct (Hdone ip ltac:(lia)) as [Hpbase _].
      rewrite Hparent in Hpbase.
      destruct (traceback_choice anc (order i) (sets (order i))
                  (anc (parent (nodes tree (order i)))) Hpbase)
        as [Hbase [Hsingle Hother]].
      split.
      + intros i' Hi'.
        destruct (Z.eq_dec (order i') (order i)) as [Heq|Hne].
        * rewrite Heq. split; [exact Hbase|].
          intros Hl HN.
          assert (Hi0 : (0 <= i < nnodes tree)%Z) by lia.
          destruct (Hknown i Hi0 Hl) as [HN'|Hd]; [congruence|].
          apply (Hsingle _ Hd). apply Hleafset; assumption.
        * assert (i' <> i) by congruence.
          rewrite (Hother _ Hne). apply Hdone. lia.
      + intros n Hnot. rewrite Hother by (apply not_eq_sym, Hnot; lia).
        apply Hframe. exact Hnot. }
  destruct Hinv as [Hdone Hframe].
  split; [|split].
  - intros i Hi. apply Hdone. lia.
  - intros i Hi. apply Hdone. lia.
  - exact Hframe.
Qed.

(** X25. [parsimony_ancestral_seq] completes when the listed leaves carry
    bases or [N], and then every listed node holds one of the four bases
    of [int2dna], every listed leaf with a base holds its own base (as
    [int2dna] spells it), and the cells of nodes that are not listed are
    unchanged.  The postorder (given, or the tree's when the pointer is
    null) is assumed to list the parent of every node but the last after
    the node. *)
Theorem parsimony_ancestral_seq_bases (ops : TreeOps) (sops : SeqOps)
    (IZ : Indet (arr Z)) (tree : LocalTree) (seqs : Seqs) (nseqs pos : Z)
    (ancestral : arr ascii) (postorder : option (arr Z)) :
  let order := match postorder with
               | Some postorder => postorder
               | None => get_postorder tree
               end in
  (1 <= nnodes tree)%Z ->
  parents_later tree order ->
  leaves_known tree order seqs pos ->
  exists anc',
    parsimony_ancestral_seq tree seqs nseqs pos ancestral postorder
    = Some anc'
    /\ (forall i, (0 <= i < nnodes tree)%Z ->
          exists d, (0 <= d < 4)%Z /\ anc' (order i) = int2dna d)
    /\ (forall i, (0 <= i < nnodes tree)%Z ->
          is_leaf (nodes tree (order i)) = true ->
          is_N (seqs (order i) pos) = false ->
          anc' (order i) = int2dna (dna2int (seqs (order i) pos)))
    /\ (forall n, (forall i, (0 <= i < nnodes tree)%Z -> order i <> n) ->
          anc' n = ancestral n).
Proof.
  exact (parsimony_ancestral_seq_spec tree seqs nseqs pos ancestral
           postorder).
Qed.

Lemma parsimony_ancestral_seq_bases_witness :
  exists anc',
    @parsimony_ancestral_seq leaf_ops acgt zero_Z (cherry_tree 1) seqs_AC
      2 0 (fun _ => " "%char) None = Some anc'
    /\ (forall i, (0 <= i < 3)%Z ->
          exists d, (0 <= d < 4)%Z /\ anc' i = @int2dna acgt d)
    /\ (forall i, (0 <= i < 3)%Z ->
          @is_leaf leaf_ops (nodes (cherry_tree 1) i) = true ->
          is_N (seqs_AC i 0%Z) = false ->
          anc' i = @int2dna acgt (@dna2int leaf_ops (seqs_AC i 0%Z)))
    /\ (forall n, (forall i, (0 <= i < 3)%Z -> i <> n) ->
          anc' n = " "%char).
Proof.
  apply (parsimony_ancestral_seq_bases leaf_ops acgt zero_Z (cherry_tree 1)
           seqs_AC 2 0 (fun _ => " "%char) None).
  - simpl. lia.
  - intros i Hi. exists 2%Z.
    change (nnodes (cherry_tree 1)) with 3%Z in *.
    split; [lia|]. cbn.
    destruct (Z.eqb_spec i 2); [lia | reflexivity].
  - intros i _ _. right. unfold seqs_AC. cbn.
    destruct (i =? 0)%Z; cbn; lia.
Defined.

(** ** The columns that the forward pass writes *)

Lemma forward_alg_block_frame `{HmmOps} `{Indet (arr R)}
    `{Indet (arr (arr R))} `{Indet (arr Z)}
    (trees : LocalTrees) (model : ArgModel) (blk : Block)
    (fw fw' : arr (arr R)) (prior_given internal_ slow : bool) (p : Z) :
  forward_alg_block trees model blk fw prior_given internal_ slow
  = Some fw' ->
  p <> block_start blk ->
  ~ (block_start blk <= p < block_start blk + blocklen blk)%Z ->
  fw' p = fw p.
Proof.
  intros Hrun Hp0 Hp. unfold forward_alg_block in Hrun.
  set (pos := block_start blk) in *.
  set (fw0 := if (pos >? start_coord trees)%Z || negb prior_given
              then new_block fw pos (pos + blocklen blk)%Z (mat_nstates2 blk)
              else fw) in *.
  assert (Hfw0 : fw0 p = fw p).
  { unfold fw0. destruct (_ || _); [|reflexivity].
    rewrite new_block_spec.
    replace ((pos <=? p) && (p <? pos + blocklen blk))%Z with false by lia.
    reflexivity. }
  destruct (forward_first_column _ _ _ _ _ _ _ _) as [c|] eqn:Hfirst;
    [|discriminate].
  assert (Hc : call_fw c p = fw0 p
               /\ ((call_off c = pos /\ call_blocklen c = blocklen blk)
                   \/ (call_off c = (pos - 1)%Z
                       /\ call_blocklen c = (blocklen blk + 1)%Z))).
  { unfold forward_first_column in Hfirst. fold pos in Hfirst.
    destruct (pos =? start_coord trees)%Z.
    - destruct (negb prior_given); injection Hfirst as <-; simpl.
      + split; [apply upd_other; lia | left; split; reflexivity].
      + split; [reflexivity | left; split; reflexivity].
    - destruct (transmat_switch blk) as [sw|].
      + destruct (arghmm_forward_switch _ _ _ _) as [col2|]; [|discriminate].
        injection Hfirst as <-. simpl.
        split; [apply upd_other; lia | left; split; reflexivity].
      + injection Hfirst as <-. simpl.
        split; [reflexivity | right; split; reflexivity]. }
  destruct Hc as [Hcp Hoff].
  destruct (Rle_dec _ 0); [discriminate|].
  assert (Hblock : forall fwb,
    (if slow then
       Some (arghmm_forward_block_slow (block_tree blk) (ntimes model)
               (call_blocklen c)
               (get_coal_states (block_tree blk) (ntimes model) internal_)
               (count_lineages (block_tree blk) internal_) (transmat blk)
               (call_emit c) (shift (call_off c) (call_fw c)))
     else
       arghmm_forward_block (block_tree blk) (ntimes model)
         (call_blocklen c)
         (get_coal_states (block_tree blk) (ntimes model) internal_)
         (count_lineages (block_tree blk) internal_) (transmat blk)
         (call_emit c) (shift (call_off c) (call_fw c))) = Some fwb ->
    unshift (call_off c) fwb p = call_fw c p).
  { intros fwb Hb. unfold unshift.
    assert (Hout : ~ (1 <= p - call_off c < call_blocklen c)%Z)
      by (destruct Hoff as [[-> ->] | [-> ->]]; lia).
    destruct slow.
    - injection Hb as <-.
      destruct (arghmm_forward_block_slow_columns (block_tree blk)
                  (ntimes model) (call_blocklen c)
                  (get_coal_states (block_tree blk) (ntimes model) internal_)
                  (count_lineages (block_tree blk) internal_) (transmat blk)
                  (call_emit c) (shift (call_off c) (call_fw c)))
        as [_ Hfr].
      rewrite Hfr by exact Hout. unfold shift. f_equal. lia.
    - rewrite (arghmm_forward_block_frame _ _ _ _ _ _ _ _ _ _ Hb Hout).
      unfold shift. f_equal. lia. }
  destruct (if slow then _ else _) as [fwb|] eqn:Hb; [|discriminate].
  destruct (Rle_dec _ 0); [discriminate|].
  injection Hrun as <-.
  rewrite (Hblock fwb eq_refl), Hcp. exact Hfw0.
Qed.

(** X26. [arghmm_forward_alg] writes only the columns of the sites of its
    blocks: a column of a site that is no block's first site and lies in
    no block [block_start <= p < block_start + blocklen] is the same after
    a completed pass, whatever the flags; an iterator without blocks
    returns the table as it was. *)
Theorem arghmm_forward_alg_frame (ops : HmmOps) (IR : Indet (arr R))
    (IRR : Indet (arr (arr R))) (IZ : Indet (arr Z))
    (trees : LocalTrees) (model : ArgModel) (sequences : option Sequences)
    (matrix_iter : list Block) (fw fw' : arr (arr R))
    (prior_given internal_ slow : bool) :
  arghmm_forward_alg trees model sequences matrix_iter fw prior_given
                     internal_ slow = Some fw' ->
  (forall p,
     Forall (fun blk =>
               p <> block_start blk
               /\ ~ (block_start blk <= p
                     < block_start blk + blocklen blk)%Z)
            matrix_iter ->
     fw' p = fw p)
  /\ (matrix_iter = [] -> fw' = fw).
Proof.
  intros Hrun. split.
  - intros p Hall. unfold arghmm_forward_alg in Hrun.
    revert fw Hrun.
    induction Hall as [|blk rest Hblk _ IH]; intros fw Hrun.
    + simpl in Hrun. injection Hrun as <-. reflexivity.
    + cbn [fold_left] in Hrun.
      destruct (forward_alg_block trees model blk fw prior_given internal_
                  slow) as [fw1|] eqn:Hone.
      * rewrite (IH fw1 Hrun).
        apply (forward_alg_block_frame trees model blk fw fw1 prior_given
                 internal_ slow p Hone (proj1 Hblk) (proj2 Hblk)).
      * rewrite (fold_option_none
                   (fun fw blk =>
                      forward_alg_block trees model blk fw prior_given
                                        internal_ slow)) in Hrun.
        discriminate.
  - intros ->. simpl in Hrun. injection Hrun as <-. reflexivity.
Qed.

Lemma arghmm_forward_alg_frame_witness :
  (forall p,
     Forall (fun blk =>
               p <> block_start blk
               /\ ~ (block_start blk <= p
                     < block_start blk + blocklen blk)%Z)
            [toy_block 0 1 None] ->
     unshift 0 (shift 0 (fun _ : Z => one_hot_0)) p = one_hot_0)
  /\ ([toy_block 0 1 None] = [] ->
      unshift 0 (shift 0 (fun _ : Z => one_hot_0)) = (fun _ => one_hot_0)).
Proof.
  apply (arghmm_forward_alg_frame toy_hmm zero_R zero_RR zero_Z
           (0%Z, 1%Z) tiny_model (Some tt) [toy_block 0 1 None]
           (fun _ => one_hot_0) _ true false false).
  apply toy_first_block_runs. unfold one_hot_0. simpl. lra.
Defined.

Lemma stochastic_traceback_keeps_given `{HmmOps} `{Indet (arr R)}
    (trees : LocalTrees) (model : ArgModel) (matrix_iter : list Block)
    (fw : arr (arr R)) (path : arr Z) (internal_ : bool) (rng : Rng)
    (lnl : ereal) (path' : arr Z) (rng' : Rng) :
  Forall (fun b => (1 <= blocklen b)%Z) matrix_iter ->
  stochastic_traceback trees model matrix_iter fw path true internal_ rng
  = Some (lnl, path', rng') ->
  path' (end_coord trees - 1)%Z = path (end_coord trees - 1)%Z.
Proof.
  intros Hlen Htrace.
  unfold stochastic_traceback in Htrace. cbn [negb] in Htrace.
  match type of Htrace with
  | option_map _ ?X = _ => destruct X as [s'|] eqn:Hfold; [|discriminate]
  end.
  simpl in Htrace. injection Htrace as _ <- _.
  assert (Hrev : Forall (fun b => (1 <= blocklen b)%Z) (rev matrix_iter)).
  { apply Forall_forall. intros b Hb. apply In_rev in Hb.
    revert b Hb. apply Forall_forall. exact Hlen. }
  rewrite (traceback_fold_frame trees model fw internal_ _ Hrev _ s' Hfold)
    by (simpl; lia).
  reflexivity.
Qed.

(** X27. When [sample_arg_thread] completes, the thread path that it
    hands to [add_arg_thread] holds a state index at every site of the
    region.  The blocks of the second matrix iterator are assumed to tile
    the region, each with at least one site, and the sampler to return
    indices of its weight array. *)
Theorem sample_arg_thread_path_complete (ops : HmmOps) (tops : ThreadOps)
    (IR : Indet (arr R)) (IRR : Indet (arr (arr R))) (IZ : Indet (arr Z))
    (model : ArgModel) (sequences : Sequences) (trees : LocalTrees)
    (new_chrom : Z) (rng : Rng) :
  let matrix_iter2 :=
    matrix_iter_setup model None trees (Some new_chrom) false in
  sampler_ok ->
  Forall (fun b => (1 <= blocklen b)%Z) matrix_iter2 ->
  blocks_len matrix_iter2 = (end_coord trees - start_coord trees)%Z ->
  forall trees' fw path,
    sample_arg_thread model sequences trees new_chrom rng
    = Some (trees', fw, path) ->
    (forall p, (start_coord trees <= p < end_coord trees)%Z ->
               (0 <= path p)%Z)
    /\ (exists rng',
          trees' = add_arg_thread trees (ntimes model) path new_chrom
                     (sample_recombinations trees model matrix_iter2 path
                                            rng')).
Proof.
  intros matrix_iter2 Hsample Hlen Hsum trees' fw path Hrun.
  unfold sample_arg_thread in Hrun. fold matrix_iter2 in Hrun.
  destruct (arghmm_forward_alg _ _ _ _ _ _ _ _) as [fw1|]; [|discriminate].
  destruct (stochastic_traceback trees model matrix_iter2 fw1 indet false
              false rng) as [[[lnl p1] rng1]|] eqn:Htrace; [|discriminate].
  injection Hrun as <- <- <-.
  destruct (stochastic_traceback_covers_spec ops IR trees model matrix_iter2
              fw1 indet false false rng lnl p1 rng1 Hsample Hlen Hsum
              ltac:(discriminate) Htrace) as [Hcov _].
  split; [exact Hcov|]. exists rng1. reflexivity.
Qed.

(** ** The path conversion of the posterior sampler *)

Lemma convert_block_spec (states : States) (ipath : arr Z) (start end_ : Z)
    (path path' : arr (Z * Z)) :
  for_up start end_
    (fun i acc =>
       match acc with
       | None => None
       | Some path =>
           let istate := ipath i in
           if ((0 <=? istate) && (istate <? size states))%Z then
             Some (upd path i (node (st states istate),
                               time (st states istate)))
           else None
       end)
    (Some path) = Some path' ->
  (forall i, (start <= i < end_)%Z ->
     (0 <= ipath i < size states)%Z
     /\ path' i = (node (st states (ipath i)), time (st states (ipath i))))
  /\ (forall i, ~ (start <= i < end_)%Z -> path' i = path i).
Proof.
  intros Hrun.
  set (body := fun (i : Z) (acc : option (arr (Z * Z))) =>
       match acc with
       | None => None
       | Some path =>
           let istate := ipath i in
           if ((0 <=? istate) && (istate <? size states))%Z then
             Some (upd path i (node (st states istate),
                               time (st states istate)))
           else None
       end) in *.
  pose (P := fun (k : Z) (acc : option (arr (Z * Z))) =>
    match acc with
    | None => True
    | Some p =>
        (forall i, (start <= i < k)%Z ->
           (0 <= ipath i < size states)%Z
           /\ p i = (node (st states (ipath i)), time (st states (ipath i))))
        /\ (forall i, ~ (start <= i < k)%Z -> p i = path i)
    end).
  assert (HP : P (Z.max start end_) (for_up start end_ body (Some path))).
  { apply for_up_indm.
    - unfold P. split; [intros i Hi; lia | intros i _; reflexivity].
    - intros k [p|] Hk HPk; unfold P, body in *; [|exact I].
      cbv zeta.
      destruct ((0 <=? ipath k) && (ipath k <? size states))%Z eqn:Hin;
        [|exact I].
      destruct HPk as [Hdone Hframe]. split.
      + intros i Hi. destruct (Z.eq_dec i k) as [->|Hne].
        * split; [lia | apply upd_same].
        * rewrite upd_other by congruence. apply Hdone. lia.
      + intros i Hi. rewrite upd_other by lia. apply Hframe. lia. }
  rewrite Hrun in HP. unfold P in HP. destruct HP as [Hdone Hframe].
  split.
  - intros i Hi. apply Hdone. lia.
  - intros i Hi. apply Hframe. lia.
Qed.

Lemma convert_fold_frame `{HmmOps} (start ntimes : Z) (ipath : arr Z)
    (trees : list LocalTreeSpr) (i : Z) :
  Forall (fun it => ~ (start <= i < start + spr_blocklen it)%Z) trees ->
  forall path path',
    arghmm_sample_posterior_convert start trees ntimes ipath path
    = Some path' ->
    path' i = path i.
Proof.
  unfold arghmm_sample_posterior_convert.
  intros Hall. induction Hall as [|it rest Hit _ IH]; intros path path' Hrun.
  - simpl in Hrun. injection Hrun as <-. reflexivity.
  - cbn [fold_left] in Hrun.
    match type of Hrun with
    | fold_left ?f rest ?X = _ => destruct X as [p1|] eqn:Hone
    end.
    + rewrite (IH p1 path' Hrun).
      apply (convert_block_spec _ _ _ _ _ _ Hone). exact Hit.
    + match type of Hrun with
      | fold_left ?f rest None = _ =>
          assert (Hnone : fold_left f rest None = None)
            by (clear; induction rest as [|x l IHl];
                [reflexivity | exact IHl])
      end.
      rewrite Hnone in Hrun. discriminate.
Qed.

(** X29. The loop of [arghmm_sample_posterior] that converts the sampled
    state indices to (node, time) pairs runs every tree from the start
    coordinate of the local trees, not from the end of the tree before:
    when it completes, the sites [start_coord <= i < start_coord +
    blocklen] of the LAST tree hold the states of that tree at the sampled
    indices, whatever trees came before, and a site that lies in
    [start_coord, start_coord + blocklen) of no tree is left as it was. *)
Theorem arghmm_sample_posterior_convert_restarts (ops : HmmOps)
    (trees_start_coord : Z) (trees : list LocalTreeSpr)
    (last_tree : LocalTreeSpr) (ntimes : Z) (ipath : arr Z)
    (path path' : arr (Z * Z)) :
  arghmm_sample_posterior_convert trees_start_coord (trees ++ [last_tree])
                                  ntimes ipath path = Some path' ->
  let states := get_coal_states (spr_tree last_tree) ntimes false in
  (forall i,
     (trees_start_coord <= i
      < trees_start_coord + spr_blocklen last_tree)%Z ->
     (0 <= ipath i < size states)%Z
     /\ path' i = (node (st states (ipath i)), time (st states (ipath i))))
  /\ (forall i,
        Forall (fun it =>
                  ~ (trees_start_coord <= i
                     < trees_start_coord + spr_blocklen it)%Z)
               (trees ++ [last_tree]) ->
        path' i = path i).
Proof.
  intros Hrun states. split.
  - unfold arghmm_sample_posterior_convert in Hrun.
    rewrite fold_left_app in Hrun. cbn [fold_left] in Hrun.
    match type of Hrun with
    | match ?X with _ => _ end = _ => destruct X as [p1|]
    end; [|discriminate].
    intros i Hi.
    apply (convert_block_spec _ _ _ _ _ _ Hrun). exact Hi.
  - intros i Hall.
    apply (convert_fold_frame trees_start_coord ntimes ipath
             (trees ++ [last_tree]) i Hall path path' Hrun).
Qed.

Lemma arghmm_sample_posterior_convert_restarts_witness :
  exists path',
    @arghmm_sample_posterior_convert toy_hmm 0
      ([mkTreeSpr leaf_tree 2] ++ [mkTreeSpr (cherry_tree 1) 1]) 2
      (fun _ => 0%Z) (fun _ => (-7, -7)%Z) = Some path'
    /\ (forall i, (0 <= i < 0 + 1)%Z ->
          (0 <= 0 < size (enum_states (cherry_tree 1) 2))%Z
          /\ path' i = (node (st (enum_states (cherry_tree 1) 2) 0),
                        time (st (enum_states (cherry_tree 1) 2) 0)))
    /\ (forall i,
          Forall (fun it => ~ (0 <= i < 0 + spr_blocklen it)%Z)
                 ([mkTreeSpr leaf_tree 2] ++ [mkTreeSpr (cherry_tree 1) 1]) ->
          path' i = (-7, -7)%Z).
Proof.
  eexists. split; [reflexivity|].
  apply (arghmm_sample_posterior_convert_restarts toy_hmm 0
           [mkTreeSpr leaf_tree 2] (mkTreeSpr (cherry_tree 1) 1) 2
           (fun _ => 0%Z) (fun _ => (-7, -7)%Z)).
  reflexivity.
Defined.

(** ** Runs of the instance with two states *)

Lemma duo_sampler_ok : @sampler_ok duo_hmm.
Proof.
  intros A n rng Hn. simpl. unfold first_positive.
  destruct (find _ (range 0 n)) as [k|] eqn:E; [|lia].
  apply find_some in E. destruct E as [Hin _].
  apply In_range in Hin. exact Hin.
Qed.

Lemma duo_states_enumerated :
  @states_enumerated duo_hmm leaf_tree 3 (enum_states leaf_tree 3)
                     (toy_matrix 2).
Proof.
  intros k Hk. unfold size in Hk. simpl in Hk.
  assert (Hcases : k = 0%Z \/ k = 1%Z) by lia.
  change (enum_states leaf_tree 3) with [mkState 0 0; mkState 0 1].
  destruct Hcases as [-> | ->]; cbv zeta;
    eval_branch; unfold size; simpl nnodes; simpl length;
    (split; [lia |]); (split; [lia |]);
    (split;
     [ intros a Ha;
       assert (Ha' : a = 0%Z \/ a = 1%Z) by lia;
       destruct Ha' as [-> | ->]; (split; [lia | reflexivity])
     | intros j Hj Hnode;
       assert (Hj' : j = 0%Z \/ j = 1%Z) by lia;
       destruct Hj' as [-> | ->]; eval_branch; lia ]).
Qed.

(** with two states on one branch every normalised column is [1/2, 1/2] *)
Lemma duo_step_value (IR : Indet (arr R)) (IRR : Indet (arr (arr R)))
    (IZ : Indet (arr Z)) (emit_i col1 col2 : arr R) (k : Z) :
  (forall k', (0 <= k' < 2)%Z -> emit_i k' = 1) ->
  col1 0%Z + col1 1%Z <> 0 -> (0 <= k < 2)%Z ->
  @forward_block_step IR
    (@forward_block_tables duo_hmm IRR IZ leaf_tree 3
       (enum_states leaf_tree 3) (toy_matrix 2))
    3 (enum_states leaf_tree 3) emit_i col1 col2 k = 1/2.
Proof.
  intros Hemit Hsum Hk.
  rewrite (@forward_block_step_value duo_hmm IR IRR IZ)
    by (try apply toy_matrix_factored; try exact duo_states_enumerated;
        unfold size; simpl; lia).
  change (size (enum_states leaf_tree 3)) with 2%Z.
  assert (Hfull : forall k', (0 <= k' < 2)%Z ->
    full_entry leaf_tree (enum_states leaf_tree 3) (toy_matrix 2)
               emit_i col1 k' = 2 * (col1 0%Z + col1 1%Z)).
  { intros k' Hk'. unfold full_entry.
    change (size (enum_states leaf_tree 3)) with 2%Z.
    rewrite (Hemit k' Hk').
    unfold sumZ, for_up, range. simpl.
    assert (Hc : k' = 0%Z \/ k' = 1%Z) by lia.
    destruct Hc as [-> | ->]; simpl; lra. }
  rewrite (Hfull k Hk).
  unfold sumZ, for_up, range. simpl.
  rewrite !Hfull by lia. field. lra.
Qed.

(** the within-block recurrence on the instance: it completes, and every
    column after the first is [1/2, 1/2] *)
Lemma duo_block_runs (IR : Indet (arr R)) (IRR : Indet (arr (arr R)))
    (IZ : Indet (arr Z)) (blocklen : Z) (emit fw : arr (arr R)) :
  (forall i k, (0 <= k < 2)%Z -> emit i k = 1) ->
  fw 0%Z 0%Z + fw 0%Z 1%Z <> 0 ->
  exists fw',
    @arghmm_forward_block duo_hmm IR IRR IZ leaf_tree 3 blocklen
      (enum_states leaf_tree 3) tt (toy_matrix 2) emit fw = Some fw'
    /\ (forall i k, (1 <= i < blocklen)%Z -> (0 <= k < 2)%Z ->
          fw' i k = 1/2)
    /\ (forall i, ~ (1 <= i < blocklen)%Z -> fw' i = fw i).
Proof.
  intros Hemit Hsum.
  destruct (@arghmm_forward_block duo_hmm IR IRR IZ leaf_tree 3 blocklen
              (enum_states leaf_tree 3) tt (toy_matrix 2) emit fw)
    as [fw'|] eqn:Hrun.
  2:{ exfalso. unfold arghmm_forward_block in Hrun.
      cbn [internal toy_matrix andb] in Hrun.
      rewrite (@enumerated_assert_holds duo_hmm leaf_tree 3 _ _
                 duo_states_enumerated) in Hrun.
      discriminate. }
  exists fw'. split; [reflexivity|].
  destruct (@arghmm_forward_block_columns duo_hmm IR IRR IZ leaf_tree 3
              blocklen (enum_states leaf_tree 3) tt (toy_matrix 2) emit fw
              fw' Hrun eq_refl) as [Hstep Hframe].
  split; [|exact Hframe].
  assert (Hall : forall i, (1 <= i)%Z -> (i < blocklen)%Z ->
                 forall k, (0 <= k < 2)%Z -> fw' i k = 1/2).
  { apply (Zup_ind (fun i => (i < blocklen)%Z ->
                     forall k, (0 <= k < 2)%Z -> fw' i k = 1/2) 1).
    - intros Hlt k Hk. rewrite (Hstep 1%Z) by lia.
      apply duo_step_value; [apply Hemit | | exact Hk].
      change (1 - 1)%Z with 0%Z. rewrite (Hframe 0%Z) by lia. exact Hsum.
    - intros i Hi IH Hlt k Hk. rewrite (Hstep (i + 1)%Z) by lia.
      apply duo_step_value; [apply Hemit | | exact Hk].
      replace (i + 1 - 1)%Z with i by lia.
      rewrite !IH by lia. lra. }
  intros i k Hi Hk. apply Hall; lia.
Qed.

Lemma max_array_two (a : arr R) : max_array a 2 = Rmax (a 0%Z) (a 1%Z).
Proof. reflexivity. Qed.

(** the forward pass over one block that spans the region [0, len) *)
Lemma duo_alg_runs (IR : Indet (arr R)) (IRR : Indet (arr (arr R)))
    (IZ : Indet (arr Z)) (len : Z) (fw : arr (arr R))
    (prior_given internal_ : bool) :
  (1 <= len)%Z ->
  (prior_given = true ->
   0 <= fw 0%Z 0%Z /\ 0 <= fw 0%Z 1%Z /\ 0 < fw 0%Z 0%Z + fw 0%Z 1%Z) ->
  exists fw',
    @arghmm_forward_alg duo_hmm IR IRR IZ (0%Z, len) duo_model (Some tt)
      [duo_block 0 len] fw prior_given internal_ false = Some fw'
    /\ (prior_given = true -> fw' 0%Z = fw 0%Z)
    /\ (prior_given = false -> fw' 0%Z 0%Z = 1/2 /\ fw' 0%Z 1%Z = 1/2)
    /\ (forall i k, (1 <= i < len)%Z -> (0 <= k < 2)%Z -> fw' i k = 1/2).
Proof.
  intros Hlen Hprior.
  unfold arghmm_forward_alg, fold_left, forward_alg_block.
  cbn [block_start duo_block start_coord duo_hmm fst snd blocklen
       block_tree transmat emit mat_nstates2 ntimes duo_model
       get_coal_states count_lineages get_local_model].
  unfold forward_first_column.
  cbn [block_start duo_block start_coord duo_hmm fst snd blocklen
       block_tree transmat emit mat_nstates2 ntimes duo_model
       call_fw call_off call_emit call_blocklen nstates toy_matrix].
  replace (0 =? 0)%Z with true by reflexivity.
  replace (0 >? 0)%Z with false by reflexivity.
  cbn [orb].
  change (Z.max 2 1) with 2%Z.
  assert (Hrest : forall fwc,
    0 <= fwc 0%Z 0%Z -> 0 <= fwc 0%Z 1%Z ->
    0 < fwc 0%Z 0%Z + fwc 0%Z 1%Z ->
    exists fw',
      (if Rle_dec (max_array (shift 0 fwc 0%Z) 2) 0 then None
       else
         match
           @arghmm_forward_block duo_hmm IR IRR IZ leaf_tree 3 len
             (enum_states leaf_tree 3) tt (toy_matrix 2) (fun _ _ => 1)
             (shift 0 fwc)
         with
         | Some fw_block =>
             if Rle_dec (max_array (unshift 0 fw_block (0 + len - 1)%Z) 2) 0
             then None
             else Some (unshift 0 fw_block)
         | None => None
         end) = Some fw'
      /\ fw' 0%Z = fwc 0%Z
      /\ (forall i k, (1 <= i < len)%Z -> (0 <= k < 2)%Z -> fw' i k = 1/2)).
  { intros fwc H0 H1 Hs. rewrite max_array_two.
    change (shift 0 fwc 0%Z) with (fwc 0%Z).
    destruct (Rle_dec (Rmax (fwc 0%Z 0%Z) (fwc 0%Z 1%Z)) 0) as [Hle|_].
    { exfalso.
      pose proof (Rmax_l (fwc 0%Z 0%Z) (fwc 0%Z 1%Z)).
      pose proof (Rmax_r (fwc 0%Z 0%Z) (fwc 0%Z 1%Z)). lra. }
    destruct (duo_block_runs IR IRR IZ len (fun _ _ => 1) (shift 0 fwc))
      as [fwb [Hrun [Hcols Hframe]]].
    { intros; reflexivity. }
    { change (shift 0 fwc 0%Z) with (fwc 0%Z). lra. }
    rewrite Hrun. rewrite max_array_two.
    assert (Hlast : 0 < unshift 0 fwb (0 + len - 1)%Z 0%Z
                    \/ 0 < unshift 0 fwb (0 + len - 1)%Z 1%Z).
    { unfold unshift.
      destruct (Z.eq_dec len 1) as [->|Hne].
      - change (0 + 1 - 1 - 0)%Z with 0%Z. rewrite (Hframe 0%Z) by lia.
        change (shift 0 fwc 0%Z) with (fwc 0%Z).
        destruct (Rlt_dec 0 (fwc 0%Z 0%Z)); [left; assumption|].
        right. lra.
      - left. rewrite Hcols by lia. lra. }
    destruct (Rle_dec _ 0) as [Hle|_].
    { exfalso.
      pose proof (Rmax_l (unshift 0 fwb (0 + len - 1)%Z 0%Z)
                         (unshift 0 fwb (0 + len - 1)%Z 1%Z)).
      pose proof (Rmax_r (unshift 0 fwb (0 + len - 1)%Z 0%Z)
                         (unshift 0 fwb (0 + len - 1)%Z 1%Z)).
      destruct Hlast; lra. }
    eexists. split; [reflexivity|]. split.
    - unfold unshift. change (0 - 0)%Z with 0%Z.
      rewrite (Hframe 0%Z) by lia. reflexivity.
    - intros i k Hi Hk. unfold unshift.
      replace (i - 0)%Z with i by lia. apply Hcols; assumption. }
  destruct prior_given; cbn [negb].
  - destruct (Hprior eq_refl) as [H0 [H1 Hs]].
    destruct (Hrest fw H0 H1 Hs) as [fw' [Hrun [Hfirst Hcols]]].
    exists fw'. split; [exact Hrun|].
    split; [intros _; exact Hfirst|].
    split; [discriminate | exact Hcols].
  - set (fw1 := upd (new_block fw 0 (0 + len) 2) 0 _).
    assert (Hhalf : fw1 0%Z 0%Z = 1/2 /\ fw1 0%Z 1%Z = 1/2).
    { unfold fw1. rewrite upd_same. cbn [calc_state_priors duo_hmm].
      change (size (enum_states leaf_tree 3)) with 2%Z.
      unfold for_up, range. simpl.
      rewrite upd_same. rewrite upd_other by lia. rewrite upd_same.
      split; lra. }
    destruct Hhalf as [Ha Hb].
    destruct (Hrest fw1) as [fw' [Hrun [Hfirst Hcols]]]; try lra.
    exists fw'. split; [exact Hrun|].
    split; [discriminate|].
    split; [intros _; rewrite Hfirst; split; assumption | exact Hcols].
Qed.

Lemma first_positive_two (A : arr R) :
  (0 < A 0%Z -> first_positive A 2 = 0%Z)
  /\ (~ 0 < A 0%Z -> 0 < A 1%Z -> first_positive A 2 = 1%Z)
  /\ (0 <= first_positive A 2 < 2)%Z.
Proof.
  unfold first_positive, range. simpl.
  destruct (Rlt_dec 0 (A 0%Z)) as [H0|H0]; simpl.
  - split; [reflexivity | split; [contradiction | lia]].
  - destruct (Rlt_dec 0 (A 1%Z)) as [H1|H1]; simpl.
    + split; [contradiction | split; [reflexivity | lia]].
    + split; [contradiction | split; [contradiction | lia]].
Qed.

(** the within-block sampling on the instance: it completes, and with
    the sampler that returns the first positive weight it picks state 0
    where the forward entry of state 0 is positive, state 1 where only
    that of state 1 is *)
Lemma duo_posterior_runs (IR : Indet (arr R)) (blocklen : Z)
    (fw : arr (arr R)) (path : arr Z) :
  (0 <= path (blocklen - 1)%Z)%Z ->
  exists path',
    @sample_hmm_posterior duo_hmm IR blocklen leaf_tree
      (enum_states leaf_tree 3) (toy_matrix 2) fw path tt
    = Some (0, path', tt)
    /\ (forall i, (0 <= i < blocklen - 1)%Z ->
          (0 < fw i 0%Z -> path' i = 0%Z)
          /\ (fw i 0%Z = 0 -> 0 < fw i 1%Z -> path' i = 1%Z)
          /\ (0 <= path' i < 2)%Z)
    /\ (forall i, ~ (0 <= i < blocklen - 1)%Z -> path' i = path i).
Proof.
  intros Hlast. unfold sample_hmm_posterior.
  change (Z.max (size (enum_states leaf_tree 3)) 1) with 2%Z.
  pose (P := fun (i : Z) (acc : option (@post_state duo_hmm)) =>
    exists s, acc = Some s
      /\ (forall i', (i <= i' < blocklen - 1)%Z ->
            (0 < fw i' 0%Z -> ps_path s i' = 0%Z)
            /\ (fw i' 0%Z = 0 -> 0 < fw i' 1%Z -> ps_path s i' = 1%Z)
            /\ (0 <= ps_path s i' < 2)%Z)
      /\ (forall i', ~ (i <= i' < blocklen - 1)%Z -> ps_path s i' = path i')
      /\ (ps_last_k s = (-1)%Z
          \/ forall j, (0 <= j < 2)%Z -> 0 < ps_trans s j)).
  match goal with
  | |- exists path', option_map _ ?X = _ /\ _ => set (X' := X)
  end.
  assert (Hinv : P (Z.min 0 (blocklen - 1)) X').
  { destruct (Z_le_gt_dec 0 (blocklen - 1)) as [Hle|Hgt].
    - rewrite Z.min_l by lia. subst X'.
      apply (for_down_ind P); [exact Hle | |].
      + eexists. split; [reflexivity|]. cbn [ps_path ps_last_k ps_trans].
        split; [intros; lia | split; [reflexivity | left; reflexivity]].
      + intros i acc Hi [s [-> [Hdone [Hrest Htrans]]]].
        assert (Hk : (0 <= ps_path s (i + 1))%Z).
        { destruct (Z.eq_dec (i + 1) (blocklen - 1)) as [Heq|Hne].
          - rewrite Hrest by lia. rewrite Heq. exact Hlast.
          - apply Hdone. lia. }
        set (k := ps_path s (i + 1)%Z) in *.
        assert (Htr : exists trans last_k,
          (if negb (k =? ps_last_k s)%Z then
             (for_up 0 2
                (fun j trans =>
                   upd trans j
                     (get (toy_matrix 2) leaf_tree (enum_states leaf_tree 3)
                          j k))
                (ps_trans s), k)
           else (ps_trans s, ps_last_k s)) = (trans, last_k)
          /\ last_k = k
          /\ forall j, (0 <= j < 2)%Z -> 0 < trans j).
        { destruct (Z.eqb_spec k (ps_last_k s)) as [Heq|Hne]; simpl.
          - do 2 eexists. split; [reflexivity|]. split; [congruence|].
            destruct Htrans as [Hm1 | Hall]; [lia | exact Hall].
          - do 2 eexists. split; [reflexivity|]. split; [reflexivity|].
            intros j Hj. rewrite fill_trans.
            replace ((0 <=? j) && (j <? 2))%Z with true by lia.
            destruct (_ =? _)%Z; lra. }
        destruct Htr as [trans [last_k [Etr [Elast Hall]]]].
        cbv beta iota zeta. fold k. rewrite Etr.
        cbn [sample duo_hmm].
        match goal with
        | |- context [first_positive ?A 2] =>
            destruct (first_positive_two A) as [Hp0 [Hp1 Hpr]];
            set (pi := first_positive A 2) in *;
            assert (HA : forall j, (0 <= j < 2)%Z ->
                                   A j = fw i j * trans j)
              by (intros j Hj; rewrite fill_trans;
                  replace ((0 <=? j) && (j <? 2))%Z with true by lia;
                  reflexivity)
        end.
        rewrite upd_same.
        destruct (Req_dec_T (trans pi) 0) as [Hz|Hnz].
        { exfalso. pose proof (Hall pi Hpr). lra. }
        eexists. split; [reflexivity|].
        cbn [ps_path ps_trans ps_last_k].
        pose proof (Hall 0%Z ltac:(lia)) as Ht0.
        pose proof (Hall 1%Z ltac:(lia)) as Ht1.
        split; [|split].
        * intros i' Hi'. destruct (Z.eq_dec i' i) as [->|Hne].
          -- rewrite upd_same. split; [|split; [|exact Hpr]].
             ++ intros Hpos. apply Hp0. rewrite HA by lia. nra.
             ++ intros Hzero Hpos. apply Hp1.
                ** rewrite HA by lia. rewrite Hzero. lra.
                ** rewrite HA by lia. nra.
          -- rewrite !upd_other by lia. apply Hdone. lia.
        * intros i' Hi'. rewrite upd_other by lia. apply Hrest. lia.
        * right. exact Hall.
    - rewrite Z.min_r by lia. subst X'. rewrite for_down_nil by lia.
      eexists. split; [reflexivity|]. cbn [ps_path ps_last_k ps_trans].
      split; [intros; lia | split; [reflexivity | left; reflexivity]]. }
  destruct Hinv as [s [Hs [Hdone [Hrest _]]]].
  rewrite Hs. cbn [option_map]. destruct (ps_rng s).
  exists (ps_path s). split; [reflexivity|]. split.
  - intros i Hi. apply Hdone. lia.
  - intros i Hi. apply Hrest. lia.
Qed.

(** one step of the backward block loop on a block of the instance *)
Lemma duo_trace_block (IR : Indet (arr R)) (trees : Z * Z) (p len : Z)
    (fw : arr (arr R)) (internal_ : bool) (s : @trace_state duo_hmm) :
  (1 <= len)%Z -> ts_pos s = (p + len)%Z ->
  (0 <= ts_path s (p + len - 1)%Z)%Z ->
  exists s',
    @stochastic_traceback_block duo_hmm IR trees duo_model (duo_block p len)
      fw internal_ s = Some s'
    /\ ts_pos s' = p
    /\ (forall i, (p <= i < p + len - 1)%Z ->
          (0 < fw i 0%Z -> ts_path s' i = 0%Z)
          /\ (fw i 0%Z = 0 -> 0 < fw i 1%Z -> ts_path s' i = 1%Z))
    /\ ((p > fst trees)%Z ->
        (0 <= ts_path s' (p - 1)%Z)%Z
        /\ (0 < fw (p - 1)%Z 0%Z -> ts_path s' (p - 1)%Z = 0%Z)
        /\ (fw (p - 1)%Z 0%Z = 0 -> 0 < fw (p - 1)%Z 1%Z ->
            ts_path s' (p - 1)%Z = 1%Z))
    /\ (forall i, (p + len - 1 <= i)%Z -> ts_path s' i = ts_path s i).
Proof.
  intros Hlen Hpos Hlast. unfold stochastic_traceback_block.
  cbn [blocklen duo_block block_tree transmat transmat_switch
       get_coal_states duo_hmm ntimes duo_model start_coord].
  rewrite Hpos. replace (p + len - len)%Z with p by lia.
  destruct (duo_posterior_runs IR len (shift p fw) (shift p (ts_path s)))
    as [pb [Hrun [Hin Hout]]].
  { unfold shift. replace (p + (len - 1))%Z with (p + len - 1)%Z by lia.
    exact Hlast. }
  destruct (ts_rng s). rewrite Hrun.
  assert (Hin' : forall i, (p <= i < p + len - 1)%Z ->
            (0 < fw i 0%Z -> unshift p pb i = 0%Z)
            /\ (fw i 0%Z = 0 -> 0 < fw i 1%Z -> unshift p pb i = 1%Z)
            /\ (0 <= unshift p pb i < 2)%Z).
  { intros i Hi. unfold unshift.
    destruct (Hin (i - p)%Z ltac:(lia)) as [Ha [Hb Hc]].
    unfold shift in Ha, Hb. replace (p + (i - p))%Z with i in Ha, Hb by lia.
    split; [exact Ha | split; [exact Hb | exact Hc]]. }
  assert (Hout' : forall i, (p + len - 1 <= i)%Z ->
            unshift p pb i = ts_path s i).
  { intros i Hi. unfold unshift. rewrite Hout by lia.
    unfold shift. f_equal. lia. }
  destruct (Z.gtb_spec p (fst trees)) as [Hgt|Hle].
  - destruct (duo_posterior_runs IR 2 (shift (p - 1) fw)
                (shift (p - 1) (unshift p pb)))
      as [pb2 [Hrun2 [Hin2 Hout2]]].
    { unfold shift. replace (p - 1 + (2 - 1))%Z with p by lia.
      destruct (Z.eq_dec len 1) as [->|Hne].
      - rewrite Hout' by lia. replace p with (p + 1 - 1)%Z at 1 by lia.
        exact Hlast.
      - apply Hin'. lia. }
    rewrite Hrun2. eexists. split; [reflexivity|].
    cbn [ts_pos ts_path].
    assert (Hkeep : forall i, (p <= i)%Z ->
              unshift (p - 1) pb2 i = unshift p pb i).
    { intros i Hi. unfold unshift at 1. rewrite Hout2 by lia.
      unfold shift. f_equal. lia. }
    split; [reflexivity|]. split; [|split].
    + intros i Hi. rewrite Hkeep by lia.
      destruct (Hin' i Hi) as [Ha [Hb _]]. split; assumption.
    + intros _. unfold unshift.
      replace (p - 1 - (p - 1))%Z with 0%Z by lia.
      destruct (Hin2 0%Z ltac:(lia)) as [Ha [Hb Hr]].
      unfold shift in Ha, Hb.
      replace (p - 1 + 0)%Z with (p - 1)%Z in Ha, Hb by lia.
      split; [lia | split; assumption].
    + intros i Hi. rewrite Hkeep by lia. apply Hout'. exact Hi.
  - eexists. split; [reflexivity|]. cbn [ts_pos ts_path].
    split; [reflexivity|]. split; [|split].
    + intros i Hi. destruct (Hin' i Hi) as [Ha [Hb _]]. split; assumption.
    + intros Hgt. lia.
    + exact Hout'.
Qed.

(** the traceback over one block that spans the region [0, len) *)
Lemma duo_trace_runs (IR : Indet (arr R)) (len : Z) (fw : arr (arr R))
    (path : arr Z) (last_state_given internal_ : bool) :
  (1 <= len)%Z ->
  (last_state_given = true -> (0 <= path (len - 1)%Z)%Z) ->
  exists lnl path',
    @stochastic_traceback duo_hmm IR (0%Z, len) duo_model [duo_block 0 len]
      fw path last_state_given internal_ tt = Some (lnl, path', tt)
    /\ (forall i, (0 <= i < len - 1)%Z ->
          (0 < fw i 0%Z -> path' i = 0%Z)
          /\ (fw i 0%Z = 0 -> 0 < fw i 1%Z -> path' i = 1%Z))
    /\ (last_state_given = true -> path' (len - 1)%Z = path (len - 1)%Z).
Proof.
  intros Hlen Hgiven. unfold stochastic_traceback.
  cbn [rev app end_coord duo_hmm snd mat_nstates2 duo_block].
  change (Z.max 2 1) with 2%Z.
  assert (Hfold : forall s0 : @trace_state duo_hmm,
    ts_pos s0 = len -> (0 <= ts_path s0 (len - 1)%Z)%Z ->
    exists lnl path',
      option_map (fun s => (ts_lnl s, ts_path s, ts_rng s))
        (fold_left
           (fun acc mat =>
              match acc with
              | None => None
              | Some s =>
                  @stochastic_traceback_block duo_hmm IR (0%Z, len)
                    duo_model mat fw internal_ s
              end)
           [duo_block 0 len] (Some s0)) = Some (lnl, path', tt)
      /\ (forall i, (0 <= i < len - 1)%Z ->
            (0 < fw i 0%Z -> path' i = 0%Z)
            /\ (fw i 0%Z = 0 -> 0 < fw i 1%Z -> path' i = 1%Z))
      /\ path' (len - 1)%Z = ts_path s0 (len - 1)%Z).
  { intros s0 Hpos Hlast. cbn [fold_left].
    destruct (duo_trace_block IR (0%Z, len) 0 len fw internal_ s0 Hlen
                ltac:(lia) ltac:(exact Hlast))
      as [s' [Hrun [_ [Hin [_ Hout]]]]].
    rewrite Hrun. cbn [option_map]. destruct (ts_rng s').
    do 2 eexists. split; [reflexivity|]. split.
    - intros i Hi. apply Hin. lia.
    - apply Hout. lia. }
  destruct last_state_given; cbn [negb].
  - match goal with
    | |- context [fold_left _ _ (Some ?s)] =>
        destruct (Hfold s eq_refl (Hgiven eq_refl))
          as [lnl [path' [Hrun [Hin Hkeep]]]]
    end.
    exists lnl, path'. split; [exact Hrun|].
    split; [exact Hin | intros _; exact Hkeep].
  - cbn [sample duo_hmm].
    destruct (first_positive_two (fw (len - 1)%Z)) as [_ [_ Hr]].
    match goal with
    | |- context [fold_left _ _ (Some ?s)] =>
        destruct (Hfold s eq_refl) as [lnl [path' [Hrun [Hin _]]]]
    end.
    { cbn [ts_path]. rewrite upd_same. lia. }
    exists lnl, path'. split; [exact Hrun|].
    split; [exact Hin | discriminate].
Qed.

(** ** The first site of the traceback *)

Lemma traceback_fold_pos `{HmmOps} `{Indet (arr R)}
    (trees : LocalTrees) (model : ArgModel) (fw : arr (arr R))
    (internal_ : bool) (blocks : list Block) :
  Forall (fun b => (1 <= blocklen b)%Z) blocks ->
  forall s s',
    fold_left
      (fun acc mat =>
         match acc with
         | None => None
         | Some s => stochastic_traceback_block trees model mat fw internal_ s
         end)
      blocks (Some s) = Some s' ->
    ts_pos s' = (ts_pos s - blocks_len blocks)%Z.
Proof.
  intros Hall. induction Hall as [|b blocks Hb _ IH]; intros s s' Hrun.
  - simpl in Hrun. injection Hrun as <-. unfold blocks_len. simpl. lia.
  - cbn [fold_left] in Hrun.
    destruct (stochastic_traceback_block trees model b fw internal_ s)
      as [s1|] eqn:E1.
    + destruct (stochastic_traceback_block_frame trees model b fw internal_
                  s s1 Hb E1) as [Hpos _].
      rewrite (IH s1 s' Hrun), Hpos. unfold blocks_len. simpl. lia.
    + rewrite (fold_option_none
                 (fun s mat =>
                    stochastic_traceback_block trees model mat fw internal_ s))
        in Hrun.
      discriminate.
Qed.

(** when the first block holds at least two sites, the state of the first
    site comes from the sampler, within the states of that block *)
Lemma stochastic_traceback_start_range `{HmmOps} `{Indet (arr R)}
    (trees : LocalTrees) (model : ArgModel) (first : Block)
    (rest : list Block) (fw : arr (arr R)) (path : arr Z)
    (last_state_given internal_ : bool) (rng : Rng) (lnl : ereal)
    (path' : arr Z) (rng' : Rng) :
  sampler_ok ->
  Forall (fun b => (1 <= blocklen b)%Z) (first :: rest) ->
  blocks_len (first :: rest) = (end_coord trees - start_coord trees)%Z ->
  (2 <= blocklen first)%Z ->
  (last_state_given = true -> (0 <= path (end_coord trees - 1)%Z)%Z) ->
  stochastic_traceback trees model (first :: rest) fw path last_state_given
                       internal_ rng = Some (lnl, path', rng') ->
  (0 <= path' (start_coord trees)
   < Z.max (size (get_coal_states (block_tree first) (ntimes model)
                                  internal_)) 1)%Z.
Proof.
  intros Hsample Hlen Hsum Htwo Hgiven Hrun.
  destruct (stochastic_traceback_covers_spec _ _ trees model (first :: rest)
              fw path last_state_given internal_ rng lnl path' rng'
              Hsample Hlen Hsum Hgiven Hrun) as [Hcov _].
  unfold stochastic_traceback in Hrun.
  match type of Hrun with
  | option_map _ (fold_left _ _ ?init) = _ => set (s0 := init) in *
  end.
  assert (Hs0 : forall s, s0 = Some s -> ts_pos s = end_coord trees).
  { intros s Hs. subst s0. destruct (negb last_state_given).
    - destruct (rev (first :: rest)) as [|mat l]; [discriminate|].
      destruct (sample _ _ _) as [k rng1]. injection Hs as <-. reflexivity.
    - injection Hs as <-. reflexivity. }
  clearbody s0.
  cbn [rev] in Hrun. rewrite fold_left_app in Hrun. cbn [fold_left] in Hrun.
  destruct s0 as [s|].
  2:{ rewrite (fold_option_none
                 (fun s mat =>
                    stochastic_traceback_block trees model mat fw internal_ s))
        in Hrun.
      discriminate. }
  match type of Hrun with
  | option_map _ (match ?X with _ => _ end) = _ =>
      destruct X as [s1|] eqn:Efold; [|discriminate]
  end.
  assert (Hrev : Forall (fun b => (1 <= blocklen b)%Z) (rev rest)).
  { apply Forall_forall. intros b Hb. apply In_rev in Hb.
    inversion Hlen as [|? ? _ Hrest]; subst.
    revert b Hb. apply Forall_forall. exact Hrest. }
  pose proof (traceback_fold_pos trees model fw internal_ (rev rest) Hrev
                s s1 Efold) as Hpos1.
  rewrite (Hs0 s eq_refl), blocks_len_rev in Hpos1.
  assert (Hstart : (ts_pos s1 - blocklen first)%Z = start_coord trees).
  { rewrite Hpos1. unfold blocks_len in *. simpl in Hsum. lia. }
  destruct (stochastic_traceback_block trees model first fw internal_ s1)
    as [s'|] eqn:Eblock; [|discriminate].
  cbn [option_map] in Hrun. injection Hrun as _ Hpath _.
  unfold stochastic_traceback_block in Eblock. rewrite Hstart in Eblock.
  destruct (sample_hmm_posterior (blocklen first) _ _ _ _ _ _)
    as [[[l pb] rng1]|] eqn:E1; [|discriminate].
  replace (start_coord trees >? start_coord trees)%Z with false
    in Eblock by lia.
  injection Eblock as <-. cbn [ts_path] in Hpath.
  assert (Hlastb : (0 <= shift (start_coord trees) (ts_path s1)
                          (blocklen first - 1)%Z)%Z).
  { rewrite <- (sample_hmm_posterior_frame _ _ _ _ _ _ _ _ _ _
                  (blocklen first - 1)%Z E1) by lia.
    replace (pb (blocklen first - 1)%Z)
      with (path' (start_coord trees + blocklen first - 1)%Z).
    - apply Hcov. unfold blocks_len in Hsum. simpl in Hsum.
      assert (0 <= blocks_len rest)%Z.
      { inversion Hlen as [|? ? _ Hrest]; subst. clear -Hrest.
        induction Hrest as [|b0 l Hb0 _ IH0];
          unfold blocks_len in *; simpl; lia. }
      unfold blocks_len in *. lia.
    - rewrite <- Hpath. unfold unshift. f_equal. lia. }
  destruct (sample_hmm_posterior_spec _ _ _ _ _ _ _ _ _ _ Hsample Hlastb E1)
    as [_ [Hin _]].
  rewrite <- Hpath. unfold unshift.
  replace (start_coord trees - start_coord trees)%Z with 0%Z by lia.
  apply Hin. lia.
Qed.

(** a pinned thread over three sites: from state 1 to state 0 *)
Lemma duo_cond_runs :
  exists trees' fw path,
    @cond_sample_arg_thread duo_hmm zero_R zero_RR minus_Z duo_model tt
      (0%Z, 3%Z) 1 (mkState 0 1) (mkState 0 0) tt = Some (trees', fw, path)
    /\ path 0%Z = 1%Z /\ path 1%Z = 0%Z /\ path 2%Z = 0%Z.
Proof.
  unfold cond_sample_arg_thread.
  change (@matrix_list_setup duo_hmm duo_model (Some tt) (0%Z, 3%Z) 1)
    with [duo_block 0 3].
  cbn [block_tree duo_block get_coal_states duo_hmm ntimes duo_model
       start_coord end_coord fst snd last block_start blocklen].
  change (enum_states leaf_tree 3) with [mkState 0 0; mkState 0 1].
  change (find_vector [mkState 0 0; mkState 0 1] (mkState 0 1)) with 1%Z.
  change (find_vector [mkState 0 0; mkState 0 1] (mkState 0 0)) with 0%Z.
  change (size [mkState 0 0; mkState 0 1]) with 2%Z.
  change (1 =? -1)%Z with false. cbv iota.
  match goal with
  | |- context [arghmm_forward_alg _ _ _ _ ?fw _ _ _] =>
      set (fw0 := fw);
      assert (H00 : fw0 0%Z 0%Z = 0 /\ fw0 0%Z 1%Z = 1)
  end.
  { unfold fw0. rewrite !upd_same. rewrite upd_other by lia.
    unfold for_up, range. simpl. rewrite upd_other by lia.
    rewrite upd_same. split; reflexivity. }
  destruct H00 as [H00 H01].
  destruct (duo_alg_runs zero_R zero_RR minus_Z 3 fw0 true false)
    as [fw' [Hfw [Hsame [_ Hcols]]]]; [lia | intros _; lra |].
  match goal with
  | |- exists t f p, match ?X with _ => _ end = _ /\ _ =>
      assert (HX : X = Some fw') by exact Hfw; rewrite HX
  end.
  rewrite upd_same.
  change (0 =? -1)%Z with false. cbv iota.
  match goal with
  | |- context [stochastic_traceback _ _ _ _ ?p _ _ _] =>
      destruct (duo_trace_runs zero_R 3 fw' p true false)
        as [lnl [p' [Ht [Hin Hkeep]]]]
  end.
  { lia. }
  { intros _. change (3 - 1)%Z with 2%Z. rewrite upd_same. lia. }
  match goal with
  | |- exists t f p, match ?X with _ => _ end = _ /\ _ =>
      assert (HY : X = Some (lnl, p', tt)) by exact Ht; rewrite HY
  end.
  assert (Hp0 : p' 0%Z = 1%Z).
  { apply (Hin 0%Z); [lia | |]; rewrite (Hsame eq_refl); lra. }
  assert (Hp1 : p' 1%Z = 0%Z).
  { apply (Hin 1%Z); [lia|]. rewrite Hcols by lia. lra. }
  assert (Hp2 : p' 2%Z = 0%Z).
  { change 2%Z with (3 - 1)%Z. rewrite (Hkeep eq_refl).
    change (3 - 1)%Z with 2%Z. apply upd_same. }
  assert (Hone : fw' 0%Z (p' 0%Z) = 1).
  { rewrite Hp0, (Hsame eq_refl). exact H01. }
  destruct (Req_dec_T (fw' 0%Z (p' 0%Z)) 1) as [_|Hne];
    [|exfalso; apply Hne; exact Hone].
  do 3 eexists. split; [reflexivity|].
  split; [exact Hp0 | split; [exact Hp1 | exact Hp2]].
Qed.

(** an unpinned thread over three sites: prior, forward pass, sampled
    last state, traceback *)
Lemma duo_sample_runs :
  exists trees' fw path,
    @sample_arg_thread duo_hmm duo_thread zero_R zero_RR minus_Z duo_model
      tt (0%Z, 3%Z) 1 tt = Some (trees', fw, path)
    /\ path 0%Z = 0%Z /\ path 1%Z = 0%Z /\ path 2%Z = 0%Z.
Proof.
  unfold sample_arg_thread.
  change (@matrix_iter_setup duo_hmm duo_thread duo_model (Some tt)
            (0%Z, 3%Z) (Some 1%Z) false) with [duo_block 0 3].
  change (@matrix_iter_setup duo_hmm duo_thread duo_model None
            (0%Z, 3%Z) (Some 1%Z) false) with [duo_block 0 3].
  destruct (duo_alg_runs zero_R zero_RR minus_Z 3 (@indet _ zero_RR) false
              false) as [fw' [Hfw [_ [Hprior Hcols]]]];
    [lia | discriminate |].
  destruct (Hprior eq_refl) as [Ha Hb].
  match goal with
  | |- exists t f p, match ?X with _ => _ end = _ /\ _ =>
      assert (HX : X = Some fw') by exact Hfw; rewrite HX
  end.
  pose proof Hfw as Hfw2.
  unfold stochastic_traceback.
  cbn [negb rev app end_coord duo_hmm snd mat_nstates2 duo_block].
  change (Z.max 2 1) with 2%Z. cbn [sample duo_hmm].
  destruct (first_positive_two (fw' (3 - 1)%Z)) as [Hlast0 _].
  rewrite Hlast0 by (change (3 - 1)%Z with 2%Z; rewrite Hcols by lia; lra).
  cbn [fold_left].
  match goal with
  | |- context [stochastic_traceback_block _ _ _ _ _ ?s] =>
      destruct (duo_trace_block zero_R (0%Z, 3%Z) 0 3 fw' false s)
        as [s' [Hrun [_ [Hin [_ Hout]]]]]
  end.
  { lia. }
  { reflexivity. }
  { cbn [ts_path]. change (0 + 3 - 1)%Z with (3 - 1)%Z.
    rewrite upd_same. lia. }
  match goal with
  | |- exists t f p,
         match option_map _ ?X with _ => _ end = _ /\ _ =>
      assert (HY : X = Some s') by exact Hrun; rewrite HY
  end.
  cbn [option_map]. destruct (ts_rng s').
  do 3 eexists. split; [reflexivity|].
  split; [|split].
  - apply (Hin 0%Z); [lia|]. lra.
  - apply (Hin 1%Z); [lia|]. rewrite Hcols by lia. lra.
  - rewrite Hout by lia. cbn [ts_path]. change (3 - 1)%Z with 2%Z.
    apply upd_same.
Qed.

(** a pinned internal thread over three sites: from state 1 to state 0 *)
Lemma duo_cond_internal_runs :
  exists trees' fw path,
    @cond_sample_arg_thread_internal duo_hmm duo_thread zero_R zero_RR
      minus_Z duo_model tt (0%Z, 3%Z) (mkState 0 1) (mkState 0 0) tt
    = Some (trees', fw, path)
    /\ path 0%Z = 1%Z /\ path 1%Z = 0%Z /\ path 2%Z = 0%Z.
Proof.
  unfold cond_sample_arg_thread_internal.
  change (@matrix_iter_setup duo_hmm duo_thread duo_model (Some tt)
            (0%Z, 3%Z) None true) with [duo_block 0 3].
  change (@matrix_iter_setup duo_hmm duo_thread duo_model None
            (0%Z, 3%Z) None true) with [duo_block 0 3].
  cbn [block_tree duo_block get_coal_states duo_hmm ntimes duo_model
       start_coord end_coord fst snd last block_start blocklen].
  change (enum_states leaf_tree 3) with [mkState 0 0; mkState 0 1].
  change (find_vector [mkState 0 0; mkState 0 1] (mkState 0 1)) with 1%Z.
  change (find_vector [mkState 0 0; mkState 0 1] (mkState 0 0)) with 0%Z.
  change (size [mkState 0 0; mkState 0 1]) with 2%Z.
  change (2 >? 0)%Z with true.
  change (@is_null duo_hmm duo_thread (mkState 0 1)) with false.
  change (@is_null duo_hmm duo_thread (mkState 0 0)) with false.
  cbn [negb].
  change (1 =? -1)%Z with false. cbv iota.
  match goal with
  | |- context [arghmm_forward_alg _ _ _ _ ?fw _ _ _] =>
      set (fw0 := fw);
      assert (H00 : fw0 0%Z 0%Z = 0 /\ fw0 0%Z 1%Z = 1)
  end.
  { unfold fw0. rewrite !upd_same. rewrite upd_other by lia.
    unfold for_up, range. simpl. rewrite upd_other by lia.
    rewrite upd_same. split; reflexivity. }
  destruct H00 as [H00 H01].
  destruct (duo_alg_runs zero_R zero_RR minus_Z 3 fw0 true true)
    as [fw' [Hfw [Hsame [_ Hcols]]]]; [lia | intros _; lra |].
  match goal with
  | |- exists t f p, match ?X with _ => _ end = _ /\ _ =>
      assert (HX : X = Some fw') by exact Hfw; rewrite HX
  end.
  rewrite upd_same.
  change (0 =? -1)%Z with false. cbv iota.
  match goal with
  | |- context [stochastic_traceback _ _ _ _ ?p _ _ _] =>
      destruct (duo_trace_runs zero_R 3 fw' p true true)
        as [lnl [p' [Ht [Hin Hkeep]]]]
  end.
  { lia. }
  { intros _. change (3 - 1)%Z with 2%Z. rewrite upd_same. lia. }
  match goal with
  | |- exists t f p, match ?X with _ => _ end = _ /\ _ =>
      assert (HY : X = Some (lnl, p', tt)) by exact Ht; rewrite HY
  end.
  assert (Hp0 : p' 0%Z = 1%Z).
  { apply (Hin 0%Z); [lia | |]; rewrite (Hsame eq_refl); lra. }
  assert (Hp1 : p' 1%Z = 0%Z).
  { apply (Hin 1%Z); [lia|]. rewrite Hcols by lia. lra. }
  assert (Hp2 : p' 2%Z = 0%Z).
  { change 2%Z with (3 - 1)%Z. rewrite (Hkeep eq_refl).
    change (3 - 1)%Z with 2%Z. apply upd_same. }
  assert (Hone : fw' 0%Z (p' 0%Z) = 1).
  { rewrite Hp0, (Hsame eq_refl). exact H01. }
  destruct (Req_dec_T (fw' 0%Z (p' 0%Z)) 1) as [_|Hne];
    [|exfalso; apply Hne; exact Hone].
  do 3 eexists. split; [reflexivity|].
  split; [exact Hp0 | split; [exact Hp1 | exact Hp2]].
Qed.

(** the traceback over two blocks without a switch operator, on the
    forward columns [1, 0] at even sites and [0, 1] at odd sites, from an
    empty path buffer: the last state is sampled and the path alternates *)
Lemma duo_two_blocks_run :
  exists lnl path',
    @stochastic_traceback duo_hmm zero_R (0%Z, 4%Z) duo_model
      [duo_block 0 2; duo_block 2 2]
      (fun i => if Z.even i then one_hot_0 else one_hot_1)
      (fun _ => (-1)%Z) false false tt = Some (lnl, path', tt)
    /\ path' 0%Z = 0%Z /\ path' 1%Z = 1%Z /\ path' 2%Z = 0%Z
    /\ path' 3%Z = 1%Z.
Proof.
  set (fw := fun i : Z => if Z.even i then one_hot_0 else one_hot_1).
  unfold stochastic_traceback.
  cbn [negb rev app end_coord duo_hmm snd mat_nstates2 duo_block].
  change (Z.max 2 1) with 2%Z. cbn [sample duo_hmm].
  assert (Hev : forall i, Z.even i = true ->
                  fw i 0%Z = 1 /\ fw i 1%Z = 0).
  { intros i Hi. unfold fw. rewrite Hi. split; reflexivity. }
  assert (Hod : forall i, Z.even i = false ->
                  fw i 0%Z = 0 /\ fw i 1%Z = 1).
  { intros i Hi. unfold fw. rewrite Hi. split; reflexivity. }
  destruct (first_positive_two (fw (4 - 1)%Z)) as [_ [Hlast1 _]].
  rewrite Hlast1
    by (destruct (Hod 3%Z eq_refl) as [Ha Hb];
        change (4 - 1)%Z with 3%Z; lra).
  cbn [fold_left].
  match goal with
  | |- context [stochastic_traceback_block _ _ (duo_block 2 2) _ _ ?s] =>
      destruct (duo_trace_block zero_R (0%Z, 4%Z) 2 2 fw false s)
        as [s1 [Hrun1 [Hpos1 [Hin1 [Hb1 Hout1]]]]]
  end.
  { lia. }
  { reflexivity. }
  { cbn [ts_path]. change (2 + 2 - 1)%Z with (4 - 1)%Z.
    rewrite upd_same. lia. }
  rewrite Hrun1.
  destruct (duo_trace_block zero_R (0%Z, 4%Z) 0 2 fw false s1)
    as [s2 [Hrun2 [_ [Hin2 [_ Hout2]]]]].
  { lia. }
  { rewrite Hpos1. reflexivity. }
  { change (0 + 2 - 1)%Z with (2 - 1)%Z.
    destruct (Hb1 ltac:(simpl; lia)) as [Hge _]. exact Hge. }
  rewrite Hrun2. cbn [option_map]. destruct (ts_rng s2).
  do 2 eexists. split; [reflexivity|].
  assert (H3 : ts_path s1 3%Z = 1%Z).
  { rewrite Hout1 by lia. cbn [ts_path]. change (4 - 1)%Z with 3%Z.
    apply upd_same. }
  assert (H2 : ts_path s1 2%Z = 0%Z).
  { apply (Hin1 2%Z); [lia|]. destruct (Hev 2%Z eq_refl). lra. }
  assert (H1 : ts_path s1 1%Z = 1%Z).
  { destruct (Hb1 ltac:(simpl; lia)) as [_ [_ Hb]].
    change (2 - 1)%Z with 1%Z in Hb.
    destruct (Hod 1%Z eq_refl). apply Hb; lra. }
  split; [|split; [|split]].
  - apply (Hin2 0%Z); [lia|]. destruct (Hev 0%Z eq_refl). lra.
  - rewrite Hout2 by lia. exact H1.
  - rewrite Hout2 by lia. exact H2.
  - rewrite Hout2 by lia. exact H3.
Qed.

(** ** Pinned start state *)

(** C9. With a pinned start state, [cond_sample_arg_thread] locates its
    index in the states of the first block and fails when the state is
    absent; the first forward column is the one-hot column at that index,
    also after the forward pass; and after the traceback the forward entry
    at the start coordinate for the traced state is 1.  The traced state
    is then the pinned one: when the blocks tile the region, the first
    with at least two sites, and the sampler returns indices of its weight
    array, the traceback has sampled the first site within the states of
    the first block, where only the pinned index holds 1.  The iterator is
    assumed to yield no block before the start coordinate. *)
Theorem cond_sample_pins_start (ops : HmmOps) (IR : Indet (arr R))
    (IRR : Indet (arr (arr R))) (IZ : Indet (arr Z))
    (model : ArgModel) (sequences : Sequences) (trees : LocalTrees)
    (new_chrom : Z) (start_state end_state : State) (rng : Rng)
    (first : Block) (rest : list Block) :
  matrix_list_setup model (Some sequences) trees new_chrom = first :: rest ->
  Forall (fun blk => (start_coord trees <= block_start blk)%Z)
         (first :: rest) ->
  let states := get_coal_states (block_tree first) (ntimes model) false in
  let j := find_vector states start_state in
  (~ In start_state states ->
   cond_sample_arg_thread model sequences trees new_chrom start_state
                          end_state rng = None)
  /\ (forall trees' fw path,
        cond_sample_arg_thread model sequences trees new_chrom start_state
                               end_state rng = Some (trees', fw, path) ->
        (0 <= j < size states)%Z
        /\ st states j = start_state
        /\ (forall k, (0 <= k < size states)%Z ->
              fw (start_coord trees) k = if (k =? j)%Z then 1 else 0)
        /\ fw (start_coord trees) (path (start_coord trees)) = 1
        /\ (sampler_ok ->
            Forall (fun blk => (1 <= blocklen blk)%Z) (first :: rest) ->
            blocks_len (first :: rest)
            = (end_coord trees - start_coord trees)%Z ->
            (2 <= blocklen first)%Z ->
            path (start_coord trees) = j
            /\ st states (path (start_coord trees)) = start_state)).
Proof.
  intros Hlist Hstart. cbv zeta.
  set (states := get_coal_states (block_tree first) (ntimes model) false).
  set (j := find_vector states start_state).
  unfold cond_sample_arg_thread. rewrite Hlist.
  fold states. fold j.
  split.
  - intros Habsent. unfold j.
    rewrite (find_vector_absent states start_state Habsent). reflexivity.
  - intros trees' fw path Hrun.
    destruct (Z.eqb_spec j (-1)) as [|Hj]; [discriminate|].
    destruct (find_vector_spec states start_state Hj) as [Hrange Hst].
    fold j in Hrange, Hst.
    set (fw1 := new_block indet (block_start first)
                          (block_start first + blocklen first)
                          (size states)) in *.
    set (col := upd (for_up 0 (size states) (fun k col => upd col k 0)
                            (fw1 (start_coord trees))) j 1) in *.
    destruct (arghmm_forward_alg trees model (Some sequences) (first :: rest)
                (upd fw1 (start_coord trees) col) true false false)
      as [fw2|] eqn:Hfwd; [|discriminate].
    pose proof (arghmm_forward_alg_keeps_start trees model (Some sequences)
                  (first :: rest) _ fw2 false false Hstart Hfwd) as Hkeep.
    rewrite upd_same in Hkeep.
    rewrite upd_same in Hrun.
    set (jend := find_vector
                   (get_coal_states (block_tree (last (first :: rest) first))
                                    (ntimes model) false) end_state) in *.
    destruct (Z.eqb_spec jend (-1)) as [|Hjend]; [discriminate|].
    destruct (stochastic_traceback trees model (first :: rest) fw2
                (upd indet (end_coord trees - 1) jend) true false rng)
      as [[[lnl p] rng']|] eqn:Htrace; [|discriminate].
    destruct (Req_dec_T _ 1) as [Hone|]; [|discriminate].
    injection Hrun as _ <- <-.
    assert (Hhot : forall k, (0 <= k < size states)%Z ->
              fw2 (start_coord trees) k = if (k =? j)%Z then 1 else 0).
    { intros k Hk. rewrite Hkeep. unfold col.
      destruct (Z.eqb_spec k j) as [->|Hne].
      + apply upd_same.
      + rewrite upd_other by assumption.
        rewrite (for_up_upd 0 (size states) (fun _ _ => 0) _ (fun _ => 0))
          by reflexivity.
        replace ((0 <=? k) && (k <? size states))%Z with true by lia.
        reflexivity. }
    split; [exact Hrange|]. split; [exact Hst|].
    split; [exact Hhot|]. split; [exact Hone|].
    intros Hsample Hlen Hsum Htwo.
    assert (Hp : (0 <= p (start_coord trees) < size states)%Z).
    { pose proof (stochastic_traceback_start_range trees model first rest
                    fw2 (upd indet (end_coord trees - 1) jend) true false
                    rng lnl p rng' Hsample Hlen Hsum Htwo)
        as Hr.
      fold states in Hr.
      replace (Z.max (size states) 1) with (size states) in Hr by lia.
      apply Hr; [|exact Htrace].
      intros _. rewrite upd_same.
      destruct (find_vector_spec _ end_state Hjend) as [Hge _].
      fold jend in Hge. lia. }
    assert (Hpj : p (start_coord trees) = j).
    { pose proof (Hhot _ Hp) as Hv. rewrite Hone in Hv.
      destruct (Z.eqb_spec (p (start_coord trees)) j) as [Heq|Hne];
        [exact Heq | lra]. }
    split; [exact Hpj | rewrite Hpj; exact Hst].
Qed.

Lemma cond_sample_pins_start_witness :
  exists trees' fw path,
    @cond_sample_arg_thread duo_hmm zero_R zero_RR minus_Z duo_model tt
      (0%Z, 3%Z) 1 (mkState 0 1) (mkState 0 0) tt = Some (trees', fw, path)
    /\ (path 1%Z = 0%Z /\ path 2%Z = 0%Z)
    /\ (0 <= 1 < 2)%Z
    /\ st [mkState 0 0; mkState 0 1] 1 = mkState 0 1
    /\ (forall k, (0 <= k < 2)%Z -> fw 0%Z k = if (k =? 1)%Z then 1 else 0)
    /\ fw 0%Z (path 0%Z) = 1
    /\ path 0%Z = 1%Z
    /\ st [mkState 0 0; mkState 0 1] (path 0%Z) = mkState 0 1.
Proof.
  destruct duo_cond_runs as [trees' [fw [path [Hrun [_ [Hp1 Hp2]]]]]].
  exists trees', fw, path. split; [exact Hrun|].
  split; [split; assumption|].
  destruct (proj2 (cond_sample_pins_start duo_hmm zero_R zero_RR minus_Z
                     duo_model tt (0%Z, 3%Z) 1 (mkState 0 1) (mkState 0 0)
                     tt (duo_block 0 3) [] eq_refl
                     ltac:(repeat constructor; simpl; lia))
              trees' fw path Hrun)
    as [Hrange [Hst [Hhot [Hone Hpin]]]].
  split; [exact Hrange|]. split; [exact Hst|].
  split; [exact Hhot|]. split; [exact Hone|].
  apply Hpin.
  - exact duo_sampler_ok.
  - repeat constructor. simpl. lia.
  - reflexivity.
  - simpl. lia.
Defined.

(** ** The ends of a pinned internal thread *)

(** X28. [cond_sample_arg_thread_internal] pins the two ends of the
    thread.  A start or end state that is not null and is not among the
    (non-empty) states of the first or last block makes the call fail.
    When the call completes: the path ends at index 0 if the last block
    has no state, and at the index of the end state if that state is not
    null; and if the start state is not null the forward column of the
    first site holds 1 at the path's first index, which is then the index
    of the start state when the blocks of the second matrix iterator tile
    the region, the first over the tree of the first block with at least
    two sites, and the sampler returns indices of its weight array.  Every
    block of the second matrix iterator is assumed to hold at least one
    site. *)
Theorem cond_sample_internal_pins (ops : HmmOps) (tops : ThreadOps)
    (IR : Indet (arr R)) (IRR : Indet (arr (arr R))) (IZ : Indet (arr Z))
    (model : ArgModel) (sequences : Sequences) (trees : LocalTrees)
    (start_state end_state : State) (rng : Rng)
    (first : Block) (rest : list Block) :
  matrix_iter_setup model (Some sequences) trees None true = first :: rest ->
  Forall (fun blk => (1 <= blocklen blk)%Z)
         (matrix_iter_setup model None trees None true) ->
  let states1 := get_coal_states (block_tree first) (ntimes model) true in
  let states :=
    get_coal_states (block_tree (last (first :: rest) first)) (ntimes model)
                    true in
  let j := find_vector states end_state in
  ((size states1 > 0)%Z -> is_null start_state = false ->
   ~ In start_state states1 ->
   cond_sample_arg_thread_internal model sequences trees start_state
                                   end_state rng = None)
  /\ ((size states > 0)%Z -> is_null end_state = false ->
      ~ In end_state states ->
      cond_sample_arg_thread_internal model sequences trees start_state
                                      end_state rng = None)
  /\ (forall trees' fw path,
        cond_sample_arg_thread_internal model sequences trees start_state
                                        end_state rng
        = Some (trees', fw, path) ->
        (size states = 0%Z -> path (end_coord trees - 1)%Z = 0%Z)
        /\ ((size states > 0)%Z -> is_null end_state = false ->
            (0 <= j < size states)%Z
            /\ st states j = end_state
            /\ path (end_coord trees - 1)%Z = j)
        /\ (is_null start_state = false ->
            fw (start_coord trees) (path (start_coord trees)) = 1)
        /\ (is_null start_state = false -> (size states1 > 0)%Z ->
            sampler_ok ->
            Forall (fun blk => (start_coord trees <= block_start blk)%Z)
                   (first :: rest) ->
            forall first2 rest2,
              matrix_iter_setup model None trees None true
              = first2 :: rest2 ->
              block_tree first2 = block_tree first ->
              blocks_len (first2 :: rest2)
              = (end_coord trees - start_coord trees)%Z ->
              (2 <= blocklen first2)%Z ->
              path (start_coord trees) = find_vector states1 start_state
              /\ st states1 (path (start_coord trees)) = start_state)).
Proof.
  intros Hlist Hlen. cbv zeta.
  set (states1 := get_coal_states (block_tree first) (ntimes model) true).
  set (states := get_coal_states (block_tree (last (first :: rest) first))
                                 (ntimes model) true).
  set (j := find_vector states end_state).
  unfold cond_sample_arg_thread_internal. rewrite Hlist.
  fold states1. fold states. fold j.
  split; [|split].
  - intros Hsize Hnull Habsent.
    replace (size states1 >? 0)%Z with true by lia.
    rewrite Hnull. cbn [negb].
    rewrite (find_vector_absent states1 start_state Habsent).
    reflexivity.
  - intros Hsize Hnull Habsent.
    match goal with
    | |- match ?X with _ => _ end = None => destruct X as [[fw1 pg]|]
    end; [|reflexivity].
    destruct (arghmm_forward_alg _ _ _ _ _ _ _ _) as [fw2|]; [|reflexivity].
    replace (size states >? 0)%Z with true by lia.
    rewrite Hnull. cbn [negb]. rewrite upd_same. unfold j.
    rewrite (find_vector_absent states end_state Habsent). reflexivity.
  - intros trees' fw path Hrun.
    match type of Hrun with
    | match ?X with _ => _ end = _ =>
        destruct X as [[fw1 pg]|] eqn:Hfirst
    end; [|discriminate].
    destruct (arghmm_forward_alg trees model (Some sequences) (first :: rest)
                fw1 pg true false) as [fw2|] eqn:Hfwd; [|discriminate].
    match type of Hrun with
    | match ?X with _ => _ end = _ =>
        destruct X as [[path0 lsg]|] eqn:Hend
    end; [|discriminate].
    destruct (stochastic_traceback trees model
                (matrix_iter_setup model None trees None true) fw2 path0 lsg
                true rng) as [[[lnl p] rng']|] eqn:Htrace; [|discriminate].
    match type of Hrun with
    | (if ?c then _ else _) = _ => destruct c eqn:Hstart
    end; [|discriminate].
    injection Hrun as _ <- <-.
    assert (Hone : is_null start_state = false ->
                   fw2 (start_coord trees) (p (start_coord trees)) = 1).
    { intros Hnull. rewrite Hnull in Hstart. cbn [negb] in Hstart.
      destruct (Req_dec_T _ 1) as [Heq|]; [exact Heq | discriminate]. }
    assert (Hlast : lsg = true -> (0 <= path0 (end_coord trees - 1)%Z)%Z).
    { intros Hlsg. destruct (size states >? 0)%Z.
      - destruct (negb (is_null end_state)).
        + rewrite upd_same in Hend.
          destruct (Z.eqb_spec j (-1)) as [|Hj]; [discriminate|].
          injection Hend as <- _. rewrite upd_same.
          destruct (find_vector_spec states end_state Hj) as [Hge _].
          fold j in Hge. lia.
        + injection Hend as _ <-. discriminate.
      - injection Hend as <- _. rewrite upd_same. lia. }
    split; [|split; [|split]].
    + intros Hsize.
      replace (size states >? 0)%Z with false in Hend by lia.
      injection Hend as <- <-.
      rewrite (stochastic_traceback_keeps_given trees model _ fw2 _ true rng
                 lnl p rng' Hlen Htrace).
      apply upd_same.
    + intros Hsize Hnull.
      replace (size states >? 0)%Z with true in Hend by lia.
      rewrite Hnull in Hend. cbn [negb] in Hend.
      rewrite upd_same in Hend.
      destruct (Z.eqb_spec j (-1)) as [|Hj]; [discriminate|].
      injection Hend as <- <-.
      destruct (find_vector_spec states end_state Hj) as [Hrange Hst].
      fold j in Hrange, Hst.
      split; [exact Hrange | split; [exact Hst|]].
      rewrite (stochastic_traceback_keeps_given trees model _ fw2 _ true rng
                 lnl p rng' Hlen Htrace).
      apply upd_same.
    + exact Hone.
    + intros Hnull Hsize Hsample Hstartb first2 rest2 Hlist2 Htree Hsum
             Htwo.
      replace (size states1 >? 0)%Z with true in Hfirst by lia.
      rewrite Hnull in Hfirst. cbn [negb] in Hfirst.
      set (j1 := find_vector states1 start_state) in *.
      destruct (Z.eqb_spec j1 (-1)) as [|Hj1]; [discriminate|].
      injection Hfirst as <- <-.
      destruct (find_vector_spec states1 start_state Hj1) as [Hrange Hst].
      fold j1 in Hrange, Hst.
      pose proof (arghmm_forward_alg_keeps_start trees model
                    (Some sequences) (first :: rest) _ fw2 true false
                    Hstartb Hfwd) as Hkeep.
      rewrite upd_same in Hkeep.
      rewrite Hlist2 in Htrace, Hlen.
      pose proof (stochastic_traceback_start_range trees model first2 rest2
                    fw2 path0 lsg true rng lnl p rng' Hsample Hlen Hsum
                    Htwo Hlast Htrace) as Hr.
      rewrite Htree in Hr. fold states1 in Hr.
      replace (Z.max (size states1) 1) with (size states1) in Hr by lia.
      assert (Hpj : p (start_coord trees) = j1).
      { pose proof (Hone Hnull) as Hv. rewrite Hkeep in Hv.
        destruct (Z.eq_dec (p (start_coord trees)) j1) as [Heq|Hne];
          [exact Heq|].
        rewrite upd_other in Hv by exact Hne.
        rewrite (for_up_upd 0 (size states1) (fun _ _ => 0) _ (fun _ => 0))
          in Hv by reflexivity.
        replace ((0 <=? p (start_coord trees))
                 && (p (start_coord trees) <? size states1))%Z
          with true in Hv by lia.
        lra. }
      split; [exact Hpj | rewrite Hpj; exact Hst].
Qed.

Lemma cond_sample_internal_pins_witness :
  exists trees' fw path,
    @cond_sample_arg_thread_internal duo_hmm duo_thread zero_R zero_RR
      minus_Z duo_model tt (0%Z, 3%Z) (mkState 0 1) (mkState 0 0) tt
    = Some (trees', fw, path)
    /\ path 1%Z = 0%Z
    /\ (0 <= 0 < 2)%Z
    /\ st [mkState 0 0; mkState 0 1] 0 = mkState 0 0
    /\ path (3 - 1)%Z = 0%Z
    /\ fw 0%Z (path 0%Z) = 1
    /\ path 0%Z = 1%Z
    /\ st [mkState 0 0; mkState 0 1] (path 0%Z) = mkState 0 1.
Proof.
  destruct duo_cond_internal_runs
    as [trees' [fw [path [Hrun [_ [Hp1 _]]]]]].
  exists trees', fw, path. split; [exact Hrun|].
  split; [exact Hp1|].
  destruct (proj2 (proj2 (cond_sample_internal_pins duo_hmm duo_thread
                            zero_R zero_RR minus_Z duo_model tt (0%Z, 3%Z)
                            (mkState 0 1) (mkState 0 0) tt
                            (duo_block 0 3) [] eq_refl
                            ltac:(repeat constructor; simpl; lia)))
              trees' fw path Hrun)
    as [_ [Hend [Hone Hpin]]].
  destruct (Hend ltac:(unfold size; simpl; lia) eq_refl)
    as [Hrange [Hst Hlast]].
  split; [exact Hrange|]. split; [exact Hst|]. split; [exact Hlast|].
  split; [exact (Hone eq_refl)|].
  apply (Hpin eq_refl ltac:(unfold size; simpl; lia) duo_sampler_ok
           ltac:(repeat constructor; simpl; lia) (duo_block 0 3) []
           eq_refl eq_refl eq_refl ltac:(simpl; lia)).
Defined.

(** ** The drivers on several sites *)

Lemma cond_sample_pins_end_witness :
  exists trees' fw path,
    @cond_sample_arg_thread duo_hmm zero_R zero_RR minus_Z duo_model tt
      (0%Z, 3%Z) 1 (mkState 0 1) (mkState 0 0) tt = Some (trees', fw, path)
    /\ (path 0%Z = 1%Z /\ path 1%Z = 0%Z)
    /\ (0 <= 0 < 2)%Z
    /\ st [mkState 0 0; mkState 0 1] 0 = mkState 0 0
    /\ path (3 - 1)%Z = 0%Z.
Proof.
  destruct duo_cond_runs as [trees' [fw [path [Hrun [Hp0 [Hp1 _]]]]]].
  exists trees', fw, path. split; [exact Hrun|].
  split; [split; assumption|].
  apply (proj2 (cond_sample_pins_end duo_hmm zero_R zero_RR minus_Z
                  duo_model tt (0%Z, 3%Z) 1 (mkState 0 1) (mkState 0 0) tt
                  (duo_block 0 3) [] eq_refl
                  ltac:(repeat constructor; simpl; lia))
          trees' fw path Hrun).
Defined.

Lemma stochastic_traceback_covers_witness :
  exists lnl path',
    @stochastic_traceback duo_hmm zero_R (0%Z, 4%Z) duo_model
      [duo_block 0 2; duo_block 2 2]
      (fun i => if Z.even i then one_hot_0 else one_hot_1)
      (fun _ => (-1)%Z) false false tt = Some (lnl, path', tt)
    /\ (path' 0%Z = 0%Z /\ path' 1%Z = 1%Z /\ path' 2%Z = 0%Z
        /\ path' 3%Z = 1%Z)
    /\ (forall p, (0 <= p < 4)%Z -> (0 <= path' p)%Z)
    /\ (forall p, ~ (0 <= p < 4)%Z -> path' p = (-1)%Z)
    /\ (false = true -> path' (4 - 1)%Z = (-1)%Z).
Proof.
  destruct duo_two_blocks_run as [lnl [path' [Hrun Hvals]]].
  exists lnl, path'. split; [exact Hrun|]. split; [exact Hvals|].
  apply (stochastic_traceback_covers duo_hmm zero_R (0%Z, 4%Z) duo_model
           [duo_block 0 2; duo_block 2 2]
           (fun i => if Z.even i then one_hot_0 else one_hot_1)
           (fun _ => (-1)%Z) false false tt lnl path' tt).
  - exact duo_sampler_ok.
  - repeat constructor; simpl; lia.
  - reflexivity.
  - discriminate.
  - exact Hrun.
Defined.

Lemma sample_arg_thread_path_complete_witness :
  exists trees' fw path,
    @sample_arg_thread duo_hmm duo_thread zero_R zero_RR minus_Z duo_model
      tt (0%Z, 3%Z) 1 tt = Some (trees', fw, path)
    /\ (forall p, (0 <= p < 3)%Z -> (0 <= path p)%Z)
    /\ (exists rng' : unit, trees' = (0%Z, 3%Z)).
Proof.
  destruct duo_sample_runs as [trees' [fw [path [Hrun _]]]].
  exists trees', fw, path. split; [exact Hrun|].
  apply (sample_arg_thread_path_complete duo_hmm duo_thread zero_R zero_RR
           minus_Z duo_model tt (0%Z, 3%Z) 1 tt duo_sampler_ok
           ltac:(repeat constructor; simpl; lia) eq_refl
           trees' fw path Hrun).
Defined.

(** ** Empty state spaces at a switch *)

(** C10. A state space of size zero is treated as size one, each of the
    two sizes on its own: the switch step and its traceback step are those
    of the operator whose sizes are clamped to at least 1.  With an empty
    destination space the switch step works on the single entry 0: it
    fails when the mass that reaches the entry is not positive, and
    otherwise returns, with entry 0 equal to 1 after normalisation and
    the other cells left alone.  With an empty source space the traceback
    step samples from the single weight [col1[0] * get(0, state2)], and
    returns state 0 when that transition is not zero and the sampler
    returns an index of its weight array. *)
Theorem degenerate_switch_as_size_one (ops : HmmOps) (IR : Indet (arr R))
    (matrix : TransMatrixSwitch) :
  (forall col1 col2 emit,
     arghmm_forward_switch col1 col2 matrix emit
     = arghmm_forward_switch col1 col2
         (resize_switch matrix (Z.max (nstates1 matrix) 1)
                        (Z.max (nstates2 matrix) 1)) emit)
  /\ (forall col1 state2 rng,
        sample_hmm_posterior_step matrix col1 state2 rng
        = sample_hmm_posterior_step
            (resize_switch matrix (Z.max (nstates1 matrix) 1)
                           (nstates2 matrix)) col1 state2 rng)
  /\ (nstates2 matrix = 0%Z -> switch_wf matrix ->
      forall col1 col2 emit,
        let m := switch_column matrix col1 emit 0%Z in
        (m <= 0 -> arghmm_forward_switch col1 col2 matrix emit = None)
        /\ (0 < m ->
            exists col2',
              arghmm_forward_switch col1 col2 matrix emit = Some col2'
              /\ col2' 0%Z = 1
              /\ forall k, k <> 0%Z ->
                   (forall j, (0 <= j < Z.max (nstates1 matrix) 1)%Z ->
                              determ matrix j <> k) ->
                   col2' k = col2 k))
  /\ (nstates1 matrix = 0%Z ->
      forall col1 state2 rng,
        sample_hmm_posterior_step matrix col1 state2 rng
        = (let '(k, rng') :=
             sample (upd indet 0 (col1 0%Z * switch_get matrix 0%Z state2))
                    1 rng in
           if Req_dec_T (switch_get matrix k state2) 0 then None
           else Some (k, rng'))
        /\ (sampler_ok -> switch_get matrix 0%Z state2 <> 0 ->
            exists rng',
              sample_hmm_posterior_step matrix col1 state2 rng
              = Some (0%Z, rng'))).
Proof.
  split; [|split; [|split]].
  - intros col1 col2 emit.
    unfold arghmm_forward_switch, forward_switch_column.
    cbn [nstates1 nstates2 resize_switch recombsrc recoalsrc determ
         determprob recombrow recoalrow].
    rewrite !(Z.max_l (Z.max _ 1) 1) by lia. reflexivity.
  - intros col1 state2 rng. unfold sample_hmm_posterior_step.
    cbn [nstates1 resize_switch switch_get].
    rewrite !(Z.max_l (Z.max _ 1) 1) by lia. reflexivity.
  - intros Hn2 Hwf col1 col2 emit. cbv zeta.
    destruct (forward_switch_column_spec matrix col1 col2 emit)
      as [Hnorm Hval].
    pose proof (forward_switch_column_frame matrix col1 col2 emit)
      as Hframe.
    specialize (Hval Hwf 0%Z).
    unfold arghmm_forward_switch.
    rewrite Hn2 in *. change (Z.max 0 1) with 1%Z in *.
    destruct (forward_switch_column col1 col2 matrix emit) as [c norm].
    cbn [fst snd] in Hnorm, Hval, Hframe.
    rewrite max_array_one. rewrite sumZ_one in Hnorm.
    rewrite <- Hval by lia.
    split.
    + intros Hle. destruct (Rle_dec (c 0%Z) 0); [reflexivity | lra].
    + intros Hpos. destruct (Rle_dec (c 0%Z) 0) as [|_]; [lra|].
      eexists. split; [reflexivity|]. split.
      * rewrite normalize_spec. simpl. subst norm. field. lra.
      * intros k Hk Hdet. rewrite normalize_spec.
        replace ((0 <=? k) && (k <? 1))%Z with false by lia.
        apply Hframe; [lia | exact Hdet].
  - intros Hn1 col1 state2 rng. split.
    + unfold sample_hmm_posterior_step. rewrite Hn1. reflexivity.
    + intros Hsample Hget. unfold sample_hmm_posterior_step.
      rewrite Hn1. change (Z.max 0 1) with 1%Z.
      match goal with
      | |- context [sample ?A 1 rng] =>
          pose proof (Hsample A 1%Z rng ltac:(lia)) as Hk;
          destruct (sample A 1 rng) as [k rng1]
      end.
      cbn [fst] in Hk. assert (k = 0%Z) by lia. subst k.
      destruct (Req_dec_T (switch_get matrix 0%Z state2) 0) as [Hz|_];
        [contradiction|].
      exists rng1. reflexivity.
Qed.

Lemma degenerate_switch_as_size_one_witness :
  (exists col2',
     arghmm_forward_switch half_half (fun _ => 7) merge_switch (fun _ => 1)
     = Some col2'
     /\ col2' 0%Z = 1
     /\ forall k, k <> 0%Z -> col2' k = 7)
  /\ (exists col2',
        arghmm_forward_switch one_hot_0 (fun _ => 7) empty_switch
                              (fun _ => 1)
        = Some col2'
        /\ col2' 0%Z = 1)
  /\ (exists rng',
        @sample_hmm_posterior_step toy_hmm zero_R split_switch half_half 1
                                   tt
        = Some (0%Z, rng')).
Proof.
  destruct (degenerate_switch_as_size_one toy_hmm zero_R merge_switch)
    as [_ [_ [Hfwd _]]].
  destruct (degenerate_switch_as_size_one toy_hmm zero_R empty_switch)
    as [_ [_ [Hfwd0 _]]].
  destruct (degenerate_switch_as_size_one toy_hmm zero_R split_switch)
    as [_ [_ [_ Hback]]].
  split; [|split].
  - destruct (Hfwd eq_refl) with (col1 := half_half)
      (col2 := fun _ : Z => 7) (emit := fun _ : Z => 1)
      as [_ Hret].
    { split; [simpl; lia | split; [simpl; lia|]].
      intros j _. simpl. lia. }
    destruct Hret as [col2' [Hrun [H0 Hframe]]].
    { unfold switch_column, switch_mass, sumZ, for_up, range, half_half.
      simpl. rewrite exp_0. lra. }
    exists col2'. split; [exact Hrun | split; [exact H0|]].
    intros k Hk. apply Hframe; [exact Hk|].
    intros j _. simpl. lia.
  - destruct (Hfwd0 eq_refl) with (col1 := one_hot_0)
      (col2 := fun _ : Z => 7) (emit := fun _ : Z => 1)
      as [_ Hret].
    { split; [simpl; lia | split; [simpl; lia|]].
      intros j _. simpl. lia. }
    destruct Hret as [col2' [Hrun [H0 _]]].
    { unfold switch_column, switch_mass, sumZ, for_up, range, one_hot_0.
      simpl. rewrite exp_0. lra. }
    exists col2'. split; [exact Hrun | exact H0].
  - destruct (Hback eq_refl half_half 1%Z tt) as [_ Hret].
    apply Hret; [exact toy_sampler_ok | simpl; lra].
Defined.
